(** * The mirror-field engine of mrrcrypt64 (src/modules/mirrorfield.c)

    A shallow embedding of the module: the two static arrays of
    [struct gridnode], the function-local statics, and the functions
    [mirrorfield_init], [mirrorfield_set], [mirrorfield_validate],
    [mirrorfield_link], [mirrorfield_crypt_char],
    [mirrorfield_crypt_char_advance], [mirrorfield_roll_chars] and
    [mirrorfield_draw].

    The constants [GRID_SIZE] and [MIRROR_FIELD_COUNT] come from main.h,
    which is not part of the module; they are parameters of every
    definition below.  In [mirrorfield_crypt_char] and the traversal the
    debug parameter is taken to be 0 (no drawing, no sleeping);
    [mirrorfield_draw] is modelled on its own, its output as the sequence
    of its calls of printf.

    An [int] is a [Z] (no value of the module comes near the limits of
    [int]), an [unsigned char] a [Z] between 0 and 255, an array index or
    counter that is never negative a [nat]. *)

From stdpp Require Import base numbers list.

Local Open Scope Z_scope.

(** ** Outcomes

    A C execution either returns, or it has no defined behaviour (a null
    pointer is dereferenced, an array is indexed outside its bounds, an
    uninitialised variable is read).  An index is out of bounds as soon as
    it leaves the inner array [perimeter[m]] or [gridnodes[m]], also where
    the address would still fall inside the enclosing array.  The
    recursion of the traversal is bounded by a fuel argument; running out
    of it is kept apart from the undefined behaviours. *)

Inductive fault : Set :=
  | NullDeref
  | OutOfBounds
  | Uninitialised
  | OutOfFuel.

Inductive res (A : Type) : Type :=
  | Ok (a : A)
  | Fault (f : fault).

Arguments Ok {A} a.
Arguments Fault {A} f.

#[global] Instance res_ret : MRet res := λ A a, Ok a.

#[global] Instance res_bind : MBind res := λ A B f m,
  match m with
  | Ok a => f a
  | Fault e => Fault e
  end.

#[global] Instance res_fmap : FMap res := λ A B f m,
  match m with
  | Ok a => Ok (f a)
  | Fault e => Fault e
  end.

Definition of_option {A} (o : option A) (e : fault) : res A :=
  match o with
  | Some a => Ok a
  | None => Fault e
  end.

(** ** Data *)

Definition MIRROR_NONE : Z := -1.
Definition MIRROR_FORWARD : Z := -2.
Definition MIRROR_STRAIGHT : Z := -3.
Definition MIRROR_BACKWARD : Z := -4.

(** The four values [d] takes. *)
Inductive dir : Set :=
  | DIR_UP
  | DIR_DOWN
  | DIR_LEFT
  | DIR_RIGHT.

#[global] Instance dir_eq_dec : EqDecision dir.
Proof. solve_decision. Defined.

(** A [struct gridnode *]: null, or the address of an element of
    [gridnodes[k]] or of [perimeter[k]]. *)
Inductive ptr : Set :=
  | NULL
  | GridNode (k i : nat)
  | PerimNode (k i : nat).

#[global] Instance ptr_eq_dec : EqDecision ptr.
Proof. solve_decision. Defined.

Record gridnode : Set := mkNode {
  value : Z;
  up : ptr;
  down : ptr;
  left : ptr;
  right : ptr
}.

#[global] Instance gridnode_eq_dec : EqDecision gridnode.
Proof. solve_decision. Defined.

(** The module's state: the two file-scope arrays and the statics local to
    [mirrorfield_set] (i, j), [mirrorfield_crypt_char] (m) and
    [mirrorfield_roll_chars] (g1, g2, c). *)
Record engine : Set := mkEngine {
  gridnodes : list (list gridnode);
  perimeter : list (list gridnode);
  set_i : nat;
  set_j : nat;
  crypt_m : nat;
  roll_g1 : nat;
  roll_g2 : nat;
  roll_c : nat
}.

Definition with_gridnodes (st : engine) (g : list (list gridnode)) : engine :=
  mkEngine g (perimeter st) (set_i st) (set_j st) (crypt_m st)
           (roll_g1 st) (roll_g2 st) (roll_c st).

Definition with_perimeter (st : engine) (p : list (list gridnode)) : engine :=
  mkEngine (gridnodes st) p (set_i st) (set_j st) (crypt_m st)
           (roll_g1 st) (roll_g2 st) (roll_c st).

Definition with_set (st : engine) (i j : nat) : engine :=
  mkEngine (gridnodes st) (perimeter st) i j (crypt_m st)
           (roll_g1 st) (roll_g2 st) (roll_c st).

Definition with_crypt_m (st : engine) (m : nat) : engine :=
  mkEngine (gridnodes st) (perimeter st) (set_i st) (set_j st) m
           (roll_g1 st) (roll_g2 st) (roll_c st).

Definition with_roll (st : engine) (g1 g2 c : nat) : engine :=
  mkEngine (gridnodes st) (perimeter st) (set_i st) (set_j st) (crypt_m st)
           g1 g2 c.

(** ** Memory access *)

Definition lookup2 (a : list (list gridnode)) (k i : nat) : option gridnode :=
  a !! k ≫= λ row, row !! i.

Definition alter2 (f : gridnode → gridnode) (k i : nat)
    (a : list (list gridnode)) : list (list gridnode) :=
  alter (alter f i) k a.

(** [*p] *)
Definition deref (st : engine) (p : ptr) : res gridnode :=
  match p with
  | NULL => Fault NullDeref
  | GridNode k i => of_option (lookup2 (gridnodes st) k i) OutOfBounds
  | PerimNode k i => of_option (lookup2 (perimeter st) k i) OutOfBounds
  end.

(** [*p = f ( *p )].  The functions below write through an address only
    after reading through it, or at indices inside the declared bounds;
    for any other address the state is left as it is. *)
Definition update (st : engine) (p : ptr) (f : gridnode → gridnode) : engine :=
  match p with
  | NULL => st
  | GridNode k i => with_gridnodes st (alter2 f k i (gridnodes st))
  | PerimNode k i => with_perimeter st (alter2 f k i (perimeter st))
  end.

Arguments deref : simpl never.
Arguments update : simpl never.

Definition set_value (v : Z) (n : gridnode) : gridnode :=
  mkNode v (up n) (down n) (left n) (right n).
Definition set_up (q : ptr) (n : gridnode) : gridnode :=
  mkNode (value n) q (down n) (left n) (right n).
Definition set_down (q : ptr) (n : gridnode) : gridnode :=
  mkNode (value n) (up n) q (left n) (right n).
Definition set_left (q : ptr) (n : gridnode) : gridnode :=
  mkNode (value n) (up n) (down n) q (right n).
Definition set_right (q : ptr) (n : gridnode) : gridnode :=
  mkNode (value n) (up n) (down n) (left n) q.

(** [for (i = 0; i < n; ++i) body] *)
Definition for_upto {S : Type} (n : nat) (body : nat → S → S) (s : S) : S :=
  foldl (λ s i, body i s) s (seq 0 n).

(** [for (j = a; j < b; j += step) body]; the loop runs at most [b] times
    when [step] is positive. *)
Fixpoint for_step_aux {S : Type} (fuel : nat) (j b step : nat)
    (body : nat → S → S) (s : S) : S :=
  match fuel with
  | O => s
  | Datatypes.S fuel' =>
      if decide (j < b)%nat
      then for_step_aux fuel' (j + step) b step body (body j s)
      else s
  end.

Definition for_step {S : Type} (a b step : nat) (body : nat → S → S) (s : S) : S :=
  for_step_aux b a b step body s.

(** One call of printf of [mirrorfield_draw]: an escape sequence, a
    newline, a character printed with the format %2c or an [int] printed
    with the format %2x. *)
Inductive emit : Set :=
  | SaveCursor                (* "\033[s" *)
  | ClearScreen               (* "\033[2J" *)
  | CursorHome                (* "\033[H" *)
  | FgBlack                   (* "\x1B[30m" *)
  | BgWhite                   (* "\x1B[47m" *)
  | AttrReset                 (* "\x1B[0m" *)
  | RestoreCursor             (* "\033[u" *)
  | Newline                   (* "\n" *)
  | PrintChar (ch : Z)        (* printf("%2c", ch) *)
  | PrintHex (v : Z).         (* printf("%2x", v) *)

(** A loop whose body prints: the output of the bodies, in order. *)
Fixpoint print_each (body : Z → res (list emit)) (l : list Z) : res (list emit) :=
  match l with
  | [] => Ok []
  | i :: l' =>
      out ← body i;
      rest ← print_each body l';
      Ok (out ++ rest)
  end.

(** The two constants of main.h. *)
Class params : Set := {
  GRID_SIZE : nat;
  MIRROR_FIELD_COUNT : nat
}.

Section Engine.

Context {cfg : params}.

Definition zero_node : gridnode := mkNode 0 NULL NULL NULL NULL.

(** A freshly started program: the arrays are zero-initialised and the
    function-local statics hold their initialisers. *)
Definition fresh : engine :=
  mkEngine (replicate MIRROR_FIELD_COUNT (replicate (GRID_SIZE * GRID_SIZE) zero_node))
           (replicate MIRROR_FIELD_COUNT (replicate (GRID_SIZE * 4) zero_node))
           0 0 0 0 (GRID_SIZE * 2) 0.

(** The arrays have their declared dimensions. *)
Definition shaped (st : engine) : Prop :=
  length (gridnodes st) = MIRROR_FIELD_COUNT ∧
  length (perimeter st) = MIRROR_FIELD_COUNT ∧
  Forall (λ row, length row = (GRID_SIZE * GRID_SIZE)%nat) (gridnodes st) ∧
  Forall (λ row, length row = (GRID_SIZE * 4)%nat) (perimeter st).

(** ** mirrorfield_init *)

Definition mirrorfield_init (st : engine) : engine :=
  for_upto MIRROR_FIELD_COUNT (λ j st,
    let st := for_upto (GRID_SIZE * GRID_SIZE) (λ i st,
                update st (GridNode j i) (λ _, zero_node)) st in
    for_upto (GRID_SIZE * 4) (λ i st,
      update st (PerimNode j i) (λ _, zero_node)) st) st.

(** ** mirrorfield_set

    Returns the C result (0 or 1) and the new state. *)

Definition mirrorfield_set (st : engine) (ch : Z) : Z * engine :=
  let i := set_i st in
  let gg := (GRID_SIZE * GRID_SIZE)%nat in
  if decide (i < gg * MIRROR_FIELD_COUNT)%nat then
    let j := (i / gg)%nat in
    let put v := (1, with_set (update st (GridNode j (i mod gg)%nat) (set_value v))
                              (Datatypes.S i) j) in
    if decide (ch = 47) then put MIRROR_FORWARD
    else if decide (ch = 92) then put MIRROR_BACKWARD
    else if decide (ch = 45) then put MIRROR_STRAIGHT
    else if decide (ch = 32) then put MIRROR_NONE
    else (0, with_set st i j)
  else if decide (i < gg * MIRROR_FIELD_COUNT + GRID_SIZE * 4 * MIRROR_FIELD_COUNT)%nat then
    let j := ((i - gg * MIRROR_FIELD_COUNT) / (GRID_SIZE * 4))%nat in
    (1, with_set (update st (PerimNode j ((i - gg * MIRROR_FIELD_COUNT) mod (GRID_SIZE * 4))%nat)
                         (set_value ch))
                 (Datatypes.S i) j)
  else (0, st).

(** ** mirrorfield_validate *)

Definition value_at (a : list (list gridnode)) (k i : nat) : Z :=
  default 0 (value <$> lookup2 a k i).

Definition mirrors_ok (st : engine) : bool :=
  forallb (λ k, forallb (λ i,
      negb (bool_decide (value_at (gridnodes st) k i > MIRROR_NONE
                         ∨ value_at (gridnodes st) k i < MIRROR_BACKWARD)))
    (seq 0 (GRID_SIZE * GRID_SIZE))) (seq 0 MIRROR_FIELD_COUNT).

Definition perimeter_distinct (st : engine) : bool :=
  forallb (λ k, forallb (λ i, forallb (λ j,
      negb (bool_decide (value_at (perimeter st) k i = value_at (perimeter st) k j)))
    (seq (Datatypes.S i) (GRID_SIZE * 4 - Datatypes.S i)))
    (seq 0 (GRID_SIZE * 4))) (seq 0 MIRROR_FIELD_COUNT).

Definition mirrorfield_validate (st : engine) : Z :=
  if mirrors_ok st then (if perimeter_distinct st then 1 else 0) else 0.

(** ** mirrorfield_link *)

Definition link_column (k i : nat) (st : engine) : engine :=
  let '(st, temp) :=
    for_step i (GRID_SIZE * GRID_SIZE) GRID_SIZE (λ j '(st, temp),
      let st := update st temp (set_down (GridNode k j)) in
      let st := update st (GridNode k j) (set_up temp) in
      (st, GridNode k j)) (st, PerimNode k i) in
  let st := update st temp (set_down (PerimNode k (i + GRID_SIZE * 2))) in
  update st (PerimNode k (i + GRID_SIZE * 2)) (set_up temp).

Definition link_row (k i : nat) (st : engine) : engine :=
  let '(st, temp) :=
    for_step (i * GRID_SIZE) (i * GRID_SIZE + GRID_SIZE) 1 (λ j '(st, temp),
      let st := update st temp (set_right (GridNode k j)) in
      let st := update st (GridNode k j) (set_left temp) in
      (st, GridNode k j)) (st, PerimNode k (i + GRID_SIZE * 3)) in
  let st := update st temp (set_right (PerimNode k (i + GRID_SIZE))) in
  update st (PerimNode k (i + GRID_SIZE)) (set_left temp).

Definition mirrorfield_link (st : engine) : engine :=
  for_upto MIRROR_FIELD_COUNT (λ k st,
    let st := for_upto GRID_SIZE (link_column k) st in
    for_upto GRID_SIZE (link_row k) st) st.

(** ** mirrorfield_crypt_char_advance *)

(** [switch (d) { case DIR_DOWN: p = p->down; ... }] *)
Definition neighbour (n : gridnode) (d : dir) : ptr :=
  match d with
  | DIR_DOWN => down n
  | DIR_LEFT => left n
  | DIR_RIGHT => right n
  | DIR_UP => up n
  end.

(** The two nested switches on [p->value] and [d]. *)
Definition new_direction (v : Z) (d : dir) : dir :=
  if decide (v = MIRROR_FORWARD) then
    match d with
    | DIR_DOWN => DIR_LEFT
    | DIR_LEFT => DIR_DOWN
    | DIR_RIGHT => DIR_UP
    | DIR_UP => DIR_RIGHT
    end
  else if decide (v = MIRROR_BACKWARD) then
    match d with
    | DIR_DOWN => DIR_RIGHT
    | DIR_LEFT => DIR_UP
    | DIR_RIGHT => DIR_DOWN
    | DIR_UP => DIR_LEFT
    end
  else d.

(** The switch that rotates the mirror after the recursive call. *)
Definition rotate (v : Z) : Z :=
  if decide (v = MIRROR_FORWARD) then MIRROR_STRAIGHT
  else if decide (v = MIRROR_BACKWARD) then MIRROR_FORWARD
  else if decide (v = MIRROR_STRAIGHT) then MIRROR_BACKWARD
  else v.

(** [fuel] bounds the depth of the recursion.  The recursive call receives
    the state as it is; the mirror at [p] is rotated after it returns,
    from the value [p->value] has then. *)
Fixpoint mirrorfield_crypt_char_advance (fuel : nat) (st : engine) (p : ptr) (d : dir)
    : res (ptr * engine) :=
  match fuel with
  | O => Fault OutOfFuel
  | Datatypes.S fuel' =>
      (* switch (d) { ... p = p->down ... } *)
      n0 ← deref st p;
      let p := neighbour n0 d in
      (* if (p->value < 0) *)
      n ← deref st p;
      if decide (value n < 0) then
        let d := new_direction (value n) d in
        (* t = mirrorfield_crypt_char_advance(p, d, m, debug); *)
        '(t, st) ← mirrorfield_crypt_char_advance fuel' st p d;
        (* switch (p->value) { ... p->value = ... } *)
        n' ← deref st p;
        let st := update st p (set_value (rotate (value n'))) in
        (* p = t; return p; *)
        Ok (t, st)
      else Ok (p, st)
  end.

(** ** mirrorfield_roll_chars *)

(** [perimeter[m][i].value] with an [int] index. *)
Definition perimeter_value (st : engine) (m : nat) (i : Z) : res Z :=
  if decide (i < 0) then Fault OutOfBounds
  else n ← of_option (lookup2 (perimeter st) m (Z.to_nat i)) OutOfBounds;
       Ok (value n).

(** [for (i = 0; perimeter[m][i].value != x; ++i);] started at [i]: the loop
    has no bound of its own and leaves the array when [x] is absent. *)
Fixpoint find_value (row : list gridnode) (x : Z) (i : nat) : res nat :=
  match row with
  | [] => Fault OutOfBounds
  | n :: row' => if decide (value n = x) then Ok i else find_value row' x (Datatypes.S i)
  end.

Definition perimeter_find (st : engine) (m : nat) (x : Z) : res nat :=
  row ← of_option (perimeter st !! m) OutOfBounds;
  find_value row x 0.

(** [t = perimeter[m][i].value; perimeter[m][i].value = perimeter[m][g].value;
     perimeter[m][g].value = t;] *)
Definition swap_values (st : engine) (m i g : nat) : res engine :=
  t ← perimeter_value st m (Z.of_nat i);
  vg ← perimeter_value st m (Z.of_nat g);
  let st := update st (PerimNode m i) (set_value vg) in
  let st := update st (PerimNode m g) (set_value t) in
  Ok st.

(** The rotate order: [(x1, x2)]. *)
Definition rotate_order (st : engine) (s e : Z) (m : nat) : res (Z * Z) :=
  vs ← perimeter_value st m s;
  ve ← perimeter_value st m e;
  Ok (if decide (vs > ve) then (s, e) else (e, s)).

(** [if (++c == MIRROR_FIELD_COUNT) { g1 = ...; g2 = ...; c = 0; }] on the
    statics (g1, g2, c). *)
Definition advance_window (w : nat * nat * nat) : nat * nat * nat :=
  let '(g1, g2, c) := w in
  let c := Datatypes.S c in
  if decide (c = MIRROR_FIELD_COUNT)
  then (((g1 + 1) mod (GRID_SIZE * 4))%nat, ((g2 + 1) mod (GRID_SIZE * 4))%nat, O)
  else (g1, g2, c).

Definition window (st : engine) : nat * nat * nat :=
  (roll_g1 st, roll_g2 st, roll_c st).

Definition mirrorfield_roll_chars (st : engine) (s e : Z) (m : nat) : res engine :=
  (* if (perimeter[m][s].value > perimeter[m][e].value) ... *)
  '(x1, x2) ← rotate_order st s e m;
  (* for (i = 0; perimeter[m][i].value != x1; ++i); and the swap with g1 *)
  i ← perimeter_find st m x1;
  st ← swap_values st m i (roll_g1 st);
  (* for (i = 0; perimeter[m][i].value != x2; ++i); and the swap with g2 *)
  i ← perimeter_find st m x2;
  st ← swap_values st m i (roll_g2 st);
  (* if (++c == MIRROR_FIELD_COUNT) ... *)
  let '(g1, g2, c) := advance_window (window st) in
  Ok (with_roll st g1 g2 c).

(** ** mirrorfield_crypt_char *)

(** The search for the start node; [startnode] stays [NULL] when no slot
    holds [ch]. *)
Fixpoint find_start (row : list gridnode) (ch : Z) (m i : nat) : ptr :=
  match row with
  | [] => NULL
  | n :: row' => if decide (value n = ch) then PerimNode m i
                 else find_start row' ch m (Datatypes.S i)
  end.

(** [d] is assigned only when one of the four links is not null. *)
Definition initial_direction (n : gridnode) : res dir :=
  if decide (down n ≠ NULL) then Ok DIR_DOWN
  else if decide (up n ≠ NULL) then Ok DIR_UP
  else if decide (left n ≠ NULL) then Ok DIR_LEFT
  else if decide (right n ≠ NULL) then Ok DIR_RIGHT
  else Fault Uninitialised.

(** Conversion of an [int] to [unsigned char]. *)
Definition to_uchar (v : Z) : Z := v mod 256.

(** Returns the byte and the new state; [fuel] is passed to the traversal. *)
Definition mirrorfield_crypt_char (fuel : nat) (st : engine) (ch : Z) : res (Z * engine) :=
  let m := crypt_m st in
  (* for (i = 0; i < GRID_SIZE * 4; ++i) if (perimeter[m][i].value == (int)ch) ... *)
  row ← of_option (perimeter st !! m) OutOfBounds;
  let startnode := find_start (take (GRID_SIZE * 4) row) ch m 0 in
  (* if (startnode->down != NULL) d = DIR_DOWN; else if ... *)
  sn ← deref st startnode;
  d ← initial_direction sn;
  (* endnode = mirrorfield_crypt_char_advance(startnode, d, m, debug); *)
  '(endnode, st) ← mirrorfield_crypt_char_advance fuel st startnode d;
  (* sv = startnode->value; ev = endnode->value; rv = ev; *)
  sn ← deref st startnode;
  en ← deref st endnode;
  let sv := to_uchar (value sn) in
  let ev := to_uchar (value en) in
  (* mirrorfield_roll_chars(sv, ev, m); *)
  st ← mirrorfield_roll_chars st sv ev m;
  (* if (perimeter[m][(ev+sv)%(GRID_SIZE*4)].value == (ev+sv)%(GRID_SIZE*4)) rv = sv; *)
  let k := (ev + sv) mod (Z.of_nat (GRID_SIZE * 4)) in
  vk ← perimeter_value st m k;
  let rv := if decide (vk = k) then sv else ev in
  (* m = (m + 1) % MIRROR_FIELD_COUNT; return rv; *)
  Ok (rv, with_crypt_m st ((m + 1) mod MIRROR_FIELD_COUNT)%nat).

(** ** mirrorfield_draw

    The function prints; its model returns the calls of printf it makes,
    in order, and the new value of its static resetCursor. *)

(** [gridnodes[m][i]] with an [int] index. *)
Definition grid_node (st : engine) (m : nat) (i : Z) : res gridnode :=
  if decide (i < 0) then Fault OutOfBounds
  else of_option (lookup2 (gridnodes st) m (Z.to_nat i)) OutOfBounds.

(** [r >= 0 && r < GRID_SIZE && c >= 0 && c < GRID_SIZE &&
     &gridnodes[m][(r * GRID_SIZE) + c] == p] *)
Definition is_at (p : ptr) (m : nat) (r c : Z) : bool :=
  bool_decide (0 ≤ r ∧ r < Z.of_nat GRID_SIZE ∧ 0 ≤ c ∧ c < Z.of_nat GRID_SIZE ∧
               GridNode m (Z.to_nat (r * Z.of_nat GRID_SIZE + c)) = p).

(** The character printed for a mirror code. *)
Definition mirror_char (v : Z) : Z :=
  if decide (v = MIRROR_FORWARD) then 47
  else if decide (v = MIRROR_BACKWARD) then 92
  else if decide (v = MIRROR_STRAIGHT) then 45
  else 32.

(** The body of the inner loop, at row [r] and column [c]. *)
Definition draw_item (st : engine) (p : ptr) (m : nat) (r c : Z) : res (list emit) :=
  let g := Z.of_nat GRID_SIZE in
  item ←
    (if decide (r = -1 ∧ c = -1) then Ok (PrintChar 32)
     else if decide (r = -1 ∧ c = g) then Ok (PrintChar 32)
     else if decide (r = g ∧ c = -1) then Ok (PrintChar 32)
     else if decide (r = g ∧ c = g) then Ok (PrintChar 32)
     else if decide (r = -1) then
       (* gridnodes[m][c].up->value *)
       n ← grid_node st m c; t ← deref st (up n); Ok (PrintHex (value t))
     else if decide (c = g) then
       (* gridnodes[m][(r * GRID_SIZE) + (GRID_SIZE-1)].right->value *)
       n ← grid_node st m (r * g + (g - 1)); t ← deref st (right n); Ok (PrintHex (value t))
     else if decide (r = g) then
       (* gridnodes[m][c + (GRID_SIZE * 3)].down->value *)
       n ← grid_node st m (c + g * 3); t ← deref st (down n); Ok (PrintHex (value t))
     else if decide (c = -1) then
       (* gridnodes[m][r * GRID_SIZE].left->value *)
       n ← grid_node st m (r * g); t ← deref st (left n); Ok (PrintHex (value t))
     else
       n ← grid_node st m (r * g + c); Ok (PrintChar (mirror_char (value n))));
  Ok ((if is_at p m r c then [FgBlack; BgWhite] else [])
      ++ [item]
      ++ (if is_at p m r c then [AttrReset] else [])).

(** The values of a loop variable running from -1 to GRID_SIZE. *)
Definition draw_range : list Z := (λ i, Z.of_nat i - 1) <$> seq 0 (GRID_SIZE + 2).

(** The body of the outer loop: one row and the newline after it. *)
Definition draw_row (st : engine) (p : ptr) (m : nat) (r : Z) : res (list emit) :=
  items ← print_each (λ c, draw_item st p m r c) draw_range;
  Ok (items ++ [Newline]).

(** [resetCursor] is the function's static; its new value is returned. *)
Definition mirrorfield_draw (st : engine) (resetCursor : bool) (p : ptr) (m : nat)
    : res (list emit * bool) :=
  rows ← print_each (draw_row st p m) draw_range;
  Ok ([if resetCursor then SaveCursor else ClearScreen; CursorHome]
      ++ rows ++ [Newline]
      ++ (if resetCursor then [RestoreCursor] else []),
      true).

End Engine.

(** * Vocabulary of the properties *)

Section Vocabulary.

Context {cfg : params}.

(** The interior cells entered by a traversal, in the order of the calls of
    [mirrorfield_crypt_char_advance]: one cell per recursive call. *)
Fixpoint path (fuel : nat) (st : engine) (p : ptr) (d : dir) : list ptr :=
  match fuel with
  | O => []
  | S fuel' =>
      match deref st p with
      | Ok n0 =>
          let q := neighbour n0 d in
          match deref st q with
          | Ok n =>
              if decide (value n < 0)
              then q :: path fuel' st q (new_direction (value n) d)
              else []
          | Fault _ => []
          end
      | Fault _ => []
      end
  end.

(** [c] rotation steps applied to the value of a node. *)
Definition rotations (c : nat) (n : gridnode) : gridnode :=
  set_value (Nat.iter c rotate (value n)) n.

(** Number of times the path enters the node at [q]. *)
Definition passes (l : list ptr) (q : ptr) : nat := count_occ ptr_eq_dec l q.

(** The perimeter values of field [k], in slot order. *)
Definition alphabet (st : engine) (k : nat) : list Z :=
  value <$> default [] (perimeter st !! k).

(** Perimeter slots hold character codes: values that are not negative. *)
Definition perimeter_chars (st : engine) : Prop :=
  ∀ k i n, lookup2 (perimeter st) k i = Some n → 0 ≤ value n.


(** *** The topology as the traversal sees it *)

Definition opposite_dir (d : dir) : dir :=
  match d with
  | DIR_UP => DIR_DOWN
  | DIR_DOWN => DIR_UP
  | DIR_LEFT => DIR_RIGHT
  | DIR_RIGHT => DIR_LEFT
  end.

(** [p->up], [p->down], [p->left] or [p->right]; null where [p] cannot be
    dereferenced. *)
Definition link_of (st : engine) (p : ptr) (d : dir) : ptr :=
  match deref st p with
  | Ok n => neighbour n d
  | Fault _ => NULL
  end.

(** The addresses of the nodes of field [k]. *)
Definition in_field (k : nat) (q : ptr) : Prop :=
  match q with
  | NULL => False
  | GridNode k' j => k' = k ∧ (j < GRID_SIZE * GRID_SIZE)%nat
  | PerimNode k' i => k' = k ∧ (i < GRID_SIZE * 4)%nat
  end.

Definition is_cell (q : ptr) : Prop :=
  match q with
  | GridNode _ _ => True
  | _ => False
  end.

(** Field [k] is linked: every node has a link, every interior cell has
    its four links, every link of a node of the field leads to a node of
    the field, and the link back from there, in the opposite direction, is
    the node itself. *)
Definition linked (st : engine) (k : nat) : Prop :=
  ∀ p, in_field k p →
    (∃ d, link_of st p d ≠ NULL) ∧
    ∀ d,
      (is_cell p → link_of st p d ≠ NULL) ∧
      (link_of st p d ≠ NULL →
         in_field k (link_of st p d) ∧
         link_of st (link_of st p d) (opposite_dir d) = p).

(** Field [k] holds mirror codes (negative values) in its interior cells
    and character codes in its perimeter slots. *)
Definition field_values (st : engine) (k : nat) : Prop :=
  ∀ q, in_field k q →
    ∃ n, deref st q = Ok n ∧ (is_cell q → value n < 0) ∧ (¬ is_cell q → 0 ≤ value n).

(** One step of the traversal from node [e.1] in direction [e.2]: the cell
    entered and the direction after reflection, or nothing when the step
    reaches a node that is not an interior cell. *)
Definition step (st : engine) (e : ptr * dir) : option (ptr * dir) :=
  match deref st e.1 with
  | Ok n0 =>
      let q := neighbour n0 e.2 in
      match deref st q with
      | Ok n => if decide (value n < 0)
                then Some (q, new_direction (value n) e.2)
                else None
      | Fault _ => None
      end
  | Fault _ => None
  end.

Fixpoint walk (fuel : nat) (st : engine) (e : ptr * dir) : list (ptr * dir) :=
  match fuel with
  | O => []
  | S fuel' =>
      match step st e with
      | Some e' => e' :: walk fuel' st e'
      | None => []
      end
  end.

(** The same step taken backwards. *)
Definition reverse (st : engine) (e : ptr * dir) : ptr * dir :=
  (link_of st e.1 e.2, opposite_dir e.2).

(** The side of the mirror (or, for a cell without one, the axis) on which
    a ray leaves a cell of value [v] in direction [d]. *)
Definition side (v : Z) (d : dir) : bool :=
  if decide (v = MIRROR_FORWARD) then
    match d with
    | DIR_LEFT | DIR_UP => true
    | _ => false
    end
  else if decide (v = MIRROR_BACKWARD) then
    match d with
    | DIR_RIGHT | DIR_UP => true
    | _ => false
    end
  else
    match d with
    | DIR_UP | DIR_DOWN => true
    | _ => false
    end.

Definition value_of (st : engine) (q : ptr) : Z :=
  match deref st q with
  | Ok n => value n
  | Fault _ => 0
  end.

Definition pass_key (st : engine) (e : ptr * dir) : nat :=
  match e.1 with
  | GridNode _ j => (2 * j + (if side (value_of st e.1) e.2 then 1 else 0))%nat
  | _ => O
  end.


(** A step that can be taken from a node of field [k]: the link followed
    is not null. *)
Definition usable (st : engine) (k : nat) (e : ptr * dir) : Prop :=
  in_field k e.1 ∧ link_of st e.1 e.2 ≠ NULL.


(** *** States in which cryptChar can be called *)

(** Between [st] and [st'] the nodes of field [k] kept their links and the
    sign of their values. *)
Definition evolves (k : nat) (st st' : engine) : Prop :=
  ∀ q n, in_field k q → deref st q = Ok n →
    ∃ n', deref st' q = Ok n' ∧
          (∀ d, neighbour n' d = neighbour n d) ∧
          (value n < 0 ↔ value n' < 0).

(** The engine is loaded with a valid configuration and linked: the arrays
    have their dimensions, the statics are in range, every field is linked
    and holds mirror codes inside and character codes on its perimeter. *)
Definition wellformed (st : engine) : Prop :=
  shaped st ∧
  (crypt_m st < MIRROR_FIELD_COUNT)%nat ∧
  (roll_g1 st < GRID_SIZE * 4)%nat ∧
  (roll_g2 st < GRID_SIZE * 4)%nat ∧
  (roll_c st < MIRROR_FIELD_COUNT)%nat ∧
  ∀ k, (k < MIRROR_FIELD_COUNT)%nat → linked st k ∧ field_values st k.

(** Moreover the character codes are below 4×GRID_SIZE, so that they index
    the perimeter in the rolling step. *)
Definition operational (st : engine) : Prop :=
  wellformed st ∧
  ∀ k v, v ∈ alphabet st k → 0 ≤ v < Z.of_nat (GRID_SIZE * 4) ∧ v < 256.

(** The driver's loading loop: one call of [mirrorfield_set] per byte. *)
Definition load (cs : list Z) (st : engine) : engine :=
  foldl (λ st c, (mirrorfield_set st c).2) st cs.

(** The states the driver can bring the engine to: init, load a
    configuration of bytes that validates, link, then any number of calls
    of cryptChar that return. *)
Inductive reachable : engine → Prop :=
  | reachable_linked cs :
      (0 < GRID_SIZE)%nat → (0 < MIRROR_FIELD_COUNT)%nat →
      Forall (λ c, 0 ≤ c < 256) cs →
      mirrorfield_validate (load cs (mirrorfield_init fresh)) = 1 →
      reachable (mirrorfield_link (load cs (mirrorfield_init fresh)))
  | reachable_crypt st fuel ch rv st' :
      reachable st →
      mirrorfield_crypt_char fuel st ch = Ok (rv, st') →
      reachable st'.

(** *** What mirrorfield_link writes *)

Definition set_link (d : dir) (x : ptr) (n : gridnode) : gridnode :=
  match d with
  | DIR_UP => set_up x n
  | DIR_DOWN => set_down x n
  | DIR_LEFT => set_left x n
  | DIR_RIGHT => set_right x n
  end.

(** The pair of assignments [a->d = b; b->opposite(d) = a;]. *)
Definition connect (st : engine) (c : ptr * dir * ptr) : engine :=
  update (update st c.1.1 (set_link c.1.2 c.2)) c.2
         (set_link (opposite_dir c.1.2) c.1.1).

Definition connects (l : list (ptr * dir * ptr)) (st : engine) : engine :=
  foldl connect st l.

(** The links written by a list of connections. *)
Definition keys (l : list (ptr * dir * ptr)) : list (ptr * dir) :=
  l ≫= λ c, [(c.1.1, c.1.2); (c.2, opposite_dir c.1.2)].

(** The chain of column [i] of field [k], top to bottom: the top slot,
    the GRID_SIZE cells of the column, the bottom slot. *)
Definition col_node (k i s : nat) : ptr :=
  if decide (s = O) then PerimNode k i
  else if decide (s ≤ GRID_SIZE)%nat then GridNode k (i + (s - 1) * GRID_SIZE)
  else PerimNode k (i + GRID_SIZE * 2).

(** The chain of row [i] of field [k], left to right: the left slot, the
    GRID_SIZE cells of the row, the right slot. *)
Definition row_node (k i s : nat) : ptr :=
  if decide (s = O) then PerimNode k (i + GRID_SIZE * 3)
  else if decide (s ≤ GRID_SIZE)%nat then GridNode k (i * GRID_SIZE + (s - 1))
  else PerimNode k (i + GRID_SIZE).

Definition col_connects (k i : nat) : list (ptr * dir * ptr) :=
  (λ s, (col_node k i s, DIR_DOWN, col_node k i (S s))) <$> seq 0 (S GRID_SIZE).

Definition row_connects (k i : nat) : list (ptr * dir * ptr) :=
  (λ s, (row_node k i s, DIR_RIGHT, row_node k i (S s))) <$> seq 0 (S GRID_SIZE).

Definition field_connects (k : nat) : list (ptr * dir * ptr) :=
  (seq 0 GRID_SIZE ≫= col_connects k) ++ (seq 0 GRID_SIZE ≫= row_connects k).

Definition all_connects : list (ptr * dir * ptr) :=
  seq 0 MIRROR_FIELD_COUNT ≫= field_connects.

(** No node has a link yet, as after [mirrorfield_init] and loading. *)
Definition unlinked (st : engine) : Prop := ∀ q d, link_of st q d = NULL.


(** [p] can be dereferenced. *)
Definition valid (st : engine) (p : ptr) : Prop := ∃ n, deref st p = Ok n.


(** *** Statics and loops *)

(** The two window indices are diametrically opposite. *)
Definition opposite (w : nat * nat * nat) : Prop :=
  w.1.2 = ((w.1.1 + GRID_SIZE * 2) mod (GRID_SIZE * 4))%nat.

(** The statics are the same in [st] and [st']. *)
Definition statics_eq (st st' : engine) : Prop :=
  set_i st' = set_i st ∧ set_j st' = set_j st ∧ crypt_m st' = crypt_m st ∧
  window st' = window st.

(** The nodes already zeroed when the outer loop is at field [j] and the
    inner loops have passed [ng] grid nodes and [np] perimeter nodes. *)
Definition zeroed (j ng np : nat) (q : ptr) : bool :=
  match q with
  | NULL => false
  | GridNode k i => bool_decide (k < j ∨ k = j ∧ i < ng)%nat
  | PerimNode k i => bool_decide (k < j ∨ k = j ∧ i < np)%nat
  end.

Definition init_inv (st : engine) (j ng np : nat) (st' : engine) : Prop :=
  shaped st' ∧ statics_eq st st' ∧
  ∀ q, deref st' q =
         if zeroed j ng np q then (λ _, zero_node) <$> deref st q else deref st q.

(** *** The sides of a field *)

(** Every perimeter slot of field [k] has one link at most. *)
Definition single_link (st : engine) (k : nat) : Prop :=
  ∀ i d d', link_of st (PerimNode k i) d ≠ NULL →
            link_of st (PerimNode k i) d' ≠ NULL → d = d'.

(** The last step of a traversal: the node it leaves the interior from and
    the direction it leaves in. *)
Fixpoint last_edge (fuel : nat) (st : engine) (e : ptr * dir) : ptr * dir :=
  match fuel with
  | O => e
  | S fuel' =>
      match step st e with
      | Some e' => last_edge fuel' st e'
      | None => e
      end
  end.

(** The engine holds a key: it is well formed, the perimeter values of a
    field are bytes without duplicates, and every perimeter slot has one
    link only. *)
Definition keyed (st : engine) : Prop :=
  wellformed st ∧
  ∀ k, (k < MIRROR_FIELD_COUNT)%nat →
    NoDup (alphabet st k) ∧ (∀ v, v ∈ alphabet st k → v < 256) ∧ single_link st k.

(** Successive calls of cryptChar on the bytes of a message, as the driver
    makes them: the bytes returned and the final state. *)
Fixpoint crypt_chars (fuel : nat) (st : engine) (bs : list Z) : res (list Z * engine) :=
  match bs with
  | [] => Ok ([], st)
  | b :: bs' =>
      '(c, st1) ← mirrorfield_crypt_char fuel st b;
      '(cs, st2) ← crypt_chars fuel st1 bs';
      Ok (c :: cs, st2)
  end.

(** Successive calls of the rolling step, each with its arguments
    (s, e, m): the final state. *)
Fixpoint roll_calls (st : engine) (l : list (Z * Z * nat)) : res engine :=
  match l with
  | [] => Ok st
  | (s, e, m) :: l' =>
      st1 ← mirrorfield_roll_chars st s e m;
      roll_calls st1 l'
  end.

(** *** The configuration stream *)

(** The mirror code stored for a configuration byte: slash, backslash,
    hyphen and space are the four bytes [mirrorfield_set] takes for a
    mirror. *)
Definition mirror_code (ch : Z) : option Z :=
  if decide (ch = 47) then Some MIRROR_FORWARD
  else if decide (ch = 92) then Some MIRROR_BACKWARD
  else if decide (ch = 45) then Some MIRROR_STRAIGHT
  else if decide (ch = 32) then Some MIRROR_NONE
  else None.

(** The number of mirror bytes of a configuration, and its total length. *)
Definition mirror_bytes : nat := GRID_SIZE * GRID_SIZE * MIRROR_FIELD_COUNT.

Definition key_bytes : nat := mirror_bytes + GRID_SIZE * 4 * MIRROR_FIELD_COUNT.

(** The node written for the byte at position [p] of the configuration,
    and the value stored there for the byte [ch]. *)
Definition load_node (p : nat) : ptr :=
  if decide (p < mirror_bytes)%nat
  then GridNode (p / (GRID_SIZE * GRID_SIZE)) (p mod (GRID_SIZE * GRID_SIZE))
  else PerimNode ((p - mirror_bytes) / (GRID_SIZE * 4))
                 ((p - mirror_bytes) mod (GRID_SIZE * 4)).

Definition load_value (p : nat) (ch : Z) : option Z :=
  if decide (p < mirror_bytes)%nat then mirror_code ch else Some ch.

(** *** The links of the interior cells *)

(** Field [k] has the links [mirrorfield_link] gives its interior cells:
    the cell in row [r] and column [c] is linked to the cells next to it
    and, on the border, to the slot of the side. *)
Definition sided (st : engine) (k : nat) : Prop :=
  ∀ r c, (r < GRID_SIZE)%nat → (c < GRID_SIZE)%nat →
    link_of st (GridNode k (r * GRID_SIZE + c)) DIR_UP =
      (if decide (r = O) then PerimNode k c
       else GridNode k ((r - 1) * GRID_SIZE + c))
    ∧ link_of st (GridNode k (r * GRID_SIZE + c)) DIR_DOWN =
      (if decide (S r = GRID_SIZE) then PerimNode k (c + GRID_SIZE * 2)
       else GridNode k ((r + 1) * GRID_SIZE + c))
    ∧ link_of st (GridNode k (r * GRID_SIZE + c)) DIR_LEFT =
      (if decide (c = O) then PerimNode k (r + GRID_SIZE * 3)
       else GridNode k (r * GRID_SIZE + (c - 1)))
    ∧ link_of st (GridNode k (r * GRID_SIZE + c)) DIR_RIGHT =
      (if decide (S c = GRID_SIZE) then PerimNode k (r + GRID_SIZE)
       else GridNode k (r * GRID_SIZE + (c + 1))).

End Vocabulary.

(** * A small engine

    GRID_SIZE = 2 and MIRROR_FIELD_COUNT = 1, loaded through
    [mirrorfield_set] with the mirrors

<<
      / \
      \ \
>>
    and the perimeter values 0..7 in slot order, then linked. *)

Definition small : params := {| GRID_SIZE := 2; MIRROR_FIELD_COUNT := 1 |}.

Definition small_config : list Z := [47; 92; 92; 92; 0; 1; 2; 3; 4; 5; 6; 7].

Definition small_loaded : engine :=
  Eval vm_compute in @load small small_config (@mirrorfield_init small (@fresh small)).

Definition small_linked : engine :=
  Eval vm_compute in @mirrorfield_link small small_loaded.

(** The state after one call of cryptChar with the byte 5. *)
Definition small_after : engine :=
  Eval vm_compute in
    match @mirrorfield_crypt_char small 6 small_linked 5 with
    | Ok (_, st) => st
    | Fault _ => small_linked
    end.

(** The state after the traversal from slot 5 alone. *)
Definition small_traversed : engine :=
  Eval vm_compute in
    match mirrorfield_crypt_char_advance 6 small_linked (PerimNode 0 5) DIR_UP with
    | Ok (_, st) => st
    | Fault _ => small_linked
    end.

(** The state after the rolling step of that traversal, called with its entry and exit
    characters 5 and 3. *)
Definition small_rolled : engine :=
  Eval vm_compute in
    match @mirrorfield_roll_chars small small_traversed 5 3 0 with
    | Ok st => st
    | Fault _ => small_traversed
    end.

(** The same engine without mirrors and with the letters A..H as perimeter
    values. *)
Definition letters_config : list Z := [32; 32; 32; 32; 65; 66; 67; 68; 69; 70; 71; 72].

Definition letters_linked : engine :=
  Eval vm_compute in
    @mirrorfield_link small (@load small letters_config (@mirrorfield_init small (@fresh small))).

(** * A wide engine

    GRID_SIZE = 16 and MIRROR_FIELD_COUNT = 1: 64 perimeter slots holding
    0..63 in slot order, and 256 interior cells (32 is a space, 47 a
    slash, 92 a backslash). *)

Definition wide : params := {| GRID_SIZE := 16; MIRROR_FIELD_COUNT := 1 |}.

Definition wide_mirrors : list Z :=
  [32; 47; 92; 47; 92; 47; 47; 92; 47; 92; 47; 92; 47; 92; 47; 92;
   47; 92; 92; 47; 47; 92; 92; 32; 47; 92; 47; 32; 47; 32; 92; 47;
   92; 32; 32; 92; 92; 32; 32; 47; 92; 32; 32; 32; 32; 47; 92; 92;
   47; 92; 32; 32; 47; 47; 47; 32; 32; 47; 32; 47; 32; 47; 32; 47;
   92; 92; 32; 47; 32; 32; 32; 92; 92; 47; 32; 47; 32; 92; 92; 92;
   47; 32; 92; 47; 32; 92; 32; 32; 32; 32; 92; 32; 47; 32; 47; 47;
   92; 92; 32; 47; 47; 92; 47; 47; 92; 32; 47; 32; 47; 32; 47; 32;
   47; 92; 92; 32; 32; 47; 47; 32; 92; 47; 47; 32; 32; 92; 32; 47;
   92; 32; 32; 92; 47; 32; 47; 92; 92; 92; 47; 92; 32; 32; 92; 32;
   47; 92; 32; 32; 47; 92; 32; 92; 47; 92; 32; 32; 47; 32; 32; 92;
   92; 32; 32; 92; 47; 32; 47; 32; 47; 47; 47; 47; 92; 92; 32; 47;
   47; 92; 92; 92; 32; 47; 92; 47; 92; 32; 47; 92; 32; 32; 92; 32;
   92; 32; 47; 32; 32; 32; 47; 47; 92; 47; 47; 92; 92; 92; 47; 92;
   47; 32; 92; 92; 47; 32; 47; 32; 32; 47; 32; 32; 92; 47; 32; 47;
   92; 92; 47; 47; 47; 92; 92; 47; 32; 32; 47; 32; 32; 47; 47; 47;
   47; 92; 47; 92; 92; 92; 92; 47; 92; 47; 92; 47; 92; 47; 32; 47].

Definition wide_config : list Z := wide_mirrors ++ (Z.of_nat <$> seq 0 64).

Definition wide_linked : engine :=
  Eval vm_compute in
    @mirrorfield_link wide (@load wide wide_config (@mirrorfield_init wide (@fresh wide))).

(** * An engine of two fields

    GRID_SIZE = 2 and MIRROR_FIELD_COUNT = 2: the first field is the one
    of the small engine, the second has the mirrors

<<
      \ -
        /
>>
    and the perimeter values 3 1 7 5 0 2 4 6. *)

Definition twin : params := {| GRID_SIZE := 2; MIRROR_FIELD_COUNT := 2 |}.

Definition twin_config : list Z :=
  [47; 92; 92; 92; 92; 45; 32; 47; 0; 1; 2; 3; 4; 5; 6; 7; 3; 1; 7; 5; 0; 2; 4; 6].

Definition twin_loaded : engine :=
  Eval vm_compute in @load twin twin_config (@mirrorfield_init twin (@fresh twin)).

Definition twin_linked : engine :=
  Eval vm_compute in @mirrorfield_link twin twin_loaded.

(** The state after the call of cryptChar with the byte 5, and after the
    calls with the bytes 5, 2, 7. *)
Definition twin_first : engine :=
  Eval vm_compute in
    match @mirrorfield_crypt_char twin 9 twin_linked 5 with
    | Ok (_, st) => st
    | Fault _ => twin_linked
    end.

Definition twin_after : engine :=
  Eval vm_compute in
    match @crypt_chars twin 9 twin_linked [5; 2; 7] with
    | Ok (_, st) => st
    | Fault _ => twin_linked
    end.

(** * Properties *)

Section Properties.

Context {cfg : params}.

(** ** Reading and writing nodes *)

Lemma lookup2_alter2 f k i a k' i' :
  lookup2 (alter2 f k i a) k' i' =
    if decide (k = k' ∧ i = i') then f <$> lookup2 a k' i' else lookup2 a k' i'.
Proof.
  unfold lookup2, alter2.
  destruct (decide (k = k')) as [->|Hk].
  - rewrite list_lookup_alter_eq. destruct (a !! k') as [row|]; simpl.
    + destruct (decide (i = i')) as [->|Hi].
      * rewrite list_lookup_alter_eq. rewrite decide_True; done.
      * rewrite list_lookup_alter_ne by done. rewrite decide_False; [done|tauto].
    + destruct (decide _); done.
  - rewrite list_lookup_alter_ne by done. rewrite decide_False; [done|tauto].
Qed.

Lemma deref_update st p f q :
  deref (update st p f) q = if decide (p = q) then f <$> deref st q else deref st q.
Proof.
  unfold deref, update.
  destruct p as [|k i|k i], q as [|k' i'|k' i']; simpl; try done.
  - rewrite lookup2_alter2. destruct (decide (k = k' ∧ i = i')) as [[-> ->]|Hne].
    + rewrite decide_True by done. by destruct (lookup2 _ _ _).
    + rewrite decide_False; [done|]. intros [= -> ->]. tauto.
  - rewrite lookup2_alter2. destruct (decide (k = k' ∧ i = i')) as [[-> ->]|Hne].
    + rewrite decide_True by done. by destruct (lookup2 _ _ _).
    + rewrite decide_False; [done|]. intros [= -> ->]. tauto.
Qed.

Lemma deref_update_eq st p f :
  deref (update st p f) p = f <$> deref st p.
Proof. rewrite deref_update, decide_True; done. Qed.

Lemma deref_update_ne st p f q :
  p ≠ q → deref (update st p f) q = deref st q.
Proof. intros. rewrite deref_update, decide_False; done. Qed.

Lemma statics_update st p f :
  set_i (update st p f) = set_i st ∧ set_j (update st p f) = set_j st ∧
  crypt_m (update st p f) = crypt_m st ∧ window (update st p f) = window st.
Proof. by destruct p. Qed.

Lemma window_update st p f : window (update st p f) = window st.
Proof. by destruct p. Qed.

Lemma perimeter_update_grid st k i f :
  perimeter (update st (GridNode k i) f) = perimeter st.
Proof. done. Qed.

Lemma bind_Ok {A B} (m : res A) (f : A → res B) b :
  m ≫= f = Ok b ↔ ∃ a, m = Ok a ∧ f a = Ok b.
Proof.
  destruct m as [a|e]; simpl; split.
  - eauto.
  - by intros (a' & [= ->] & H).
  - done.
  - by intros (a' & [=] & _).
Qed.

(** ** Reflection *)

Lemma new_direction_forward d :
  new_direction MIRROR_FORWARD d =
    match d with
    | DIR_DOWN => DIR_LEFT
    | DIR_LEFT => DIR_DOWN
    | DIR_RIGHT => DIR_UP
    | DIR_UP => DIR_RIGHT
    end.
Proof. by destruct d. Qed.

Lemma new_direction_backward d :
  new_direction MIRROR_BACKWARD d =
    match d with
    | DIR_DOWN => DIR_RIGHT
    | DIR_LEFT => DIR_UP
    | DIR_RIGHT => DIR_DOWN
    | DIR_UP => DIR_LEFT
    end.
Proof. by destruct d. Qed.

Lemma new_direction_other v d :
  v ≠ MIRROR_FORWARD → v ≠ MIRROR_BACKWARD → new_direction v d = d.
Proof. intros. unfold new_direction. by rewrite !decide_False. Qed.

Lemma advance_unfold_mirror fuel st p d n0 n :
  deref st p = Ok n0 →
  deref st (neighbour n0 d) = Ok n →
  value n < 0 →
  mirrorfield_crypt_char_advance (S fuel) st p d =
    '(t, st') ← mirrorfield_crypt_char_advance fuel st (neighbour n0 d)
                  (new_direction (value n) d);
    n' ← deref st' (neighbour n0 d);
    Ok (t, update st' (neighbour n0 d) (set_value (rotate (value n')))).
Proof.
  intros H0 H1 Hv. simpl. rewrite H0. simpl. rewrite H1. simpl.
  by rewrite decide_True.
Qed.

Lemma advance_unfold_exit fuel st p d n0 n :
  deref st p = Ok n0 →
  deref st (neighbour n0 d) = Ok n →
  ¬ value n < 0 →
  mirrorfield_crypt_char_advance (S fuel) st p d = Ok (neighbour n0 d, st).
Proof.
  intros H0 H1 Hv. simpl. rewrite H0. simpl. rewrite H1. simpl.
  by rewrite decide_False.
Qed.

(** ** The rolling step *)

Lemma window_with_roll st g1 g2 c : window (with_roll st g1 g2 c) = (g1, g2, c).
Proof. done. Qed.

Lemma swap_values_window st m i g st' :
  swap_values st m i g = Ok st' → window st' = window st.
Proof.
  unfold swap_values. intros Hs.
  apply bind_Ok in Hs as (t & Ht & Hs). apply bind_Ok in Hs as (vg & Hvg & Hs).
  cbv zeta in Hs. injection Hs as <-. by rewrite !window_update.
Qed.

Lemma roll_chars_Ok st s e m st' :
  mirrorfield_roll_chars st s e m = Ok st' →
  ∃ x1 x2 i1 st1 i2 st2,
    rotate_order st s e m = Ok (x1, x2) ∧
    perimeter_find st m x1 = Ok i1 ∧
    swap_values st m i1 (roll_g1 st) = Ok st1 ∧
    perimeter_find st1 m x2 = Ok i2 ∧
    swap_values st1 m i2 (roll_g2 st1) = Ok st2 ∧
    st' = with_roll st2 (advance_window (window st2)).1.1
            (advance_window (window st2)).1.2 (advance_window (window st2)).2.
Proof.
  unfold mirrorfield_roll_chars. intros Hr.
  apply bind_Ok in Hr as ([x1 x2] & Hord & Hr).
  apply bind_Ok in Hr as (i1 & Hi1 & Hr).
  apply bind_Ok in Hr as (st1 & Hs1 & Hr).
  apply bind_Ok in Hr as (i2 & Hi2 & Hr).
  apply bind_Ok in Hr as (st2 & Hs2 & Hr).
  exists x1, x2, i1, st1, i2, st2. repeat (split; [done|]).
  destruct (advance_window (window st2)) as [[g1 g2] c].
  by injection Hr as <-.
Qed.

Lemma roll_chars_window st s e m st' :
  mirrorfield_roll_chars st s e m = Ok st' →
  window st' = advance_window (window st).
Proof.
  intros (x1 & x2 & i1 & st1 & i2 & st2 & _ & _ & Hs1 & _ & Hs2 & ->)%roll_chars_Ok.
  apply swap_values_window in Hs1, Hs2. rewrite <- Hs1, <- Hs2.
  by destruct (advance_window (window st2)) as [[g1 g2] c].
Qed.

Lemma advance_window_iter g1 g2 c n :
  (c < MIRROR_FIELD_COUNT)%nat →
  (n ≤ MIRROR_FIELD_COUNT)%nat →
  Nat.iter n advance_window (g1, g2, c) =
    if decide (n < MIRROR_FIELD_COUNT - c)%nat
    then (g1, g2, (c + n)%nat)
    else (((g1 + 1) mod (GRID_SIZE * 4))%nat, ((g2 + 1) mod (GRID_SIZE * 4))%nat,
          (n - (MIRROR_FIELD_COUNT - c))%nat).
Proof.
  intros Hc. induction n as [|n IH]; intros Hn.
  - simpl. rewrite decide_True by lia. do 2 f_equal. lia.
  - simpl. rewrite IH by lia. clear IH.
    destruct (decide (n < MIRROR_FIELD_COUNT - c)%nat) as [Hlt|Hge].
    + unfold advance_window.
      destruct (decide (S (c + n) = MIRROR_FIELD_COUNT)) as [Heq|Hne].
      * rewrite decide_False by lia. do 2 f_equal. lia.
      * rewrite decide_True by lia. do 2 f_equal. lia.
    + unfold advance_window. rewrite decide_False by lia.
      rewrite decide_False by lia. do 2 f_equal. lia.
Qed.

Lemma succ_mod_neq g n : (1 < n)%nat → (g < n)%nat → ((g + 1) mod n)%nat ≠ g.
Proof.
  intros Hn Hg. destruct (decide (g + 1 = n)%nat) as [Heq|Hne].
  - rewrite Heq, Nat.Div0.mod_same. lia.
  - rewrite Nat.mod_small by lia. lia.
Qed.

Lemma opposite_fresh : opposite (window fresh).
Proof.
  unfold opposite, fresh. simpl.
  destruct GRID_SIZE as [|g]; [done|]. rewrite Nat.mod_small; lia.
Qed.

Lemma opposite_advance w : opposite w → opposite (advance_window w).
Proof.
  destruct w as [[g1 g2] c]. unfold opposite, advance_window. simpl.
  intros ->. destruct (decide _); simpl; [|done].
  rewrite Nat.Div0.add_mod_idemp_l.
  rewrite (Nat.Div0.add_mod_idemp_l (g1 + 1)).
  f_equal. lia.
Qed.

Lemma opposite_iter n : opposite (Nat.iter n advance_window (window fresh)).
Proof.
  induction n as [|n IH]; simpl; [apply opposite_fresh|by apply opposite_advance].
Qed.




Lemma lookup2_is_Some_grid st k i :
  shaped st → (k < MIRROR_FIELD_COUNT)%nat →
  is_Some (lookup2 (gridnodes st) k i) ↔ (i < GRID_SIZE * GRID_SIZE)%nat.
Proof.
  intros (Hg & _ & Hrows & _) Hk. unfold lookup2.
  destruct (lookup_lt_is_Some_2 (gridnodes st) k) as [row Hrow]; [lia|].
  rewrite Hrow. simpl. rewrite lookup_lt_is_Some.
  rewrite Forall_lookup in Hrows. by rewrite (Hrows _ _ Hrow).
Qed.

Lemma lookup2_is_Some_perimeter st k i :
  shaped st → (k < MIRROR_FIELD_COUNT)%nat →
  is_Some (lookup2 (perimeter st) k i) ↔ (i < GRID_SIZE * 4)%nat.
Proof.
  intros (_ & Hp & _ & Hrows) Hk. unfold lookup2.
  destruct (lookup_lt_is_Some_2 (perimeter st) k) as [row Hrow]; [lia|].
  rewrite Hrow. simpl. rewrite lookup_lt_is_Some.
  rewrite Forall_lookup in Hrows. by rewrite (Hrows _ _ Hrow).
Qed.

Lemma perimeter_value_Ok st m i v :
  perimeter_value st m i = Ok v ↔
  0 ≤ i ∧ ∃ n, lookup2 (perimeter st) m (Z.to_nat i) = Some n ∧ value n = v.
Proof.
  unfold perimeter_value. destruct (decide (i < 0)) as [Hi|Hi].
  - split; [done|]. lia.
  - destruct (lookup2 _ _ _) as [n|]; simpl.
    + split.
      * intros [= <-]. split; [lia|]. eauto.
      * intros (_ & n' & [= <-] & <-). done.
    + split; [done|]. by intros (_ & n' & [=] & _).
Qed.

Lemma perimeter_value_in_bounds st m i :
  shaped st → (m < MIRROR_FIELD_COUNT)%nat →
  0 ≤ i < Z.of_nat (GRID_SIZE * 4) →
  ∃ n, lookup2 (perimeter st) m (Z.to_nat i) = Some n ∧
       perimeter_value st m i = Ok (value n).
Proof.
  intros Hsh Hm Hi.
  destruct (proj2 (lookup2_is_Some_perimeter st m (Z.to_nat i) Hsh Hm)) as [n Hn]; [lia|].
  exists n. split; [done|]. apply perimeter_value_Ok. split; [lia|]. eauto.
Qed.

Lemma perimeter_value_out_of_bounds st m i :
  shaped st → (m < MIRROR_FIELD_COUNT)%nat →
  ¬ (0 ≤ i < Z.of_nat (GRID_SIZE * 4)) →
  perimeter_value st m i = Fault OutOfBounds.
Proof.
  intros Hsh Hm Hi. unfold perimeter_value.
  destruct (decide (i < 0)) as [|Hi0]; [done|].
  destruct (lookup2 _ _ _) as [n|] eqn:Hn; [|done].
  assert (Z.to_nat i < GRID_SIZE * 4)%nat; [|lia].
  apply (lookup2_is_Some_perimeter st m); eauto.
Qed.

Lemma perimeter_value_fault st m i f :
  perimeter_value st m i = Fault f → f = OutOfBounds.
Proof.
  unfold perimeter_value. destruct (decide _); [congruence|].
  destruct (lookup2 _ _ _); simpl; congruence.
Qed.



(** ** Loops *)

Lemma for_upto_S {S : Type} n (body : nat → S → S) s :
  for_upto (Datatypes.S n) body s = body n (for_upto n body s).
Proof. unfold for_upto. by rewrite seq_S, foldl_app. Qed.

Lemma for_upto_ind {S : Type} (P : nat → S → Prop) n (body : nat → S → S) s :
  P O s →
  (∀ i s, (i < n)%nat → P i s → P (Datatypes.S i) (body i s)) →
  P n (for_upto n body s).
Proof.
  intros H0 Hstep.
  assert (∀ m, (m ≤ n)%nat → P m (for_upto m body s)) as Hall; [|by apply Hall].
  induction m as [|m IH]; intros Hm; [done|].
  rewrite for_upto_S. apply Hstep; [lia|]. apply IH. lia.
Qed.

(** ** mirrorfield_init *)

Lemma shaped_update st p f : shaped st → shaped (update st p f).
Proof.
  intros (Hg & Hp & Hgr & Hpr). unfold update, alter2.
  destruct p as [|k i|k i]; [done|..]; repeat split; simpl;
    rewrite ?length_alter; try done.
  - apply Forall_alter; [done|]. intros row _ Hrow. by rewrite length_alter.
  - apply Forall_alter; [done|]. intros row _ Hrow. by rewrite length_alter.
Qed.

Lemma statics_eq_refl st : statics_eq st st.
Proof. done. Qed.

Lemma statics_eq_update st st' p f :
  statics_eq st st' → statics_eq st (update st' p f).
Proof.
  intros (? & ? & ? & ?). destruct (statics_update st' p f) as (? & ? & ? & ?).
  repeat split; congruence.
Qed.

Lemma init_inv_grid st j i st' :
  init_inv st j i 0 st' →
  init_inv st j (S i) 0 (update st' (GridNode j i) (λ _, zero_node)).
Proof.
  intros (Hsh & Hst & Hq). split; [by apply shaped_update|].
  split; [by apply statics_eq_update|].
  intros q. rewrite deref_update, Hq.
  destruct (decide (GridNode j i = q)) as [<-|Hne].
  - simpl. rewrite (bool_decide_eq_true_2 (j < j ∨ j = j ∧ i < S i)%nat) by lia.
    case_bool_decide; by destruct (deref st _).
  - destruct q as [|k i'|k i']; simpl; try done.
    apply (f_equal (λ b : bool, if b then _ else _)).
    apply bool_decide_ext. split; [lia|].
    intros [?|[-> ?]]; [lia|]. assert (i' ≠ i) by congruence. lia.
Qed.

Lemma init_inv_perimeter st j ng i st' :
  init_inv st j ng i st' →
  init_inv st j ng (S i) (update st' (PerimNode j i) (λ _, zero_node)).
Proof.
  intros (Hsh & Hst & Hq). split; [by apply shaped_update|].
  split; [by apply statics_eq_update|].
  intros q. rewrite deref_update, Hq.
  destruct (decide (PerimNode j i = q)) as [<-|Hne].
  - simpl. rewrite (bool_decide_eq_true_2 (j < j ∨ j = j ∧ i < S i)%nat) by lia.
    case_bool_decide; by destruct (deref st _).
  - destruct q as [|k i'|k i']; simpl; try done.
    apply (f_equal (λ b : bool, if b then _ else _)).
    apply bool_decide_ext. split; [lia|].
    intros [?|[-> ?]]; [lia|]. assert (i' ≠ i) by congruence. lia.
Qed.

Lemma deref_out_of_bounds st q :
  shaped st →
  match q with
  | NULL => True
  | GridNode k i => (k < MIRROR_FIELD_COUNT → GRID_SIZE * GRID_SIZE ≤ i)%nat
  | PerimNode k i => (k < MIRROR_FIELD_COUNT → GRID_SIZE * 4 ≤ i)%nat
  end →
  ∃ f, deref st q = Fault f.
Proof.
  intros Hsh Hq. destruct q as [|k i|k i]; unfold deref; [by eexists|..].
  - destruct (lookup2 _ _ _) as [n|] eqn:Hn; [|by eexists]. exfalso.
    assert (k < MIRROR_FIELD_COUNT)%nat as Hk.
    { destruct Hsh as (<- & _). apply lookup_lt_is_Some. unfold lookup2 in Hn.
      destruct (gridnodes st !! k); [by eexists|done]. }
    assert (i < GRID_SIZE * GRID_SIZE)%nat; [|specialize (Hq Hk); lia].
    apply (lookup2_is_Some_grid st k); eauto.
  - destruct (lookup2 _ _ _) as [n|] eqn:Hn; [|by eexists]. exfalso.
    assert (k < MIRROR_FIELD_COUNT)%nat as Hk.
    { destruct Hsh as (_ & <- & _). apply lookup_lt_is_Some. unfold lookup2 in Hn.
      destruct (perimeter st !! k); [by eexists|done]. }
    assert (i < GRID_SIZE * 4)%nat; [|specialize (Hq Hk); lia].
    apply (lookup2_is_Some_perimeter st k); eauto.
Qed.

Lemma init_inv_next st j st' :
  shaped st → (j < MIRROR_FIELD_COUNT)%nat →
  init_inv st j (GRID_SIZE * GRID_SIZE) (GRID_SIZE * 4) st' →
  init_inv st (S j) 0 0 st'.
Proof.
  intros Hsh0 Hj (Hsh & Hst & Hq). repeat (split; [done|]).
  intros q. rewrite Hq. destruct q as [|k i|k i]; simpl; [done|..].
  - do 2 case_bool_decide; try done; try lia.
    destruct (deref_out_of_bounds st (GridNode k i) Hsh0) as [f ->]; [|done].
    simpl. lia.
  - do 2 case_bool_decide; try done; try lia.
    destruct (deref_out_of_bounds st (PerimNode k i) Hsh0) as [f ->]; [|done].
    simpl. lia.
Qed.

Lemma mirrorfield_init_inv st :
  shaped st → init_inv st MIRROR_FIELD_COUNT 0 0 (mirrorfield_init st).
Proof.
  intros Hsh. unfold mirrorfield_init.
  apply (for_upto_ind (λ j st', init_inv st j 0 0 st')).
  - split; [done|]. split; [done|]. intros q.
    destruct q; simpl; [done|..]; rewrite bool_decide_eq_false_2; (done || lia).
  - intros j st' Hj Hinv. apply init_inv_next; [done..|].
    apply (for_upto_ind (λ i st'', init_inv st j (GRID_SIZE * GRID_SIZE) i st'')).
    + apply (for_upto_ind (λ i st'', init_inv st j i 0 st'')); [done|].
      intros i st'' _. apply init_inv_grid.
    + intros i st'' _. apply init_inv_perimeter.
Qed.

Lemma nested_replicate (a : list (list gridnode)) n m x :
  length a = n →
  Forall (λ row, length row = m) a →
  (∀ k i, (k < n)%nat → (i < m)%nat → lookup2 a k i = Some x) →
  a = replicate n (replicate m x).
Proof.
  intros Hn Hrows Hall. apply list_eq. intros k.
  destruct (decide (k < n)%nat) as [Hk|Hk].
  - rewrite lookup_replicate_2 by done.
    destruct (lookup_lt_is_Some_2 a k) as [row Hrow]; [lia|]. rewrite Hrow. f_equal.
    rewrite Forall_lookup in Hrows. specialize (Hrows _ _ Hrow).
    apply list_eq. intros i. destruct (decide (i < m)%nat) as [Hi|Hi].
    + rewrite lookup_replicate_2 by done. specialize (Hall k i Hk Hi).
      unfold lookup2 in Hall. by rewrite Hrow in Hall.
    + rewrite (proj1 (lookup_replicate_None _ _ _)) by lia.
      apply lookup_ge_None. lia.
  - rewrite (proj1 (lookup_replicate_None _ _ _)) by lia.
    apply lookup_ge_None. lia.
Qed.

(** C2 (as the code has it): after init() every interior cell and every
    perimeter slot of every field has value 0 and four null links, as in a
    freshly started engine; the statics of the loader (i, j), the Field
    Cursor m and the Roll Window (g1, g2, c) are left as they were, so the
    engine equals a freshly started one exactly when those statics still
    hold their initial values. *)
Theorem init_resets_arrays st :
  shaped st →
  gridnodes (mirrorfield_init st) = gridnodes fresh
  ∧ perimeter (mirrorfield_init st) = perimeter fresh
  ∧ set_i (mirrorfield_init st) = set_i st
  ∧ set_j (mirrorfield_init st) = set_j st
  ∧ crypt_m (mirrorfield_init st) = crypt_m st
  ∧ window (mirrorfield_init st) = window st
  ∧ (mirrorfield_init st = fresh ↔
       set_i st = O ∧ set_j st = O ∧ crypt_m st = O ∧
       window st = (O, (GRID_SIZE * 2)%nat, O)).
Proof.
  intros Hsh.
  destruct (mirrorfield_init_inv st Hsh) as ((Hg & Hp & Hgr & Hpr) & (Hi & Hj & Hm & Hw) & Hq).
  assert (gridnodes (mirrorfield_init st) = gridnodes fresh) as HG.
  { apply nested_replicate; [done..|]. intros k i Hk Hi'.
    specialize (Hq (GridNode k i)). simpl in Hq.
    rewrite bool_decide_eq_true_2 in Hq by lia.
    destruct (proj2 (lookup2_is_Some_grid st k i Hsh Hk) Hi') as [n Hn].
    unfold deref in Hq. rewrite Hn in Hq. simpl in Hq.
    destruct (lookup2 (gridnodes (mirrorfield_init st)) k i); simpl in Hq; congruence. }
  assert (perimeter (mirrorfield_init st) = perimeter fresh) as HP.
  { apply nested_replicate; [done..|]. intros k i Hk Hi'.
    specialize (Hq (PerimNode k i)). simpl in Hq.
    rewrite bool_decide_eq_true_2 in Hq by lia.
    destruct (proj2 (lookup2_is_Some_perimeter st k i Hsh Hk) Hi') as [n Hn].
    unfold deref in Hq. rewrite Hn in Hq. simpl in Hq.
    destruct (lookup2 (perimeter (mirrorfield_init st)) k i); simpl in Hq; congruence. }
  repeat (split; [done|]).
  unfold window in *. injection Hw as Hg1 Hg2 Hc.
  destruct (mirrorfield_init st) as [g p i j m g1 g2 c]. simpl in *. subst.
  split.
  - intros [= -> -> -> -> -> ->]. done.
  - intros (-> & -> & -> & [= -> -> ->]). done.
Qed.


(** ** Rotation *)

Lemma rotations_0 n : rotations 0 n = n.
Proof. by destruct n. Qed.

Lemma rotations_S c n :
  set_value (rotate (value (rotations c n))) (rotations c n) = rotations (S c) n.
Proof. by destruct n. Qed.

Lemma rotate_period v : rotate (rotate (rotate v)) = v.
Proof.
  unfold rotate, MIRROR_FORWARD, MIRROR_BACKWARD, MIRROR_STRAIGHT.
  repeat (case_decide; try lia); done.
Qed.

Lemma rotate_fixed v :
  v ≠ MIRROR_FORWARD → v ≠ MIRROR_BACKWARD → v ≠ MIRROR_STRAIGHT → rotate v = v.
Proof. intros. unfold rotate. by rewrite !decide_False. Qed.

Lemma rotate_iter_fixed c v :
  v ≠ MIRROR_FORWARD → v ≠ MIRROR_BACKWARD → v ≠ MIRROR_STRAIGHT →
  Nat.iter c rotate v = v.
Proof.
  intros. induction c as [|c IH]; [done|]. simpl. rewrite IH. by apply rotate_fixed.
Qed.

Lemma rotate_negative v : v < 0 → rotate v < 0.
Proof.
  unfold rotate, MIRROR_FORWARD, MIRROR_BACKWARD, MIRROR_STRAIGHT.
  repeat case_decide; lia.
Qed.

Lemma advance_rotations fuel st p d t st' :
  mirrorfield_crypt_char_advance fuel st p d = Ok (t, st') →
  ∀ q, deref st' q = rotations (passes (path fuel st p d) q) <$> deref st q.
Proof.
  revert st p d t st'. induction fuel as [|fuel IH]; intros st p d t st' Hadv; [done|].
  simpl in Hadv. apply bind_Ok in Hadv as (n0 & Hn0 & Hadv).
  apply bind_Ok in Hadv as (n & Hn & Hadv).
  simpl. rewrite Hn0, Hn.
  destruct (decide (value n < 0)) as [Hneg|Hpos].
  - apply bind_Ok in Hadv as ([t1 st1] & Hrec & Hadv).
    apply bind_Ok in Hadv as (n' & Hn' & Hadv). injection Hadv as <- <-.
    specialize (IH _ _ _ _ _ Hrec). intros q.
    rewrite deref_update. unfold passes. simpl.
    destruct (decide (neighbour n0 d = q)) as [<-|Hne].
    + destruct (ptr_eq_dec (neighbour n0 d) (neighbour n0 d)) as [_|]; [|done].
      rewrite Hn'. rewrite IH, Hn in Hn'. injection Hn' as <-.
      rewrite Hn. simpl. by f_equal.
    + destruct (ptr_eq_dec (neighbour n0 d) q) as [|_]; [done|]. apply IH.
  - injection Hadv as <- <-. intros q. unfold passes. simpl.
    destruct (deref st q); simpl; [|done]. by rewrite rotations_0.
Qed.

(** C8: a traversal that returns leaves in every node the value it had
    before, advanced by one rotation step for every time the path entered
    that node, whatever the directions were; one step maps FORWARD to
    STRAIGHT, STRAIGHT to BACKWARD and BACKWARD to FORWARD, so three steps
    restore any code; NONE is unchanged by any number of steps. *)
Theorem mirror_rotation fuel st p d t st' :
  mirrorfield_crypt_char_advance fuel st p d = Ok (t, st') →
  (∀ q n, deref st q = Ok n →
     deref st' q =
       Ok (set_value (Nat.iter (passes (path fuel st p d) q) rotate (value n)) n))
  ∧ rotate MIRROR_FORWARD = MIRROR_STRAIGHT
  ∧ rotate MIRROR_STRAIGHT = MIRROR_BACKWARD
  ∧ rotate MIRROR_BACKWARD = MIRROR_FORWARD
  ∧ (∀ v, Nat.iter 3 rotate v = v)
  ∧ (∀ c, Nat.iter c rotate MIRROR_NONE = MIRROR_NONE).
Proof.
  intros Hadv. split.
  - intros q n Hq. by rewrite (advance_rotations _ _ _ _ _ _ Hadv), Hq.
  - repeat (split; [done|]). split.
    + intros v. apply rotate_period.
    + intros c. by apply rotate_iter_fixed.
Qed.


(** ** mirrorfield_crypt_char *)

Lemma find_start_spec row ch m i0 :
  (find_start row ch m i0 = NULL ∧ ∀ n, n ∈ row → value n ≠ ch)
  ∨ (∃ j n, find_start row ch m i0 = PerimNode m (i0 + j) ∧
            row !! j = Some n ∧ value n = ch ∧
            ∀ j' n', (j' < j)%nat → row !! j' = Some n' → value n' ≠ ch).
Proof.
  revert i0. induction row as [|x row IH]; intros i0; simpl.
  - left. split; [done|]. intros n Hn. by apply elem_of_nil in Hn.
  - destruct (decide (value x = ch)) as [Hx|Hx].
    + right. exists O, x. rewrite Nat.add_0_r. repeat split; try done. lia.
    + destruct (IH (S i0)) as [[Hnull Hall]|(j & n & Hfind & Hj & Hn & Hmin)].
      * left. split; [done|]. intros n [->|Hn]%elem_of_cons; auto.
      * right. exists (S j), n. rewrite Hfind. repeat split; try done.
        -- f_equal. lia.
        -- intros [|j'] n' Hlt Hj'; simpl in Hj'; [congruence|].
           eapply Hmin; [|done]. lia.
Qed.

Lemma value_kept_by_rotations c n : 0 ≤ value n → value (rotations c n) = value n.
Proof.
  intros Hv. unfold rotations. simpl. apply rotate_iter_fixed;
    unfold MIRROR_FORWARD, MIRROR_BACKWARD, MIRROR_STRAIGHT; lia.
Qed.

Lemma crypt_char_Ok fuel st ch rv st' :
  mirrorfield_crypt_char fuel st ch = Ok (rv, st') →
  ∃ row i ns d endnode st1 ns1 ne st2 vk,
    perimeter st !! crypt_m st = Some row ∧
    find_start (take (GRID_SIZE * 4) row) ch (crypt_m st) 0 = PerimNode (crypt_m st) i ∧
    (i < GRID_SIZE * 4)%nat ∧
    deref st (PerimNode (crypt_m st) i) = Ok ns ∧
    value ns = ch ∧
    initial_direction ns = Ok d ∧
    mirrorfield_crypt_char_advance fuel st (PerimNode (crypt_m st) i) d = Ok (endnode, st1) ∧
    deref st1 (PerimNode (crypt_m st) i) = Ok ns1 ∧
    deref st1 endnode = Ok ne ∧
    mirrorfield_roll_chars st1 (to_uchar (value ns1)) (to_uchar (value ne)) (crypt_m st)
      = Ok st2 ∧
    perimeter_value st2 (crypt_m st)
      ((to_uchar (value ne) + to_uchar (value ns1)) mod Z.of_nat (GRID_SIZE * 4)) = Ok vk ∧
    rv = (if decide (vk = (to_uchar (value ne) + to_uchar (value ns1))
                            mod Z.of_nat (GRID_SIZE * 4))
          then to_uchar (value ns1) else to_uchar (value ne)) ∧
    st' = with_crypt_m st2 ((crypt_m st + 1) mod MIRROR_FIELD_COUNT)%nat.
Proof.
  unfold mirrorfield_crypt_char. intros Hc.
  apply bind_Ok in Hc as (row & Hrow & Hc).
  apply bind_Ok in Hc as (ns & Hns & Hc).
  apply bind_Ok in Hc as (d & Hd & Hc).
  apply bind_Ok in Hc as ([endnode st1] & Hadv & Hc).
  apply bind_Ok in Hc as (ns1 & Hns1 & Hc).
  apply bind_Ok in Hc as (ne & Hne & Hc).
  apply bind_Ok in Hc as (st2 & Hroll & Hc).
  apply bind_Ok in Hc as (vk & Hvk & Hc).
  injection Hc as <- <-.
  destruct (perimeter st !! crypt_m st) as [row'|] eqn:Hrow'; [|done].
  injection Hrow as ->.
  destruct (find_start_spec (take (GRID_SIZE * 4) row) ch (crypt_m st) 0)
    as [[Hnull _]|(j & n & Hfind & Hj & Hn & _)].
  { rewrite Hnull in Hns. done. }
  simpl in Hfind. rewrite Hfind in *.
  apply lookup_take_Some in Hj as [Hj Hlt].
  assert (ns = n) as ->.
  { unfold deref, lookup2 in Hns. rewrite Hrow' in Hns. simpl in Hns.
    rewrite Hj in Hns. by injection Hns. }
  exists row, j, n, d, endnode, st1, ns1, ne, st2, vk. done.
Qed.

Lemma crypt_char_selects fuel st ch rv st' :
  0 ≤ ch < 256 →
  mirrorfield_crypt_char fuel st ch = Ok (rv, st') →
  ∃ i ns d endnode st1 ne st2 vk,
    let m := crypt_m st in
    let sv := ch in
    let ev := to_uchar (value ne) in
    let k := (ev + sv) mod Z.of_nat (GRID_SIZE * 4) in
    lookup2 (perimeter st) m i = Some ns ∧ value ns = ch ∧
    initial_direction ns = Ok d ∧
    mirrorfield_crypt_char_advance fuel st (PerimNode m i) d = Ok (endnode, st1) ∧
    deref st1 endnode = Ok ne ∧
    mirrorfield_roll_chars st1 sv ev m = Ok st2 ∧
    perimeter_value st2 m k = Ok vk ∧
    rv = (if decide (vk = k) then sv else ev).
Proof.
  intros Hch (row & i & ns & d & endnode & st1 & ns1 & ne & st2 & vk & Hrow & Hfind & Hi
              & Hns & Hv & Hd & Hadv & Hns1 & Hne & Hroll & Hvk & -> & ->)%crypt_char_Ok.
  rewrite (advance_rotations _ _ _ _ _ _ Hadv), Hns in Hns1. injection Hns1 as <-.
  rewrite value_kept_by_rotations in * by lia.
  assert (to_uchar (value ns) = ch) as Hsv.
  { unfold to_uchar. rewrite Hv. apply Z.mod_small. lia. }
  rewrite Hsv in *.
  exists i, ns, d, endnode, st1, ne, st2, vk. simpl.
  split; [|done]. unfold deref in Hns.
  destruct (lookup2 _ _ _); simpl in Hns; congruence.
Qed.

(** C3 (what the code does): when no perimeter slot of the current field
    holds the input byte, the search leaves startnode null and the next
    statement dereferences it: cryptChar has no error branch and no
    defined outcome. *)
Theorem lookup_miss_null_deref fuel st ch row :
  perimeter st !! crypt_m st = Some row →
  (∀ n, n ∈ take (GRID_SIZE * 4) row → value n ≠ ch) →
  mirrorfield_crypt_char fuel st ch = Fault NullDeref.
Proof.
  intros Hrow Hmiss. unfold mirrorfield_crypt_char. rewrite Hrow. simpl.
  destruct (find_start_spec (take (GRID_SIZE * 4) row) ch (crypt_m st) 0)
    as [[-> _]|(j & n & _ & Hj & Hn & _)]; [done|].
  exfalso. apply (Hmiss n); [|done]. by eapply list_elem_of_lookup_2.
Qed.


(** ** The perimeter values as a multiset *)

Lemma advance_perimeter fuel st p d t st' :
  perimeter_chars st →
  mirrorfield_crypt_char_advance fuel st p d = Ok (t, st') →
  perimeter st' = perimeter st.
Proof.
  intros Hchars. revert p d t st'.
  induction fuel as [|fuel IH]; intros p d t st' Hadv; [done|].
  simpl in Hadv. apply bind_Ok in Hadv as (n0 & Hn0 & Hadv).
  apply bind_Ok in Hadv as (n & Hn & Hadv).
  destruct (decide (value n < 0)) as [Hneg|Hpos].
  - apply bind_Ok in Hadv as ([t1 st1] & Hrec & Hadv).
    apply bind_Ok in Hadv as (n' & Hn' & Hadv). injection Hadv as <- <-.
    apply IH in Hrec. destruct (neighbour n0 d) as [|k i|k i]; [done|done|].
    exfalso. unfold deref in Hn.
    destruct (lookup2 (perimeter st) k i) as [x|] eqn:Hx; [|done].
    injection Hn as ->. apply Hchars in Hx. lia.
  - by injection Hadv as <- <-.
Qed.

Lemma fmap_value_alter v i (row : list gridnode) :
  value <$> alter (set_value v) i row = <[i:=v]> (value <$> row).
Proof.
  revert i. induction row as [|x row IH]; intros [|i]; simpl; try done.
  by rewrite <- IH.
Qed.

Lemma alphabet_update_value st m i v k :
  alphabet (update st (PerimNode m i) (set_value v)) k =
    if decide (k = m) then <[i:=v]> (alphabet st k) else alphabet st k.
Proof.
  unfold alphabet, update, alter2. simpl.
  destruct (decide (k = m)) as [->|Hne].
  - rewrite list_lookup_alter_eq. destruct (perimeter st !! m) as [row|]; simpl; [|done].
    apply fmap_value_alter.
  - by rewrite list_lookup_alter_ne.
Qed.

Lemma perimeter_value_alphabet st m i v :
  perimeter_value st m (Z.of_nat i) = Ok v ↔ alphabet st m !! i = Some v.
Proof.
  rewrite perimeter_value_Ok, Nat2Z.id. unfold alphabet, lookup2.
  rewrite list_lookup_fmap.
  destruct (perimeter st !! m) as [row|]; simpl.
  - destruct (row !! i) as [n|]; simpl; split.
    + by intros (_ & n' & [= <-] & <-).
    + intros [= <-]. split; [lia|]. eauto.
    + by intros (_ & n' & [=] & _).
    + done.
  - split; [|done]. by intros (_ & n' & [=] & _).
Qed.

Lemma swap_values_alphabet st m i g st' k :
  swap_values st m i g = Ok st' →
  alphabet st' k ≡ₚ alphabet st k ∧ (k ≠ m → alphabet st' k = alphabet st k).
Proof.
  unfold swap_values. intros Hs.
  apply bind_Ok in Hs as (t & Ht & Hs). apply bind_Ok in Hs as (vg & Hvg & Hs).
  cbv zeta in Hs. injection Hs as <-.
  rewrite !alphabet_update_value.
  destruct (decide (k = m)) as [->|Hne]; [|done].
  split; [|done]. apply Permutation_insert_swap; by apply perimeter_value_alphabet.
Qed.

Lemma roll_chars_alphabet st s e m st' k :
  mirrorfield_roll_chars st s e m = Ok st' →
  alphabet st' k ≡ₚ alphabet st k ∧ (k ≠ m → alphabet st' k = alphabet st k).
Proof.
  intros (x1 & x2 & i1 & st1 & i2 & st2 & _ & _ & Hs1 & _ & Hs2 & ->)%roll_chars_Ok.
  destruct (swap_values_alphabet _ _ _ _ _ k Hs1) as [Hp1 He1].
  destruct (swap_values_alphabet _ _ _ _ _ k Hs2) as [Hp2 He2].
  change (alphabet (with_roll st2 _ _ _) k) with (alphabet st2 k). split.
  - by rewrite Hp2.
  - intros Hne. by rewrite He2, He1.
Qed.

Lemma alphabet_perm_of_call fuel st ch rv st' :
  perimeter_chars st →
  mirrorfield_crypt_char fuel st ch = Ok (rv, st') →
  ∀ k, alphabet st' k ≡ₚ alphabet st k
       ∧ (k ≠ crypt_m st → alphabet st' k = alphabet st k).
Proof.
  intros Hchars (row & i & ns & d & endnode & st1 & ns1 & ne & st2 & vk & Hrow & Hfind & Hi
              & Hns & Hv & Hd & Hadv & Hns1 & Hne & Hroll & Hvk & -> & ->)%crypt_char_Ok k.
  apply (advance_perimeter _ _ _ _ _ _ Hchars) in Hadv.
  destruct (roll_chars_alphabet _ _ _ _ _ k Hroll) as [Hperm Heq].
  change (alphabet (with_crypt_m st2 _) k) with (alphabet st2 k).
  assert (alphabet st1 k = alphabet st k) as Hsame.
  { unfold alphabet. by rewrite Hadv. }
  by rewrite Hsame in *.
Qed.

(** C9: a call of cryptChar that returns, on a state whose perimeter slots
    hold character codes, leaves the perimeter values of every field a
    permutation of what they were (so pairwise distinct values stay
    pairwise distinct), and leaves the perimeter of every field other than
    the current one exactly as it was. *)
Theorem alphabet_preserved fuel st ch rv st' :
  perimeter_chars st →
  mirrorfield_crypt_char fuel st ch = Ok (rv, st') →
  ∀ k, alphabet st' k ≡ₚ alphabet st k
       ∧ (NoDup (alphabet st k) → NoDup (alphabet st' k))
       ∧ (k ≠ crypt_m st → alphabet st' k = alphabet st k).
Proof.
  intros Hchars Hcall k.
  destruct (alphabet_perm_of_call _ _ _ _ _ Hchars Hcall k) as [Hperm Heq].
  split; [done|]. split; [|done]. intros Hnd. by rewrite Hperm.
Qed.


(** ** Directions and mirrors *)

Lemma opposite_dir_involutive d : opposite_dir (opposite_dir d) = d.
Proof. by destruct d. Qed.

Lemma opposite_dir_neq d : opposite_dir d ≠ d.
Proof. by destruct d. Qed.

Lemma new_direction_involutive v d : new_direction v (new_direction v d) = d.
Proof. unfold new_direction. repeat case_decide; by destruct d. Qed.

Lemma new_direction_inj v d1 d2 :
  new_direction v d1 = new_direction v d2 → d1 = d2.
Proof.
  intros Heq. rewrite <- (new_direction_involutive v d1), Heq.
  apply new_direction_involutive.
Qed.

Lemma new_direction_opposite v d :
  new_direction v (opposite_dir (new_direction v d)) = opposite_dir d.
Proof. unfold new_direction. repeat case_decide; by destruct d. Qed.

Lemma new_direction_not_back v d : new_direction v d ≠ opposite_dir d.
Proof. unfold new_direction. repeat case_decide; by destruct d. Qed.

Lemma side_eq v d1 d2 :
  side v d1 = side v d2 → d2 = d1 ∨ d2 = opposite_dir (new_direction v d1).
Proof.
  unfold side, new_direction. repeat case_decide; destruct d1, d2; simpl; auto; done.
Qed.

(** ** The traversal of a linked field *)

Section Traversal.

Variable st : engine.
Variable k : nat.
Hypothesis Hlinked : linked st k.
Hypothesis Hvalues : field_values st k.

Lemma link_of_deref p d n : deref st p = Ok n → link_of st p d = neighbour n d.
Proof. unfold link_of. by intros ->. Qed.

Lemma value_of_deref p n : deref st p = Ok n → value_of st p = value n.
Proof. unfold value_of. by intros ->. Qed.

Lemma cell_or_slot q :
  in_field k q →
  (is_cell q ∧ value_of st q < 0) ∨ (¬ is_cell q ∧ 0 ≤ value_of st q).
Proof.
  intros Hq. destruct (Hvalues q Hq) as (n & Hn & Hcell & Hslot).
  rewrite (value_of_deref _ _ Hn).
  destruct q as [|k' j|k' i]; simpl in *; [done|left|right]; auto.
Qed.

Lemma step_cell e :
  usable st k e →
  is_cell (link_of st e.1 e.2) →
  step st e = Some (link_of st e.1 e.2,
                    new_direction (value_of st (link_of st e.1 e.2)) e.2).
Proof.
  intros [Hin Hnn] Hcell. unfold step.
  destruct (Hvalues _ Hin) as (n0 & Hn0 & _). rewrite Hn0.
  rewrite (link_of_deref _ _ _ Hn0) in *. simpl.
  destruct (proj2 (Hlinked e.1 Hin) e.2) as [_ Hback].
  rewrite (link_of_deref _ _ _ Hn0) in Hback. destruct (Hback Hnn) as [Hq _].
  destruct (Hvalues _ Hq) as (n & Hn & Hneg & _).
  rewrite Hn, (value_of_deref _ _ Hn). by rewrite decide_True by auto.
Qed.

Lemma step_slot e :
  usable st k e →
  ¬ is_cell (link_of st e.1 e.2) →
  step st e = None.
Proof.
  intros [Hin Hnn] Hcell. unfold step.
  destruct (Hvalues _ Hin) as (n0 & Hn0 & _). rewrite Hn0.
  rewrite (link_of_deref _ _ _ Hn0) in *. simpl.
  destruct (proj2 (Hlinked e.1 Hin) e.2) as [_ Hback].
  rewrite (link_of_deref _ _ _ Hn0) in Hback. destruct (Hback Hnn) as [Hq _].
  destruct (Hvalues _ Hq) as (n & Hn & _ & Hpos).
  rewrite Hn. rewrite decide_False; [done|]. specialize (Hpos Hcell). lia.
Qed.

Lemma is_cell_dec q : {is_cell q} + {¬ is_cell q}.
Proof. destruct q; simpl; auto. Defined.

Lemma step_Some e e' :
  usable st k e →
  step st e = Some e' →
  e'.1 = link_of st e.1 e.2 ∧ is_cell e'.1 ∧
  e'.2 = new_direction (value_of st e'.1) e.2 ∧ usable st k e'.
Proof.
  intros Hu Hstep. destruct (is_cell_dec (link_of st e.1 e.2)) as [Hcell|Hslot].
  - rewrite (step_cell e Hu Hcell) in Hstep. injection Hstep as <-. simpl.
    repeat (split; [done|]).
    destruct Hu as [Hin Hnn]. destruct (proj2 (Hlinked e.1 Hin) e.2) as [_ Hback].
    destruct (Hback Hnn) as [Hq _]. split; [done|]. simpl.
    by apply Hlinked.
  - by rewrite (step_slot e Hu Hslot) in Hstep.
Qed.

Lemma usable_reverse e : usable st k e → usable st k (reverse st e).
Proof.
  intros [Hin Hnn]. destruct (proj2 (Hlinked e.1 Hin) e.2) as [_ Hback].
  destruct (Hback Hnn) as [Hq Hp]. split; [done|]. simpl. rewrite Hp.
  intros Hnull. rewrite Hnull in Hin. done.
Qed.

Lemma reverse_involutive e : usable st k e → reverse st (reverse st e) = e.
Proof.
  intros [Hin Hnn]. destruct (proj2 (Hlinked e.1 Hin) e.2) as [_ Hback].
  destruct (Hback Hnn) as [_ Hp]. unfold reverse. simpl.
  rewrite Hp, opposite_dir_involutive. by destruct e.
Qed.

Lemma reverse_neq e : reverse st e ≠ e.
Proof.
  destruct e as [p d]. unfold reverse. simpl. intros [= _ Hd].
  by apply opposite_dir_neq in Hd.
Qed.

Lemma step_inj e1 e2 e :
  usable st k e1 → usable st k e2 →
  step st e1 = Some e → step st e2 = Some e → e1 = e2.
Proof.
  intros Hu1 Hu2 H1 H2.
  destruct (step_Some _ _ Hu1 H1) as (Hq1 & _ & Hd1 & _).
  destruct (step_Some _ _ Hu2 H2) as (Hq2 & _ & Hd2 & _).
  assert (e1.2 = e2.2) as Hd.
  { apply (new_direction_inj (value_of st e.1)). congruence. }
  rewrite <- (reverse_involutive e1 Hu1), <- (reverse_involutive e2 Hu2).
  f_equal. unfold reverse. congruence.
Qed.

Lemma step_reverse e e' :
  usable st k e →
  step st e = Some e' →
  step st (reverse st e') = Some (reverse st e).
Proof.
  intros Hu Hstep. destruct (step_Some _ _ Hu Hstep) as (Hq & Hcell & Hd & Hu').
  pose proof (usable_reverse e' Hu') as Hur.
  assert (link_of st (reverse st e').1 (reverse st e').2 = e'.1) as Hback.
  { destruct Hu' as [Hin Hnn]. by apply Hlinked. }
  rewrite step_cell; [|done|by rewrite Hback].
  rewrite Hback. unfold reverse at 2. simpl. rewrite <- Hq. f_equal. f_equal.
  rewrite Hd. apply new_direction_opposite.
Qed.

Lemma step_not_reverse e e' :
  usable st k e → step st e = Some e' → e' ≠ reverse st e.
Proof.
  intros Hu Hstep. destruct (step_Some _ _ Hu Hstep) as (_ & _ & Hd & _).
  intros ->. simpl in Hd. symmetry in Hd. by apply new_direction_not_back in Hd.
Qed.


(** *** The sequence of steps *)

Lemma walk_chain fuel e0 t x y :
  (e0 :: walk fuel st e0) !! t = Some x →
  (e0 :: walk fuel st e0) !! S t = Some y →
  step st x = Some y.
Proof.
  revert e0 t. induction fuel as [|fuel IH]; intros e0 t; simpl.
  - by destruct t.
  - destruct (step st e0) as [e1|] eqn:Hstep.
    + destruct t as [|t]; simpl.
      * by intros [= <-] [= <-].
      * apply IH.
    + by destruct t.
Qed.

Lemma walk_usable fuel e0 t x :
  usable st k e0 →
  (e0 :: walk fuel st e0) !! t = Some x →
  usable st k x ∧ (t ≠ O → is_cell x.1).
Proof.
  revert e0 t. induction fuel as [|fuel IH]; intros e0 t Hu; simpl.
  - destruct t; [|done]. intros [= <-]. done.
  - destruct t as [|t]; simpl; [by intros [= <-]|].
    destruct (step st e0) as [e1|] eqn:Hstep; [|done].
    destruct (step_Some _ _ Hu Hstep) as (_ & Hcell & _ & Hu1).
    intros Hx. destruct (IH e1 t Hu1 Hx) as [Hux Hc]. split; [done|].
    intros _. destruct t as [|t]; [|by apply Hc].
    simpl in Hx. by injection Hx as <-.
Qed.

Lemma walk_no_repeat_le fuel e0 a b x :
  usable st k e0 → ¬ is_cell e0.1 → (a ≤ b)%nat →
  (e0 :: walk fuel st e0) !! a = Some x →
  (e0 :: walk fuel st e0) !! b = Some x →
  a = b.
Proof.
  intros Hu Hslot. revert b x.
  induction a as [|a IH]; intros b x Hle Ha Hb.
  - destruct b as [|b]; [done|]. exfalso. apply Hslot.
    injection Ha as <-. by apply (walk_usable fuel e0 (S b) e0 Hu).
  - destruct b as [|b]; [lia|]. f_equal.
    destruct (lookup_lt_is_Some_2 (e0 :: walk fuel st e0) a) as [y1 Hy1].
    { apply lookup_lt_Some in Ha. lia. }
    destruct (lookup_lt_is_Some_2 (e0 :: walk fuel st e0) b) as [y2 Hy2].
    { apply lookup_lt_Some in Hb. lia. }
    assert (y1 = y2) as <-.
    { eapply step_inj; [by eapply walk_usable..| |]; by eapply walk_chain. }
    eapply IH; [lia|done..].
Qed.

Lemma walk_no_repeat fuel e0 a b x :
  usable st k e0 → ¬ is_cell e0.1 →
  (e0 :: walk fuel st e0) !! a = Some x →
  (e0 :: walk fuel st e0) !! b = Some x →
  a = b.
Proof.
  intros Hu Hslot Ha Hb. destruct (decide (a ≤ b)%nat).
  - by eapply walk_no_repeat_le.
  - symmetry. eapply walk_no_repeat_le; [done..|lia|done|done].
Qed.

Lemma walk_no_reverse_le fuel e0 n a x :
  usable st k e0 →
  (e0 :: walk fuel st e0) !! a = Some x →
  (e0 :: walk fuel st e0) !! (a + n)%nat = Some (reverse st x) →
  False.
Proof.
  intros Hu. revert a x. induction n as [n IH] using lt_wf_ind. intros a x Ha Hb.
  destruct n as [|[|n]].
  - rewrite Nat.add_0_r in Hb. rewrite Ha in Hb. injection Hb as Hb.
    by eapply reverse_neq.
  - rewrite Nat.add_1_r in Hb.
    destruct (walk_usable _ _ _ _ Hu Ha) as [Hux _].
    apply (step_not_reverse x (reverse st x) Hux); [by eapply walk_chain|done].
  - destruct (lookup_lt_is_Some_2 (e0 :: walk fuel st e0) (S a)) as [y Hy].
    { apply lookup_lt_Some in Hb. lia. }
    destruct (lookup_lt_is_Some_2 (e0 :: walk fuel st e0) (S a + n)) as [z Hz].
    { apply lookup_lt_Some in Hb. lia. }
    pose proof (walk_chain _ _ _ _ _ Ha Hy) as Hxy.
    replace (a + S (S n))%nat with (S (S a + n)) in Hb by lia.
    pose proof (walk_chain _ _ _ _ _ Hz Hb) as Hzx.
    destruct (walk_usable _ _ _ _ Hu Ha) as [Hux _].
    destruct (walk_usable _ _ _ _ Hu Hy) as [Huy _].
    destruct (walk_usable _ _ _ _ Hu Hz) as [Huz _].
    assert (z = reverse st y) as ->.
    { eapply step_inj; [done|by apply usable_reverse|done|].
      by apply step_reverse. }
    apply (IH n ltac:(lia) (S a) y Hy). exact Hz.
Qed.

Lemma walk_no_reverse fuel e0 a b x :
  usable st k e0 →
  (e0 :: walk fuel st e0) !! a = Some x →
  (e0 :: walk fuel st e0) !! b = Some (reverse st x) →
  False.
Proof.
  intros Hu Ha Hb. destruct (decide (a ≤ b)%nat).
  - replace b with (a + (b - a))%nat in Hb by lia.
    exact (walk_no_reverse_le fuel e0 (b - a) a x Hu Ha Hb).
  - destruct (walk_usable _ _ _ _ Hu Ha) as [Hux _].
    rewrite <- (reverse_involutive x Hux) in Ha.
    replace a with (b + (a - b))%nat in Ha by lia.
    exact (walk_no_reverse_le fuel e0 (a - b) b (reverse st x) Hu Hb Ha).
Qed.


(** *** Counting the passes *)

Lemma walk_cell fuel e0 a x :
  usable st k e0 →
  walk fuel st e0 !! a = Some x →
  ∃ j, x.1 = GridNode k j ∧ (j < GRID_SIZE * GRID_SIZE)%nat.
Proof.
  intros Hu Hx.
  destruct (walk_usable fuel e0 (S a) x Hu Hx) as [[Hin _] Hcell].
  specialize (Hcell ltac:(done)).
  destruct x.1 as [|k' j|k' i]; simpl in *; [done| |done].
  destruct Hin as [-> Hj]. eauto.
Qed.

Lemma pass_key_inj fuel e0 a b x y :
  usable st k e0 → ¬ is_cell e0.1 →
  walk fuel st e0 !! a = Some x →
  walk fuel st e0 !! b = Some y →
  pass_key st x = pass_key st y →
  a = b.
Proof.
  intros Hu Hslot Hx Hy Hkey.
  destruct (walk_cell _ _ _ _ Hu Hx) as (jx & Hjx & _).
  destruct (walk_cell _ _ _ _ Hu Hy) as (jy & Hjy & _).
  assert (x.1 = y.1 ∧ side (value_of st x.1) x.2 = side (value_of st x.1) y.2)
    as [Hnode Hside].
  { unfold pass_key in Hkey. rewrite Hjx, Hjy in *.
    assert (jx = jy) as ->.
    { destruct (side _ x.2), (side _ y.2); lia. }
    split; [done|].
    destruct (side _ x.2), (side _ y.2); (done || lia). }
  destruct (side_eq _ _ _ Hside) as [Hd|Hd].
  - assert (x = y) as <-. { destruct x, y; simpl in *; congruence. }
    assert (S a = S b); [|lia]. by eapply (walk_no_repeat fuel e0).
  - exfalso.
    destruct (lookup_lt_is_Some_2 (e0 :: walk fuel st e0) a) as [w Hw].
    { apply lookup_lt_Some in Hx. simpl. lia. }
    destruct (walk_usable _ _ _ _ Hu Hw) as [Huw _].
    pose proof (walk_chain fuel e0 a w x Hw Hx) as Hstep.
    destruct (step_Some _ _ Huw Hstep) as (Hq & _ & Hdx & _).
    apply (walk_no_reverse fuel e0 a (S b) w Hu Hw).
    simpl. rewrite Hy. f_equal. unfold reverse.
    destruct y as [qy dy]; simpl in *. f_equal; [congruence|].
    rewrite Hd, Hdx. by rewrite new_direction_involutive.
Qed.

Lemma walk_length fuel e0 :
  usable st k e0 → ¬ is_cell e0.1 →
  (length (walk fuel st e0) ≤ 2 * (GRID_SIZE * GRID_SIZE))%nat.
Proof.
  intros Hu Hslot.
  rewrite <- (length_fmap (pass_key st)),
          <- (length_seq (2 * (GRID_SIZE * GRID_SIZE)) 0).
  apply submseteq_length, NoDup_submseteq.
  - apply NoDup_alt. intros a b key Ha Hb.
    rewrite list_lookup_fmap in Ha, Hb.
    destruct (walk fuel st e0 !! a) as [x|] eqn:Hx; [|done].
    destruct (walk fuel st e0 !! b) as [y|] eqn:Hy; [|done].
    simpl in *. eapply pass_key_inj; [done..|congruence].
  - intros key (x & -> & Hx)%list_elem_of_fmap.
    apply list_elem_of_lookup in Hx as [a Hx].
    destruct (walk_cell _ _ _ _ Hu Hx) as (j & Hj & Hlt).
    apply elem_of_seq. unfold pass_key. rewrite Hj.
    destruct (side _ _); lia.
Qed.

(** *** The recursion follows the walk *)

Lemma path_walk fuel p d : path fuel st p d = (walk fuel st (p, d)).*1.
Proof.
  revert p d. induction fuel as [|fuel IH]; intros p d; [done|].
  simpl. unfold step. simpl. destruct (deref st p) as [n0|]; [|done].
  destruct (deref st (neighbour n0 d)) as [n|]; [|done].
  destruct (decide _); [|done]. simpl. by rewrite IH.
Qed.

Lemma walk_take f fuel e : (f ≤ fuel)%nat → walk f st e = take f (walk fuel st e).
Proof.
  revert fuel e. induction f as [|f IH]; intros fuel e Hle; [done|].
  destruct fuel as [|fuel]; [lia|]. simpl.
  destruct (step st e) as [e'|]; [|done]. simpl. f_equal. apply IH. lia.
Qed.

Lemma advance_stops fuel e0 :
  usable st k e0 →
  (length (walk fuel st e0) < fuel)%nat →
  ∃ t st',
    mirrorfield_crypt_char_advance fuel st e0.1 e0.2 = Ok (t, st') ∧
    in_field k t ∧ ¬ is_cell t.
Proof.
  revert e0. induction fuel as [|fuel IH]; intros e0 Hu Hlen; [lia|].
  pose proof Hu as [Hin Hnn].
  destruct (Hvalues _ Hin) as (n0 & Hn0 & _).
  destruct (proj2 (Hlinked e0.1 Hin) e0.2) as [_ Hback].
  destruct (Hback Hnn) as [Hq _].
  destruct (Hvalues _ Hq) as (n & Hn & Hneg & Hpos).
  rewrite (link_of_deref _ _ _ Hn0) in Hq, Hn, Hneg, Hpos.
  destruct (is_cell_dec (neighbour n0 e0.2)) as [Hcell|Hslot].
  - pose proof (step_cell e0 Hu) as Hstep.
    rewrite (link_of_deref _ _ _ Hn0), (value_of_deref _ _ Hn) in Hstep.
    specialize (Hstep Hcell).
    destruct (step_Some _ _ Hu Hstep) as (_ & _ & _ & Hu').
    simpl in Hlen. rewrite Hstep in Hlen. simpl in Hlen.
    destruct (IH _ Hu' ltac:(lia)) as (t & st1 & Hrec & Ht & Htslot).
    simpl in Hrec.
    rewrite (advance_unfold_mirror fuel st e0.1 e0.2 n0 n Hn0 Hn (Hneg Hcell)).
    rewrite Hrec. simpl.
    rewrite (advance_rotations _ _ _ _ _ _ Hrec), Hn. simpl. eauto.
  - rewrite (advance_unfold_exit fuel st e0.1 e0.2 n0 n Hn0 Hn).
    + by exists (neighbour n0 e0.2), st.
    + specialize (Hpos Hslot). lia.
Qed.

Lemma advance_out_of_fuel fuel e0 :
  usable st k e0 →
  length (walk fuel st e0) = fuel →
  mirrorfield_crypt_char_advance fuel st e0.1 e0.2 = Fault OutOfFuel.
Proof.
  revert e0. induction fuel as [|fuel IH]; intros e0 Hu Hlen; [done|].
  simpl in Hlen. destruct (step st e0) as [e'|] eqn:Hstep; [|done].
  destruct (step_Some _ _ Hu Hstep) as (Hq & Hcell & Hd & Hu').
  destruct Hu as [Hin Hnn].
  destruct (Hvalues _ Hin) as (n0 & Hn0 & _).
  pose proof Hu' as [Hin' Hnn'].
  destruct (Hvalues _ Hin') as (n & Hn & Hneg & _).
  rewrite (value_of_deref e'.1 n Hn) in Hd.
  rewrite (link_of_deref _ _ _ Hn0) in Hq. rewrite Hq in Hn.
  rewrite (advance_unfold_mirror fuel st e0.1 e0.2 n0 n Hn0 Hn) by (by apply Hneg).
  rewrite <- Hq, <- Hd. rewrite IH; [done|done|]. simpl in Hlen. lia.
Qed.

End Traversal.


Lemma advance_S fuel st p d :
  mirrorfield_crypt_char_advance (S fuel) st p d =
    n0 ← deref st p;
    n ← deref st (neighbour n0 d);
    if decide (value n < 0) then
      '(t, st') ← mirrorfield_crypt_char_advance fuel st (neighbour n0 d)
                    (new_direction (value n) d);
      n' ← deref st' (neighbour n0 d);
      Ok (t, update st' (neighbour n0 d) (set_value (rotate (value n'))))
    else Ok (neighbour n0 d, st).
Proof. done. Qed.

Lemma bind_Ok_l {A B} (a : A) (f : A → res B) : Ok a ≫= f = f a.
Proof. done. Qed.

Lemma advance_fuel_S fuel st p d r :
  mirrorfield_crypt_char_advance fuel st p d = Ok r →
  mirrorfield_crypt_char_advance (S fuel) st p d = Ok r.
Proof.
  revert p d r. induction fuel as [|fuel IH]; intros p d r Hadv; [done|].
  rewrite advance_S in Hadv. rewrite (advance_S (S fuel)).
  apply bind_Ok in Hadv as (n0 & Hn0 & Hadv). rewrite Hn0, bind_Ok_l.
  apply bind_Ok in Hadv as (n & Hn & Hadv). rewrite Hn, bind_Ok_l.
  destruct (decide (value n < 0)); [|done].
  apply bind_Ok in Hadv as ([t st1] & Hrec & Hadv).
  by rewrite (IH _ _ _ Hrec).
Qed.

Lemma advance_fuel_le fuel fuel' st p d r :
  (fuel ≤ fuel')%nat →
  mirrorfield_crypt_char_advance fuel st p d = Ok r →
  mirrorfield_crypt_char_advance fuel' st p d = Ok r.
Proof.
  induction 1 as [|fuel' _ IH]; [done|]. intros Hadv. by apply advance_fuel_S, IH.
Qed.

(** The depth of the recursion in a linked field. *)
Lemma advance_depth st k i d :
  linked st k →
  field_values st k →
  (i < GRID_SIZE * 4)%nat →
  link_of st (PerimNode k i) d ≠ NULL →
  ∃ n t st',
    (n ≤ 2 * (GRID_SIZE * GRID_SIZE))%nat
    ∧ (∀ fuel, (fuel ≤ n)%nat →
         mirrorfield_crypt_char_advance fuel st (PerimNode k i) d = Fault OutOfFuel)
    ∧ (∀ fuel, (n < fuel)%nat →
         mirrorfield_crypt_char_advance fuel st (PerimNode k i) d = Ok (t, st')
         ∧ length (path fuel st (PerimNode k i) d) = n)
    ∧ ∃ i', t = PerimNode k i' ∧ (i' < GRID_SIZE * 4)%nat.
Proof.
  intros Hl Hv Hi Hnn.
  set (e0 := (PerimNode k i, d)).
  set (big := S (2 * (GRID_SIZE * GRID_SIZE))).
  assert (usable st k e0) as Hu by (by split).
  assert (¬ is_cell e0.1) as Hslot by (by intros []).
  set (n := length (walk big st e0)).
  assert (n ≤ 2 * (GRID_SIZE * GRID_SIZE))%nat as Hn by (by apply (walk_length st k)).
  assert (∀ fuel, (fuel ≤ n)%nat → length (walk fuel st e0) = fuel) as Hshort.
  { intros fuel Hle. rewrite (walk_take st fuel big) by (unfold big; lia).
    rewrite length_take. fold n. lia. }
  assert (∀ fuel, (n < fuel)%nat → length (walk fuel st e0) = n) as Hlong.
  { intros fuel Hlt. destruct (decide (fuel ≤ big)%nat) as [Hle|Hgt].
    - rewrite (walk_take st fuel big) by done. rewrite length_take. fold n. lia.
    - pose proof (walk_length st k Hl Hv fuel e0 Hu Hslot) as Hlen.
      assert (walk big st e0 = take big (walk fuel st e0)) as Heq
        by (apply walk_take; lia).
      unfold n. rewrite Heq, length_take. unfold big. lia. }
  destruct (advance_stops st k Hl Hv (S n) e0 Hu) as (t & st' & Hadv & Ht & Htslot).
  { rewrite Hlong; lia. }
  exists n, t, st'. split; [done|]. split; [|split].
  - intros fuel Hle. apply (advance_out_of_fuel st k Hl Hv fuel e0 Hu). by apply Hshort.
  - intros fuel Hlt. split.
    + by apply (advance_fuel_le (S n)); [lia|].
    + rewrite path_walk, length_fmap. by apply Hlong.
  - destruct t as [|k' j|k' i']; simpl in *; [done|done|].
    destruct Ht as [-> Hi']. eauto.
Qed.

(** C4 (with the bound the code meets): in a linked field whose interior
    cells hold mirror codes and whose perimeter slots hold character
    codes (every field of a reachable engine is one, see
    [reachable_wellformed]), the traversal started at any perimeter slot,
    in a direction in which that slot has a link, terminates: it enters
    some number n of interior cells, n is at most 2×GRID_SIZE², the
    recursion needs depth n + 1 exactly, and the node returned is a
    perimeter slot of the same field. *)
Theorem traversal_terminates st k i d :
  linked st k →
  field_values st k →
  (i < GRID_SIZE * 4)%nat →
  link_of st (PerimNode k i) d ≠ NULL →
  ∃ n t st',
    (n ≤ 2 * (GRID_SIZE * GRID_SIZE))%nat
    ∧ (∀ fuel, (fuel ≤ n)%nat →
         mirrorfield_crypt_char_advance fuel st (PerimNode k i) d = Fault OutOfFuel)
    ∧ (∀ fuel, (n < fuel)%nat →
         mirrorfield_crypt_char_advance fuel st (PerimNode k i) d = Ok (t, st')
         ∧ length (path fuel st (PerimNode k i) d) = n)
    ∧ ∃ i', t = PerimNode k i' ∧ (i' < GRID_SIZE * 4)%nat.
Proof. apply advance_depth. Qed.


(** ** What a call of cryptChar keeps *)

Lemma evolves_refl k st : evolves k st st.
Proof. intros q n _ Hn. exists n. done. Qed.

Lemma evolves_trans k st1 st2 st3 :
  evolves k st1 st2 → evolves k st2 st3 → evolves k st1 st3.
Proof.
  intros H12 H23 q n Hq Hn.
  destruct (H12 q n Hq Hn) as (n2 & Hn2 & Hl2 & Hs2).
  destruct (H23 q n2 Hq Hn2) as (n3 & Hn3 & Hl3 & Hs3).
  exists n3. split; [done|]. split.
  - intros d. by rewrite Hl3, Hl2.
  - by rewrite Hs2.
Qed.

Lemma evolves_update_value k st p v :
  (∀ n, deref st p = Ok n → (value n < 0 ↔ v < 0)) →
  evolves k st (update st p (set_value v)).
Proof.
  intros Hsign q n _ Hn. rewrite deref_update.
  destruct (decide (p = q)) as [->|Hne]; [|by exists n].
  rewrite Hn. simpl. eexists. split; [done|]. split; [by intros []|].
  simpl. by apply Hsign.
Qed.

Lemma evolves_advance k fuel st p d t st' :
  mirrorfield_crypt_char_advance fuel st p d = Ok (t, st') → evolves k st st'.
Proof.
  intros Hadv q n _ Hn. rewrite (advance_rotations _ _ _ _ _ _ Hadv), Hn. simpl.
  eexists. split; [done|]. split; [by intros []|]. simpl.
  generalize (passes (path fuel st p d) q). intros c.
  induction c as [|c IH]; [done|]. simpl. rewrite IH. split.
  - apply rotate_negative.
  - unfold rotate, MIRROR_FORWARD, MIRROR_BACKWARD, MIRROR_STRAIGHT.
    repeat case_decide; lia.
Qed.

Lemma linked_evolves k st st' :
  evolves k st st' → field_values st k → linked st k → linked st' k.
Proof.
  intros Hev Hv Hl.
  assert (∀ q d, in_field k q → link_of st' q d = link_of st q d) as Hsame.
  { intros q d Hq. destruct (Hv q Hq) as (n & Hn & _).
    destruct (Hev q n Hq Hn) as (n' & Hn' & Hlinks & _).
    unfold link_of. by rewrite Hn, Hn'. }
  intros p Hp. destruct (Hl p Hp) as [[d0 Hd0] Hall]. split.
  - exists d0. by rewrite Hsame.
  - intros d. destruct (Hall d) as [Hcell Hback]. rewrite Hsame by done.
    split; [done|]. intros Hnn. destruct (Hback Hnn) as [Hq Hp'].
    split; [done|]. by rewrite Hsame.
Qed.

Lemma field_values_evolves k st st' :
  evolves k st st' → field_values st k → field_values st' k.
Proof.
  intros Hev Hv q Hq. destruct (Hv q Hq) as (n & Hn & Hneg & Hpos).
  destruct (Hev q n Hq Hn) as (n' & Hn' & _ & Hsign).
  exists n'. split; [done|]. split.
  - intros Hc. apply Hsign. auto.
  - intros Hc. specialize (Hpos Hc). destruct (decide (value n' < 0)) as [Hn0|]; [|lia].
    apply Hsign in Hn0. lia.
Qed.

Lemma shaped_advance fuel st p d t st' :
  mirrorfield_crypt_char_advance fuel st p d = Ok (t, st') → shaped st → shaped st'.
Proof.
  revert p d t st'. induction fuel as [|fuel IH]; intros p d t st' Hadv Hsh; [done|].
  rewrite advance_S in Hadv.
  apply bind_Ok in Hadv as (n0 & Hn0 & Hadv).
  apply bind_Ok in Hadv as (n & Hn & Hadv).
  destruct (decide (value n < 0)).
  - apply bind_Ok in Hadv as ([t1 st1] & Hrec & Hadv).
    apply bind_Ok in Hadv as (n' & Hn' & Hadv). injection Hadv as <- <-.
    apply shaped_update. by eapply IH.
  - by injection Hadv as <- <-.
Qed.

Lemma statics_advance fuel st p d t st' :
  mirrorfield_crypt_char_advance fuel st p d = Ok (t, st') → statics_eq st st'.
Proof.
  revert p d t st'. induction fuel as [|fuel IH]; intros p d t st' Hadv; [done|].
  rewrite advance_S in Hadv.
  apply bind_Ok in Hadv as (n0 & Hn0 & Hadv).
  apply bind_Ok in Hadv as (n & Hn & Hadv).
  destruct (decide (value n < 0)).
  - apply bind_Ok in Hadv as ([t1 st1] & Hrec & Hadv).
    apply bind_Ok in Hadv as (n' & Hn' & Hadv). injection Hadv as <- <-.
    apply statics_eq_update. by eapply IH.
  - injection Hadv as <- <-. apply statics_eq_refl.
Qed.

Lemma shaped_swap_values st m i g st' :
  swap_values st m i g = Ok st' → shaped st → shaped st'.
Proof.
  unfold swap_values. intros Hs Hsh.
  apply bind_Ok in Hs as (t & Ht & Hs). apply bind_Ok in Hs as (vg & Hvg & Hs).
  cbv zeta in Hs. injection Hs as <-. by do 2 apply shaped_update.
Qed.

Lemma shaped_roll_chars st s e m st' :
  mirrorfield_roll_chars st s e m = Ok st' → shaped st → shaped st'.
Proof.
  intros (x1 & x2 & i1 & st1 & i2 & st2 & _ & _ & Hs1 & _ & Hs2 & ->)%roll_chars_Ok Hsh.
  apply (shaped_swap_values _ _ _ _ _ Hs2), (shaped_swap_values _ _ _ _ _ Hs1), Hsh.
Qed.

Lemma perimeter_chars_alphabet st :
  perimeter_chars st ↔ ∀ k v, v ∈ alphabet st k → 0 ≤ v.
Proof.
  unfold perimeter_chars, alphabet, lookup2. split.
  - intros Hc k v (n & -> & Hn)%list_elem_of_fmap.
    destruct (perimeter st !! k) as [row|] eqn:Hrow; simpl in Hn;
      [|by apply elem_of_nil in Hn].
    apply list_elem_of_lookup in Hn as [i Hi]. apply (Hc k i). by rewrite Hrow.
  - intros Hc k i n Hn. apply (Hc k).
    destruct (perimeter st !! k) as [row|]; simpl in *; [|done].
    apply list_elem_of_fmap. exists n. split; [done|]. by eapply list_elem_of_lookup_2.
Qed.

Lemma evolves_swap_values k st m i g st' :
  perimeter_chars st → swap_values st m i g = Ok st' → evolves k st st'.
Proof.
  unfold swap_values. intros Hc Hs.
  apply bind_Ok in Hs as (t & Ht & Hs). apply bind_Ok in Hs as (vg & Hvg & Hs).
  cbv zeta in Hs. injection Hs as <-.
  apply perimeter_value_Ok in Ht as (_ & nt & Hnt & <-).
  apply perimeter_value_Ok in Hvg as (_ & ng & Hng & <-).
  rewrite Nat2Z.id in Hnt, Hng.
  pose proof (Hc _ _ _ Hnt) as Htpos. pose proof (Hc _ _ _ Hng) as Hgpos.
  eapply evolves_trans; apply evolves_update_value.
  - intros n Hn. unfold deref in Hn. rewrite Hnt in Hn. injection Hn as <-. lia.
  - intros n Hn. rewrite deref_update in Hn. unfold deref in Hn.
    rewrite Hng in Hn. case_decide; simpl in Hn; injection Hn as <-; simpl; lia.
Qed.


Lemma advance_window_range g1 g2 c :
  (g1 < GRID_SIZE * 4)%nat → (g2 < GRID_SIZE * 4)%nat → (c < MIRROR_FIELD_COUNT)%nat →
  ((advance_window (g1, g2, c)).1.1 < GRID_SIZE * 4)%nat ∧
  ((advance_window (g1, g2, c)).1.2 < GRID_SIZE * 4)%nat ∧
  ((advance_window (g1, g2, c)).2 < MIRROR_FIELD_COUNT)%nat.
Proof.
  intros H1 H2 Hc. unfold advance_window. case_decide; simpl.
  - repeat split; try lia; apply Nat.mod_upper_bound; lia.
  - lia.
Qed.

Lemma perimeter_chars_perm st st' :
  (∀ k, alphabet st' k ≡ₚ alphabet st k) → perimeter_chars st → perimeter_chars st'.
Proof.
  rewrite !perimeter_chars_alphabet. intros Hperm Hc k v Hv.
  apply (Hc k). by rewrite <- (Hperm k).
Qed.

Lemma wellformed_perimeter_chars st : wellformed st → perimeter_chars st.
Proof.
  intros (Hsh & _ & _ & _ & _ & Hall) k i n Hn.
  assert (k < MIRROR_FIELD_COUNT)%nat as Hk.
  { destruct Hsh as (_ & <- & _). apply lookup_lt_is_Some. unfold lookup2 in Hn.
    destruct (perimeter st !! k); [by eexists|done]. }
  assert (i < GRID_SIZE * 4)%nat as Hi.
  { apply (lookup2_is_Some_perimeter st k); eauto. }
  destruct (Hall k Hk) as [_ Hfv].
  destruct (Hfv (PerimNode k i)) as (n' & Hn' & _ & Hpos); [done|].
  unfold deref in Hn'. rewrite Hn in Hn'. injection Hn' as <-. apply Hpos.
  by intros [].
Qed.

Lemma evolves_roll_chars k st s e m st' :
  perimeter_chars st → mirrorfield_roll_chars st s e m = Ok st' → evolves k st st'.
Proof.
  intros Hc (x1 & x2 & i1 & st1 & i2 & st2 & _ & _ & Hs1 & _ & Hs2 & ->)%roll_chars_Ok.
  apply (evolves_trans k st st1 st2).
  - by eapply evolves_swap_values.
  - eapply evolves_swap_values; [|done].
    eapply perimeter_chars_perm; [|done].
    intros k'. by apply (swap_values_alphabet _ _ _ _ _ k' Hs1).
Qed.

(** A call of cryptChar that returns leaves the engine well formed. *)
Lemma wellformed_crypt_char fuel st ch rv st' :
  mirrorfield_crypt_char fuel st ch = Ok (rv, st') →
  wellformed st → wellformed st'.
Proof.
  intros Hcall Hwf.
  pose proof (wellformed_perimeter_chars st Hwf) as Hchars.
  destruct Hwf as (Hsh & Hm & Hg1 & Hg2 & Hc & Hall).
  apply crypt_char_Ok in Hcall
    as (row & i & ns & d & endnode & st1 & ns1 & ne & st2 & vk & Hrow & Hfind & Hi
        & Hns & Hv & Hd & Hadv & Hns1 & Hne & Hroll & Hvk & -> & ->).
  pose proof (statics_advance _ _ _ _ _ _ Hadv) as (_ & _ & _ & Hw1).
  pose proof (roll_chars_window _ _ _ _ _ Hroll) as Hw2.
  rewrite Hw1 in Hw2.
  destruct (advance_window_range _ _ _ Hg1 Hg2 Hc) as (Hg1' & Hg2' & Hc').
  fold (window st) in Hg1', Hg2', Hc'. rewrite <- Hw2 in Hg1', Hg2', Hc'.
  assert (perimeter st1 = perimeter st) as Hper by (by eapply advance_perimeter).
  assert (perimeter_chars st1) as Hchars1.
  { unfold perimeter_chars. by rewrite Hper. }
  split; [|split; [|split; [|split; [|split]]]].
  - change (shaped st2). eapply shaped_roll_chars; [done|]. by eapply shaped_advance.
  - simpl. apply Nat.mod_upper_bound. lia.
  - exact Hg1'.
  - exact Hg2'.
  - exact Hc'.
  - intros k Hk. destruct (Hall k Hk) as (Hl & Hfv).
    assert (evolves k st st2) as Hev.
    { eapply evolves_trans; [by eapply evolves_advance|by eapply evolves_roll_chars]. }
    split.
    + change (linked st2 k). by eapply linked_evolves.
    + change (field_values st2 k). by eapply field_values_evolves.
Qed.

(** A call of cryptChar that returns leaves the engine operational. *)
Lemma operational_crypt_char fuel st ch rv st' :
  mirrorfield_crypt_char fuel st ch = Ok (rv, st') →
  operational st → operational st'.
Proof.
  intros Hcall [Hwf Hrange]. split; [by eapply wellformed_crypt_char|].
  pose proof (wellformed_perimeter_chars st Hwf) as Hchars.
  intros k v Hv. apply (Hrange k).
  by rewrite <- (proj1 (alphabet_perm_of_call _ _ _ _ _ Hchars Hcall k)).
Qed.

(** ** cryptChar returns *)

Lemma find_value_Some row x i0 :
  x ∈ value <$> row →
  ∃ i, find_value row x i0 = Ok (i0 + i)%nat ∧ (i < length row)%nat.
Proof.
  revert i0. induction row as [|n row IH]; intros i0 Hx; simpl.
  - by apply elem_of_nil in Hx.
  - destruct (decide (value n = x)) as [Heq|Hne].
    + exists O. rewrite Nat.add_0_r. split; [done|lia].
    + apply elem_of_cons in Hx as [Hx|Hx]; [congruence|].
      destruct (IH (S i0) Hx) as (i & Hi & Hlt). exists (S i).
      rewrite Hi. split; [f_equal; lia|lia].
Qed.

Lemma shaped_row st m :
  shaped st → (m < MIRROR_FIELD_COUNT)%nat →
  ∃ row, perimeter st !! m = Some row ∧ length row = (GRID_SIZE * 4)%nat.
Proof.
  intros (_ & Hp & _ & Hrows) Hm.
  destruct (lookup_lt_is_Some_2 (perimeter st) m) as [row Hrow]; [lia|].
  exists row. split; [done|]. rewrite Forall_lookup in Hrows. by eapply Hrows.
Qed.

Lemma perimeter_find_Ok st m x :
  shaped st → (m < MIRROR_FIELD_COUNT)%nat → x ∈ alphabet st m →
  ∃ i, perimeter_find st m x = Ok i ∧ (i < GRID_SIZE * 4)%nat.
Proof.
  intros Hsh Hm Hx. destruct (shaped_row st m Hsh Hm) as (row & Hrow & Hlen).
  unfold perimeter_find, alphabet in *. rewrite Hrow in *. simpl in *.
  destruct (find_value_Some row x 0 Hx) as (i & Hi & Hlt). exists i.
  split; [done|lia].
Qed.

Lemma swap_values_returns st m i g :
  shaped st → (m < MIRROR_FIELD_COUNT)%nat →
  (i < GRID_SIZE * 4)%nat → (g < GRID_SIZE * 4)%nat →
  ∃ st', swap_values st m i g = Ok st'.
Proof.
  intros Hsh Hm Hi Hg. unfold swap_values.
  destruct (perimeter_value_in_bounds st m (Z.of_nat i) Hsh Hm) as (n1 & _ & ->); [lia|].
  destruct (perimeter_value_in_bounds st m (Z.of_nat g) Hsh Hm) as (n2 & _ & ->); [lia|].
  simpl. eauto.
Qed.

Lemma roll_chars_returns st s e m :
  shaped st → (m < MIRROR_FIELD_COUNT)%nat →
  (roll_g1 st < GRID_SIZE * 4)%nat → (roll_g2 st < GRID_SIZE * 4)%nat →
  s ∈ alphabet st m → e ∈ alphabet st m →
  0 ≤ s < Z.of_nat (GRID_SIZE * 4) → 0 ≤ e < Z.of_nat (GRID_SIZE * 4) →
  ∃ st', mirrorfield_roll_chars st s e m = Ok st'.
Proof.
  intros Hsh Hm Hg1 Hg2 Hs He Hsr Her.
  destruct (perimeter_value_in_bounds st m s Hsh Hm Hsr) as (ns & _ & Hvs).
  destruct (perimeter_value_in_bounds st m e Hsh Hm Her) as (ne & _ & Hve).
  assert (∃ x1 x2, rotate_order st s e m = Ok (x1, x2) ∧
                   x1 ∈ alphabet st m ∧ x2 ∈ alphabet st m)
    as (x1 & x2 & Hord & Hx1 & Hx2).
  { unfold rotate_order. rewrite Hvs, bind_Ok_l, Hve, bind_Ok_l.
    case_decide; eauto. }
  unfold mirrorfield_roll_chars. rewrite Hord, bind_Ok_l.
  destruct (perimeter_find_Ok st m x1 Hsh Hm Hx1) as (i1 & -> & Hi1).
  rewrite bind_Ok_l.
  destruct (swap_values_returns st m i1 (roll_g1 st) Hsh Hm Hi1 Hg1) as [st1 Hs1].
  rewrite Hs1, bind_Ok_l.
  pose proof (shaped_swap_values _ _ _ _ _ Hs1 Hsh) as Hsh1.
  pose proof (swap_values_window _ _ _ _ _ Hs1) as Hw1.
  assert (x2 ∈ alphabet st1 m) as Hx2'.
  { by rewrite (proj1 (swap_values_alphabet _ _ _ _ _ m Hs1)). }
  destruct (perimeter_find_Ok st1 m x2 Hsh1 Hm Hx2') as (i2 & -> & Hi2).
  rewrite bind_Ok_l.
  assert (roll_g2 st1 = roll_g2 st) as Hg by (unfold window in Hw1; congruence).
  rewrite Hg.
  destruct (swap_values_returns st1 m i2 (roll_g2 st) Hsh1 Hm Hi2 Hg2) as [st2 Hs2].
  rewrite Hs2, bind_Ok_l.
  destruct (advance_window (window st2)) as [[g1 g2] c]. eauto.
Qed.

Lemma initial_direction_Ok n :
  (∃ d, neighbour n d ≠ NULL) →
  ∃ d, initial_direction n = Ok d ∧ neighbour n d ≠ NULL.
Proof.
  intros [d0 Hd0]. unfold initial_direction.
  destruct (decide (down n ≠ NULL)); [by exists DIR_DOWN|].
  destruct (decide (up n ≠ NULL)); [by exists DIR_UP|].
  destruct (decide (left n ≠ NULL)); [by exists DIR_LEFT|].
  destruct (decide (right n ≠ NULL)); [by exists DIR_RIGHT|].
  by destruct d0.
Qed.

(** In an operational engine cryptChar returns for every byte of the
    current field's alphabet, with recursion depth 2×GRID_SIZE² + 1. *)
Lemma crypt_char_returns st ch :
  operational st →
  ch ∈ alphabet st (crypt_m st) →
  ∃ rv st',
    mirrorfield_crypt_char (S (2 * (GRID_SIZE * GRID_SIZE))) st ch = Ok (rv, st').
Proof.
  intros [Hwf Hrange'] Hch.
  pose proof (wellformed_perimeter_chars st Hwf) as Hchars.
  destruct Hwf as (Hsh & Hm & Hg1 & Hg2 & Hc & Hall).
  destruct (Hall _ Hm) as (Hl & Hfv).
  pose proof (Hrange' (crypt_m st)) as Hrange.
  destruct (shaped_row st _ Hsh Hm) as (row & Hrow & Hlen).
  unfold mirrorfield_crypt_char. rewrite Hrow.
  change (of_option (Some row) OutOfBounds) with (Ok row).
  rewrite bind_Ok_l, take_ge by lia.
  destruct (find_start_spec row ch (crypt_m st) 0)
    as [[_ Hmiss]|(i & ns & -> & Hi & Hv & _)].
  { exfalso. unfold alphabet in Hch. rewrite Hrow in Hch. simpl in Hch.
    apply list_elem_of_fmap in Hch as (n & -> & Hn). by apply (Hmiss n). }
  rewrite Nat.add_0_l.
  assert (in_field (crypt_m st) (PerimNode (crypt_m st) i)) as Hin.
  { split; [done|]. apply lookup_lt_Some in Hi. lia. }
  assert (deref st (PerimNode (crypt_m st) i) = Ok ns) as Hns.
  { unfold deref, lookup2. rewrite Hrow. simpl. by rewrite Hi. }
  rewrite Hns, bind_Ok_l.
  destruct (Hl _ Hin) as [Hex _]. unfold link_of in Hex. rewrite Hns in Hex.
  destruct (initial_direction_Ok ns Hex) as (d & -> & Hd). rewrite bind_Ok_l.
  set (e0 := (PerimNode (crypt_m st) i, d)).
  assert (usable st (crypt_m st) e0) as Hu.
  { split; [done|]. unfold link_of. simpl. by rewrite Hns. }
  destruct (advance_stops st (crypt_m st) Hl Hfv (S (2 * (GRID_SIZE * GRID_SIZE))) e0 Hu)
    as (t & st1 & Hadv & Ht & Htslot).
  { pose proof (walk_length st (crypt_m st) Hl Hfv
                  (S (2 * (GRID_SIZE * GRID_SIZE))) e0 Hu) as Hlen'.
    assert (¬ is_cell e0.1) as Hslot by (by intros []). specialize (Hlen' Hslot). lia. }
  change e0.1 with (PerimNode (crypt_m st) i) in Hadv.
  change e0.2 with d in Hadv. rewrite Hadv, bind_Ok_l.
  pose proof (advance_perimeter _ _ _ _ _ _ Hchars Hadv) as Hper.
  pose proof (shaped_advance _ _ _ _ _ _ Hadv Hsh) as Hsh1.
  pose proof (statics_advance _ _ _ _ _ _ Hadv) as (_ & _ & _ & Hw1).
  assert (∀ k, alphabet st1 k = alphabet st k) as Halpha.
  { intros k. unfold alphabet. by rewrite Hper. }
  assert (deref st1 (PerimNode (crypt_m st) i) = Ok ns) as Hns1.
  { unfold deref. by rewrite Hper. }
  rewrite Hns1, bind_Ok_l.
  destruct t as [|k' j|k' i']; simpl in Ht, Htslot; [done|by destruct Htslot|].
  destruct Ht as [-> Hi'].
  destruct (proj2 (lookup2_is_Some_perimeter st1 (crypt_m st) i' Hsh1 Hm) Hi')
    as [ne Hne].
  assert (deref st1 (PerimNode (crypt_m st) i') = Ok ne) as Hne'.
  { unfold deref. by rewrite Hne. }
  rewrite Hne', bind_Ok_l.
  assert (∀ j n, lookup2 (perimeter st1) (crypt_m st) j = Some n →
                 value n ∈ alphabet st1 (crypt_m st) ∧
                 0 ≤ value n < Z.of_nat (GRID_SIZE * 4) ∧
                 to_uchar (value n) = value n) as Hslotv.
  { intros j n Hn.
    assert (value n ∈ alphabet st1 (crypt_m st)) as Hmem.
    { unfold alphabet, lookup2 in *.
      destruct (perimeter st1 !! crypt_m st) as [row1|]; simpl in *; [|done].
      apply list_elem_of_fmap. exists n. split; [done|].
      by eapply list_elem_of_lookup_2. }
    split; [done|]. rewrite Halpha in Hmem. destruct (Hrange _ Hmem) as [Hr H256].
    split; [done|]. unfold to_uchar. apply Z.mod_small. lia. }
  assert (lookup2 (perimeter st1) (crypt_m st) i = Some ns) as Hns2.
  { unfold deref in Hns1. destruct (lookup2 _ _ _); simpl in Hns1; congruence. }
  destruct (Hslotv _ _ Hns2) as (Hsm & Hsr & ->).
  destruct (Hslotv _ _ Hne) as (Hem & Her & ->).
  assert (roll_g1 st1 < GRID_SIZE * 4)%nat as Hg1'
    by (unfold window in Hw1; injection Hw1 as -> _ _; done).
  assert (roll_g2 st1 < GRID_SIZE * 4)%nat as Hg2'
    by (unfold window in Hw1; injection Hw1 as _ -> _; done).
  destruct (roll_chars_returns st1 (value ns) (value ne) (crypt_m st)
              Hsh1 Hm Hg1' Hg2' Hsm Hem Hsr Her) as [st2 Hroll].
  rewrite Hroll, bind_Ok_l.
  pose proof (shaped_roll_chars _ _ _ _ _ Hroll Hsh1) as Hsh2.
  destruct (perimeter_value_in_bounds st2 (crypt_m st)
              ((value ne + value ns) mod Z.of_nat (GRID_SIZE * 4)) Hsh2 Hm)
    as (nk & _ & ->).
  { apply Z.mod_pos_bound. lia. }
  rewrite bind_Ok_l. eauto.
Qed.


(** ** mirrorfield_validate *)

Lemma validate_mirrors st k j :
  mirrorfield_validate st = 1 →
  (k < MIRROR_FIELD_COUNT)%nat → (j < GRID_SIZE * GRID_SIZE)%nat →
  MIRROR_BACKWARD ≤ value_at (gridnodes st) k j ≤ MIRROR_NONE.
Proof.
  unfold mirrorfield_validate. intros Hval Hk Hj.
  destruct (mirrors_ok st) eqn:Hok; [|done]. clear Hval.
  unfold mirrors_ok in Hok. rewrite forallb_forall in Hok.
  specialize (Hok k). rewrite forallb_forall in Hok.
  specialize (Hok ltac:(apply in_seq; lia) j ltac:(apply in_seq; lia)).
  apply negb_true_iff, bool_decide_eq_false in Hok. lia.
Qed.

Lemma validate_distinct st k i j :
  mirrorfield_validate st = 1 →
  (k < MIRROR_FIELD_COUNT)%nat → (i < j)%nat → (j < GRID_SIZE * 4)%nat →
  value_at (perimeter st) k i ≠ value_at (perimeter st) k j.
Proof.
  unfold mirrorfield_validate. intros Hval Hk Hij Hj.
  destruct (mirrors_ok st); [|done].
  destruct (perimeter_distinct st) eqn:Hok; [|done]. clear Hval.
  unfold perimeter_distinct in Hok. rewrite forallb_forall in Hok.
  specialize (Hok k). rewrite forallb_forall in Hok.
  specialize (Hok ltac:(apply in_seq; lia) i). rewrite forallb_forall in Hok.
  specialize (Hok ltac:(apply in_seq; lia) j ltac:(apply in_seq; lia)).
  by apply negb_true_iff, bool_decide_eq_false in Hok.
Qed.

Lemma validate_alphabet_NoDup st k :
  shaped st → mirrorfield_validate st = 1 → (k < MIRROR_FIELD_COUNT)%nat →
  NoDup (alphabet st k).
Proof.
  intros Hsh Hval Hk. destruct (shaped_row st k Hsh Hk) as (row & Hrow & Hlen).
  apply NoDup_alt. intros i j v Hi Hj.
  assert (∀ i, (i < GRID_SIZE * 4)%nat →
               alphabet st k !! i = Some (value_at (perimeter st) k i)) as Hat.
  { intros i' Hi'. unfold alphabet, value_at, lookup2. rewrite Hrow. simpl.
    rewrite list_lookup_fmap.
    destruct (lookup_lt_is_Some_2 row i') as [n ->]; [lia|done]. }
  assert (length (alphabet st k) = (GRID_SIZE * 4)%nat) as Hlen'.
  { unfold alphabet. rewrite Hrow. simpl. by rewrite length_fmap. }
  pose proof (lookup_lt_Some _ _ _ Hi) as Hi'.
  pose proof (lookup_lt_Some _ _ _ Hj) as Hj'.
  rewrite Hat in Hi, Hj by lia.
  destruct (Nat.lt_trichotomy i j) as [Hlt|[Heq|Hgt]]; [|done|].
  - exfalso. apply (validate_distinct st k i j); [done|done|done|lia|congruence].
  - exfalso. apply (validate_distinct st k j i); [done|done|done|lia|congruence].
Qed.

Lemma validate_field_values st k :
  shaped st → mirrorfield_validate st = 1 → perimeter_chars st →
  (k < MIRROR_FIELD_COUNT)%nat →
  field_values st k.
Proof.
  intros Hsh Hval Hchars Hk q Hq. destruct q as [|k' j|k' i]; [done|..];
    destruct Hq as [-> Hlt].
  - destruct (proj2 (lookup2_is_Some_grid st k j Hsh Hk) Hlt) as [n Hn].
    exists n. unfold deref. rewrite Hn. split; [done|]. split; [|by intros []].
    intros _. pose proof (validate_mirrors st k j Hval Hk Hlt) as Hv.
    unfold value_at in Hv. rewrite Hn in Hv. simpl in Hv.
    unfold MIRROR_NONE in Hv. lia.
  - destruct (proj2 (lookup2_is_Some_perimeter st k i Hsh Hk) Hlt) as [n Hn].
    exists n. unfold deref. rewrite Hn. split; [done|]. split; [by intros []|].
    intros _. by eapply Hchars.
Qed.


(** ** mirrorfield_link *)

Lemma for_upto_shift {S : Type} n (body : nat → S → S) s :
  for_upto (Datatypes.S n) body s = for_upto n (λ t, body (Datatypes.S t)) (body O s).
Proof.
  unfold for_upto. simpl. rewrite <- seq_shift.
  generalize (body O s). generalize (seq 0 n). clear.
  induction l as [|x l IH]; intros s'; simpl; [done|]. apply IH.
Qed.

Lemma for_upto_ext {S : Type} n (f g : nat → S → S) s :
  (∀ t s', (t < n)%nat → f t s' = g t s') → for_upto n f s = for_upto n g s.
Proof.
  revert s. induction n as [|n IH]; intros s Hfg; [done|].
  rewrite !for_upto_S, IH; [apply Hfg; lia|]. intros t s' Ht. apply Hfg. lia.
Qed.

Lemma for_step_aux_upto {S : Type} n fuel a b step (body : nat → S → S) s :
  (n ≤ fuel)%nat →
  (∀ t, (t < n)%nat → (a + t * step < b)%nat) →
  ¬ (a + n * step < b)%nat →
  for_step_aux fuel a b step body s = for_upto n (λ t, body (a + t * step)%nat) s.
Proof.
  revert fuel a s. induction n as [|n IH]; intros fuel a s Hfuel Hin Hout.
  - destruct fuel as [|fuel]; [done|]. simpl. rewrite decide_False; [done|].
    simpl in Hout. lia.
  - destruct fuel as [|fuel]; [lia|]. simpl.
    rewrite decide_True by (specialize (Hin O); lia).
    rewrite for_upto_shift, Nat.add_0_r.
    rewrite (IH fuel (a + step)%nat); [|lia| |].
    + apply for_upto_ext. intros t s' _. f_equal. lia.
    + intros t Ht. specialize (Hin (Datatypes.S t)). simpl in Hin. lia.
    + simpl in Hout. lia.
Qed.

Lemma connects_snoc l c st : connects (l ++ [c]) st = connect (connects l st) c.
Proof. unfold connects. by rewrite foldl_app. Qed.

Lemma connects_app l1 l2 st : connects (l1 ++ l2) st = connects l2 (connects l1 st).
Proof. unfold connects. by rewrite foldl_app. Qed.

Lemma for_upto_connects n (body : nat → engine → engine) f st :
  (∀ i st', (i < n)%nat → body i st' = connects (f i) st') →
  for_upto n body st = connects (seq 0 n ≫= f) st.
Proof.
  intros Hbody. induction n as [|n IH]; [done|].
  rewrite for_upto_S, seq_S, bind_app, connects_app, IH.
  - simpl. rewrite app_nil_r. apply Hbody. lia.
  - intros i st' Hi. apply Hbody. lia.
Qed.

Lemma chain_loop (node : nat → ptr) d n (idx : nat → nat) k st :
  (∀ t, (t < n)%nat → node (S t) = GridNode k (idx t)) →
  for_upto n (λ t '(st, temp),
      let st := update st temp (set_link d (GridNode k (idx t))) in
      let st := update st (GridNode k (idx t)) (set_link (opposite_dir d) temp) in
      (st, GridNode k (idx t))) (st, node O)
  = (connects ((λ s, (node s, d, node (S s))) <$> seq 0 n) st, node n).
Proof.
  intros Hnode. induction n as [|n IH]; [done|].
  rewrite for_upto_S, IH by (intros; apply Hnode; lia).
  rewrite seq_S, fmap_app, connects_app. simpl.
  by rewrite (Hnode n) by lia.
Qed.

Lemma link_column_connects k i st :
  (i < GRID_SIZE)%nat → link_column k i st = connects (col_connects k i) st.
Proof.
  intros Hi. unfold link_column, for_step.
  rewrite (for_step_aux_upto GRID_SIZE); [|nia|intros; nia|nia].
  assert (∀ t, (t < GRID_SIZE)%nat →
               col_node k i (S t) = GridNode k (i + t * GRID_SIZE)) as Hnode.
  { intros t Ht. unfold col_node. rewrite decide_False by lia.
    rewrite decide_True by lia. do 2 f_equal. lia. }
  pose proof (chain_loop (col_node k i) DIR_DOWN GRID_SIZE
                (λ t, i + t * GRID_SIZE)%nat k st Hnode) as Hloop.
  match goal with
  | |- context [for_upto ?n ?f ?s0] =>
      replace (for_upto n f s0) with
        (connects ((λ s, (col_node k i s, DIR_DOWN, col_node k i (S s)))
                     <$> seq 0 GRID_SIZE) st, col_node k i GRID_SIZE)
        by (symmetry; exact Hloop)
  end.
  unfold col_connects. rewrite seq_S, fmap_app, connects_app. simpl.
  replace (col_node k i (S GRID_SIZE)) with (PerimNode k (i + GRID_SIZE * 2)); [done|].
  unfold col_node. rewrite decide_False by lia. by rewrite decide_False by lia.
Qed.

Lemma link_row_connects k i st :
  (i < GRID_SIZE)%nat → link_row k i st = connects (row_connects k i) st.
Proof.
  intros Hi. unfold link_row, for_step.
  rewrite (for_step_aux_upto GRID_SIZE); [|nia|intros; nia|nia].
  assert (∀ t, (t < GRID_SIZE)%nat →
               row_node k i (S t) = GridNode k (i * GRID_SIZE + t * 1)) as Hnode.
  { intros t Ht. unfold row_node. rewrite decide_False by lia.
    rewrite decide_True by lia. do 2 f_equal. lia. }
  pose proof (chain_loop (row_node k i) DIR_RIGHT GRID_SIZE
                (λ t, i * GRID_SIZE + t * 1)%nat k st Hnode) as Hloop.
  match goal with
  | |- context [for_upto ?n ?f ?s0] =>
      replace (for_upto n f s0) with
        (connects ((λ s, (row_node k i s, DIR_RIGHT, row_node k i (S s)))
                     <$> seq 0 GRID_SIZE) st, row_node k i GRID_SIZE)
        by (symmetry; exact Hloop)
  end.
  unfold row_connects. rewrite seq_S, fmap_app, connects_app. simpl.
  replace (row_node k i (S GRID_SIZE)) with (PerimNode k (i + GRID_SIZE)); [done|].
  unfold row_node. rewrite decide_False by lia. by rewrite decide_False by lia.
Qed.

Lemma mirrorfield_link_connects st : mirrorfield_link st = connects all_connects st.
Proof.
  unfold mirrorfield_link, all_connects. apply for_upto_connects.
  intros k st' _. unfold field_connects. rewrite connects_app.
  rewrite (for_upto_connects GRID_SIZE (link_column k) (col_connects k));
    [|intros; by apply link_column_connects].
  apply for_upto_connects. intros. by apply link_row_connects.
Qed.


(** *** Connections *)

Lemma neighbour_set_link d x n d' :
  neighbour (set_link d x n) d' = if decide (d = d') then x else neighbour n d'.
Proof. by destruct d, d'. Qed.

Lemma value_set_link d x n : value (set_link d x n) = value n.
Proof. by destruct d. Qed.

Lemma valid_update st p f q : valid (update st p f) q ↔ valid st q.
Proof.
  unfold valid. rewrite deref_update.
  destruct (decide (p = q)); [|done]. destruct (deref st q); simpl; split.
  - intros _. by eexists.
  - intros _. by eexists.
  - by intros [? ?].
  - by intros [? ?].
Qed.

Lemma link_of_update_link st p d x q d' :
  valid st p →
  link_of (update st p (set_link d x)) q d' =
    if decide ((p, d) = (q, d')) then x else link_of st q d'.
Proof.
  intros [n Hn]. unfold link_of. rewrite deref_update.
  destruct (decide (p = q)) as [<-|Hne].
  - rewrite Hn. simpl. rewrite neighbour_set_link.
    destruct (decide (d = d')) as [<-|Hd].
    + by rewrite decide_True.
    + rewrite decide_False; [done|]. by intros [=].
  - rewrite decide_False; [done|]. by intros [=].
Qed.

Lemma link_of_connect st a d b q d' :
  valid st a → valid st b →
  link_of (connect st (a, d, b)) q d' =
    if decide ((b, opposite_dir d) = (q, d')) then a
    else if decide ((a, d) = (q, d')) then b
    else link_of st q d'.
Proof.
  intros Ha Hb. unfold connect. simpl.
  rewrite link_of_update_link by (by apply valid_update).
  by rewrite link_of_update_link.
Qed.

Lemma valid_connect st c q : valid (connect st c) q ↔ valid st q.
Proof. unfold connect. by rewrite !valid_update. Qed.

Lemma valid_connects l st q : valid (connects l st) q ↔ valid st q.
Proof.
  revert st. induction l as [|c l IH]; intros st; [done|].
  unfold connects. simpl. fold (connects l (connect st c)).
  by rewrite IH, valid_connect.
Qed.

Lemma keys_app l1 l2 : keys (l1 ++ l2) = keys l1 ++ keys l2.
Proof. unfold keys. by rewrite bind_app. Qed.

Lemma elem_of_keys q d l :
  (q, d) ∈ keys l ↔
  ∃ a d0 b, (a, d0, b) ∈ l ∧ ((q, d) = (a, d0) ∨ (q, d) = (b, opposite_dir d0)).
Proof.
  unfold keys. rewrite list_elem_of_bind. split.
  - intros ([[a d0] b] & Hin & Hc). simpl in Hin. exists a, d0, b. split; [done|].
    apply elem_of_cons in Hin as [->|Hin]; [by left|].
    apply elem_of_cons in Hin as [->|Hin]; [by right|]. by apply elem_of_nil in Hin.
  - intros (a & d0 & b & Hc & [->| ->]); exists (a, d0, b); simpl; split; try done.
    + apply elem_of_cons. by left.
    + apply elem_of_cons. right. apply elem_of_cons. by left.
Qed.

Lemma connects_links l st :
  (∀ a d b, (a, d, b) ∈ l → valid st a ∧ valid st b) →
  NoDup (keys l) →
  (∀ a d b, (a, d, b) ∈ l →
     link_of (connects l st) a d = b ∧
     link_of (connects l st) b (opposite_dir d) = a)
  ∧ (∀ q d, (q, d) ∉ keys l → link_of (connects l st) q d = link_of st q d).
Proof.
  induction l as [|[[a d] b] l IH] using rev_ind; intros Hvalid Hnd.
  - split; [|done]. intros a d b Hin. by apply elem_of_nil in Hin.
  - rewrite keys_app in Hnd. apply NoDup_app in Hnd as (Hnd & Hfresh & _).
    destruct IH as [IHin IHout]; [|done|].
    { intros a' d' b' Hin. apply (Hvalid a' d' b'). apply elem_of_app. by left. }
    destruct (Hvalid a d b) as [Ha Hb]; [apply elem_of_app; right; by apply list_elem_of_singleton|].
    assert (∀ q d', (q, d') ∈ keys l →
              link_of (connects (l ++ [(a, d, b)]) st) q d' = link_of (connects l st) q d')
      as Hold.
    { intros q d' Hq. rewrite connects_snoc, link_of_connect by (by apply valid_connects).
      specialize (Hfresh _ Hq). unfold keys in Hfresh. simpl in Hfresh.
      rewrite !decide_False; [done|..]; intros Heq; apply Hfresh; rewrite <- Heq;
        repeat (apply elem_of_cons; (by left) || right). }
    split.
    + intros a' d' b' [Hin|Hin%list_elem_of_singleton]%elem_of_app.
      * destruct (IHin _ _ _ Hin) as [H1 H2].
        assert ((a', d') ∈ keys l) as Hk1.
        { apply elem_of_keys. exists a', d', b'. auto. }
        assert ((b', opposite_dir d') ∈ keys l) as Hk2.
        { apply elem_of_keys. exists a', d', b'. auto. }
        by rewrite (Hold _ _ Hk1), (Hold _ _ Hk2).
      * injection Hin as -> -> ->.
        rewrite connects_snoc, !link_of_connect by (by apply valid_connects).
        split.
        -- rewrite decide_False, decide_True; [done..|].
           intros [= _ Hd]. by apply opposite_dir_neq in Hd.
        -- by rewrite decide_True.
    + intros q d' Hq. rewrite keys_app in Hq.
      rewrite connects_snoc, link_of_connect by (by apply valid_connects).
      rewrite !decide_False.
      * apply IHout. intros Hq'. apply Hq. apply elem_of_app. by left.
      * intros Heq. apply Hq. apply elem_of_app. right. rewrite <- Heq.
        unfold keys. simpl. apply elem_of_cons. by left.
      * intros Heq. apply Hq. apply elem_of_app. right. rewrite <- Heq.
        unfold keys. simpl. apply elem_of_cons. right. apply elem_of_cons. by left.
Qed.


(** *** The chains of a field *)

Lemma grid_index_inj g a b a' b' :
  (a < g)%nat → (a' < g)%nat → (a + b * g = a' + b' * g)%nat → a = a' ∧ b = b'.
Proof.
  intros Ha Ha' Heq.
  assert (b = b') as ->; [|lia].
  destruct (Nat.lt_trichotomy b b') as [Hlt|[Heq'|Hgt]]; [|done|]; nia.
Qed.

Lemma col_node_in_field k i s :
  (i < GRID_SIZE)%nat → in_field k (col_node k i s).
Proof.
  intros Hi. unfold col_node. repeat case_decide; simpl; split; try done; nia.
Qed.

Lemma row_node_in_field k i s :
  (i < GRID_SIZE)%nat → in_field k (row_node k i s).
Proof.
  intros Hi. unfold row_node. repeat case_decide; simpl; split; try done; nia.
Qed.

Lemma col_node_inj k i s k' i' s' :
  (i < GRID_SIZE)%nat → (i' < GRID_SIZE)%nat →
  (s ≤ S GRID_SIZE)%nat → (s' ≤ S GRID_SIZE)%nat →
  col_node k i s = col_node k' i' s' → k = k' ∧ i = i' ∧ s = s'.
Proof.
  intros Hi Hi' Hs Hs'. unfold col_node.
  repeat case_decide; intros [= -> Heq]; try (split; [done|]; lia).
  split; [done|]. apply grid_index_inj in Heq as [-> Heq]; try done. lia.
Qed.

Lemma row_node_inj k i s k' i' s' :
  (i < GRID_SIZE)%nat → (i' < GRID_SIZE)%nat →
  (s ≤ S GRID_SIZE)%nat → (s' ≤ S GRID_SIZE)%nat →
  row_node k i s = row_node k' i' s' → k = k' ∧ i = i' ∧ s = s'.
Proof.
  intros Hi Hi' Hs Hs'. unfold row_node.
  repeat case_decide; intros [= -> Heq]; try (split; [done|]; lia).
  split; [done|].
  assert (s - 1 + i * GRID_SIZE = s' - 1 + i' * GRID_SIZE)%nat as Heq' by lia.
  apply grid_index_inj in Heq' as [Heq' ->]; try lia.
Qed.

Lemma in_field_inj k k' q : in_field k q → in_field k' q → k = k'.
Proof. destruct q; simpl; [done|..]; intros [<- _] [<- _]; done. Qed.

Lemma keys_bind {A} (l : list A) (f : A → list (ptr * dir * ptr)) :
  keys (l ≫= f) = l ≫= λ x, keys (f x).
Proof.
  induction l as [|x l IH]; [done|].
  change ((x :: l) ≫= f) with (f x ++ (l ≫= f)).
  change ((x :: l) ≫= λ x, keys (f x)) with (keys (f x) ++ (l ≫= λ x, keys (f x))).
  by rewrite keys_app, IH.
Qed.

Lemma elem_of_keys_chain (node : nat → ptr) d n q d' :
  (q, d') ∈ keys ((λ s, (node s, d, node (S s))) <$> seq 0 n) →
  ∃ s, (s ≤ n)%nat ∧ q = node s ∧ (d' = d ∨ d' = opposite_dir d).
Proof.
  intros (a & d0 & b & Hin & Hk)%elem_of_keys.
  apply list_elem_of_fmap in Hin as (s & [= -> -> ->] & Hs).
  apply elem_of_seq in Hs.
  destruct Hk as [[= -> ->]|[= -> ->]]; [exists s|exists (S s)];
    (split; [lia|]); auto.
Qed.

Lemma NoDup_keys_chain (node : nat → ptr) d n :
  (∀ s s', (s ≤ n)%nat → (s' ≤ n)%nat → node s = node s' → s = s') →
  NoDup (keys ((λ s, (node s, d, node (S s))) <$> seq 0 n)).
Proof.
  intros Hinj. unfold keys. rewrite list_fmap_bind. apply NoDup_bind.
  - intros s1 s2 y Hs1%elem_of_seq Hs2%elem_of_seq. simpl.
    intros H1 H2.
    apply elem_of_cons in H1 as [->|H1]; apply elem_of_cons in H2 as [H2|H2].
    + injection H2 as H2. apply Hinj in H2; lia.
    + apply elem_of_cons in H2 as [H2|H2]; [|by apply elem_of_nil in H2].
      injection H2 as _ H2. symmetry in H2. by apply opposite_dir_neq in H2.
    + apply elem_of_cons in H1 as [->|H1]; [|by apply elem_of_nil in H1].
      injection H2 as _ H2. by apply opposite_dir_neq in H2.
    + apply elem_of_cons in H1 as [->|H1]; [|by apply elem_of_nil in H1].
      apply elem_of_cons in H2 as [H2|H2]; [|by apply elem_of_nil in H2].
      injection H2 as H2. apply Hinj in H2; lia.
  - intros s _. simpl. apply NoDup_cons. split; [|apply NoDup_singleton].
    intros [= _ Hd]%list_elem_of_singleton. symmetry in Hd.
    by apply opposite_dir_neq in Hd.
  - apply NoDup_seq.
Qed.

Lemma elem_of_keys_field k q d :
  (q, d) ∈ keys (field_connects k) →
  ((d = DIR_DOWN ∨ d = DIR_UP) ∧
     ∃ i s, (i < GRID_SIZE)%nat ∧ (s ≤ S GRID_SIZE)%nat ∧ q = col_node k i s)
  ∨ ((d = DIR_RIGHT ∨ d = DIR_LEFT) ∧
     ∃ i s, (i < GRID_SIZE)%nat ∧ (s ≤ S GRID_SIZE)%nat ∧ q = row_node k i s).
Proof.
  unfold field_connects. rewrite keys_app, !keys_bind, elem_of_app.
  intros [(i & Hk & Hi%elem_of_seq)%list_elem_of_bind
         |(i & Hk & Hi%elem_of_seq)%list_elem_of_bind].
  - apply elem_of_keys_chain in Hk as (s & Hs & -> & Hd). left. split; [done|].
    exists i, s. split; [lia|done].
  - apply elem_of_keys_chain in Hk as (s & Hs & -> & Hd). right. split; [done|].
    exists i, s. split; [lia|done].
Qed.

Lemma NoDup_keys_all : NoDup (keys all_connects).
Proof.
  unfold all_connects. rewrite keys_bind. apply NoDup_bind; [| |apply NoDup_seq].
  - intros k1 k2 [q d] _ _ H1 H2.
    apply elem_of_keys_field in H1, H2.
    assert (in_field k1 q) as Hq1.
    { destruct H1 as [[_ (i & s & Hi & _ & ->)]|[_ (i & s & Hi & _ & ->)]];
        [by apply col_node_in_field|by apply row_node_in_field]. }
    assert (in_field k2 q) as Hq2.
    { destruct H2 as [[_ (i & s & Hi & _ & ->)]|[_ (i & s & Hi & _ & ->)]];
        [by apply col_node_in_field|by apply row_node_in_field]. }
    by eapply in_field_inj.
  - intros k _. unfold field_connects. rewrite keys_app, !keys_bind.
    apply NoDup_app. split; [|split].
    + apply NoDup_bind; [| |apply NoDup_seq].
      * intros i1 i2 [q d] Hi1%elem_of_seq Hi2%elem_of_seq H1 H2.
        apply elem_of_keys_chain in H1 as (s1 & Hs1 & -> & _).
        apply elem_of_keys_chain in H2 as (s2 & Hs2 & Heq & _).
        apply col_node_inj in Heq; lia.
      * intros i Hi%elem_of_seq. apply NoDup_keys_chain.
        intros s s' Hs Hs' Heq. apply col_node_inj in Heq; lia.
    + intros [q d] (i & Hk & Hi)%list_elem_of_bind (i' & Hk' & Hi')%list_elem_of_bind.
      apply elem_of_keys_chain in Hk as (_ & _ & _ & Hd).
      apply elem_of_keys_chain in Hk' as (_ & _ & _ & Hd').
      simpl in *. destruct Hd as [->| ->], Hd' as [?|?]; done.
    + apply NoDup_bind; [| |apply NoDup_seq].
      * intros i1 i2 [q d] Hi1%elem_of_seq Hi2%elem_of_seq H1 H2.
        apply elem_of_keys_chain in H1 as (s1 & Hs1 & -> & _).
        apply elem_of_keys_chain in H2 as (s2 & Hs2 & Heq & _).
        apply row_node_inj in Heq; lia.
      * intros i Hi%elem_of_seq. apply NoDup_keys_chain.
        intros s s' Hs Hs' Heq. apply row_node_inj in Heq; lia.
Qed.


Lemma elem_of_all_connects c :
  c ∈ all_connects ↔
  ∃ k i s, (k < MIRROR_FIELD_COUNT)%nat ∧ (i < GRID_SIZE)%nat ∧ (s ≤ GRID_SIZE)%nat ∧
    (c = (col_node k i s, DIR_DOWN, col_node k i (S s)) ∨
     c = (row_node k i s, DIR_RIGHT, row_node k i (S s))).
Proof.
  unfold all_connects, field_connects, col_connects, row_connects.
  rewrite list_elem_of_bind. setoid_rewrite elem_of_app.
  setoid_rewrite list_elem_of_bind. setoid_rewrite list_elem_of_fmap.
  setoid_rewrite elem_of_seq. split.
  - intros (k & [(i & (s & -> & Hs) & Hi)|(i & (s & -> & Hs) & Hi)] & Hk);
      exists k, i, s; repeat (split; [lia|]); auto.
  - intros (k & i & s & Hk & Hi & Hs & [-> | ->]); exists k; (split; [|lia]);
      [left|right]; exists i; (split; [|lia]); exists s; (split; [done|lia]).
Qed.

Lemma valid_in_field st k p :
  shaped st → (k < MIRROR_FIELD_COUNT)%nat → in_field k p → valid st p.
Proof.
  intros Hsh Hk Hp. destruct p as [|k' j|k' i]; [done|..]; destruct Hp as [-> Hlt].
  - destruct (proj2 (lookup2_is_Some_grid st k j Hsh Hk) Hlt) as [n Hn].
    exists n. unfold deref. by rewrite Hn.
  - destruct (proj2 (lookup2_is_Some_perimeter st k i Hsh Hk) Hlt) as [n Hn].
    exists n. unfold deref. by rewrite Hn.
Qed.

Lemma col_node_not_null k i s : col_node k i s ≠ NULL.
Proof. unfold col_node. by repeat case_decide. Qed.

Lemma row_node_not_null k i s : row_node k i s ≠ NULL.
Proof. unfold row_node. by repeat case_decide. Qed.

Lemma cell_on_chains k j :
  (j < GRID_SIZE * GRID_SIZE)%nat →
  ∃ r c, (r < GRID_SIZE)%nat ∧ (c < GRID_SIZE)%nat ∧
         GridNode k j = col_node k c (S r) ∧ GridNode k j = row_node k r (S c).
Proof.
  intros Hj. assert (0 < GRID_SIZE)%nat as HG by nia.
  pose proof (Nat.div_mod_eq j GRID_SIZE) as Hdm.
  assert (j mod GRID_SIZE < GRID_SIZE)%nat as Hc by (apply Nat.mod_upper_bound; lia).
  assert (j / GRID_SIZE < GRID_SIZE)%nat as Hr by (apply Nat.Div0.div_lt_upper_bound; lia).
  rewrite (Nat.mul_comm GRID_SIZE) in Hdm.
  revert Hdm Hc Hr. generalize (j / GRID_SIZE)%nat (j mod GRID_SIZE)%nat.
  intros r c -> Hc Hr. exists r, c.
  split; [done|]. split; [done|]. unfold col_node, row_node.
  rewrite !(decide_False (P := S _ = O)) by done.
  rewrite !decide_True by lia.
  replace (S r - 1)%nat with r by lia. replace (S c - 1)%nat with c by lia.
  split; f_equal; lia.
Qed.

Lemma col_node_last k i : col_node k i (S GRID_SIZE) = PerimNode k (i + GRID_SIZE * 2).
Proof. unfold col_node. rewrite decide_False by done. by rewrite decide_False by lia. Qed.

Lemma row_node_last k i : row_node k i (S GRID_SIZE) = PerimNode k (i + GRID_SIZE).
Proof. unfold row_node. rewrite decide_False by done. by rewrite decide_False by lia. Qed.

Lemma slot_on_chain k i :
  (i < GRID_SIZE * 4)%nat →
  ∃ c, (c < GRID_SIZE)%nat ∧
       (PerimNode k i = col_node k c O ∨ PerimNode k i = col_node k c (S GRID_SIZE) ∨
        PerimNode k i = row_node k c O ∨ PerimNode k i = row_node k c (S GRID_SIZE)).
Proof.
  intros Hi.
  destruct (decide (i < GRID_SIZE)%nat); [exists i; auto|].
  destruct (decide (i < GRID_SIZE * 2)%nat).
  { exists (i - GRID_SIZE)%nat. split; [lia|]. do 3 right.
    rewrite row_node_last. f_equal. lia. }
  destruct (decide (i < GRID_SIZE * 3)%nat).
  { exists (i - GRID_SIZE * 2)%nat. split; [lia|]. right. left.
    rewrite col_node_last. f_equal. lia. }
  exists (i - GRID_SIZE * 3)%nat. split; [lia|]. do 2 right. left.
  unfold row_node. simpl. f_equal. lia.
Qed.

(** mirrorfield_link links every field of an engine that had no links. *)
Lemma mirrorfield_link_linked st k :
  shaped st → unlinked st → (k < MIRROR_FIELD_COUNT)%nat →
  linked (mirrorfield_link st) k.
Proof.
  intros Hsh Hun Hk. rewrite mirrorfield_link_connects.
  destruct (connects_links all_connects st) as [Hin Hout]; [|apply NoDup_keys_all|].
  { intros a d b (k' & i & s & Hk' & Hi & Hs & [[= -> -> ->]|[= -> -> ->]])%elem_of_all_connects;
      split; apply (valid_in_field st k'); auto using col_node_in_field, row_node_in_field. }
  set (st' := connects all_connects st) in *.
  assert (∀ i s, (i < GRID_SIZE)%nat → (s ≤ GRID_SIZE)%nat →
            link_of st' (col_node k i s) DIR_DOWN = col_node k i (S s) ∧
            link_of st' (col_node k i (S s)) DIR_UP = col_node k i s) as Hcol.
  { intros i s Hi Hs. apply (Hin _ DIR_DOWN). apply elem_of_all_connects.
    exists k, i, s. auto. }
  assert (∀ i s, (i < GRID_SIZE)%nat → (s ≤ GRID_SIZE)%nat →
            link_of st' (row_node k i s) DIR_RIGHT = row_node k i (S s) ∧
            link_of st' (row_node k i (S s)) DIR_LEFT = row_node k i s) as Hrow.
  { intros i s Hi Hs. apply (Hin _ DIR_RIGHT). apply elem_of_all_connects.
    exists k, i, s. auto. }
  assert (∀ p d, in_field k p → link_of st' p d ≠ NULL →
            in_field k (link_of st' p d) ∧
            link_of st' (link_of st' p d) (opposite_dir d) = p) as Hback.
  { intros p d Hp Hnn.
    destruct (decide ((p, d) ∈ keys all_connects)) as [Hkey|Hkey].
    - apply elem_of_keys in Hkey as (a & d0 & b & Hc & Hpd).
      destruct (Hin _ _ _ Hc) as [Hab Hba].
      apply elem_of_all_connects in Hc as (k' & i & s & Hk' & Hi & Hs & Hc).
      assert (in_field k' a ∧ in_field k' b) as [Ha Hb].
      { destruct Hc as [[= -> -> ->]|[= -> -> ->]];
          auto using col_node_in_field, row_node_in_field. }
      destruct Hpd as [[= -> ->]|[= -> ->]].
      + rewrite Hab. split; [|done]. by rewrite (in_field_inj _ _ _ Hp Ha).
      + rewrite Hba, opposite_dir_involutive. split; [|done].
        by rewrite (in_field_inj _ _ _ Hp Hb).
    - rewrite (Hout _ _ Hkey), Hun in Hnn. done. }
  intros p Hp. destruct p as [|k' j|k' i]; [done|..]; pose proof Hp as [-> Hlt].
  - destruct (cell_on_chains k j Hlt) as (r & c & Hr & Hc & Hcn & Hrn).
    assert (∀ d, link_of st' (GridNode k j) d ≠ NULL) as Hall.
    { intros d. destruct d.
      - rewrite Hcn, (proj2 (Hcol c r Hc ltac:(lia))). apply col_node_not_null.
      - rewrite Hcn, (proj1 (Hcol c (S r) Hc ltac:(lia))). apply col_node_not_null.
      - rewrite Hrn, (proj2 (Hrow r c Hr ltac:(lia))). apply row_node_not_null.
      - rewrite Hrn, (proj1 (Hrow r (S c) Hr ltac:(lia))). apply row_node_not_null. }
    split; [by exists DIR_UP|]. intros d. split; [done|]. by apply Hback.
  - split.
    + destruct (slot_on_chain k i Hlt) as (c & Hc & [Heq|[Heq|[Heq|Heq]]]); rewrite Heq.
      * exists DIR_DOWN. rewrite (proj1 (Hcol c O Hc ltac:(lia))).
        apply col_node_not_null.
      * exists DIR_UP. rewrite (proj2 (Hcol c GRID_SIZE Hc ltac:(lia))).
        apply col_node_not_null.
      * exists DIR_RIGHT. rewrite (proj1 (Hrow c O Hc ltac:(lia))).
        apply row_node_not_null.
      * exists DIR_LEFT. rewrite (proj2 (Hrow c GRID_SIZE Hc ltac:(lia))).
        apply row_node_not_null.
    + intros d. split; [by intros []|]. by apply Hback.
Qed.


(** ** From a fresh engine to an operational one *)

Lemma shaped_fresh : shaped fresh.
Proof.
  unfold shaped, fresh. simpl. rewrite !length_replicate.
  repeat split; apply Forall_replicate; by rewrite length_replicate.
Qed.

Lemma link_of_update_value st p v q d :
  link_of (update st p (set_value v)) q d = link_of st q d.
Proof.
  unfold link_of. rewrite deref_update. case_decide; [|done].
  destruct (deref st q) as [n|]; [|done]. by destruct d.
Qed.

Lemma unlinked_init st : shaped st → unlinked (mirrorfield_init st).
Proof.
  intros Hsh q d. destruct (mirrorfield_init_inv st Hsh) as (_ & _ & Hq).
  unfold link_of. rewrite Hq.
  destruct (zeroed MIRROR_FIELD_COUNT 0 0 q) eqn:Hz.
  - destruct (deref st q); [|done]. by destruct d.
  - destruct (deref_out_of_bounds st q Hsh) as [f ->]; [|done].
    destruct q as [|k i|k i]; simpl in *; [done|..];
      apply bool_decide_eq_false in Hz; lia.
Qed.

Lemma shaped_set st ch : shaped st → shaped (mirrorfield_set st ch).2.
Proof.
  intros Hsh. unfold mirrorfield_set.
  repeat case_decide; simpl; try done;
    match goal with |- shaped (with_set (update ?s ?p ?f) _ _) =>
      change (shaped (update s p f)); by apply shaped_update end.
Qed.

Lemma unlinked_set st ch : unlinked st → unlinked (mirrorfield_set st ch).2.
Proof.
  intros Hun q d. unfold mirrorfield_set.
  repeat case_decide; simpl; try apply Hun;
    match goal with |- link_of (with_set (update ?s ?p (set_value ?v)) _ _) _ _ = _ =>
      change (link_of (update s p (set_value v)) q d = NULL);
      by rewrite link_of_update_value end.
Qed.

Lemma statics_set st ch :
  crypt_m (mirrorfield_set st ch).2 = crypt_m st ∧
  window (mirrorfield_set st ch).2 = window st.
Proof.
  unfold mirrorfield_set. repeat case_decide; simpl; try done;
    match goal with |- context [update ?s ?p ?f] =>
      by destruct (statics_update s p f) as (_ & _ & ? & ?) end.
Qed.

Lemma load_keeps cs st :
  shaped st → unlinked st →
  shaped (load cs st) ∧ unlinked (load cs st) ∧
  crypt_m (load cs st) = crypt_m st ∧ window (load cs st) = window st.
Proof.
  revert st. induction cs as [|c cs IH]; intros st Hsh Hun; [done|].
  change (load (c :: cs) st) with (load cs (mirrorfield_set st c).2).
  destruct (IH _ (shaped_set st c Hsh) (unlinked_set st c Hun)) as (? & ? & Hm & Hw).
  destruct (statics_set st c) as [Hm' Hw'].
  rewrite Hm, Hw, Hm', Hw'. done.
Qed.

Lemma deref_connect st c q :
  deref (connect st c) q =
    (if decide (c.2 = q) then set_link (opposite_dir c.1.2) c.1.1 else id) <$>
    ((if decide (c.1.1 = q) then set_link c.1.2 c.2 else id) <$> deref st q).
Proof.
  unfold connect. rewrite !deref_update.
  repeat case_decide; by destruct (deref st q).
Qed.

Lemma connect_keeps st c :
  shaped st →
  shaped (connect st c) ∧ statics_eq st (connect st c) ∧
  (∀ k, alphabet (connect st c) k = alphabet st k) ∧
  (∀ q n, deref st q = Ok n → ∃ n', deref (connect st c) q = Ok n' ∧ value n' = value n).
Proof.
  intros Hsh. split; [by do 2 apply shaped_update|].
  split; [by do 2 apply statics_eq_update|].
  assert (∀ q n, deref st q = Ok n →
            ∃ n', deref (connect st c) q = Ok n' ∧ value n' = value n) as Hval.
  { intros q n Hn. rewrite deref_connect, Hn.
    repeat case_decide; simpl; eexists; (split; [done|]);
      by rewrite ?value_set_link. }
  split; [|done]. intros k. unfold alphabet.
  assert (∀ st' p d x,
            value <$> default [] (perimeter (update st' p (set_link d x)) !! k)
            = value <$> default [] (perimeter st' !! k)) as Hupd.
  { intros st' p d x. destruct p as [|k' i|k' i]; [done|done|].
    unfold update, alter2. simpl.
    destruct (decide (k' = k)) as [->|Hne]; [|by rewrite list_lookup_alter_ne].
    rewrite list_lookup_alter_eq. destruct (perimeter st' !! k) as [row|]; [|done].
    simpl. apply list_eq. intros j. rewrite !list_lookup_fmap.
    destruct (decide (i = j)) as [->|Hij].
    - rewrite list_lookup_alter_eq. destruct (row !! j); [|done]. simpl.
      by rewrite value_set_link.
    - by rewrite list_lookup_alter_ne. }
  unfold connect. by rewrite !Hupd.
Qed.


Lemma connects_keeps l st :
  shaped st →
  shaped (connects l st) ∧ statics_eq st (connects l st) ∧
  (∀ k, alphabet (connects l st) k = alphabet st k) ∧
  (∀ q n, deref st q = Ok n →
     ∃ n', deref (connects l st) q = Ok n' ∧ value n' = value n).
Proof.
  induction l as [|c l IH] using rev_ind; intros Hsh.
  - split; [done|]. split; [done|]. split; [done|]. intros q n Hn. by exists n.
  - destruct (IH Hsh) as (Hsh1 & (Hi & Hj & Hm & Hw) & Ha1 & Hv1).
    rewrite connects_snoc.
    destruct (connect_keeps (connects l st) c Hsh1)
      as (Hsh2 & (Hi' & Hj' & Hm' & Hw') & Ha2 & Hv2).
    split; [done|]. split; [|split].
    + repeat split; congruence.
    + intros k. by rewrite Ha2, Ha1.
    + intros q n Hn. destruct (Hv1 q n Hn) as (n1 & Hn1 & Hval1).
      destruct (Hv2 q n1 Hn1) as (n2 & Hn2 & Hval2). exists n2. split; [done|congruence].
Qed.

(** Linking a validated, loaded engine makes it well formed. *)
Lemma wellformed_after_link st :
  shaped st → unlinked st →
  mirrorfield_validate st = 1 →
  perimeter_chars st →
  (crypt_m st < MIRROR_FIELD_COUNT)%nat →
  (roll_g1 st < GRID_SIZE * 4)%nat → (roll_g2 st < GRID_SIZE * 4)%nat →
  (roll_c st < MIRROR_FIELD_COUNT)%nat →
  wellformed (mirrorfield_link st).
Proof.
  intros Hsh Hun Hval Hchars Hm Hg1 Hg2 Hc.
  pose proof (connects_keeps all_connects st Hsh) as (Hsh' & (_ & _ & Hm' & Hw') & Ha & Hv).
  rewrite <- mirrorfield_link_connects in *.
  unfold window in Hw'. injection Hw' as Hg1' Hg2' Hc'.
  split; [done|]. split; [lia|]. split; [lia|]. split; [lia|]. split; [lia|].
  intros k Hk. split; [by apply mirrorfield_link_linked|].
  intros q Hq.
  destruct (validate_field_values st k Hsh Hval Hchars Hk q Hq) as (n & Hn & Hneg & Hpos).
  destruct (Hv q n Hn) as (n' & Hn' & Hval'). exists n'. rewrite Hval'. done.
Qed.

Lemma alphabet_link st k : shaped st → alphabet (mirrorfield_link st) k = alphabet st k.
Proof.
  intros Hsh. rewrite mirrorfield_link_connects.
  by destruct (connects_keeps all_connects st Hsh) as (_ & _ & Ha & _).
Qed.

Lemma perimeter_chars_init st : shaped st → perimeter_chars (mirrorfield_init st).
Proof.
  intros Hsh k i n Hn. destruct (mirrorfield_init_inv st Hsh) as (_ & _ & Hq).
  specialize (Hq (PerimNode k i)). unfold deref in Hq at 1. rewrite Hn in Hq.
  simpl in Hq. case_bool_decide.
  - destruct (deref st (PerimNode k i)); simpl in Hq; [|done]. by injection Hq as ->.
  - destruct (deref_out_of_bounds st (PerimNode k i) Hsh) as [f Hf]; [simpl; lia|].
    by rewrite Hf in Hq.
Qed.

Lemma perimeter_chars_set st ch :
  0 ≤ ch → perimeter_chars st → perimeter_chars (mirrorfield_set st ch).2.
Proof.
  intros Hch Hchars.
  assert (∀ p v, (¬ is_cell p → 0 ≤ v) → perimeter_chars (update st p (set_value v)))
    as Hupd.
  { intros p v Hv k i n Hn.
    assert (deref (update st p (set_value v)) (PerimNode k i) = Ok n) as Hd.
    { unfold deref. by rewrite Hn. }
    rewrite deref_update in Hd. destruct (decide (p = PerimNode k i)) as [->|Hne].
    - destruct (deref st (PerimNode k i)); simpl in Hd; [|done].
      injection Hd as <-. simpl. apply Hv. by intros [].
    - unfold deref in Hd. destruct (lookup2 (perimeter st) k i) eqn:Hl; [|done].
      injection Hd as <-. by eapply Hchars. }
  unfold mirrorfield_set. repeat case_decide; simpl; try done;
    match goal with |- perimeter_chars (with_set (update ?s ?p (set_value ?v)) _ _) =>
      change (perimeter_chars (update s p (set_value v))); apply Hupd end;
    simpl; tauto.
Qed.

Lemma perimeter_chars_load cs st :
  Forall (λ c, 0 ≤ c < 256) cs → perimeter_chars st → perimeter_chars (load cs st).
Proof.
  intros Hcs. revert st. induction Hcs as [|c cs Hc _ IH]; intros st Hchars; [done|].
  change (load (c :: cs) st) with (load cs (mirrorfield_set st c).2).
  apply IH, perimeter_chars_set; [lia|done].
Qed.

(** The driver's sequence init, load, validate, link leaves the engine well
    formed, and so does every call of cryptChar that returns. *)
Lemma reachable_wellformed st : reachable st → wellformed st.
Proof.
  induction 1 as [cs HG HM Hcs Hval|st fuel ch rv st' _ IH Hcall].
  - destruct (mirrorfield_init_inv fresh shaped_fresh) as (Hsh0 & (_ & _ & Hm0 & Hw0) & _).
    destruct (load_keeps cs (mirrorfield_init fresh) Hsh0
                (unlinked_init fresh shaped_fresh)) as (Hsh & Hun & Hm & Hw).
    rewrite Hw0 in Hw. rewrite Hm0 in Hm. unfold window in Hw. simpl in Hw, Hm.
    injection Hw as Hg1 Hg2 Hc.
    apply wellformed_after_link; try done; try lia.
    apply perimeter_chars_load; [done|]. by apply perimeter_chars_init, shaped_fresh.
  - by eapply wellformed_crypt_char.
Qed.

(** If moreover the perimeter codes loaded are below 4×GRID_SIZE, the
    engine is operational after linking. *)
Lemma operational_start cs :
  (0 < GRID_SIZE)%nat → (0 < MIRROR_FIELD_COUNT)%nat →
  Forall (λ c, 0 ≤ c < 256) cs →
  mirrorfield_validate (load cs (mirrorfield_init fresh)) = 1 →
  (∀ k v, v ∈ alphabet (load cs (mirrorfield_init fresh)) k →
          0 ≤ v < Z.of_nat (GRID_SIZE * 4) ∧ v < 256) →
  operational (mirrorfield_link (load cs (mirrorfield_init fresh))).
Proof.
  intros HG HM Hcs Hval Hrange.
  split; [by apply reachable_wellformed, reachable_linked|].
  destruct (mirrorfield_init_inv fresh shaped_fresh) as (Hsh0 & _).
  destruct (load_keeps cs (mirrorfield_init fresh) Hsh0
              (unlinked_init fresh shaped_fresh)) as (Hsh & _).
  intros k v Hv. rewrite alphabet_link in Hv by done. by apply (Hrange k).
Qed.


(** The traversal in a reachable engine. *)
Lemma reachable_traversal st k i d :
  reachable st →
  (k < MIRROR_FIELD_COUNT)%nat → (i < GRID_SIZE * 4)%nat →
  link_of st (PerimNode k i) d ≠ NULL →
  ∃ n t st',
    (n ≤ 2 * (GRID_SIZE * GRID_SIZE))%nat
    ∧ (∀ fuel, (n < fuel)%nat →
         mirrorfield_crypt_char_advance fuel st (PerimNode k i) d = Ok (t, st')
         ∧ length (path fuel st (PerimNode k i) d) = n)
    ∧ ∃ i', t = PerimNode k i' ∧ (i' < GRID_SIZE * 4)%nat.
Proof.
  intros (_ & _ & _ & _ & _ & Hall)%reachable_wellformed Hk Hi Hnn.
  destruct (Hall k Hk) as [Hl Hfv].
  destruct (advance_depth st k i d Hl Hfv Hi Hnn) as (n & t & st' & Hn & _ & Hret & Ht).
  by exists n, t, st'.
Qed.


(** ** The Roll Window in a reachable engine *)

Lemma crypt_char_window fuel st ch rv st' :
  mirrorfield_crypt_char fuel st ch = Ok (rv, st') →
  window st' = advance_window (window st).
Proof.
  intros (row & i & ns & d & endnode & st1 & ns1 & ne & st2 & vk & Hrow & Hfind & Hi
          & Hns & Hv & Hd & Hadv & Hns1 & Hne & Hroll & Hvk & -> & ->)%crypt_char_Ok.
  pose proof (statics_advance _ _ _ _ _ _ Hadv) as (_ & _ & _ & Hw1).
  pose proof (roll_chars_window _ _ _ _ _ Hroll) as Hw2.
  change (window (with_crypt_m st2 _)) with (window st2). by rewrite Hw2, Hw1.
Qed.

Lemma reachable_window st :
  reachable st → ∃ n, window st = Nat.iter n advance_window (window fresh).
Proof.
  induction 1 as [cs HG HM Hcs Hval|st fuel ch rv st' _ [n IH] Hcall].
  - exists O. simpl.
    destruct (mirrorfield_init_inv fresh shaped_fresh) as (Hsh0 & (_ & _ & _ & Hw0) & _).
    destruct (load_keeps cs (mirrorfield_init fresh) Hsh0
                (unlinked_init fresh shaped_fresh)) as (Hsh & _ & _ & Hw).
    rewrite mirrorfield_link_connects.
    destruct (connects_keeps all_connects _ Hsh) as (_ & (_ & _ & _ & Hw') & _).
    by rewrite Hw', Hw, Hw0.
  - exists (S n). simpl. rewrite <- IH. by eapply crypt_char_window.
Qed.

(** C10: g1 starts at 0 and g2 at 2×GRID_SIZE; the invariant
    g2 = (g1 + 2×GRID_SIZE) mod (4×GRID_SIZE) holds in a freshly started
    engine, is kept by every call of the rolling step that returns, and so
    holds after any number of calls and in every reachable engine. *)
Theorem roll_window_opposite :
  roll_g1 fresh = 0%nat ∧ roll_g2 fresh = (GRID_SIZE * 2)%nat
  ∧ opposite (window fresh)
  ∧ (∀ st s e m st',
        mirrorfield_roll_chars st s e m = Ok st' →
        opposite (window st) → opposite (window st'))
  ∧ (∀ n, opposite (Nat.iter n advance_window (window fresh)))
  ∧ (∀ st, reachable st → opposite (window st)).
Proof.
  split; [done|]. split; [done|]. split; [apply opposite_fresh|]. split; [|split].
  - intros st s e m st' Hr Ho. rewrite (roll_chars_window _ _ _ _ _ Hr).
    by apply opposite_advance.
  - apply opposite_iter.
  - intros st [n ->]%reachable_window. apply opposite_iter.
Qed.

(** ** The sides of a linked field *)

Lemma slot_keys k i d :
  (PerimNode k i, d) ∈ keys all_connects →
  (i < GRID_SIZE ∧ d = DIR_DOWN)%nat
  ∨ (GRID_SIZE ≤ i < GRID_SIZE * 2 ∧ d = DIR_LEFT)%nat
  ∨ (GRID_SIZE * 2 ≤ i < GRID_SIZE * 3 ∧ d = DIR_UP)%nat
  ∨ (GRID_SIZE * 3 ≤ i < GRID_SIZE * 4 ∧ d = DIR_RIGHT)%nat.
Proof.
  intros (a & d0 & b & Hc & Hpd)%elem_of_keys.
  apply elem_of_all_connects in Hc as (k' & c & s & Hk' & Hc & Hs & Hcon).
  unfold col_node, row_node in Hcon.
  destruct Hcon as [[= -> -> ->]|[= -> -> ->]];
    destruct Hpd as [[= Hq ->]|[= Hq ->]]; repeat case_decide; simplify_eq; simpl; try lia;
    [left|do 2 right; left|do 3 right|right; left]; (split; [lia|done]).
Qed.

Lemma link_chains st k :
  shaped st → (k < MIRROR_FIELD_COUNT)%nat →
  (∀ i s, (i < GRID_SIZE)%nat → (s ≤ GRID_SIZE)%nat →
     link_of (mirrorfield_link st) (col_node k i s) DIR_DOWN = col_node k i (S s) ∧
     link_of (mirrorfield_link st) (col_node k i (S s)) DIR_UP = col_node k i s ∧
     link_of (mirrorfield_link st) (row_node k i s) DIR_RIGHT = row_node k i (S s) ∧
     link_of (mirrorfield_link st) (row_node k i (S s)) DIR_LEFT = row_node k i s)
  ∧ (∀ q d, (q, d) ∉ keys all_connects →
       link_of (mirrorfield_link st) q d = link_of st q d).
Proof.
  intros Hsh Hk. rewrite mirrorfield_link_connects.
  destruct (connects_links all_connects st) as [Hin Hout]; [|apply NoDup_keys_all|].
  { intros a d b (k' & i & s & Hk' & Hi & Hs & [[= -> -> ->]|[= -> -> ->]])%elem_of_all_connects;
      split; apply (valid_in_field st k'); auto using col_node_in_field, row_node_in_field. }
  split; [|done]. intros i s Hi Hs.
  destruct (Hin (col_node k i s) DIR_DOWN (col_node k i (S s))) as [H1 H2].
  { apply elem_of_all_connects. exists k, i, s. auto. }
  destruct (Hin (row_node k i s) DIR_RIGHT (row_node k i (S s))) as [H3 H4].
  { apply elem_of_all_connects. exists k, i, s. auto. }
  done.
Qed.

Lemma mirrorfield_link_single st k :
  shaped st → unlinked st → (k < MIRROR_FIELD_COUNT)%nat →
  single_link (mirrorfield_link st) k.
Proof.
  intros Hsh Hun Hk. destruct (link_chains st k Hsh Hk) as [_ Hout].
  assert (∀ i d, link_of (mirrorfield_link st) (PerimNode k i) d ≠ NULL →
                 (PerimNode k i, d) ∈ keys all_connects) as Hkey.
  { intros i d Hnn. destruct (decide ((PerimNode k i, d) ∈ keys all_connects)); [done|].
    by rewrite Hout, Hun in Hnn. }
  intros i d d' Hd%Hkey%slot_keys Hd'%Hkey%slot_keys.
  destruct Hd as [[? ->]|[[? ->]|[[? ->]|[? ->]]]];
    destruct Hd' as [[? ->]|[[? ->]|[[? ->]|[? ->]]]]; (done || lia).
Qed.

(** ** Two engines with the same nodes and statics *)

Lemma lookup2_ext (a b : list (list gridnode)) n m :
  length a = n → length b = n →
  Forall (λ row, length row = m) a → Forall (λ row, length row = m) b →
  (∀ k i, lookup2 b k i = lookup2 a k i) → b = a.
Proof.
  intros Ha Hb Hra Hrb Heq. apply list_eq. intros k.
  destruct (a !! k) as [ra|] eqn:Hka.
  - destruct (lookup_lt_is_Some_2 b k) as [rb Hkb].
    { apply lookup_lt_Some in Hka. lia. }
    rewrite Hkb. f_equal. apply list_eq. intros i.
    specialize (Heq k i). unfold lookup2 in Heq. by rewrite Hka, Hkb in Heq.
  - apply lookup_ge_None. apply lookup_ge_None in Hka. lia.
Qed.

Lemma engine_ext st st' :
  shaped st → shaped st' → statics_eq st st' →
  (∀ q, deref st' q = deref st q) → st' = st.
Proof.
  intros (Hg & Hp & Hgr & Hpr) (Hg' & Hp' & Hgr' & Hpr') (Hi & Hj & Hm & Hw) Hq.
  assert (gridnodes st' = gridnodes st) as Hgrid.
  { apply (lookup2_ext _ _ MIRROR_FIELD_COUNT (GRID_SIZE * GRID_SIZE)); try done.
    intros k i. specialize (Hq (GridNode k i)). unfold deref in Hq.
    destruct (lookup2 (gridnodes st') k i), (lookup2 (gridnodes st) k i);
      simpl in Hq; congruence. }
  assert (perimeter st' = perimeter st) as Hper.
  { apply (lookup2_ext _ _ MIRROR_FIELD_COUNT (GRID_SIZE * 4)); try done.
    intros k i. specialize (Hq (PerimNode k i)). unfold deref in Hq.
    destruct (lookup2 (perimeter st') k i), (lookup2 (perimeter st) k i);
      simpl in Hq; congruence. }
  unfold window in Hw. injection Hw as Hg1 Hg2 Hc.
  destruct st, st'. simpl in *. congruence.
Qed.

(** ** The traversal taken backwards *)

Lemma advance_exit fuel st p d t st' :
  mirrorfield_crypt_char_advance fuel st p d = Ok (t, st') →
  t = link_of st (last_edge fuel st (p, d)).1 (last_edge fuel st (p, d)).2.
Proof.
  revert p d t st'. induction fuel as [|fuel IH]; intros p d t st' Hadv; [done|].
  rewrite advance_S in Hadv.
  apply bind_Ok in Hadv as (n0 & Hn0 & Hadv).
  apply bind_Ok in Hadv as (n & Hn & Hadv).
  simpl. unfold step. simpl. rewrite Hn0, Hn.
  destruct (decide (value n < 0)).
  - apply bind_Ok in Hadv as ([t1 st1] & Hrec & Hadv).
    apply bind_Ok in Hadv as (n' & Hn' & Hadv). injection Hadv as <- <-.
    by apply IH in Hrec.
  - injection Hadv as <- <-. simpl. unfold link_of. by rewrite Hn0.
Qed.

Lemma walk_length_le fuel st e : (length (walk fuel st e) ≤ fuel)%nat.
Proof.
  revert e. induction fuel as [|fuel IH]; intros e; simpl; [done|].
  destruct (step st e) as [e'|]; simpl; [|lia]. specialize (IH e'). lia.
Qed.

Section Backwards.

Variable st : engine.
Variable k : nat.
Hypothesis Hlinked : linked st k.
Hypothesis Hvalues : field_values st k.

Lemma last_edge_usable fuel e : usable st k e → usable st k (last_edge fuel st e).
Proof.
  revert e. induction fuel as [|fuel IH]; intros e Hu; simpl; [done|].
  destruct (step st e) as [e'|] eqn:Hstep; [|done].
  apply IH. by destruct (step_Some st k Hlinked Hvalues _ _ Hu Hstep) as (_ & _ & _ & ?).
Qed.

Lemma last_edge_stop fuel e :
  usable st k e → ¬ is_cell (link_of st e.1 e.2) →
  walk fuel st e = [] ∧ last_edge fuel st e = e.
Proof.
  intros Hu Hslot. destruct fuel as [|fuel]; [done|]. simpl.
  by rewrite (step_slot st k Hlinked Hvalues e Hu Hslot).
Qed.

(** The walk started at the exit, in the direction opposite to the last
    step, runs through the same cells in the opposite order and then goes
    on as the walk from the entry taken backwards. *)
Lemma walk_back fuel e0 :
  usable st k e0 →
  ∃ l, l.*1 = rev (walk fuel st e0).*1 ∧
    ∀ g, walk (length (walk fuel st e0) + g) st (reverse st (last_edge fuel st e0))
           = l ++ walk g st (reverse st e0)
         ∧ last_edge (length (walk fuel st e0) + g) st (reverse st (last_edge fuel st e0))
           = last_edge g st (reverse st e0).
Proof.
  revert e0. induction fuel as [|fuel IH]; intros e0 Hu.
  { exists []. done. }
  simpl. destruct (step st e0) as [e1|] eqn:Hstep; [|by exists []].
  destruct (step_Some st k Hlinked Hvalues _ _ Hu Hstep) as (Hq & _ & _ & Hu1).
  destruct (IH e1 Hu1) as (l & Hl & Hg).
  pose proof (step_reverse st k Hlinked Hvalues _ _ Hu Hstep) as Hback.
  exists (l ++ [reverse st e0]). split.
  - rewrite fmap_app, Hl. simpl. by rewrite Hq.
  - intros g. destruct (Hg (S g)) as [Hw Hlast].
    replace (length (e1 :: walk fuel st e1) + g)%nat
      with (length (walk fuel st e1) + S g)%nat by (simpl; lia).
    rewrite Hw, Hlast. simpl. rewrite Hback. by rewrite <- app_assoc.
Qed.

Lemma advance_backwards fuel e0 t st1 :
  shaped st →
  usable st k e0 → ¬ is_cell e0.1 →
  mirrorfield_crypt_char_advance fuel st e0.1 e0.2 = Ok (t, st1) →
  let d' := opposite_dir (last_edge fuel st e0).2 in
  link_of st t d' ≠ NULL
  ∧ in_field k t ∧ ¬ is_cell t
  ∧ mirrorfield_crypt_char_advance fuel st t d' = Ok (e0.1, st1)
  ∧ path fuel st t d' = rev (path fuel st e0.1 e0.2).
Proof.
  intros Hsh Hu Hslot Hadv d'.
  pose proof (advance_exit _ _ _ _ _ _ Hadv) as Ht.
  replace (e0.1, e0.2) with e0 in Ht by (by destruct e0).
  set (en := last_edge fuel st e0) in *.
  assert (usable st k en) as Hun by (by apply last_edge_usable).
  assert ((t, d') = reverse st en) as Heb by (unfold reverse; by rewrite Ht).
  pose proof (usable_reverse st k Hlinked en Hun) as Hub. rewrite <- Heb in Hub.
  assert (length (walk fuel st e0) < fuel)%nat as Hlen.
  { pose proof (walk_length_le fuel st e0) as Hle.
    destruct (decide (length (walk fuel st e0) = fuel)) as [Heq|]; [|lia].
    by rewrite (advance_out_of_fuel st k Hlinked Hvalues fuel e0 Hu Heq) in Hadv. }
  destruct (walk_back fuel e0 Hu) as (l & Hl & Hg).
  destruct (Hg (fuel - length (walk fuel st e0))%nat) as [Hw Hlast].
  replace (length (walk fuel st e0) + (fuel - length (walk fuel st e0)))%nat
    with fuel in Hw, Hlast by lia.
  fold en in Hw, Hlast. rewrite <- Heb in Hw, Hlast.
  assert (link_of st (reverse st e0).1 (reverse st e0).2 = e0.1) as Hstart.
  { destruct Hu as [Hin Hnn]. by apply Hlinked. }
  destruct (last_edge_stop (fuel - length (walk fuel st e0)) (reverse st e0))
    as [Hnil Hstop].
  { by apply usable_reverse. }
  { by rewrite Hstart. }
  rewrite Hnil, app_nil_r in Hw. rewrite Hstop in Hlast.
  assert (path fuel st t d' = rev (path fuel st e0.1 e0.2)) as Hpath.
  { rewrite !(path_walk st). replace (e0.1, e0.2) with e0 by (by destruct e0).
    by rewrite Hw. }
  destruct (advance_stops st k Hlinked Hvalues fuel (t, d') Hub)
    as (t' & st1' & Hadv' & _).
  { rewrite Hw. rewrite <- (length_fmap fst), Hl, length_rev, length_fmap. done. }
  simpl in Hadv'.
  pose proof (advance_exit _ _ _ _ _ _ Hadv') as Ht'.
  rewrite Hlast, Hstart in Ht'. subst t'.
  assert (st1' = st1) as ->.
  { apply engine_ext.
    - by eapply shaped_advance.
    - by eapply shaped_advance.
    - destruct (statics_advance _ _ _ _ _ _ Hadv) as (? & ? & ? & ?).
      destruct (statics_advance _ _ _ _ _ _ Hadv') as (? & ? & ? & ?).
      repeat split; congruence.
    - intros q. rewrite (advance_rotations _ _ _ _ _ _ Hadv),
        (advance_rotations _ _ _ _ _ _ Hadv'), Hpath.
      unfold passes. by rewrite count_occ_rev. }
  destruct Hub as [Hin Hnn]. simpl in Hin, Hnn.
  destruct (advance_stops st k Hlinked Hvalues fuel e0 Hu Hlen)
    as (t0 & st0 & Hadv0 & Hin0 & Hslot0).
  rewrite Hadv in Hadv0. injection Hadv0 as <- <-. done.
Qed.

End Backwards.

(** ** cryptChar undoes itself *)

Lemma rotate_order_sym st s e m p :
  NoDup (alphabet st m) →
  rotate_order st s e m = Ok p → rotate_order st e s m = Ok p.
Proof.
  unfold rotate_order. intros Hnd Hord.
  apply bind_Ok in Hord as (vs & Hvs & Hord).
  apply bind_Ok in Hord as (ve & Hve & Hord).
  rewrite Hve, bind_Ok_l, Hvs, bind_Ok_l. rewrite <- Hord. f_equal.
  destruct (decide (vs = ve)) as [<-|Hne].
  - assert (s = e) as <-; [|done].
    pose proof (proj1 (proj1 (perimeter_value_Ok _ _ _ _) Hvs)) as Hs0.
    pose proof (proj1 (proj1 (perimeter_value_Ok _ _ _ _) Hve)) as He0.
    rewrite <- (Z2Nat.id s Hs0) in Hvs. rewrite <- (Z2Nat.id e He0) in Hve.
    apply perimeter_value_alphabet in Hvs, Hve.
    pose proof (NoDup_lookup _ _ _ _ Hnd Hvs Hve). lia.
  - repeat case_decide; (done || lia).
Qed.

Lemma roll_chars_sym st s e m st' :
  NoDup (alphabet st m) →
  mirrorfield_roll_chars st s e m = Ok st' → mirrorfield_roll_chars st e s m = Ok st'.
Proof.
  intros Hnd Hroll. unfold mirrorfield_roll_chars in *.
  apply bind_Ok in Hroll as ([x1 x2] & Hord & Hroll).
  by rewrite (rotate_order_sym _ _ _ _ _ Hnd Hord), bind_Ok_l.
Qed.

Lemma initial_direction_link n d : initial_direction n = Ok d → neighbour n d ≠ NULL.
Proof.
  unfold initial_direction. repeat case_decide; intros [= <-]; done.
Qed.

Lemma initial_direction_single n d :
  neighbour n d ≠ NULL →
  (∀ d', neighbour n d' ≠ NULL → d' = d) →
  initial_direction n = Ok d.
Proof.
  intros Hd Hone. destruct (initial_direction_Ok n) as (d' & -> & Hd'); [by exists d|].
  by rewrite (Hone d' Hd').
Qed.

Lemma find_start_NoDup row ch m i n :
  NoDup (value <$> row) →
  row !! i = Some n → value n = ch →
  find_start row ch m 0 = PerimNode m i.
Proof.
  intros Hnd Hi Hv.
  destruct (find_start_spec row ch m 0) as [[_ Hmiss]|(j & n' & -> & Hj & Hv' & _)].
  - exfalso. apply (Hmiss n); [|done]. by eapply list_elem_of_lookup_2.
  - f_equal. simpl. apply (NoDup_lookup _ _ _ ch Hnd).
    + by rewrite list_lookup_fmap, Hj, <- Hv'.
    + by rewrite list_lookup_fmap, Hi, <- Hv.
Qed.

Lemma alphabet_lookup st m i n :
  lookup2 (perimeter st) m i = Some n → alphabet st m !! i = Some (value n).
Proof.
  unfold lookup2, alphabet. destruct (perimeter st !! m) as [row|]; simpl; [|done].
  intros Hi. by rewrite list_lookup_fmap, Hi.
Qed.

Lemma crypt_char_involution fuel st ch rv st' :
  keyed st →
  mirrorfield_crypt_char fuel st ch = Ok (rv, st') →
  mirrorfield_crypt_char fuel st rv = Ok (ch, st').
Proof.
  intros [Hwf Hkey] Hcall. pose proof Hcall as Hcall0.
  pose proof (wellformed_perimeter_chars st Hwf) as Hchars.
  destruct Hwf as (Hsh & Hm & Hg1 & Hg2 & Hc & Hall).
  destruct (Hall _ Hm) as (Hl & Hfv). destruct (Hkey _ Hm) as (Hnd & H256 & Hsingle).
  apply crypt_char_Ok in Hcall
    as (row & i & ns & d & endnode & st1 & ns1 & ne & st2 & vk & Hrow & Hfind & Hi
        & Hns & Hv & Hd & Hadv & Hns1 & Hne & Hroll & Hvk & Hrv & Hst').
  set (m := crypt_m st) in *.
  pose proof (advance_perimeter _ _ _ _ _ _ Hchars Hadv) as Hper.
  assert (∀ j, deref st1 (PerimNode m j) = deref st (PerimNode m j)) as Hsame.
  { intros j. unfold deref. by rewrite Hper. }
  assert (∀ j n, deref st (PerimNode m j) = Ok n → to_uchar (value n) = value n) as Hbyte.
  { intros j n Hn. unfold deref in Hn.
    destruct (lookup2 (perimeter st) m j) as [n'|] eqn:Hj; simpl in Hn; [|done].
    injection Hn as ->. pose proof (alphabet_lookup _ _ _ _ Hj) as Ha.
    apply list_elem_of_lookup_2 in Ha. pose proof (H256 _ Ha).
    assert (0 ≤ value n) by (by eapply Hchars).
    unfold to_uchar. apply Z.mod_small. lia. }
  rewrite Hsame, Hns in Hns1. injection Hns1 as <-.
  rewrite (Hbyte _ _ Hns), Hv in Hroll, Hvk, Hrv.
  set (e0 := (PerimNode m i, d)).
  assert (usable st m e0) as Hu.
  { split; [done|]. unfold link_of. simpl. rewrite Hns. by apply initial_direction_link. }
  assert (¬ is_cell e0.1) as Hslot by (by intros []).
  destruct (advance_backwards st m Hl Hfv fuel e0 endnode st1 Hsh Hu Hslot Hadv)
    as (Hnn & Hin & Hnc & Hback & _).
  set (d' := opposite_dir (last_edge fuel st e0).2) in *.
  destruct endnode as [|k' j|k' i']; simpl in Hin, Hnc; [done|by destruct Hnc|].
  destruct Hin as [-> Hi'].
  rewrite Hsame in Hne. rewrite (Hbyte _ _ Hne) in Hroll, Hvk, Hrv.
  case_decide as Hecho; subst rv; [exact Hcall0|].
  destruct (shaped_row st m Hsh Hm) as (row' & Hrow' & Hlen).
  rewrite Hrow in Hrow'. injection Hrow' as <-.
  assert (row !! i' = Some ne) as Hi'_row.
  { unfold deref, lookup2 in Hne. rewrite Hrow in Hne. simpl in Hne.
    destruct (row !! i'); simpl in Hne; congruence. }
  assert (NoDup (value <$> row)) as Hnd_row.
  { unfold alphabet in Hnd. by rewrite Hrow in Hnd. }
  unfold mirrorfield_crypt_char. fold m. rewrite Hrow.
  change (of_option (Some row) OutOfBounds) with (Ok row).
  rewrite bind_Ok_l, take_ge by lia.
  rewrite (find_start_NoDup row (value ne) m i' ne Hnd_row Hi'_row eq_refl).
  rewrite Hne, bind_Ok_l.
  rewrite (initial_direction_single ne d').
  2:{ unfold link_of in Hnn. by rewrite Hne in Hnn. }
  2:{ intros d'' Hd''. apply (Hsingle i'); [|done].
      unfold link_of. by rewrite Hne. }
  rewrite bind_Ok_l. simpl in Hback. rewrite Hback, bind_Ok_l.
  rewrite !Hsame, Hne, Hns, !bind_Ok_l.
  rewrite (Hbyte _ _ Hne), (Hbyte _ _ Hns), Hv.
  rewrite (roll_chars_sym st1 ch (value ne) m st2); [|by (unfold alphabet; rewrite Hper)|done].
  rewrite bind_Ok_l, (Z.add_comm ch (value ne)), Hvk, bind_Ok_l.
  rewrite decide_False by done. by rewrite Hst'.
Qed.

(** ** What cryptChar keeps of a keyed engine *)

Lemma link_of_rotations st st' c q d :
  deref st' q = rotations c <$> deref st q → link_of st' q d = link_of st q d.
Proof.
  unfold link_of. intros ->. destruct (deref st q) as [n|]; [|done]. by destruct d.
Qed.

Lemma swap_values_links st m i g st' q d :
  swap_values st m i g = Ok st' → link_of st' q d = link_of st q d.
Proof.
  unfold swap_values. intros Hs.
  apply bind_Ok in Hs as (t & Ht & Hs). apply bind_Ok in Hs as (vg & Hvg & Hs).
  cbv zeta in Hs. injection Hs as <-. by rewrite !link_of_update_value.
Qed.

Lemma crypt_char_links fuel st ch rv st' q d :
  mirrorfield_crypt_char fuel st ch = Ok (rv, st') →
  link_of st' q d = link_of st q d.
Proof.
  intros (row & i & ns & d0 & endnode & st1 & ns1 & ne & st2 & vk & Hrow & Hfind & Hi
          & Hns & Hv & Hd & Hadv & Hns1 & Hne & Hroll & Hvk & -> & ->)%crypt_char_Ok.
  apply roll_chars_Ok in Hroll
    as (x1 & x2 & i1 & sta & i2 & stb & _ & _ & Hs1 & _ & Hs2 & ->).
  change (link_of stb q d = link_of st q d).
  rewrite (swap_values_links _ _ _ _ _ _ _ Hs2), (swap_values_links _ _ _ _ _ _ _ Hs1).
  eapply link_of_rotations. by eapply advance_rotations.
Qed.

Lemma keyed_crypt_char fuel st ch rv st' :
  mirrorfield_crypt_char fuel st ch = Ok (rv, st') →
  keyed st → keyed st'.
Proof.
  intros Hcall [Hwf Hkey]. split; [by eapply wellformed_crypt_char|].
  pose proof (wellformed_perimeter_chars st Hwf) as Hchars.
  intros k Hk. destruct (Hkey k Hk) as (Hnd & H256 & Hsingle).
  destruct (alphabet_perm_of_call _ _ _ _ _ Hchars Hcall k) as [Hperm _].
  split; [by rewrite Hperm|]. split.
  - intros v Hv. apply H256. by rewrite <- Hperm.
  - intros i d d'. rewrite !(crypt_char_links _ _ _ _ _ _ _ Hcall). apply Hsingle.
Qed.

Lemma alphabet_elem st k v :
  v ∈ alphabet st k ↔ ∃ i n, lookup2 (perimeter st) k i = Some n ∧ value n = v.
Proof.
  unfold alphabet, lookup2. split.
  - intros (n & -> & Hn)%list_elem_of_fmap.
    destruct (perimeter st !! k) as [row|]; simpl in *; [|by apply elem_of_nil in Hn].
    apply list_elem_of_lookup in Hn as [i Hi]. by exists i, n.
  - intros (i & n & Hn & <-). destruct (perimeter st !! k) as [row|]; simpl in *; [|done].
    apply list_elem_of_fmap. exists n. split; [done|]. by eapply list_elem_of_lookup_2.
Qed.

Lemma alphabet_init st k v : shaped st → v ∈ alphabet (mirrorfield_init st) k → v = 0.
Proof.
  intros Hsh (i & n & Hn & <-)%alphabet_elem.
  destruct (mirrorfield_init_inv st Hsh) as (_ & _ & Hq).
  specialize (Hq (PerimNode k i)). unfold deref in Hq at 1. rewrite Hn in Hq.
  simpl in Hq. case_bool_decide.
  - destruct (deref st (PerimNode k i)); simpl in Hq; [|done]. by injection Hq as ->.
  - destruct (deref_out_of_bounds st (PerimNode k i) Hsh) as [f Hf]; [simpl; lia|].
    by rewrite Hf in Hq.
Qed.

Lemma alphabet_with_set st i j k : alphabet (with_set st i j) k = alphabet st k.
Proof. done. Qed.

Lemma alphabet_update_grid st k' i f k :
  alphabet (update st (GridNode k' i) f) k = alphabet st k.
Proof. done. Qed.

Lemma alphabet_set (P : Z → Prop) st ch k :
  P ch → Forall P (alphabet st k) → Forall P (alphabet (mirrorfield_set st ch).2 k).
Proof.
  intros Hch Hall. unfold mirrorfield_set.
  repeat case_decide; simpl; rewrite ?alphabet_with_set, ?alphabet_update_grid; try done.
  rewrite alphabet_update_value. case_decide; [|done].
  destruct (decide (((set_i st - GRID_SIZE * GRID_SIZE * MIRROR_FIELD_COUNT)
                       mod (GRID_SIZE * 4))%nat < length (alphabet st k))%nat).
  - by apply Forall_insert.
  - by rewrite list_insert_ge by lia.
Qed.

Lemma alphabet_load (P : Z → Prop) cs st k :
  Forall P cs → Forall P (alphabet st k) → Forall P (alphabet (load cs st) k).
Proof.
  intros Hcs. revert st. induction Hcs as [|c cs Hc _ IH]; intros st Hall; [done|].
  change (load (c :: cs) st) with (load cs (mirrorfield_set st c).2).
  by apply IH, alphabet_set.
Qed.

(** Every state the driver can bring the engine to holds a key. *)
Lemma reachable_keyed st : reachable st → keyed st.
Proof.
  induction 1 as [cs HG HM Hcs Hval|st fuel ch rv st' _ IH Hcall].
  - split; [by apply reachable_wellformed, reachable_linked|].
    destruct (mirrorfield_init_inv fresh shaped_fresh) as (Hsh0 & _).
    destruct (load_keeps cs (mirrorfield_init fresh) Hsh0
                (unlinked_init fresh shaped_fresh)) as (Hsh & Hun & _).
    intros k Hk. rewrite alphabet_link by done. split; [|split].
    + by apply validate_alphabet_NoDup.
    + assert (Forall (λ v, v < 256) (alphabet (load cs (mirrorfield_init fresh)) k)) as Hall.
      { apply alphabet_load.
        - eapply Forall_impl; [done|]. simpl. lia.
        - apply Forall_forall. intros v Hv%alphabet_init; [lia|apply shaped_fresh]. }
      rewrite Forall_forall in Hall. done.
    + by apply mirrorfield_link_single.
  - by eapply keyed_crypt_char.
Qed.

(** ** Messages *)

Lemma crypt_chars_cons fuel st b bs :
  crypt_chars fuel st (b :: bs) =
    '(c, st1) ← mirrorfield_crypt_char fuel st b;
    '(cs, st2) ← crypt_chars fuel st1 bs;
    Ok (c :: cs, st2).
Proof. done. Qed.

Lemma crypt_chars_Ok fuel st b bs r :
  crypt_chars fuel st (b :: bs) = Ok r ↔
  ∃ c st1 cs st2,
    mirrorfield_crypt_char fuel st b = Ok (c, st1) ∧
    crypt_chars fuel st1 bs = Ok (cs, st2) ∧ r = (c :: cs, st2).
Proof.
  rewrite crypt_chars_cons. split.
  - intros ([c st1] & Hc & Hr)%bind_Ok. apply bind_Ok in Hr as ([cs st2] & Hcs & [= <-]).
    by exists c, st1, cs, st2.
  - intros (c & st1 & cs & st2 & -> & Hcs & ->). rewrite bind_Ok_l, Hcs. done.
Qed.

Lemma crypt_chars_involution fuel st bs cs st' :
  keyed st →
  crypt_chars fuel st bs = Ok (cs, st') →
  crypt_chars fuel st cs = Ok (bs, st').
Proof.
  revert st cs st'. induction bs as [|b bs IH]; intros st cs st' Hkey Hrun.
  - by injection Hrun as <- <-.
  - apply crypt_chars_Ok in Hrun as (c & st1 & cs' & st2 & Hc & Hcs & [= -> ->]).
    apply crypt_chars_Ok. exists b, st1, bs, st2.
    split; [by apply crypt_char_involution|]. split; [|done].
    apply IH; [|done]. by eapply keyed_crypt_char.
Qed.

(** ** Every byte of the alphabet is accepted *)

Lemma alphabet_length st k :
  shaped st → (k < MIRROR_FIELD_COUNT)%nat → length (alphabet st k) = (GRID_SIZE * 4)%nat.
Proof.
  intros Hsh Hk. destruct (shaped_row st k Hsh Hk) as (row & Hrow & Hlen).
  unfold alphabet. rewrite Hrow. simpl. by rewrite length_fmap.
Qed.

Lemma alphabet_full st k b :
  shaped st → (k < MIRROR_FIELD_COUNT)%nat →
  NoDup (alphabet st k) →
  (∀ v, v ∈ alphabet st k → 0 ≤ v < Z.of_nat (GRID_SIZE * 4)) →
  0 ≤ b < Z.of_nat (GRID_SIZE * 4) →
  b ∈ alphabet st k.
Proof.
  intros Hsh Hk Hnd Hrange Hb.
  assert (alphabet st k ≡ₚ Z.of_nat <$> seq 0 (GRID_SIZE * 4)) as Hperm.
  { apply submseteq_length_Permutation.
    - apply NoDup_submseteq; [done|]. intros v Hv%Hrange.
      apply list_elem_of_fmap. exists (Z.to_nat v). split; [lia|].
      apply elem_of_seq. lia.
    - by rewrite length_fmap, length_seq, alphabet_length. }
  rewrite Hperm. apply list_elem_of_fmap. exists (Z.to_nat b). split; [lia|].
  apply elem_of_seq. lia.
Qed.

Lemma crypt_char_output fuel st ch rv st' :
  keyed st →
  mirrorfield_crypt_char fuel st ch = Ok (rv, st') →
  ch ∈ alphabet st (crypt_m st) ∧ rv ∈ alphabet st (crypt_m st).
Proof.
  intros Hkey Hcall.
  assert (∀ a b, mirrorfield_crypt_char fuel st a = Ok (b, st') →
                 a ∈ alphabet st (crypt_m st)) as Hin.
  { intros a b (row & i & ns & d & endnode & st1 & ns1 & ne & st2 & vk & Hrow & Hfind & Hi
                & Hns & Hv & _)%crypt_char_Ok.
    apply alphabet_elem. exists i, ns. split; [|done]. unfold deref in Hns.
    destruct (lookup2 _ _ _); simpl in Hns; congruence. }
  split; [by eapply Hin|]. eapply Hin. by apply crypt_char_involution.
Qed.

Lemma crypt_chars_returns st bs :
  operational st → keyed st →
  Forall (λ b, 0 ≤ b < Z.of_nat (GRID_SIZE * 4)) bs →
  ∃ cs st',
    crypt_chars (S (2 * (GRID_SIZE * GRID_SIZE))) st bs = Ok (cs, st')
    ∧ length cs = length bs
    ∧ Forall (λ c, 0 ≤ c < Z.of_nat (GRID_SIZE * 4)) cs
    ∧ operational st' ∧ keyed st'.
Proof.
  intros Hop Hkey Hbs. revert st Hop Hkey.
  induction Hbs as [|b bs Hb _ IH]; intros st Hop Hkey.
  { exists [], st. done. }
  pose proof Hop as [Hwf Hrange]. pose proof Hwf as (Hsh & Hm & _).
  destruct (proj2 Hkey _ Hm) as (Hnd & _).
  assert (b ∈ alphabet st (crypt_m st)) as Hin.
  { apply alphabet_full; try done. intros v Hv. by apply (Hrange _ _ Hv). }
  destruct (crypt_char_returns st b Hop Hin) as (rv & st1 & Hcall).
  pose proof (operational_crypt_char _ _ _ _ _ Hcall Hop) as Hop1.
  pose proof (keyed_crypt_char _ _ _ _ _ Hcall Hkey) as Hkey1.
  destruct (IH st1 Hop1 Hkey1) as (cs & st' & Hrun & Hlen & Hcs & Hop' & Hkey').
  exists (rv :: cs), st'. split; [|split; [|split]].
  - apply crypt_chars_Ok. by exists rv, st1, cs, st'.
  - simpl. by rewrite Hlen.
  - constructor; [|done]. apply (Hrange (crypt_m st)).
    by apply (crypt_char_output _ _ _ _ _ Hkey Hcall).
  - done.
Qed.

(** ** The statics after a number of calls *)

Lemma crypt_char_cursor fuel st ch rv st' :
  mirrorfield_crypt_char fuel st ch = Ok (rv, st') →
  crypt_m st' = ((crypt_m st + 1) mod MIRROR_FIELD_COUNT)%nat.
Proof.
  by intros (row & i & ns & d0 & endnode & st1 & ns1 & ne & st2 & vk & Hrow & Hfind & Hi
          & Hns & Hv & Hd & Hadv & Hns1 & Hne & Hroll & Hvk & -> & ->)%crypt_char_Ok.
Qed.

Lemma iter_shift {A} (f : A → A) n x : Nat.iter n f (f x) = f (Nat.iter n f x).
Proof. induction n as [|n IH]; simpl; [done|]. by rewrite IH. Qed.

Lemma advance_window_closed g1 g2 c n :
  (0 < GRID_SIZE)%nat →
  (c < MIRROR_FIELD_COUNT)%nat →
  (g1 < GRID_SIZE * 4)%nat → (g2 < GRID_SIZE * 4)%nat →
  Nat.iter n advance_window (g1, g2, c) =
    (((g1 + (c + n) / MIRROR_FIELD_COUNT) mod (GRID_SIZE * 4))%nat,
     ((g2 + (c + n) / MIRROR_FIELD_COUNT) mod (GRID_SIZE * 4))%nat,
     ((c + n) mod MIRROR_FIELD_COUNT)%nat).
Proof.
  intros HG Hc Hg1 Hg2. induction n as [|n IH].
  - simpl. rewrite Nat.add_0_r, Nat.div_small, !Nat.add_0_r by done.
    by rewrite !Nat.mod_small by done.
  - simpl. rewrite IH. unfold advance_window.
    set (M := MIRROR_FIELD_COUNT) in *.
    pose proof (Nat.div_mod_eq (c + n) M) as Hdm.
    assert ((c + n) mod M < M)%nat as Hlt by (apply Nat.mod_upper_bound; lia).
    revert Hdm Hlt. generalize ((c + n) / M)%nat ((c + n) mod M)%nat. intros q r Hdm Hlt.
    case_decide as Hwrap.
    + assert (c + S n = S q * M + 0)%nat as Heq by nia.
      assert ((c + S n) / M = S q ∧ (c + S n) mod M = 0)%nat as [-> ->].
      { rewrite Heq. split.
        - rewrite Nat.div_add_l by lia. rewrite Nat.div_small by lia. lia.
        - rewrite Nat.add_0_r. apply Nat.Div0.mod_mul. }
      rewrite !Nat.Div0.add_mod_idemp_l. by rewrite <- !Nat.add_assoc, !Nat.add_1_r.
    + assert (c + S n = M * q + S r)%nat as Heq by lia.
      assert ((c + S n) / M = q ∧ (c + S n) mod M = S r)%nat as [-> ->]; [|done].
      split.
      * symmetry. apply (Nat.div_unique _ _ _ (S r)); [lia|done].
      * symmetry. apply (Nat.mod_unique _ _ q); [lia|done].
Qed.

Lemma crypt_chars_cursor fuel st bs cs st' :
  crypt_chars fuel st bs = Ok (cs, st') →
  (crypt_m st < MIRROR_FIELD_COUNT)%nat →
  length cs = length bs
  ∧ crypt_m st' = ((crypt_m st + length bs) mod MIRROR_FIELD_COUNT)%nat
  ∧ window st' = Nat.iter (length bs) advance_window (window st).
Proof.
  revert st cs st'. induction bs as [|b bs IH]; intros st cs st' Hrun Hm.
  - injection Hrun as <- <-. simpl. rewrite Nat.add_0_r, Nat.mod_small by done. done.
  - apply crypt_chars_Ok in Hrun as (c & st1 & cs' & st2 & Hc & Hcs & [= -> ->]).
    pose proof (crypt_char_cursor _ _ _ _ _ Hc) as Hm1.
    pose proof (crypt_char_window _ _ _ _ _ Hc) as Hw1.
    destruct (IH _ _ _ Hcs) as (Hlen & Hm2 & Hw2).
    { rewrite Hm1. apply Nat.mod_upper_bound. lia. }
    split; [simpl; by rewrite Hlen|]. split.
    + rewrite Hm2, Hm1, Nat.Div0.add_mod_idemp_l. simpl. f_equal. lia.
    + rewrite Hw2, Hw1. exact (iter_shift advance_window (length bs) (window st)).
Qed.

(** ** What mirrorfield_validate accepts *)

Lemma validate_values st :
  mirrorfield_validate st = 1 ↔
  (∀ k j, (k < MIRROR_FIELD_COUNT)%nat → (j < GRID_SIZE * GRID_SIZE)%nat →
     MIRROR_BACKWARD ≤ value_at (gridnodes st) k j ≤ MIRROR_NONE)
  ∧ (∀ k i j, (k < MIRROR_FIELD_COUNT)%nat → (i < j)%nat → (j < GRID_SIZE * 4)%nat →
       value_at (perimeter st) k i ≠ value_at (perimeter st) k j).
Proof.
  split.
  - intros Hval. split.
    + intros k j. by apply validate_mirrors.
    + intros k i j. by apply validate_distinct.
  - intros [Hm Hd]. unfold mirrorfield_validate.
    assert (mirrors_ok st = true) as ->.
    { unfold mirrors_ok. apply forallb_forall. intros k Hk%in_seq.
      apply forallb_forall. intros j Hj%in_seq.
      apply negb_true_iff, bool_decide_eq_false.
      specialize (Hm k j ltac:(lia) ltac:(lia)). lia. }
    assert (perimeter_distinct st = true) as ->; [|done].
    unfold perimeter_distinct. apply forallb_forall. intros k Hk%in_seq.
    apply forallb_forall. intros i Hi%in_seq.
    apply forallb_forall. intros j Hj%in_seq.
    apply negb_true_iff, bool_decide_eq_false.
    apply Hd; lia.
Qed.

Lemma validate_zero_or_one st : mirrorfield_validate st = 0 ∨ mirrorfield_validate st = 1.
Proof. unfold mirrorfield_validate. destruct (mirrors_ok st), (perimeter_distinct st); auto. Qed.

Lemma alphabet_value_at st k i :
  shaped st → (k < MIRROR_FIELD_COUNT)%nat → (i < GRID_SIZE * 4)%nat →
  alphabet st k !! i = Some (value_at (perimeter st) k i).
Proof.
  intros Hsh Hk Hi. destruct (proj2 (lookup2_is_Some_perimeter st k i Hsh Hk) Hi) as [n Hn].
  rewrite (alphabet_lookup _ _ _ _ Hn). unfold value_at. by rewrite Hn.
Qed.

Lemma validate_NoDup st :
  shaped st →
  mirrorfield_validate st = 1 ↔
  (∀ k j, (k < MIRROR_FIELD_COUNT)%nat → (j < GRID_SIZE * GRID_SIZE)%nat →
     MIRROR_BACKWARD ≤ value_at (gridnodes st) k j ≤ MIRROR_NONE)
  ∧ (∀ k, (k < MIRROR_FIELD_COUNT)%nat → NoDup (alphabet st k)).
Proof.
  intros Hsh. rewrite validate_values. split; intros [Hm Hd]; (split; [done|]).
  - intros k Hk. apply NoDup_alt. intros i j v Hi Hj.
    pose proof (lookup_lt_Some _ _ _ Hi) as Hi'.
    pose proof (lookup_lt_Some _ _ _ Hj) as Hj'.
    rewrite alphabet_length in Hi', Hj' by done.
    rewrite alphabet_value_at in Hi, Hj by done.
    destruct (Nat.lt_trichotomy i j) as [Hlt|[Heq|Hgt]]; [|done|].
    + exfalso. apply (Hd k i j); [done..|congruence].
    + exfalso. apply (Hd k j i); [done..|congruence].
  - intros k i j Hk Hij Hj Heq.
    assert (i = j); [|lia].
    apply (NoDup_lookup _ _ _ (value_at (perimeter st) k i) (Hd k Hk)).
    + apply alphabet_value_at; [done..|lia].
    + rewrite Heq. by apply alphabet_value_at.
Qed.

(** ** What mirrorfield_link leaves alone *)

Lemma value_at_link st :
  shaped st →
  (∀ k i, value_at (gridnodes (mirrorfield_link st)) k i = value_at (gridnodes st) k i)
  ∧ (∀ k i, value_at (perimeter (mirrorfield_link st)) k i = value_at (perimeter st) k i).
Proof.
  intros Hsh. rewrite mirrorfield_link_connects.
  destruct (connects_keeps all_connects st Hsh) as (_ & _ & _ & Hval).
  assert (∀ q, value <$> deref (connects all_connects st) q = value <$> deref st q) as Hq.
  { intros q. destruct (deref st q) as [n|f] eqn:Hn.
    - destruct (Hval q n Hn) as (n' & -> & Hv). simpl. by rewrite Hv.
    - destruct (deref (connects all_connects st) q) as [n'|f'] eqn:Hn'.
      + assert (valid st q) as [n Hn''].
        { apply (valid_connects all_connects). by exists n'. }
        congruence.
      + simpl. f_equal. destruct q as [|k i|k i]; unfold deref in Hn, Hn';
          [congruence|..].
        * destruct (lookup2 _ _ _), (lookup2 _ _ _); simpl in *; congruence.
        * destruct (lookup2 _ _ _), (lookup2 _ _ _); simpl in *; congruence. }
  split; intros k i; unfold value_at.
  - specialize (Hq (GridNode k i)). unfold deref in Hq.
    destruct (lookup2 _ _ _), (lookup2 _ _ _); simpl in *; congruence.
  - specialize (Hq (PerimNode k i)). unfold deref in Hq.
    destruct (lookup2 _ _ _), (lookup2 _ _ _); simpl in *; congruence.
Qed.

Lemma validate_link st :
  shaped st → mirrorfield_validate (mirrorfield_link st) = mirrorfield_validate st.
Proof.
  intros Hsh. destruct (value_at_link st Hsh) as [Hg Hp].
  assert (mirrorfield_validate (mirrorfield_link st) = 1 ↔ mirrorfield_validate st = 1)
    as Hiff.
  { rewrite !validate_values. by setoid_rewrite Hg; setoid_rewrite Hp. }
  destruct (validate_zero_or_one st) as [H0|H1],
           (validate_zero_or_one (mirrorfield_link st)) as [H0'|H1']; try congruence.
  - apply Hiff in H1'. congruence.
  - apply Hiff in H1. congruence.
Qed.

(** ** The loader *)

Lemma deref_with_set st i j q : deref (with_set st i j) q = deref st q.
Proof. by destruct q. Qed.

Lemma set_accept st ch v :
  (set_i st < key_bytes)%nat →
  load_value (set_i st) ch = Some v →
  (mirrorfield_set st ch).1 = 1
  ∧ set_i (mirrorfield_set st ch).2 = S (set_i st)
  ∧ ∀ q, deref (mirrorfield_set st ch).2 q =
         if decide (load_node (set_i st) = q) then set_value v <$> deref st q
         else deref st q.
Proof.
  unfold load_value, load_node, mirror_code, mirrorfield_set, key_bytes, mirror_bytes.
  intros Hi Hv. cbv zeta.
  destruct (decide (set_i st < GRID_SIZE * GRID_SIZE * MIRROR_FIELD_COUNT)%nat).
  - repeat case_decide; simplify_eq; cbn [fst snd]; (split; [done|]); (split; [done|]);
      intros q; by rewrite deref_with_set, deref_update.
  - rewrite decide_True by done. simplify_eq. cbn [fst snd]. split; [done|]. split; [done|].
    intros q. by rewrite deref_with_set, deref_update.
Qed.

Lemma set_refuse st ch :
  (key_bytes ≤ set_i st)%nat ∨ load_value (set_i st) ch = None →
  (mirrorfield_set st ch).1 = 0
  ∧ gridnodes (mirrorfield_set st ch).2 = gridnodes st
  ∧ perimeter (mirrorfield_set st ch).2 = perimeter st
  ∧ set_i (mirrorfield_set st ch).2 = set_i st.
Proof.
  unfold load_value, mirror_code, mirrorfield_set, key_bytes, mirror_bytes.
  intros Hi. cbv zeta.
  destruct (decide (set_i st < GRID_SIZE * GRID_SIZE * MIRROR_FIELD_COUNT)%nat).
  - destruct Hi as [Hi|Hi]; [lia|]. by repeat case_decide.
  - destruct Hi as [Hi|Hi]; [|done]. by rewrite decide_False by lia.
Qed.

Lemma load_node_inj p p' :
  (p < key_bytes)%nat → (p' < key_bytes)%nat → load_node p = load_node p' → p = p'.
Proof.
  unfold load_node, key_bytes. intros Hp Hp' Heq.
  repeat case_decide; simplify_eq.
  - rewrite (Nat.div_mod_eq p (GRID_SIZE * GRID_SIZE)),
            (Nat.div_mod_eq p' (GRID_SIZE * GRID_SIZE)). congruence.
  - assert (p - mirror_bytes = p' - mirror_bytes)%nat; [|lia].
    rewrite (Nat.div_mod_eq (p - mirror_bytes) (GRID_SIZE * 4)),
            (Nat.div_mod_eq (p' - mirror_bytes) (GRID_SIZE * 4)). congruence.
Qed.

Lemma load_snoc cs c st : load (cs ++ [c]) st = (mirrorfield_set (load cs st) c).2.
Proof. unfold load. by rewrite foldl_app. Qed.

Lemma load_cell k j :
  (k < MIRROR_FIELD_COUNT)%nat → (j < GRID_SIZE * GRID_SIZE)%nat →
  (k * (GRID_SIZE * GRID_SIZE) + j < mirror_bytes)%nat
  ∧ load_node (k * (GRID_SIZE * GRID_SIZE) + j) = GridNode k j.
Proof.
  intros Hk Hj. unfold load_node, mirror_bytes.
  assert (k * (GRID_SIZE * GRID_SIZE) + j < GRID_SIZE * GRID_SIZE * MIRROR_FIELD_COUNT)%nat
    as Hlt by nia.
  split; [done|]. rewrite decide_True by done. f_equal.
  - rewrite Nat.div_add_l by lia. rewrite Nat.div_small by done. lia.
  - rewrite Nat.add_comm, Nat.Div0.mod_add. by apply Nat.mod_small.
Qed.

Lemma load_slot k i :
  (k < MIRROR_FIELD_COUNT)%nat → (i < GRID_SIZE * 4)%nat →
  (mirror_bytes + k * (GRID_SIZE * 4) + i < key_bytes)%nat
  ∧ load_node (mirror_bytes + k * (GRID_SIZE * 4) + i) = PerimNode k i.
Proof.
  intros Hk Hi. unfold load_node, key_bytes.
  assert (k * (GRID_SIZE * 4) + i < GRID_SIZE * 4 * MIRROR_FIELD_COUNT)%nat as Hlt by nia.
  split; [lia|]. rewrite decide_False by lia.
  replace (mirror_bytes + k * (GRID_SIZE * 4) + i - mirror_bytes)%nat
    with (k * (GRID_SIZE * 4) + i)%nat by lia.
  f_equal.
  - rewrite Nat.div_add_l by lia. rewrite Nat.div_small by done. lia.
  - rewrite Nat.add_comm, Nat.Div0.mod_add. by apply Nat.mod_small.
Qed.

(** The state of the loader after the bytes [cs], each of which it takes. *)
Lemma load_written cs st :
  set_i st = O →
  (length cs ≤ key_bytes)%nat →
  (∀ p c, cs !! p = Some c → is_Some (load_value p c)) →
  set_i (load cs st) = length cs
  ∧ (∀ p c, cs !! p = Some c →
       (mirrorfield_set (load (take p cs) st) c).1 = 1
       ∧ ∃ v, load_value p c = Some v
              ∧ deref (load cs st) (load_node p) = set_value v <$> deref st (load_node p))
  ∧ (∀ q, (∀ p, (p < length cs)%nat → load_node p ≠ q) → deref (load cs st) q = deref st q).
Proof.
  intros Hi0. induction cs as [|c cs IH] using rev_ind; intros Hlen Hmir.
  { split; [done|]. split; [|done]. intros p c Hp. by rewrite lookup_nil in Hp. }
  rewrite length_app in Hlen. simpl in Hlen.
  destruct IH as (Hi & Hput & Hrest); [lia| |].
  { intros p c' Hp. apply (Hmir p). by apply lookup_app_l_Some. }
  destruct (Hmir (length cs) c) as [v Hv].
  { rewrite lookup_app_r by done. by rewrite Nat.sub_diag. }
  rewrite load_snoc.
  destruct (set_accept (load cs st) c v) as (Hres & Hi' & Hq);
    [rewrite Hi; lia|by rewrite Hi|].
  rewrite Hi in Hq.
  split; [rewrite Hi', Hi, length_app; simpl; lia|]. split.
  - intros p c' Hp. destruct (decide (p < length cs)%nat) as [Hlt|Hge].
    + rewrite lookup_app_l in Hp by done. destruct (Hput p c' Hp) as (Hone & v' & Hv' & Hd).
      rewrite take_app_le by lia. split; [done|]. exists v'. split; [done|].
      rewrite Hq, decide_False; [done|].
      intros Heq%load_node_inj; lia.
    + assert (p = length cs) as ->.
      { apply lookup_lt_Some in Hp. rewrite length_app in Hp. simpl in Hp. lia. }
      rewrite lookup_app_r, Nat.sub_diag in Hp by done. injection Hp as <-.
      rewrite take_app_le, take_ge by lia. split; [done|]. exists v. split; [done|].
      rewrite Hq, decide_True by done. f_equal. apply Hrest.
      intros p Hp Heq%load_node_inj; lia.
  - intros q Hne. rewrite Hq, decide_False.
    + apply Hrest. intros p Hp. apply Hne. rewrite length_app. simpl. lia.
    + apply Hne. rewrite length_app. simpl. lia.
Qed.

(** Whatever the bytes, the nodes at and after the loader's position have
    not been written. *)
Lemma load_unwritten cs st :
  (set_i (load cs st) ≤ set_i st + length cs)%nat
  ∧ ∀ p, (set_i (load cs st) ≤ p < key_bytes)%nat →
         deref (load cs st) (load_node p) = deref st (load_node p).
Proof.
  induction cs as [|c cs IH] using rev_ind.
  { split; [simpl; lia|done]. }
  destruct IH as [Hi Hrest]. rewrite load_snoc, length_app. simpl.
  destruct (decide (set_i (load cs st) < key_bytes)%nat) as [Hlt|Hge].
  - destruct (load_value (set_i (load cs st)) c) as [v|] eqn:Hv.
    + destruct (set_accept (load cs st) c v Hlt Hv) as (_ & Hi' & Hq).
      split; [lia|]. intros p Hp. rewrite Hq, decide_False.
      * apply Hrest. lia.
      * intros Heq%load_node_inj; lia.
    + destruct (set_refuse (load cs st) c) as (_ & Hg & Hper & Hi'); [by right|].
      split; [lia|]. intros p Hp. rewrite <- Hrest by lia.
      destruct (load_node p); unfold deref; by rewrite ?Hg, ?Hper.
  - destruct (set_refuse (load cs st) c) as (_ & Hg & Hper & Hi'); [left; lia|].
    split; [lia|]. intros p Hp. lia.
Qed.

Lemma link_of_set st ch q d : link_of (mirrorfield_set st ch).2 q d = link_of st q d.
Proof.
  unfold mirrorfield_set. cbv zeta.
  repeat case_decide; cbn [fst snd]; try done;
    match goal with |- link_of (with_set (update ?s ?p (set_value ?v)) _ _) _ _ = _ =>
      change (link_of (update s p (set_value v)) q d = link_of st q d);
      by rewrite link_of_update_value end.
Qed.

Lemma load_keeps_links cs st q d : link_of (load cs st) q d = link_of st q d.
Proof.
  revert st. induction cs as [|c cs IH]; intros st; [done|].
  change (load (c :: cs) st) with (load cs (mirrorfield_set st c).2).
  by rewrite IH, link_of_set.
Qed.

(** ** Where the rolling step puts the two characters *)

Lemma find_value_lookup row x i0 i :
  find_value row x i0 = Ok i →
  ∃ j, i = (i0 + j)%nat ∧ (value <$> row) !! j = Some x.
Proof.
  revert i0. induction row as [|n row IH]; intros i0; simpl; [done|].
  case_decide as Hv.
  - intros [= <-]. exists O. rewrite Nat.add_0_r. simpl. by rewrite Hv.
  - intros (j & -> & Hj)%IH. exists (S j). split; [lia|done].
Qed.

Lemma perimeter_find_lookup st m x i :
  perimeter_find st m x = Ok i → alphabet st m !! i = Some x.
Proof.
  unfold perimeter_find, alphabet. intros (row & Hrow & Hfind)%bind_Ok.
  destruct (perimeter st !! m) as [row'|]; [|done]. injection Hrow as ->.
  by apply find_value_lookup in Hfind as (j & -> & Hj).
Qed.

Lemma swap_values_insert st m i g st' :
  swap_values st m i g = Ok st' →
  ∃ vi vg, alphabet st m !! i = Some vi ∧ alphabet st m !! g = Some vg ∧
           alphabet st' m = <[g:=vi]> (<[i:=vg]> (alphabet st m)).
Proof.
  unfold swap_values. intros Hs.
  apply bind_Ok in Hs as (t & Ht & Hs). apply bind_Ok in Hs as (vg & Hvg & Hs).
  cbv zeta in Hs. injection Hs as <-.
  apply perimeter_value_alphabet in Ht, Hvg. exists t, vg.
  split; [done|]. split; [done|].
  by rewrite !alphabet_update_value, !decide_True.
Qed.

Lemma roll_chars_places st s e m st' x1 x2 :
  mirrorfield_roll_chars st s e m = Ok st' →
  rotate_order st s e m = Ok (x1, x2) →
  x1 ≠ x2 → roll_g1 st ≠ roll_g2 st →
  alphabet st' m !! roll_g1 st = Some x1 ∧ alphabet st' m !! roll_g2 st = Some x2.
Proof.
  intros (y1 & y2 & i1 & st1 & i2 & st2 & Hord & Hf1 & Hs1 & Hf2 & Hs2 & ->)%roll_chars_Ok
         Hord' Hx Hg.
  rewrite Hord in Hord'. injection Hord' as -> ->.
  change (alphabet (with_roll st2 _ _ _) m) with (alphabet st2 m).
  pose proof (swap_values_window _ _ _ _ _ Hs1) as Hw1.
  assert (roll_g2 st1 = roll_g2 st) as Hg2 by (unfold window in Hw1; congruence).
  rewrite Hg2 in Hs2.
  apply perimeter_find_lookup in Hf1, Hf2.
  apply swap_values_insert in Hs1 as (v1 & vg1 & Hi1 & Hg1 & Ha1).
  apply swap_values_insert in Hs2 as (v2 & vg2 & Hi2 & Hg2' & Ha2).
  rewrite Hf1 in Hi1. injection Hi1 as <-. rewrite Hf2 in Hi2. injection Hi2 as <-.
  assert (alphabet st1 m !! roll_g1 st = Some x1) as Hat1.
  { rewrite Ha1. apply list_lookup_insert_eq. rewrite length_insert.
    by eapply lookup_lt_Some. }
  assert (i2 ≠ roll_g1 st) as Hi2 by congruence.
  rewrite Ha2. split.
  - rewrite list_lookup_insert_ne by done. by rewrite list_lookup_insert_ne.
  - apply list_lookup_insert_eq. rewrite length_insert. by eapply lookup_lt_Some.
Qed.

(** ** The exit of a traversal *)

Lemma last_edge_in_walk fuel st e :
  ∃ b, (e :: walk fuel st e) !! b = Some (last_edge fuel st e).
Proof.
  revert e. induction fuel as [|fuel IH]; intros e; [by exists O|].
  simpl. destruct (step st e) as [e'|]; [|by exists O].
  destruct (IH e') as [b Hb]. by exists (S b).
Qed.

Lemma advance_exit_differs st k fuel i d t st1 :
  shaped st → linked st k → field_values st k → single_link st k →
  (i < GRID_SIZE * 4)%nat →
  link_of st (PerimNode k i) d ≠ NULL →
  mirrorfield_crypt_char_advance fuel st (PerimNode k i) d = Ok (t, st1) →
  t ≠ PerimNode k i.
Proof.
  intros Hsh Hl Hfv Hsingle Hi Hnn Hadv ->.
  set (e0 := (PerimNode k i, d)).
  assert (usable st k e0) as Hu by (by split).
  assert (¬ is_cell e0.1) as Hslot by (by intros []).
  destruct (advance_backwards st k Hl Hfv fuel e0 _ st1 Hsh Hu Hslot Hadv)
    as (Hnn' & _).
  pose proof (Hsingle i _ _ Hnn Hnn') as Hd.
  pose proof (advance_exit _ _ _ _ _ _ Hadv) as Ht. fold e0 in Ht.
  set (en := last_edge fuel st e0) in *.
  assert (reverse st en = e0) as Hrev.
  { unfold reverse. by rewrite <- Ht, <- Hd. }
  assert (usable st k en) as Hun by (by apply last_edge_usable).
  destruct (last_edge_in_walk fuel st e0) as [b Hb]. fold en in Hb.
  assert (reverse st e0 = en) as Hen.
  { rewrite <- Hrev. by apply (reverse_involutive st k Hl). }
  apply (walk_no_reverse st k Hl Hfv fuel e0 O b e0 Hu); [done|]. by rewrite Hen.
Qed.

(** ** A cell is entered twice at most *)

Lemma passes_filter (l : list (ptr * dir)) q :
  passes l.*1 q = length (filter (λ x, x.1 = q) l).
Proof.
  unfold passes. induction l as [|x l IH]; [done|].
  rewrite fmap_cons, filter_cons. simpl. destruct (ptr_eq_dec x.1 q) as [Heq|Hne].
  - rewrite decide_True by done. simpl. by rewrite IH.
  - by rewrite decide_False.
Qed.

Lemma walk_passes st k fuel e0 q :
  linked st k → field_values st k →
  usable st k e0 → ¬ is_cell e0.1 →
  (passes (walk fuel st e0).*1 q ≤ 2)%nat.
Proof.
  intros Hl Hfv Hu Hslot. rewrite passes_filter.
  set (j := match q with GridNode _ j => j | _ => O end).
  rewrite <- (length_fmap (pass_key st)).
  change 2%nat with (length [2 * j; 2 * j + 1]%nat).
  apply submseteq_length, NoDup_submseteq.
  - apply (sublist_NoDup _ (pass_key st <$> walk fuel st e0)).
    + apply NoDup_alt. intros a b key Ha Hb.
      rewrite list_lookup_fmap in Ha, Hb.
      destruct (walk fuel st e0 !! a) as [x|] eqn:Hx; [|done].
      destruct (walk fuel st e0 !! b) as [y|] eqn:Hy; [|done].
      simpl in *. eapply (pass_key_inj st k); [done..|congruence].
    + apply fmap_sublist, sublist_filter.
  - intros key (x & -> & [Hq _]%list_elem_of_filter)%list_elem_of_fmap.
    unfold pass_key. rewrite Hq. unfold j. destruct q as [|k' j'|k' i'].
    + apply elem_of_cons. by left.
    + destruct (side _ _).
      * apply elem_of_cons. right. apply elem_of_cons. by left.
      * apply elem_of_cons. left. lia.
    + apply elem_of_cons. by left.
Qed.

(** ** A call works on the current field only *)

Lemma swap_values_deref st m i g st' q :
  swap_values st m i g = Ok st' →
  (∀ j, q ≠ PerimNode m j) → deref st' q = deref st q.
Proof.
  unfold swap_values. intros Hs Hq.
  apply bind_Ok in Hs as (t & Ht & Hs). apply bind_Ok in Hs as (vg & Hvg & Hs).
  cbv zeta in Hs. injection Hs as <-.
  rewrite !deref_update_ne; [done|by apply not_eq_sym..].
Qed.

Lemma roll_chars_deref st s e m st' q :
  mirrorfield_roll_chars st s e m = Ok st' →
  (∀ j, q ≠ PerimNode m j) → deref st' q = deref st q.
Proof.
  intros (x1 & x2 & i1 & st1 & i2 & st2 & _ & _ & Hs1 & _ & Hs2 & ->)%roll_chars_Ok Hq.
  change (deref st2 q = deref st q).
  by rewrite (swap_values_deref _ _ _ _ _ _ Hs2), (swap_values_deref _ _ _ _ _ _ Hs1).
Qed.

Lemma crypt_char_other_fields fuel st ch rv st' k q :
  wellformed st →
  mirrorfield_crypt_char fuel st ch = Ok (rv, st') →
  k ≠ crypt_m st → in_field k q →
  deref st' q = deref st q.
Proof.
  intros (Hsh & Hm & _ & _ & _ & Hall) Hcall Hk Hq.
  destruct (Hall _ Hm) as [Hl Hfv].
  apply crypt_char_Ok in Hcall
    as (row & i & ns & d & endnode & st1 & ns1 & ne & st2 & vk & Hrow & Hfind & Hi
        & Hns & Hv & Hd & Hadv & Hns1 & Hne & Hroll & Hvk & -> & ->).
  change (deref st2 q = deref st q).
  rewrite (roll_chars_deref _ _ _ _ _ _ Hroll).
  2:{ intros j ->. destruct Hq as [Heq _]. congruence. }
  rewrite (advance_rotations _ _ _ _ _ _ Hadv).
  set (e0 := (PerimNode (crypt_m st) i, d)).
  assert (usable st (crypt_m st) e0) as Hu.
  { split; [done|]. unfold link_of. simpl. rewrite Hns. by apply initial_direction_link. }
  assert (passes (path fuel st (PerimNode (crypt_m st) i) d) q = O) as ->.
  { apply count_occ_not_In. rewrite (path_walk st). fold e0.
    intros Hin%list_elem_of_In. apply list_elem_of_fmap in Hin as (x & -> & Hx).
    apply list_elem_of_lookup in Hx as [a Hx].
    destruct (walk_cell st (crypt_m st) Hl Hfv _ _ _ _ Hu Hx) as (j & Hj & _).
    rewrite Hj in Hq. destruct Hq as [Heq _]. congruence. }
  destruct (deref st q) as [n|]; [|done]. simpl. by rewrite rotations_0.
Qed.

Lemma crypt_char_set_i fuel st ch rv st' :
  mirrorfield_crypt_char fuel st ch = Ok (rv, st') →
  set_i st' = set_i st.
Proof.
  intros (row & i & ns & d & endnode & st1 & ns1 & ne & st2 & vk & Hrow & Hfind & Hi
        & Hns & Hv & Hd & Hadv & Hns1 & Hne & Hroll & Hvk & -> & ->)%crypt_char_Ok.
  destruct (statics_advance _ _ _ _ _ _ Hadv) as (Hi1 & _).
  apply roll_chars_Ok in Hroll
    as (x1 & x2 & i1 & sta & i2 & stb & _ & _ & Hs1 & _ & Hs2 & ->).
  change (set_i stb = set_i st). rewrite <- Hi1.
  unfold swap_values in Hs1, Hs2.
  apply bind_Ok in Hs1 as (t & Ht & Hs1). apply bind_Ok in Hs1 as (vg & Hvg & Hs1).
  apply bind_Ok in Hs2 as (t' & Ht' & Hs2). apply bind_Ok in Hs2 as (vg' & Hvg' & Hs2).
  cbv zeta in Hs1, Hs2. injection Hs1 as <-. injection Hs2 as <-.
  by rewrite !(proj1 (statics_update _ _ _)).
Qed.

(** ** A refused byte *)

Lemma with_set_update st st' p f i j :
  with_set st O O = with_set st' O O →
  with_set (update st p f) i j = with_set (update st' p f) i j.
Proof.
  destruct st, st'. unfold with_set, update. simpl. intros [= -> -> -> -> -> ->].
  by destruct p.
Qed.

Lemma set_same_arrays st st' ch :
  set_i st = set_i st' →
  with_set st O O = with_set st' O O →
  (mirrorfield_set st ch).1 = (mirrorfield_set st' ch).1
  ∧ set_i (mirrorfield_set st ch).2 = set_i (mirrorfield_set st' ch).2
  ∧ with_set (mirrorfield_set st ch).2 O O = with_set (mirrorfield_set st' ch).2 O O.
Proof.
  intros Hi Heq. unfold mirrorfield_set. cbv zeta. rewrite <- Hi.
  repeat case_decide; cbn [fst snd]; (split; [done|]); (split; [done|]);
    first [exact Heq | by apply with_set_update].
Qed.

Lemma load_same_arrays cs st st' :
  set_i st = set_i st' →
  with_set st O O = with_set st' O O →
  set_i (load cs st) = set_i (load cs st')
  ∧ with_set (load cs st) O O = with_set (load cs st') O O.
Proof.
  revert st st'. induction cs as [|c cs IH]; intros st st' Hi Heq; [done|].
  change (load (c :: cs) st) with (load cs (mirrorfield_set st c).2).
  change (load (c :: cs) st') with (load cs (mirrorfield_set st' c).2).
  destruct (set_same_arrays st st' c Hi Heq) as (_ & Hi' & Heq'). by apply IH.
Qed.

Lemma set_result st ch :
  ((mirrorfield_set st ch).1 = 1
   ∧ (set_i st < key_bytes)%nat ∧ is_Some (load_value (set_i st) ch))
  ∨ ((mirrorfield_set st ch).1 = 0
     ∧ ((key_bytes ≤ set_i st)%nat ∨ load_value (set_i st) ch = None)).
Proof.
  destruct (decide (set_i st < key_bytes)%nat) as [Hlt|Hge].
  - destruct (load_value (set_i st) ch) as [v|] eqn:Hv.
    + left. destruct (set_accept st ch v Hlt Hv) as (-> & _). eauto.
    + right. destruct (set_refuse st ch) as (-> & _); auto.
  - right. destruct (set_refuse st ch) as (-> & _); [left; lia|]. split; [done|]. left. lia.
Qed.

Lemma load_app cs1 cs2 st : load (cs1 ++ cs2) st = load cs2 (load cs1 st).
Proof. unfold load. by rewrite foldl_app. Qed.

Lemma set_refused_state st ch :
  (mirrorfield_set st ch).1 = 0 →
  set_i (mirrorfield_set st ch).2 = set_i st
  ∧ with_set (mirrorfield_set st ch).2 O O = with_set st O O.
Proof.
  intros Hzero. destruct (set_result st ch) as [[Hone _]|[_ Href]]; [congruence|].
  destruct (set_refuse st ch Href) as (_ & Hg & Hp & Hi).
  destruct (statics_set st ch) as [Hm Hw]. unfold window in Hw.
  injection Hw as Hg1 Hg2 Hc. split; [done|].
  destruct (mirrorfield_set st ch).2, st. unfold with_set. simpl in *. congruence.
Qed.

(** ** A load that stops inside the mirrors *)

Lemma init_fresh_cell k j :
  (k < MIRROR_FIELD_COUNT)%nat → (j < GRID_SIZE * GRID_SIZE)%nat →
  deref (mirrorfield_init fresh) (GridNode k j) = Ok zero_node.
Proof.
  intros Hk Hj. destruct (mirrorfield_init_inv fresh shaped_fresh) as (_ & _ & Hq).
  rewrite Hq. simpl. rewrite bool_decide_eq_true_2 by lia.
  destruct (valid_in_field fresh k (GridNode k j) shaped_fresh Hk) as [n ->]; done.
Qed.

Lemma unfinished_load cs :
  (set_i (load cs (mirrorfield_init fresh)) < mirror_bytes)%nat →
  mirrorfield_validate (load cs (mirrorfield_init fresh)) = 0.
Proof.
  intros Hlt. set (st := load cs (mirrorfield_init fresh)) in *.
  destruct (validate_zero_or_one st) as [H0|H1]; [done|]. exfalso.
  assert (0 < GRID_SIZE * GRID_SIZE)%nat as HGG by (unfold mirror_bytes in Hlt; nia).
  set (p := set_i st) in *.
  assert (p / (GRID_SIZE * GRID_SIZE) < MIRROR_FIELD_COUNT)%nat as Hk.
  { apply Nat.Div0.div_lt_upper_bound. unfold mirror_bytes in Hlt. lia. }
  assert (p mod (GRID_SIZE * GRID_SIZE) < GRID_SIZE * GRID_SIZE)%nat as Hj
    by (apply Nat.mod_upper_bound; lia).
  destruct (load_unwritten cs (mirrorfield_init fresh)) as [_ Hrest].
  fold st in Hrest.
  assert (set_i st ≤ p < key_bytes)%nat as Hp by (unfold key_bytes, p; lia).
  specialize (Hrest p Hp). unfold load_node in Hrest.
  rewrite decide_True in Hrest by done.
  rewrite init_fresh_cell in Hrest by done.
  pose proof (proj1 (proj1 (validate_values st) H1) _ _ Hk Hj) as Hv.
  unfold value_at in Hv. unfold deref in Hrest.
  destruct (lookup2 (gridnodes st) _ _) as [n|]; simpl in Hrest; [|done].
  injection Hrest as ->. simpl in Hv. unfold MIRROR_NONE in Hv. lia.
Qed.

(** ** The statics of a reachable engine *)

Lemma reachable_sizes st : reachable st → (0 < GRID_SIZE)%nat ∧ (0 < MIRROR_FIELD_COUNT)%nat.
Proof. induction 1; auto. Qed.

Lemma reachable_window_distinct st : reachable st → roll_g1 st ≠ roll_g2 st.
Proof.
  intros Hr. destruct (reachable_sizes st Hr) as [HG _].
  pose proof (reachable_wellformed st Hr) as (_ & _ & Hg1 & _).
  destruct (reachable_window st Hr) as [n Hw].
  pose proof (opposite_iter n) as Hopp. rewrite <- Hw in Hopp.
  unfold opposite, window in Hopp. simpl in Hopp. rewrite Hopp.
  destruct (decide (roll_g1 st + GRID_SIZE * 2 < GRID_SIZE * 4)%nat).
  - rewrite Nat.mod_small by done. lia.
  - replace (roll_g1 st + GRID_SIZE * 2)%nat
      with ((roll_g1 st - GRID_SIZE * 2) + 1 * (GRID_SIZE * 4))%nat by lia.
    rewrite Nat.Div0.mod_add, Nat.mod_small by lia. lia.
Qed.

(** ** The two characters of a call *)

Lemma rotate_order_pair st s e m p :
  rotate_order st s e m = Ok p → p = (s, e) ∨ p = (e, s).
Proof.
  unfold rotate_order. intros (vs & _ & (ve & _ & Hp)%bind_Ok)%bind_Ok.
  injection Hp as <-. case_decide; auto.
Qed.

Lemma crypt_char_places fuel st ch rv st' :
  keyed st → roll_g1 st ≠ roll_g2 st →
  mirrorfield_crypt_char fuel st ch = Ok (rv, st') →
  ∃ ev x1 x2,
    ev ≠ ch ∧ ev ∈ alphabet st (crypt_m st)
    ∧ (rv = ch ∨ rv = ev)
    ∧ ((x1, x2) = (ch, ev) ∨ (x1, x2) = (ev, ch))
    ∧ alphabet st' (crypt_m st) !! roll_g1 st = Some x1
    ∧ alphabet st' (crypt_m st) !! roll_g2 st = Some x2.
Proof.
  intros [Hwf Hkey] Hg Hcall.
  pose proof (wellformed_perimeter_chars st Hwf) as Hchars.
  destruct Hwf as (Hsh & Hm & Hg1 & Hg2 & Hc & Hall).
  destruct (Hall _ Hm) as (Hl & Hfv). destruct (Hkey _ Hm) as (Hnd & H256 & Hsingle).
  apply crypt_char_Ok in Hcall
    as (row & i & ns & d & endnode & st1 & ns1 & ne & st2 & vk & Hrow & Hfind & Hi
        & Hns & Hv & Hd & Hadv & Hns1 & Hne & Hroll & Hvk & Hrv & ->).
  set (m := crypt_m st) in *.
  pose proof (advance_perimeter _ _ _ _ _ _ Hchars Hadv) as Hper.
  assert (∀ j, deref st1 (PerimNode m j) = deref st (PerimNode m j)) as Hsame.
  { intros j. unfold deref. by rewrite Hper. }
  assert (∀ j n, deref st (PerimNode m j) = Ok n →
                 alphabet st m !! j = Some (value n) ∧ to_uchar (value n) = value n)
    as Hbyte.
  { intros j n Hn. unfold deref in Hn.
    destruct (lookup2 (perimeter st) m j) as [n'|] eqn:Hj; simpl in Hn; [|done].
    injection Hn as ->. pose proof (alphabet_lookup _ _ _ _ Hj) as Ha.
    split; [done|]. apply list_elem_of_lookup_2 in Ha. pose proof (H256 _ Ha).
    assert (0 ≤ value n) by (by eapply Hchars).
    unfold to_uchar. apply Z.mod_small. lia. }
  rewrite Hsame, Hns in Hns1. injection Hns1 as <-.
  destruct (Hbyte _ _ Hns) as [Hai Hbi]. rewrite Hbi, Hv in Hroll, Hvk, Hrv.
  rewrite Hv in Hai.
  assert (link_of st (PerimNode m i) d ≠ NULL) as Hnn.
  { unfold link_of. rewrite Hns. by apply initial_direction_link. }
  pose proof (advance_exit_differs st m fuel i d endnode st1 Hsh Hl Hfv Hsingle Hi Hnn Hadv)
    as Hdiff.
  destruct (advance_stops st m Hl Hfv fuel (PerimNode m i, d)) as (t & st0 & Hadv0 & Hin & Hnc).
  { by split. }
  { pose proof (walk_length_le fuel st (PerimNode m i, d)) as Hle.
    destruct (decide (length (walk fuel st (PerimNode m i, d)) = fuel)) as [Heq|]; [|lia].
    pose proof (advance_out_of_fuel st m Hl Hfv fuel (PerimNode m i, d)
                  ltac:(by split) Heq) as Hf.
    simpl in Hf. congruence. }
  simpl in Hadv0. rewrite Hadv in Hadv0. injection Hadv0 as <- <-.
  destruct endnode as [|k' j|k' i']; simpl in Hin, Hnc; [done|by destruct Hnc|].
  destruct Hin as [-> Hi'].
  rewrite Hsame in Hne. destruct (Hbyte _ _ Hne) as [Hae Hbe].
  rewrite Hbe in Hroll, Hvk, Hrv.
  assert (value ne ≠ ch) as Hne_ch.
  { intros Heq. rewrite Heq in Hae. apply Hdiff. f_equal.
    apply (NoDup_lookup _ _ _ _ Hnd Hae Hai). }
  pose proof Hroll as Hroll0.
  apply roll_chars_Ok in Hroll as (x1 & x2 & _ & _ & _ & _ & Hord & _).
  pose proof (rotate_order_pair _ _ _ _ _ Hord) as Hpair.
  destruct (statics_advance _ _ _ _ _ _ Hadv) as (_ & _ & _ & Hw1).
  unfold window in Hw1. injection Hw1 as Hw1 Hw2 _.
  destruct (roll_chars_places st1 ch (value ne) m st2 x1 x2 Hroll0 Hord) as [Hp1 Hp2].
  { destruct Hpair as [[= -> ->]|[= -> ->]]; congruence. }
  { congruence. }
  rewrite Hw1 in Hp1. rewrite Hw2 in Hp2.
  exists (value ne), x1, x2. split; [done|]. split; [by eapply list_elem_of_lookup_2|].
  split; [case_decide; auto|]. split; [|done].
  destruct Hpair as [Hp|Hp]; rewrite Hp; auto.
Qed.

(** ** The configuration stream, loaded *)

(** X1: the layout of a configuration.  From a state whose loader is at
    position 0, feeding [mirrorfield_set] a stream of exactly
    GRID_SIZE²×MIRROR_FIELD_COUNT + 4×GRID_SIZE×MIRROR_FIELD_COUNT bytes
    whose mirror part consists of the four mirror characters, every call
    returns 1; afterwards cell j of field k holds the code of byte
    k×GRID_SIZE² + j, slot i of field k holds byte
    GRID_SIZE²×MIRROR_FIELD_COUNT + k×4×GRID_SIZE + i unchanged, no link
    has changed, and every further byte is refused (result 0) without
    changing the arrays or the position. *)
Theorem load_layout cs st :
  shaped st →
  set_i st = O →
  length cs = key_bytes →
  (∀ p c, (p < mirror_bytes)%nat → cs !! p = Some c → is_Some (mirror_code c)) →
  (∀ p c, cs !! p = Some c → (mirrorfield_set (load (take p cs) st) c).1 = 1)
  ∧ (∀ k j, (k < MIRROR_FIELD_COUNT)%nat → (j < GRID_SIZE * GRID_SIZE)%nat →
       ∃ c, cs !! (k * (GRID_SIZE * GRID_SIZE) + j)%nat = Some c
            ∧ mirror_code c = Some (value_at (gridnodes (load cs st)) k j))
  ∧ (∀ k i, (k < MIRROR_FIELD_COUNT)%nat → (i < GRID_SIZE * 4)%nat →
       cs !! (mirror_bytes + k * (GRID_SIZE * 4) + i)%nat
         = Some (value_at (perimeter (load cs st)) k i))
  ∧ (∀ q d, link_of (load cs st) q d = link_of st q d)
  ∧ set_i (load cs st) = key_bytes
  ∧ (∀ c, (mirrorfield_set (load cs st) c).1 = 0
          ∧ gridnodes (mirrorfield_set (load cs st) c).2 = gridnodes (load cs st)
          ∧ perimeter (mirrorfield_set (load cs st) c).2 = perimeter (load cs st)
          ∧ set_i (mirrorfield_set (load cs st) c).2 = key_bytes).
Proof.
  intros Hsh Hi0 Hlen Hmir.
  destruct (load_written cs st Hi0) as (Hi & Hput & Hrest); [lia| |].
  { intros p c Hp. unfold load_value. case_decide; [by eapply Hmir|done]. }
  assert (∀ q n v, deref st q = Ok n →
            deref (load cs st) q = set_value v <$> deref st q →
            deref (load cs st) q = Ok (set_value v n)) as Hset.
  { intros q n v Hn ->. by rewrite Hn. }
  split; [intros p c Hp; by destruct (Hput p c Hp)|]. split; [|split; [|split; [|split]]].
  - intros k j Hk Hj. destruct (load_cell k j Hk Hj) as [Hlt Hnode].
    destruct (lookup_lt_is_Some_2 cs (k * (GRID_SIZE * GRID_SIZE) + j)) as [c Hc].
    { unfold key_bytes in Hlen. lia. }
    exists c. split; [done|].
    destruct (Hput _ c Hc) as (_ & v & Hv & Hd). rewrite Hnode in Hd.
    unfold load_value in Hv. rewrite decide_True in Hv by done. rewrite Hv. f_equal.
    destruct (valid_in_field st k (GridNode k j) Hsh Hk) as [n Hn]; [done|].
    rewrite Hn in Hd. unfold value_at. unfold deref in Hd.
    destruct (lookup2 (gridnodes (load cs st)) k j); simpl in Hd; [|done].
    by injection Hd as ->.
  - intros k i Hk Hi'. destruct (load_slot k i Hk Hi') as [Hlt Hnode].
    destruct (lookup_lt_is_Some_2 cs (mirror_bytes + k * (GRID_SIZE * 4) + i)) as [c Hc].
    { lia. }
    rewrite Hc. f_equal.
    destruct (Hput _ c Hc) as (_ & v & Hv & Hd). rewrite Hnode in Hd.
    unfold load_value in Hv. rewrite decide_False in Hv by lia. injection Hv as <-.
    destruct (valid_in_field st k (PerimNode k i) Hsh Hk) as [n Hn]; [done|].
    rewrite Hn in Hd. unfold value_at. unfold deref in Hd.
    destruct (lookup2 (perimeter (load cs st)) k i); simpl in Hd; [|done].
    by injection Hd as ->.
  - intros q d. apply load_keeps_links.
  - lia.
  - intros c. destruct (set_refuse (load cs st) c) as (H0 & Hg & Hp & Hi'); [left; lia|].
    rewrite Hi'. split; [done|]. split; [done|]. split; [done|lia].
Qed.

(** X2: a refused byte is skipped.  When [mirrorfield_set] returns 0 for
    the byte b after the bytes cs1, the arrays, the loader's position, the
    Field Cursor and the Roll Window after any further bytes cs2 are what
    they are when b is left out of the stream, and every later call
    returns the same result. *)
Theorem refused_byte_skipped cs1 b cs2 st :
  (mirrorfield_set (load cs1 st) b).1 = 0 →
  gridnodes (load (cs1 ++ b :: cs2) st) = gridnodes (load (cs1 ++ cs2) st)
  ∧ perimeter (load (cs1 ++ b :: cs2) st) = perimeter (load (cs1 ++ cs2) st)
  ∧ set_i (load (cs1 ++ b :: cs2) st) = set_i (load (cs1 ++ cs2) st)
  ∧ crypt_m (load (cs1 ++ b :: cs2) st) = crypt_m (load (cs1 ++ cs2) st)
  ∧ window (load (cs1 ++ b :: cs2) st) = window (load (cs1 ++ cs2) st)
  ∧ ∀ c, (mirrorfield_set (load (cs1 ++ b :: cs2) st) c).1
         = (mirrorfield_set (load (cs1 ++ cs2) st) c).1.
Proof.
  intros Hzero. rewrite !load_app.
  change (load (b :: cs2) (load cs1 st))
    with (load cs2 (mirrorfield_set (load cs1 st) b).2).
  destruct (set_refused_state _ _ Hzero) as [Hi Heq].
  destruct (load_same_arrays cs2 _ _ Hi Heq) as [Hi' Heq'].
  repeat split; try done;
    try (by apply (f_equal gridnodes) in Heq');
    try (by apply (f_equal perimeter) in Heq');
    try (by apply (f_equal crypt_m) in Heq').
  - apply (f_equal window) in Heq'. done.
  - intros c. by destruct (set_same_arrays _ _ c Hi' Heq') as (? & _).
Qed.

(** X3: a load that stops inside the mirrors does not validate.  After
    [mirrorfield_init] on a freshly started engine and any bytes whatever,
    as long as the loader's position is still inside the mirror part (in
    particular when fewer than GRID_SIZE²×MIRROR_FIELD_COUNT bytes were
    fed, or none at all), [mirrorfield_validate] returns 0: the cell at
    the loader's position still holds 0, which is no mirror code. *)
Theorem unfinished_load_invalid cs :
  (set_i (load cs (mirrorfield_init fresh)) < mirror_bytes)%nat
    ∨ (length cs < mirror_bytes)%nat →
  mirrorfield_validate (load cs (mirrorfield_init fresh)) = 0.
Proof.
  intros Hshort. apply unfinished_load.
  destruct Hshort as [Hlt|Hlen]; [done|].
  destruct (load_unwritten cs (mirrorfield_init fresh)) as [Hle _].
  destruct (mirrorfield_init_inv fresh shaped_fresh) as (_ & (Hi & _) & _).
  rewrite Hi in Hle. simpl in Hle. lia.
Qed.

(** ** What validation means *)

(** X4: [mirrorfield_validate] returns 0 or 1, and on arrays of the
    declared dimensions it returns 1 exactly when every interior cell of
    every field holds one of the four mirror codes (a value from
    MIRROR_BACKWARD = -4 to MIRROR_NONE = -1) and the perimeter values of
    each field are pairwise distinct.  Nothing else is checked: neither
    the range of the perimeter values nor the links. *)
Theorem validate_accepts_iff st :
  shaped st →
  (mirrorfield_validate st = 0 ∨ mirrorfield_validate st = 1)
  ∧ (mirrorfield_validate st = 1 ↔
       (∀ k j, (k < MIRROR_FIELD_COUNT)%nat → (j < GRID_SIZE * GRID_SIZE)%nat →
          MIRROR_BACKWARD ≤ value_at (gridnodes st) k j ≤ MIRROR_NONE)
       ∧ (∀ k, (k < MIRROR_FIELD_COUNT)%nat → NoDup (alphabet st k))).
Proof.
  intros Hsh. split; [apply validate_zero_or_one|by apply validate_NoDup].
Qed.

(** ** What linking builds *)

Lemma link_sides st k r c :
  shaped st → unlinked st → (k < MIRROR_FIELD_COUNT)%nat →
  (r < GRID_SIZE)%nat → (c < GRID_SIZE)%nat →
  let st' := mirrorfield_link st in
  let cell := GridNode k (r * GRID_SIZE + c) in
  link_of st' cell DIR_UP =
    (if decide (r = O) then PerimNode k c
     else GridNode k ((r - 1) * GRID_SIZE + c))
  ∧ link_of st' cell DIR_DOWN =
    (if decide (S r = GRID_SIZE) then PerimNode k (c + GRID_SIZE * 2)
     else GridNode k ((r + 1) * GRID_SIZE + c))
  ∧ link_of st' cell DIR_LEFT =
    (if decide (c = O) then PerimNode k (r + GRID_SIZE * 3)
     else GridNode k (r * GRID_SIZE + (c - 1)))
  ∧ link_of st' cell DIR_RIGHT =
    (if decide (S c = GRID_SIZE) then PerimNode k (r + GRID_SIZE)
     else GridNode k (r * GRID_SIZE + (c + 1)))
  ∧ (∀ d, link_of st' (PerimNode k c) d =
          if decide (d = DIR_DOWN) then GridNode k c else NULL)
  ∧ (∀ d, link_of st' (PerimNode k (r + GRID_SIZE)) d =
          if decide (d = DIR_LEFT) then GridNode k (r * GRID_SIZE + (GRID_SIZE - 1))
          else NULL)
  ∧ (∀ d, link_of st' (PerimNode k (c + GRID_SIZE * 2)) d =
          if decide (d = DIR_UP) then GridNode k ((GRID_SIZE - 1) * GRID_SIZE + c)
          else NULL)
  ∧ (∀ d, link_of st' (PerimNode k (r + GRID_SIZE * 3)) d =
          if decide (d = DIR_RIGHT) then GridNode k (r * GRID_SIZE) else NULL).
Proof.
  intros Hsh Hun Hk Hr Hc st' cell.
  destruct (link_chains st k Hsh Hk) as [Hin Hout]. fold st' in Hin, Hout.
  assert (∀ i d, (PerimNode k i, d) ∉ keys all_connects →
                 link_of st' (PerimNode k i) d = NULL) as Hnull.
  { intros i d Hkey. by rewrite Hout, Hun. }
  assert (cell = col_node k c (S r)) as Hcol.
  { unfold cell, col_node. rewrite decide_False by done. rewrite decide_True by lia.
    f_equal; lia. }
  assert (cell = row_node k r (S c)) as Hrow.
  { unfold cell, row_node. rewrite decide_False by done. rewrite decide_True by lia.
    f_equal; lia. }
  split; [|split; [|split; [|split; [|split; [|split; [|split]]]]]].
  - rewrite Hcol. destruct (Hin c r Hc ltac:(lia)) as (_ & -> & _).
    unfold col_node. case_decide; [done|].
    rewrite decide_True by lia. f_equal; lia.
  - rewrite Hcol. destruct (Hin c (S r) Hc ltac:(lia)) as (-> & _).
    unfold col_node. rewrite decide_False by done.
    case_decide; [rewrite decide_False by lia|rewrite decide_True by lia]; f_equal; lia.
  - rewrite Hrow. destruct (Hin r c Hr ltac:(lia)) as (_ & _ & _ & ->).
    unfold row_node. case_decide; [done|].
    rewrite decide_True by lia. f_equal; lia.
  - rewrite Hrow. destruct (Hin r (S c) Hr ltac:(lia)) as (_ & _ & -> & _).
    unfold row_node. rewrite decide_False by done.
    case_decide; [rewrite decide_False by lia|rewrite decide_True by lia]; f_equal; lia.
  - intros d. case_decide as Hd.
    + subst d. destruct (Hin c O Hc ltac:(lia)) as (Hdown & _).
      unfold col_node in Hdown. rewrite decide_True in Hdown by done.
      rewrite Hdown, decide_False by done. rewrite decide_True by lia. f_equal; lia.
    + apply Hnull. intros Hkey%slot_keys. destruct Hkey as [[? ->]|[[? ->]|[[? ->]|[? ->]]]];
        (done || lia).
  - intros d. case_decide as Hd.
    + subst d. destruct (Hin r GRID_SIZE Hr ltac:(lia)) as (_ & _ & _ & Hleft).
      rewrite row_node_last in Hleft. rewrite Hleft.
      unfold row_node. rewrite decide_False by lia. rewrite decide_True by lia. done.
    + apply Hnull. intros Hkey%slot_keys. destruct Hkey as [[? ->]|[[? ->]|[[? ->]|[? ->]]]];
        (done || lia).
  - intros d. case_decide as Hd.
    + subst d. destruct (Hin c GRID_SIZE Hc ltac:(lia)) as (_ & Hup & _).
      rewrite col_node_last in Hup. rewrite Hup.
      unfold col_node. rewrite decide_False by lia. rewrite decide_True by lia.
      f_equal; lia.
    + apply Hnull. intros Hkey%slot_keys. destruct Hkey as [[? ->]|[[? ->]|[[? ->]|[? ->]]]];
        (done || lia).
  - intros d. case_decide as Hd.
    + subst d. destruct (Hin r O Hr ltac:(lia)) as (_ & _ & Hright & _).
      unfold row_node in Hright. rewrite decide_True in Hright by done.
      rewrite Hright, decide_False by done. rewrite decide_True by lia. f_equal; lia.
    + apply Hnull. intros Hkey%slot_keys. destruct Hkey as [[? ->]|[[? ->]|[[? ->]|[? ->]]]];
        (done || lia).
Qed.

(** X5: the sides of a field.  After [mirrorfield_link] on an engine
    without links, the interior cell in row r and column c of field k
    (index r×GRID_SIZE + c) has the cells above, below, left and right of
    it as its up, down, left and right links, and on the border the slot
    of the top side (slots 0..GRID_SIZE-1, by column), the bottom side
    (from 2×GRID_SIZE, by column), the left side (from 3×GRID_SIZE, by row)
    or the right side (from GRID_SIZE, by row); each slot has its one
    link to the border cell next to it, pointing into the field, and no
    other link. *)
Theorem link_topology st k r c :
  shaped st → unlinked st → (k < MIRROR_FIELD_COUNT)%nat →
  (r < GRID_SIZE)%nat → (c < GRID_SIZE)%nat →
  let st' := mirrorfield_link st in
  let cell := GridNode k (r * GRID_SIZE + c) in
  link_of st' cell DIR_UP =
    (if decide (r = O) then PerimNode k c
     else GridNode k ((r - 1) * GRID_SIZE + c))
  ∧ link_of st' cell DIR_DOWN =
    (if decide (S r = GRID_SIZE) then PerimNode k (c + GRID_SIZE * 2)
     else GridNode k ((r + 1) * GRID_SIZE + c))
  ∧ link_of st' cell DIR_LEFT =
    (if decide (c = O) then PerimNode k (r + GRID_SIZE * 3)
     else GridNode k (r * GRID_SIZE + (c - 1)))
  ∧ link_of st' cell DIR_RIGHT =
    (if decide (S c = GRID_SIZE) then PerimNode k (r + GRID_SIZE)
     else GridNode k (r * GRID_SIZE + (c + 1)))
  ∧ (∀ d, link_of st' (PerimNode k c) d =
          if decide (d = DIR_DOWN) then GridNode k c else NULL)
  ∧ (∀ d, link_of st' (PerimNode k (r + GRID_SIZE)) d =
          if decide (d = DIR_LEFT) then GridNode k (r * GRID_SIZE + (GRID_SIZE - 1))
          else NULL)
  ∧ (∀ d, link_of st' (PerimNode k (c + GRID_SIZE * 2)) d =
          if decide (d = DIR_UP) then GridNode k ((GRID_SIZE - 1) * GRID_SIZE + c)
          else NULL)
  ∧ (∀ d, link_of st' (PerimNode k (r + GRID_SIZE * 3)) d =
          if decide (d = DIR_RIGHT) then GridNode k (r * GRID_SIZE) else NULL).
Proof. apply link_sides. Qed.

(** X6: after [mirrorfield_link] on an engine without links (as
    [mirrorfield_init] and the loader leave it), in every field every
    node has a link, every interior cell has its four links, every link
    leads to a node of the same field from which the opposite link leads
    back, and every perimeter slot has one link only. *)
Theorem link_doubly_linked st k :
  shaped st → unlinked st → (k < MIRROR_FIELD_COUNT)%nat →
  linked (mirrorfield_link st) k ∧ single_link (mirrorfield_link st) k.
Proof.
  intros Hsh Hun Hk. split.
  - by apply mirrorfield_link_linked.
  - by apply mirrorfield_link_single.
Qed.

(** X7: [mirrorfield_link] writes links only.  It keeps the dimensions of
    the arrays, every value of every interior cell and perimeter slot,
    and the statics; so [mirrorfield_validate] gives the same result
    before and after linking. *)
Theorem link_keeps_values st :
  shaped st →
  shaped (mirrorfield_link st)
  ∧ (∀ k i, value_at (gridnodes (mirrorfield_link st)) k i = value_at (gridnodes st) k i)
  ∧ (∀ k i, value_at (perimeter (mirrorfield_link st)) k i = value_at (perimeter st) k i)
  ∧ (∀ k, alphabet (mirrorfield_link st) k = alphabet st k)
  ∧ statics_eq st (mirrorfield_link st)
  ∧ mirrorfield_validate (mirrorfield_link st) = mirrorfield_validate st.
Proof.
  intros Hsh. destruct (value_at_link st Hsh) as [Hg Hp].
  pose proof (connects_keeps all_connects st Hsh) as (Hsh' & Hst & _).
  rewrite <- mirrorfield_link_connects in Hsh', Hst.
  split; [done|]. split; [done|]. split; [done|].
  split; [intros k; by apply alphabet_link|]. split; [done|]. by apply validate_link.
Qed.

(** ** The engine the driver works with *)

(** X8: in every state the driver can bring the engine to (init, load of
    a configuration of bytes that validates, link, then any number of
    calls of cryptChar that return) the engine is well formed, the
    perimeter values of each field are pairwise distinct bytes, every
    perimeter slot has one link only, and the two Roll Window indices
    differ. *)
Theorem reachable_invariants st :
  reachable st →
  wellformed st
  ∧ (∀ k, (k < MIRROR_FIELD_COUNT)%nat →
       NoDup (alphabet st k)
       ∧ (∀ v, v ∈ alphabet st k → 0 ≤ v < 256)
       ∧ single_link st k)
  ∧ roll_g1 st ≠ roll_g2 st.
Proof.
  intros Hr. destruct (reachable_keyed st Hr) as [Hwf Hkey].
  split; [done|]. split; [|by apply reachable_window_distinct].
  intros k Hk. destruct (Hkey k Hk) as (Hnd & H256 & Hsingle).
  split; [done|]. split; [|done]. intros v Hv. split; [|by apply H256].
  by apply (proj1 (perimeter_chars_alphabet st) (wellformed_perimeter_chars st Hwf) k).
Qed.

(** ** The traversal *)

(** X9: the traversal can be run backwards.  In a linked field, when the
    traversal from a perimeter slot returns the slot t and the state st1,
    the traversal started at t in the one direction opposite to its last
    step returns the slot it started from and the same state st1 (the same
    mirrors rotated as many times), entering the same cells in the
    opposite order, with the same recursion depth. *)
Theorem traversal_reversible fuel st k i d t st1 :
  shaped st → linked st k → field_values st k →
  (i < GRID_SIZE * 4)%nat →
  link_of st (PerimNode k i) d ≠ NULL →
  mirrorfield_crypt_char_advance fuel st (PerimNode k i) d = Ok (t, st1) →
  ∃ d', link_of st t d' ≠ NULL
        ∧ mirrorfield_crypt_char_advance fuel st t d' = Ok (PerimNode k i, st1)
        ∧ path fuel st t d' = rev (path fuel st (PerimNode k i) d).
Proof.
  intros Hsh Hl Hfv Hi Hnn Hadv.
  destruct (advance_backwards st k Hl Hfv fuel (PerimNode k i, d) t st1 Hsh)
    as (Hnn' & _ & _ & Hback & Hpath); [by split|by intros []|done|].
  eauto.
Qed.

(** X10: a traversal never comes back to the slot it entered by.  In a
    linked field whose perimeter slots have one link each, the slot
    returned by the traversal differs from the slot it started at. *)
Theorem exit_differs_from_entry fuel st k i d t st1 :
  shaped st → linked st k → field_values st k → single_link st k →
  (i < GRID_SIZE * 4)%nat →
  link_of st (PerimNode k i) d ≠ NULL →
  mirrorfield_crypt_char_advance fuel st (PerimNode k i) d = Ok (t, st1) →
  t ≠ PerimNode k i.
Proof. apply advance_exit_differs. Qed.

(** X11: a traversal enters a cell twice at most (so it rotates a mirror
    by two steps at most): in a linked field, no node occurs more than
    twice among the cells entered from a perimeter slot. *)
Theorem cell_entered_twice_at_most fuel st k i d q :
  linked st k → field_values st k →
  (i < GRID_SIZE * 4)%nat →
  link_of st (PerimNode k i) d ≠ NULL →
  (passes (path fuel st (PerimNode k i) d) q ≤ 2)%nat.
Proof.
  intros Hl Hfv Hi Hnn. rewrite (path_walk st).
  apply (walk_passes st k); [done|done|by split|by intros []].
Qed.

(** ** The rolling step *)

(** X12: the rolling step does not depend on the order of its two
    character arguments when the perimeter values of the field are
    pairwise distinct: called with (e, s) it returns the state it returns
    with (s, e). *)
Theorem roll_symmetric st s e m st' :
  NoDup (alphabet st m) →
  mirrorfield_roll_chars st s e m = Ok st' →
  mirrorfield_roll_chars st e s m = Ok st'.
Proof. apply roll_chars_sym. Qed.

(** X13: the rolling step moves its two characters to the two window
    positions.  When the rotate order is (x1, x2) with x1 ≠ x2 and the
    window indices g1 and g2 differ, then after the call slot g1 of the
    field holds x1 and slot g2 holds x2 (g1, g2 being the window before
    the call). *)
Theorem roll_places st s e m st' x1 x2 :
  mirrorfield_roll_chars st s e m = Ok st' →
  rotate_order st s e m = Ok (x1, x2) →
  x1 ≠ x2 → roll_g1 st ≠ roll_g2 st →
  alphabet st' m !! roll_g1 st = Some x1 ∧ alphabet st' m !! roll_g2 st = Some x2.
Proof. apply roll_chars_places. Qed.

(** ** cryptChar *)

(** X14: cryptChar undoes itself.  In a reachable engine, when the call
    with the byte ch returns the byte rv and the state st', then from the
    same state the call with rv returns ch and the same state st'. *)
Theorem crypt_char_self_inverse fuel st ch rv st' :
  reachable st →
  mirrorfield_crypt_char fuel st ch = Ok (rv, st') →
  mirrorfield_crypt_char fuel st rv = Ok (ch, st').
Proof. intros Hr. by apply crypt_char_involution, reachable_keyed. Qed.

(** X15: decryption is encryption.  In a reachable engine, when successive
    calls of cryptChar on the bytes bs return the bytes cs and end in the
    state st', then from the same state successive calls on cs return bs
    and end in the same state st'. *)
Theorem message_round_trip fuel st bs cs st' :
  reachable st →
  crypt_chars fuel st bs = Ok (cs, st') →
  crypt_chars fuel st cs = Ok (bs, st').
Proof. intros Hr. by apply crypt_chars_involution, reachable_keyed. Qed.

(** X16: cryptChar is defined on every message over the alphabet.  In a
    reachable engine whose perimeter values are all below 4×GRID_SIZE,
    successive calls on any bytes below 4×GRID_SIZE all return, with
    recursion depth 2×GRID_SIZE² + 1 at most; as many bytes come out as
    went in, and they are below 4×GRID_SIZE again. *)
Theorem alphabet_closed st bs :
  reachable st →
  (∀ k v, v ∈ alphabet st k → v < Z.of_nat (GRID_SIZE * 4)) →
  Forall (λ b, 0 ≤ b < Z.of_nat (GRID_SIZE * 4)) bs →
  ∃ cs st',
    crypt_chars (S (2 * (GRID_SIZE * GRID_SIZE))) st bs = Ok (cs, st')
    ∧ length cs = length bs
    ∧ Forall (λ c, 0 ≤ c < Z.of_nat (GRID_SIZE * 4)) cs.
Proof.
  intros Hr Hrange Hbs. pose proof (reachable_keyed st Hr) as Hkey.
  assert (operational st) as Hop.
  { destruct Hkey as [Hwf Hkey]. split; [done|]. intros k v Hv.
    pose proof (proj1 (perimeter_chars_alphabet st) (wellformed_perimeter_chars st Hwf) k v Hv).
    pose proof (Hrange k v Hv). split; [lia|].
    destruct (decide (k < MIRROR_FIELD_COUNT)%nat) as [Hk|Hk].
    - by apply (proj1 (proj2 (Hkey k Hk))).
    - exfalso. unfold alphabet in Hv. destruct Hwf as ((_ & Hlen & _) & _).
      rewrite lookup_ge_None_2 in Hv by lia. by apply elem_of_nil in Hv. }
  destruct (crypt_chars_returns st bs Hop Hkey Hbs) as (cs & st' & Hrun & Hlen & Hcs & _).
  by exists cs, st'.
Qed.

(** X17: the statics after n calls.  In a reachable engine, n successive
    calls of cryptChar that return leave the Field Cursor at
    (m + n) mod MIRROR_FIELD_COUNT, the counter c at
    (c + n) mod MIRROR_FIELD_COUNT and the window indices advanced by
    (c + n) / MIRROR_FIELD_COUNT positions modulo 4×GRID_SIZE; the loader's
    position is not touched. *)
Theorem statics_after_calls fuel st bs cs st' :
  reachable st →
  crypt_chars fuel st bs = Ok (cs, st') →
  length cs = length bs
  ∧ crypt_m st' = ((crypt_m st + length bs) mod MIRROR_FIELD_COUNT)%nat
  ∧ roll_c st' = ((roll_c st + length bs) mod MIRROR_FIELD_COUNT)%nat
  ∧ roll_g1 st' = ((roll_g1 st + (roll_c st + length bs) / MIRROR_FIELD_COUNT)
                     mod (GRID_SIZE * 4))%nat
  ∧ roll_g2 st' = ((roll_g2 st + (roll_c st + length bs) / MIRROR_FIELD_COUNT)
                     mod (GRID_SIZE * 4))%nat.
Proof.
  intros Hr Hrun. destruct (reachable_sizes st Hr) as [HG _].
  pose proof (reachable_wellformed st Hr) as (_ & Hm & Hg1 & Hg2 & Hc & _).
  destruct (crypt_chars_cursor _ _ _ _ _ Hrun Hm) as (Hlen & Hm' & Hw).
  split; [done|]. split; [done|].
  unfold window in Hw at 2. rewrite advance_window_closed in Hw by done.
  unfold window in Hw. by injection Hw as -> -> ->.
Qed.

(** X18: what a call leaves alone.  A call of cryptChar that returns, in
    a well formed engine, changes no link of any node, changes no node of
    a field other than the current one, and does not touch the loader's
    position. *)
Theorem crypt_char_frame fuel st ch rv st' :
  wellformed st →
  mirrorfield_crypt_char fuel st ch = Ok (rv, st') →
  (∀ q d, link_of st' q d = link_of st q d)
  ∧ (∀ k q, k ≠ crypt_m st → in_field k q → deref st' q = deref st q)
  ∧ set_i st' = set_i st.
Proof.
  intros Hwf Hcall. split; [|split].
  - intros q d. by eapply crypt_char_links.
  - intros k q. by eapply crypt_char_other_fields.
  - by eapply crypt_char_set_i.
Qed.

(** X19: the two characters of a call end in the window.  In a reachable
    engine a call of cryptChar with the byte ch that returns rv has an
    exit character ev, a perimeter value of the current field other than
    ch; rv is ch or ev; and afterwards the slots g1 and g2 of the current
    field (the window before the call) hold ch and ev, in one order or
    the other. *)
Theorem crypt_char_fills_window fuel st ch rv st' :
  reachable st →
  mirrorfield_crypt_char fuel st ch = Ok (rv, st') →
  ∃ ev x1 x2,
    ev ≠ ch ∧ ev ∈ alphabet st (crypt_m st)
    ∧ (rv = ch ∨ rv = ev)
    ∧ ((x1, x2) = (ch, ev) ∨ (x1, x2) = (ev, ch))
    ∧ alphabet st' (crypt_m st) !! roll_g1 st = Some x1
    ∧ alphabet st' (crypt_m st) !! roll_g2 st = Some x2.
Proof.
  intros Hr. apply crypt_char_places.
  - by apply reachable_keyed.
  - by apply reachable_window_distinct.
Qed.

(** ** Calls that have no defined behaviour *)

(** X20: cryptChar before linking.  On an engine without links (init and
    load, but no [mirrorfield_link]) a call of cryptChar with a byte of
    the current field's perimeter finds the start slot, finds none of its
    four links set, and goes on with the direction d never assigned: the
    traversal reads an uninitialised variable. *)
Theorem crypt_before_link fuel st ch :
  shaped st → (crypt_m st < MIRROR_FIELD_COUNT)%nat →
  unlinked st →
  ch ∈ alphabet st (crypt_m st) →
  mirrorfield_crypt_char fuel st ch = Fault Uninitialised.
Proof.
  intros Hsh Hm Hun Hch.
  destruct (shaped_row st _ Hsh Hm) as (row & Hrow & Hlen).
  unfold mirrorfield_crypt_char. rewrite Hrow.
  change (of_option (Some row) OutOfBounds) with (Ok row).
  rewrite bind_Ok_l, take_ge by lia.
  destruct (find_start_spec row ch (crypt_m st) 0)
    as [[_ Hmiss]|(i & ns & -> & Hi & Hv & _)].
  { exfalso. unfold alphabet in Hch. rewrite Hrow in Hch. simpl in Hch.
    apply list_elem_of_fmap in Hch as (n & -> & Hn). by apply (Hmiss n). }
  rewrite Nat.add_0_l.
  assert (deref st (PerimNode (crypt_m st) i) = Ok ns) as Hns.
  { unfold deref, lookup2. rewrite Hrow. simpl. by rewrite Hi. }
  rewrite Hns, bind_Ok_l.
  assert (∀ d, neighbour ns d = NULL) as Hnull.
  { intros d. specialize (Hun (PerimNode (crypt_m st) i) d).
    unfold link_of in Hun. by rewrite Hns in Hun. }
  assert (initial_direction ns = Fault Uninitialised) as ->; [|done].
  unfold initial_direction.
  pose proof (Hnull DIR_DOWN). pose proof (Hnull DIR_UP).
  pose proof (Hnull DIR_LEFT). pose proof (Hnull DIR_RIGHT). simpl in *.
  by repeat case_decide.
Qed.

(** X21: a perimeter value of 4×GRID_SIZE or more.  Validation accepts
    such a value, but in a well formed engine a call of cryptChar
    with it, given any recursion depth above 2×GRID_SIZE², completes the
    traversal and then indexes perimeter[m] with the value itself in the
    rolling step: an access outside the array. *)
Theorem crypt_char_reads_out_of_bounds fuel st ch :
  wellformed st →
  (2 * (GRID_SIZE * GRID_SIZE) < fuel)%nat →
  ch ∈ alphabet st (crypt_m st) →
  Z.of_nat (GRID_SIZE * 4) ≤ ch < 256 →
  mirrorfield_crypt_char fuel st ch = Fault OutOfBounds.
Proof.
  intros Hwf Hfuel Hch Hrange.
  pose proof (wellformed_perimeter_chars st Hwf) as Hchars.
  destruct Hwf as (Hsh & Hm & Hg1 & Hg2 & Hc & Hall).
  destruct (Hall _ Hm) as (Hl & Hfv).
  destruct (shaped_row st _ Hsh Hm) as (row & Hrow & Hlen).
  unfold mirrorfield_crypt_char. rewrite Hrow.
  change (of_option (Some row) OutOfBounds) with (Ok row).
  rewrite bind_Ok_l, take_ge by lia.
  destruct (find_start_spec row ch (crypt_m st) 0)
    as [[_ Hmiss]|(i & ns & -> & Hi & Hv & _)].
  { exfalso. unfold alphabet in Hch. rewrite Hrow in Hch. simpl in Hch.
    apply list_elem_of_fmap in Hch as (n & -> & Hn). by apply (Hmiss n). }
  rewrite Nat.add_0_l.
  assert (in_field (crypt_m st) (PerimNode (crypt_m st) i)) as Hin.
  { split; [done|]. apply lookup_lt_Some in Hi. lia. }
  assert (deref st (PerimNode (crypt_m st) i) = Ok ns) as Hns.
  { unfold deref, lookup2. rewrite Hrow. simpl. by rewrite Hi. }
  rewrite Hns, bind_Ok_l.
  destruct (Hl _ Hin) as [Hex _]. unfold link_of in Hex. rewrite Hns in Hex.
  destruct (initial_direction_Ok ns Hex) as (d & -> & Hd). rewrite bind_Ok_l.
  set (e0 := (PerimNode (crypt_m st) i, d)).
  assert (usable st (crypt_m st) e0) as Hu.
  { split; [done|]. unfold link_of. simpl. by rewrite Hns. }
  destruct (advance_stops st (crypt_m st) Hl Hfv fuel e0 Hu)
    as (t & st1 & Hadv & Ht & Htslot).
  { pose proof (walk_length st (crypt_m st) Hl Hfv fuel e0 Hu) as Hlen'.
    assert (¬ is_cell e0.1) as Hslot by (by intros []). specialize (Hlen' Hslot). lia. }
  change e0.1 with (PerimNode (crypt_m st) i) in Hadv.
  change e0.2 with d in Hadv. rewrite Hadv, bind_Ok_l.
  pose proof (advance_perimeter _ _ _ _ _ _ Hchars Hadv) as Hper.
  pose proof (shaped_advance _ _ _ _ _ _ Hadv Hsh) as Hsh1.
  assert (deref st1 (PerimNode (crypt_m st) i) = Ok ns) as Hns1.
  { unfold deref. by rewrite Hper. }
  rewrite Hns1, bind_Ok_l.
  destruct (valid_in_field st1 (crypt_m st) t Hsh1 Hm Ht) as [ne Hne].
  rewrite Hne, bind_Ok_l.
  assert (to_uchar (value ns) = ch) as ->.
  { rewrite Hv. unfold to_uchar. apply Z.mod_small. lia. }
  unfold mirrorfield_roll_chars, rotate_order.
  rewrite (perimeter_value_out_of_bounds st1 (crypt_m st) ch Hsh1 Hm) by lia.
  done.
Qed.

(** ** Validation of what was loaded *)

Lemma init_fresh_slot k i :
  (k < MIRROR_FIELD_COUNT)%nat → (i < GRID_SIZE * 4)%nat →
  deref (mirrorfield_init fresh) (PerimNode k i) = Ok zero_node.
Proof.
  intros Hk Hi. destruct (mirrorfield_init_inv fresh shaped_fresh) as (_ & _ & Hq).
  rewrite Hq. simpl. rewrite bool_decide_eq_true_2 by lia.
  destruct (valid_in_field fresh k (PerimNode k i) shaped_fresh Hk) as [n ->]; done.
Qed.

(** The values in the arrays after the bytes [cs], each of which the
    loader takes, fed after [mirrorfield_init] to a freshly started engine:
    what was fed, and 0 where nothing was. *)
Lemma load_values cs :
  (length cs ≤ key_bytes)%nat →
  (∀ p c, (p < mirror_bytes)%nat → cs !! p = Some c → is_Some (mirror_code c)) →
  (∀ k j, (k < MIRROR_FIELD_COUNT)%nat → (j < GRID_SIZE * GRID_SIZE)%nat →
     value_at (gridnodes (load cs (mirrorfield_init fresh))) k j =
       default 0 (cs !! (k * (GRID_SIZE * GRID_SIZE) + j)%nat ≫= mirror_code))
  ∧ (∀ k i, (k < MIRROR_FIELD_COUNT)%nat → (i < GRID_SIZE * 4)%nat →
       value_at (perimeter (load cs (mirrorfield_init fresh))) k i =
         default 0 (cs !! (mirror_bytes + k * (GRID_SIZE * 4) + i)%nat)).
Proof.
  intros Hlen Hmir. set (st0 := mirrorfield_init fresh).
  assert (set_i st0 = O) as Hi0.
  { destruct (mirrorfield_init_inv fresh shaped_fresh) as (_ & (Hi & _) & _). exact Hi. }
  destruct (load_written cs st0 Hi0 Hlen) as (Hi & Hput & Hrest).
  { intros p c Hp. unfold load_value. case_decide; [by eapply Hmir|done]. }
  assert (∀ p q v, (p < key_bytes)%nat → load_node p = q → deref st0 q = Ok zero_node →
            (match cs !! p with Some c => load_value p c | None => Some 0 end) = Some v →
            value <$> deref (load cs st0) q = Ok v) as Hval.
  { intros p q v Hp Hq Hz Hv. destruct (cs !! p) as [c|] eqn:Hc.
    - destruct (Hput p c Hc) as (_ & v' & Hv' & Hd). rewrite Hq in Hd.
      rewrite Hd, Hz. simpl. congruence.
    - injection Hv as <-. rewrite Hrest, Hz; [done|].
      intros p' Hp' Heq. apply lookup_ge_None in Hc.
      rewrite <- Hq in Heq. apply load_node_inj in Heq; lia. }
  split.
  - intros k j Hk Hj. destruct (load_cell k j Hk Hj) as [Hlt Hnode].
    set (p := (k * (GRID_SIZE * GRID_SIZE) + j)%nat) in *.
    assert (∃ v, (match cs !! p with Some c => load_value p c | None => Some 0 end) = Some v
                 ∧ default 0 (cs !! p ≫= mirror_code) = v) as (v & Hv & ->).
    { destruct (cs !! p) as [c|] eqn:Hc; simpl; [|by exists 0].
      unfold load_value. rewrite decide_True by done.
      destruct (Hmir p c Hlt Hc) as [v Hv]. exists v. by rewrite Hv. }
    pose proof (Hval p (GridNode k j) v ltac:(unfold key_bytes; lia) Hnode
                  (init_fresh_cell k j Hk Hj) Hv) as Hd.
    unfold value_at. unfold deref in Hd.
    destruct (lookup2 (gridnodes (load cs st0)) k j); simpl in Hd; [|done].
    injection Hd as Hd. simpl. exact Hd.
  - intros k i Hk Hi'. destruct (load_slot k i Hk Hi') as [Hlt Hnode].
    set (p := (mirror_bytes + k * (GRID_SIZE * 4) + i)%nat) in *.
    assert ((match cs !! p with Some c => load_value p c | None => Some 0 end)
              = Some (default 0 (cs !! p))) as Hv.
    { destruct (cs !! p) as [c|] eqn:Hc; simpl; [|done].
      unfold load_value. by rewrite decide_False by (unfold p; lia). }
    pose proof (Hval p (PerimNode k i) _ Hlt Hnode (init_fresh_slot k i Hk Hi') Hv) as Hd.
    unfold value_at. unfold deref in Hd.
    destruct (lookup2 (perimeter (load cs st0)) k i); simpl in Hd; [|done].
    injection Hd as Hd. simpl. exact Hd.
Qed.

Lemma mirror_code_range c v :
  mirror_code c = Some v → MIRROR_BACKWARD ≤ v ≤ MIRROR_NONE.
Proof.
  unfold mirror_code, MIRROR_BACKWARD, MIRROR_NONE, MIRROR_FORWARD, MIRROR_STRAIGHT.
  repeat case_decide; intros [= <-]; lia.
Qed.

Lemma load_alphabet cs k :
  (length cs ≤ key_bytes)%nat →
  (∀ p c, (p < mirror_bytes)%nat → cs !! p = Some c → is_Some (mirror_code c)) →
  (k < MIRROR_FIELD_COUNT)%nat →
  alphabet (load cs (mirrorfield_init fresh)) k =
    (λ i, default 0 (cs !! (mirror_bytes + k * (GRID_SIZE * 4) + i)%nat))
      <$> seq 0 (GRID_SIZE * 4).
Proof.
  intros Hlen Hmir Hk. destruct (load_values cs Hlen Hmir) as [_ Hslot].
  destruct (mirrorfield_init_inv fresh shaped_fresh) as (Hsh0 & _).
  destruct (load_keeps cs (mirrorfield_init fresh) Hsh0
              (unlinked_init fresh shaped_fresh)) as (Hsh & _).
  apply list_eq. intros i. rewrite list_lookup_fmap.
  destruct (decide (i < GRID_SIZE * 4)%nat) as [Hi|Hi].
  - rewrite alphabet_value_at, Hslot by done. by rewrite lookup_seq_lt.
  - rewrite lookup_ge_None_2 by (rewrite alphabet_length by done; lia).
    by rewrite lookup_seq_ge by lia.
Qed.

Lemma validate_loaded_iff cs :
  (length cs ≤ key_bytes)%nat →
  (∀ p c, (p < mirror_bytes)%nat → cs !! p = Some c → is_Some (mirror_code c)) →
  mirrorfield_validate (load cs (mirrorfield_init fresh)) = 1 ↔
    (mirror_bytes ≤ length cs)%nat
    ∧ ∀ k, (k < MIRROR_FIELD_COUNT)%nat →
        NoDup ((λ i, default 0 (cs !! (mirror_bytes + k * (GRID_SIZE * 4) + i)%nat))
                 <$> seq 0 (GRID_SIZE * 4)).
Proof.
  intros Hlen Hmir.
  destruct (mirrorfield_init_inv fresh shaped_fresh) as (Hsh0 & (Hi0 & _) & _).
  destruct (load_keeps cs (mirrorfield_init fresh) Hsh0
              (unlinked_init fresh shaped_fresh)) as (Hsh & _).
  destruct (load_values cs Hlen Hmir) as [Hcell _].
  split.
  - intros Hval. split.
    + destruct (decide (mirror_bytes ≤ length cs)%nat) as [|Hshort]; [done|].
      rewrite unfinished_load in Hval; [done|].
      destruct (load_unwritten cs (mirrorfield_init fresh)) as [Hle _].
      rewrite Hi0 in Hle. simpl in Hle. lia.
    + intros k Hk. rewrite <- load_alphabet by done.
      by apply (proj1 (validate_NoDup _ Hsh) Hval).
  - intros [Hfull Hnd]. apply (validate_NoDup _ Hsh). split.
    + intros k j Hk Hj. rewrite Hcell by done.
      destruct (load_cell k j Hk Hj) as [Hlt _].
      destruct (lookup_lt_is_Some_2 cs (k * (GRID_SIZE * GRID_SIZE) + j)) as [c Hc]; [lia|].
      rewrite Hc. simpl. destruct (Hmir _ c Hlt Hc) as [v Hv]. rewrite Hv. simpl.
      by eapply mirror_code_range.
    + intros k Hk. rewrite load_alphabet by done. by apply Hnd.
Qed.

(** X22: validation of a loaded configuration.  After [mirrorfield_init]
    on a freshly started engine and a stream of at most the full length
    whose mirror part consists of mirror characters, [mirrorfield_validate]
    returns 1 exactly when the whole mirror part was fed and, for each
    field, its perimeter bytes, with 0 for every byte that was not fed,
    are pairwise distinct.  So a complete configuration validates when the
    perimeter bytes of each field are pairwise distinct, and a stream that
    is one byte short still validates when the last field has no other 0:
    the missing byte is not noticed. *)
Theorem validate_loaded cs :
  (length cs ≤ key_bytes)%nat →
  (∀ p c, (p < mirror_bytes)%nat → cs !! p = Some c → is_Some (mirror_code c)) →
  mirrorfield_validate (load cs (mirrorfield_init fresh)) = 1 ↔
    (mirror_bytes ≤ length cs)%nat
    ∧ ∀ k, (k < MIRROR_FIELD_COUNT)%nat →
        NoDup ((λ i, default 0 (cs !! (mirror_bytes + k * (GRID_SIZE * 4) + i)%nat))
                 <$> seq 0 (GRID_SIZE * 4)).
Proof. apply validate_loaded_iff. Qed.

(** ** The recursion depth given to cryptChar *)

Lemma crypt_char_fuel_le fuel fuel' st ch r :
  (fuel ≤ fuel')%nat →
  mirrorfield_crypt_char fuel st ch = Ok r →
  mirrorfield_crypt_char fuel' st ch = Ok r.
Proof.
  intros Hle. unfold mirrorfield_crypt_char.
  intros (row & -> & Hcall)%bind_Ok. rewrite bind_Ok_l.
  apply bind_Ok in Hcall as (sn & -> & Hcall). rewrite bind_Ok_l.
  apply bind_Ok in Hcall as (d & -> & Hcall). rewrite bind_Ok_l.
  apply bind_Ok in Hcall as ([endnode st1] & Hadv & Hcall).
  by rewrite (advance_fuel_le _ _ _ _ _ _ Hle Hadv), bind_Ok_l.
Qed.

(** X23: in one state, two different bytes are never encrypted to the same
    byte.  In a reachable engine, when the calls of cryptChar with ch1 and
    with ch2 from the same state both return the byte rv, then ch1 = ch2,
    and the two calls end in the same state. *)
Theorem crypt_char_injective fuel1 fuel2 st ch1 ch2 rv st1 st2 :
  reachable st →
  mirrorfield_crypt_char fuel1 st ch1 = Ok (rv, st1) →
  mirrorfield_crypt_char fuel2 st ch2 = Ok (rv, st2) →
  ch1 = ch2 ∧ st1 = st2.
Proof.
  intros Hkey%reachable_keyed H1 H2.
  apply (crypt_char_involution _ _ _ _ _ Hkey) in H1, H2.
  apply (crypt_char_fuel_le _ (fuel1 `max` fuel2)) in H1, H2; [|lia..].
  rewrite H1 in H2. by injection H2 as -> ->.
Qed.

(** ** mirrorfield_draw *)

Lemma grid_node_deref st m j : grid_node st m (Z.of_nat j) = deref st (GridNode m j).
Proof.
  unfold grid_node, deref. rewrite decide_False by lia. by rewrite Nat2Z.id.
Qed.

Lemma value_at_grid st m j n :
  deref st (GridNode m j) = Ok n → value_at (gridnodes st) m j = value n.
Proof.
  unfold deref, value_at. destruct (lookup2 _ _ _); simpl; congruence.
Qed.

Lemma value_at_perimeter st m i n :
  deref st (PerimNode m i) = Ok n → value_at (perimeter st) m i = value n.
Proof.
  unfold deref, value_at. destruct (lookup2 _ _ _); simpl; congruence.
Qed.

Lemma is_at_outside p m r c :
  r = -1 ∨ c = -1 ∨ r = Z.of_nat GRID_SIZE ∨ c = Z.of_nat GRID_SIZE →
  is_at p m r c = false.
Proof. intros Hout. unfold is_at. apply bool_decide_eq_false. lia. Qed.

Lemma is_at_inside p m r c :
  (r < GRID_SIZE)%nat → (c < GRID_SIZE)%nat →
  is_at p m (Z.of_nat r) (Z.of_nat c) = bool_decide (p = GridNode m (r * GRID_SIZE + c)).
Proof.
  intros Hr Hc. unfold is_at.
  replace (Z.to_nat (Z.of_nat r * Z.of_nat GRID_SIZE + Z.of_nat c))
    with (r * GRID_SIZE + c)%nat by lia.
  apply bool_decide_ext. split; [by intros (_ & _ & _ & _ & <-)|].
  intros ->. repeat split; (lia || done).
Qed.




Lemma elem_of_draw_range i : i ∈ draw_range ↔ -1 ≤ i ≤ Z.of_nat GRID_SIZE.
Proof.
  unfold draw_range. rewrite list_elem_of_fmap. split.
  - intros (j & -> & Hj%elem_of_seq). lia.
  - intros Hi. exists (Z.to_nat (i + 1)). split; [lia|]. apply elem_of_seq. lia.
Qed.

Section Drawing.

Variable st : engine.
Variable m : nat.
Hypothesis Hshaped : shaped st.
Hypothesis Hm : (m < MIRROR_FIELD_COUNT)%nat.
Hypothesis Hsided : sided st m.

Lemma cell_node r c :
  (r < GRID_SIZE)%nat → (c < GRID_SIZE)%nat →
  ∃ n, deref st (GridNode m (r * GRID_SIZE + c)) = Ok n.
Proof.
  intros Hr Hc. apply (valid_in_field st m); [done|done|]. split; [done|]. nia.
Qed.

Lemma slot_node i :
  (i < GRID_SIZE * 4)%nat → ∃ n, deref st (PerimNode m i) = Ok n.
Proof. intros Hi. by apply (valid_in_field st m). Qed.

Lemma draw_corner p r c :
  (r = -1 ∨ r = Z.of_nat GRID_SIZE) → (c = -1 ∨ c = Z.of_nat GRID_SIZE) →
  draw_item st p m r c = Ok [PrintChar 32].
Proof.
  intros Hr Hc. unfold draw_item. rewrite is_at_outside by lia.
  repeat case_decide; (done || lia).
Qed.

Lemma draw_top p c :
  (c < GRID_SIZE)%nat →
  draw_item st p m (-1) (Z.of_nat c)
    = Ok [PrintHex (value_at (perimeter st) m c)].
Proof.
  intros Hc. unfold draw_item. rewrite is_at_outside by lia.
  rewrite !decide_False by lia. rewrite decide_True by done.
  rewrite grid_node_deref.
  destruct (cell_node O c ltac:(lia) Hc) as [n Hn]. simpl in Hn. rewrite Hn, bind_Ok_l.
  destruct (Hsided O c ltac:(lia) Hc) as (Hup & _). simpl in Hup.
  unfold link_of in Hup. rewrite Hn in Hup. simpl in Hup. rewrite Hup.
  destruct (slot_node c ltac:(lia)) as [t Ht]. rewrite Ht, bind_Ok_l.
  by rewrite (value_at_perimeter _ _ _ _ Ht).
Qed.

Lemma draw_right p r :
  (r < GRID_SIZE)%nat →
  draw_item st p m (Z.of_nat r) (Z.of_nat GRID_SIZE)
    = Ok [PrintHex (value_at (perimeter st) m (r + GRID_SIZE))].
Proof.
  intros Hr. unfold draw_item. rewrite is_at_outside by lia.
  rewrite !decide_False by lia. rewrite decide_True by done.
  replace (Z.of_nat r * Z.of_nat GRID_SIZE + (Z.of_nat GRID_SIZE - 1))
    with (Z.of_nat (r * GRID_SIZE + (GRID_SIZE - 1))) by lia.
  rewrite grid_node_deref.
  destruct (cell_node r (GRID_SIZE - 1)%nat Hr ltac:(lia)) as [n Hn]. rewrite Hn, bind_Ok_l.
  destruct (Hsided r (GRID_SIZE - 1)%nat Hr ltac:(lia)) as (_ & _ & _ & Hright).
  rewrite decide_True in Hright by lia.
  unfold link_of in Hright. rewrite Hn in Hright. simpl in Hright. rewrite Hright.
  destruct (slot_node (r + GRID_SIZE)%nat ltac:(lia)) as [t Ht]. rewrite Ht, bind_Ok_l.
  by rewrite (value_at_perimeter _ _ _ _ Ht).
Qed.

Lemma draw_left p r :
  (r < GRID_SIZE)%nat →
  draw_item st p m (Z.of_nat r) (-1)
    = Ok [PrintHex (value_at (perimeter st) m (r + GRID_SIZE * 3))].
Proof.
  intros Hr. unfold draw_item. rewrite is_at_outside by lia.
  rewrite !decide_False by lia. rewrite decide_True by done.
  replace (Z.of_nat r * Z.of_nat GRID_SIZE) with (Z.of_nat (r * GRID_SIZE + 0)) by lia.
  rewrite grid_node_deref.
  destruct (cell_node r O Hr ltac:(lia)) as [n Hn]. rewrite Hn, bind_Ok_l.
  destruct (Hsided r O Hr ltac:(lia)) as (_ & _ & Hleft & _).
  rewrite decide_True in Hleft by lia.
  unfold link_of in Hleft. rewrite Hn in Hleft. simpl in Hleft. rewrite Hleft.
  destruct (slot_node (r + GRID_SIZE * 3)%nat ltac:(lia)) as [t Ht]. rewrite Ht, bind_Ok_l.
  by rewrite (value_at_perimeter _ _ _ _ Ht).
Qed.

Lemma draw_cell p r c :
  (r < GRID_SIZE)%nat → (c < GRID_SIZE)%nat →
  draw_item st p m (Z.of_nat r) (Z.of_nat c)
    = Ok (if decide (p = GridNode m (r * GRID_SIZE + c))
          then [FgBlack; BgWhite;
                PrintChar (mirror_char (value_at (gridnodes st) m (r * GRID_SIZE + c)));
                AttrReset]
          else [PrintChar (mirror_char (value_at (gridnodes st) m (r * GRID_SIZE + c)))]).
Proof.
  intros Hr Hc. unfold draw_item. rewrite is_at_inside by done.
  rewrite !decide_False by lia.
  replace (Z.of_nat r * Z.of_nat GRID_SIZE + Z.of_nat c)
    with (Z.of_nat (r * GRID_SIZE + c)) by lia.
  rewrite grid_node_deref.
  destruct (cell_node r c Hr Hc) as [n Hn]. rewrite Hn, bind_Ok_l.
  rewrite (value_at_grid _ _ _ _ Hn). by case_bool_decide; [rewrite decide_True|rewrite decide_False].
Qed.


Lemma draw_bottom_four p c :
  (c < GRID_SIZE)%nat → GRID_SIZE = 4%nat →
  draw_item st p m (Z.of_nat GRID_SIZE) (Z.of_nat c)
    = Ok [PrintHex (value_at (perimeter st) m (c + GRID_SIZE * 2))].
Proof.
  intros Hc HG. unfold draw_item. rewrite is_at_outside by lia.
  rewrite !decide_False by lia. rewrite decide_True by done.
  replace (Z.of_nat c + Z.of_nat GRID_SIZE * 3)
    with (Z.of_nat (3 * GRID_SIZE + c)) by lia.
  rewrite grid_node_deref.
  destruct (cell_node 3%nat c ltac:(lia) Hc) as [n Hn]. rewrite Hn, bind_Ok_l.
  destruct (Hsided 3%nat c ltac:(lia) Hc) as (_ & Hdown & _).
  rewrite decide_True in Hdown by lia.
  unfold link_of in Hdown. rewrite Hn in Hdown. simpl in Hdown. rewrite Hdown.
  destruct (slot_node (c + GRID_SIZE * 2)%nat ltac:(lia)) as [t Ht]. rewrite Ht, bind_Ok_l.
  by rewrite (value_at_perimeter _ _ _ _ Ht).
Qed.

Lemma draw_bottom_large p c :
  (c < GRID_SIZE)%nat → (4 < GRID_SIZE)%nat →
  draw_item st p m (Z.of_nat GRID_SIZE) (Z.of_nat c)
    = Ok [PrintHex (value_at (gridnodes st) m (4 * GRID_SIZE + c))].
Proof.
  intros Hc HG. unfold draw_item. rewrite is_at_outside by lia.
  rewrite !decide_False by lia. rewrite decide_True by done.
  replace (Z.of_nat c + Z.of_nat GRID_SIZE * 3)
    with (Z.of_nat (3 * GRID_SIZE + c)) by lia.
  rewrite grid_node_deref.
  destruct (cell_node 3%nat c ltac:(lia) Hc) as [n Hn]. rewrite Hn, bind_Ok_l.
  destruct (Hsided 3%nat c ltac:(lia) Hc) as (_ & Hdown & _).
  rewrite decide_False in Hdown by lia.
  unfold link_of in Hdown. rewrite Hn in Hdown. cbn [neighbour] in Hdown.
  rewrite Hdown.
  destruct (cell_node 4%nat c ltac:(lia) Hc) as [t Ht].
  change ((3 + 1) * GRID_SIZE + c)%nat with (4 * GRID_SIZE + c)%nat.
  rewrite Ht, bind_Ok_l. by rewrite (value_at_grid _ _ _ _ Ht).
Qed.

Lemma draw_item_upper p r c :
  -1 ≤ r < Z.of_nat GRID_SIZE → -1 ≤ c ≤ Z.of_nat GRID_SIZE →
  ∃ out, draw_item st p m r c = Ok out.
Proof.
  intros Hr Hc.
  destruct (decide (r = -1)) as [->|Hr'].
  - destruct (decide (c = -1 ∨ c = Z.of_nat GRID_SIZE)) as [Hcc|Hcc].
    + eexists. apply draw_corner; lia.
    + rewrite <- (Z2Nat.id c) by lia. eexists.
      apply draw_top. lia.
  - rewrite <- (Z2Nat.id r) by lia.
    destruct (decide (c = -1)) as [->|Hc'].
    + eexists. apply draw_left. lia.
    + destruct (decide (c = Z.of_nat GRID_SIZE)) as [->|Hc''].
      * eexists. apply draw_right. lia.
      * rewrite <- (Z2Nat.id c) by lia. eexists.
        apply draw_cell; lia.
Qed.






End Drawing.

Lemma sided_links st st' k :
  (∀ q d, link_of st' q d = link_of st q d) → sided st k → sided st' k.
Proof. intros Hsame Hs r c Hr Hc. rewrite !Hsame. by apply Hs. Qed.

Lemma link_sided st k :
  shaped st → unlinked st → (k < MIRROR_FIELD_COUNT)%nat → sided (mirrorfield_link st) k.
Proof.
  intros Hsh Hun Hk r c Hr Hc.
  destruct (link_sides st k r c Hsh Hun Hk Hr Hc) as (? & ? & ? & ? & _). done.
Qed.

Lemma reachable_sided st k :
  reachable st → (k < MIRROR_FIELD_COUNT)%nat → sided st k.
Proof.
  induction 1 as [cs HG HM Hcs Hval|st fuel ch rv st' _ IH Hcall]; intros Hk.
  - destruct (mirrorfield_init_inv fresh shaped_fresh) as (Hsh0 & _).
    destruct (load_keeps cs (mirrorfield_init fresh) Hsh0
                (unlinked_init fresh shaped_fresh)) as (Hsh & Hun & _).
    by apply link_sided.
  - eapply sided_links; [|by apply IH]. intros q d. by eapply crypt_char_links.
Qed.

(** ** The picture as a whole *)

Lemma print_each_concat body (f : Z → list emit) l :
  (∀ i, i ∈ l → body i = Ok (f i)) →
  print_each body l = Ok (concat (f <$> l)).
Proof.
  induction l as [|i l IH]; intros Hall; [done|]. simpl.
  rewrite (Hall i) by (by left). rewrite bind_Ok_l.
  rewrite IH by (intros j Hj; apply Hall; by right). done.
Qed.

Lemma draw_item_returns st m p r c :
  shaped st → (m < MIRROR_FIELD_COUNT)%nat → sided st m → (4 ≤ GRID_SIZE)%nat →
  -1 ≤ r ≤ Z.of_nat GRID_SIZE → -1 ≤ c ≤ Z.of_nat GRID_SIZE →
  ∃ out, draw_item st p m r c = Ok out.
Proof.
  intros Hsh Hm Hs HG Hr Hc.
  destruct (decide (r = Z.of_nat GRID_SIZE)) as [->|Hne].
  - destruct (decide (c = -1 ∨ c = Z.of_nat GRID_SIZE)) as [Hcc|Hcc].
    + eexists. apply (draw_corner st m Hm); lia.
    + rewrite <- (Z2Nat.id c) by lia. destruct (decide (GRID_SIZE = 4%nat)) as [H4|H4].
      * eexists. apply (draw_bottom_four st m Hsh Hm Hs); [lia|done].
      * eexists. apply (draw_bottom_large st m Hsh Hm Hs); lia.
  - apply (draw_item_upper st m Hsh Hm Hs); lia.
Qed.

Lemma draw_layout st m reset p :
  shaped st → (m < MIRROR_FIELD_COUNT)%nat → sided st m → (4 ≤ GRID_SIZE)%nat →
  mirrorfield_draw st reset p m
    = Ok ([if reset then SaveCursor else ClearScreen; CursorHome]
          ++ concat ((λ r, concat ((λ c, match draw_item st p m r c with
                                         | Ok out => out
                                         | Fault _ => []
                                         end) <$> draw_range) ++ [Newline])
                       <$> draw_range)
          ++ [Newline] ++ (if reset then [RestoreCursor] else []), true).
Proof.
  intros Hsh Hm Hs HG. unfold mirrorfield_draw.
  rewrite (print_each_concat _
             (λ r, concat ((λ c, match draw_item st p m r c with
                                 | Ok out => out
                                 | Fault _ => []
                                 end) <$> draw_range) ++ [Newline])); [done|].
  intros r Hr%elem_of_draw_range. unfold draw_row.
  rewrite (print_each_concat _
             (λ c, match draw_item st p m r c with
                   | Ok out => out
                   | Fault _ => []
                   end)); [done|].
  intros c Hc%elem_of_draw_range.
  by destruct (draw_item_returns st m p r c Hsh Hm Hs HG Hr Hc) as [out ->].
Qed.

(** X24: the picture of the sides and of the interior.  In a reachable
    engine (any state between calls of cryptChar, and so at every call of
    the traversal) with GRID_SIZE at least 4, [mirrorfield_draw] returns
    with resetCursor set, and what it prints is: the escape sequence that
    saves the cursor when resetCursor was set and the one that clears the
    screen when it was not, the one that moves the cursor home, then for
    each row r from -1 to GRID_SIZE the items of the columns c from -1 to
    GRID_SIZE followed by a newline, then one more newline and, when
    resetCursor was set, the escape sequence that restores the cursor.
    The four corner items are a space; in row -1 the item of column c is
    the value of the top slot c, in row r the item of column GRID_SIZE is
    the value of the right slot r + GRID_SIZE and the item of column -1
    the value of the left slot r + 3×GRID_SIZE, each with the format %2x;
    inside, the item is the character of the mirror of the cell ('/',
    '\', '-' or a space), between the escape sequences for black on white
    and for reset when the cell is the one at [p]. *)
Theorem draw_sides st reset p m :
  reachable st → (m < MIRROR_FIELD_COUNT)%nat → (4 ≤ GRID_SIZE)%nat →
  ∃ item : Z → Z → list emit,
    mirrorfield_draw st reset p m
      = Ok ([if reset then SaveCursor else ClearScreen; CursorHome]
            ++ concat ((λ r, concat (item r <$> draw_range) ++ [Newline]) <$> draw_range)
            ++ [Newline] ++ (if reset then [RestoreCursor] else []), true)
    ∧ item (-1) (-1) = [PrintChar 32]
    ∧ item (-1) (Z.of_nat GRID_SIZE) = [PrintChar 32]
    ∧ item (Z.of_nat GRID_SIZE) (-1) = [PrintChar 32]
    ∧ item (Z.of_nat GRID_SIZE) (Z.of_nat GRID_SIZE) = [PrintChar 32]
    ∧ ∀ r c, (r < GRID_SIZE)%nat → (c < GRID_SIZE)%nat →
        item (-1) (Z.of_nat c) = [PrintHex (value_at (perimeter st) m c)]
        ∧ item (Z.of_nat r) (Z.of_nat GRID_SIZE)
            = [PrintHex (value_at (perimeter st) m (r + GRID_SIZE))]
        ∧ item (Z.of_nat r) (-1)
            = [PrintHex (value_at (perimeter st) m (r + GRID_SIZE * 3))]
        ∧ item (Z.of_nat r) (Z.of_nat c)
            = (if decide (p = GridNode m (r * GRID_SIZE + c))
               then [FgBlack; BgWhite;
                     PrintChar (mirror_char (value_at (gridnodes st) m (r * GRID_SIZE + c)));
                     AttrReset]
               else [PrintChar (mirror_char (value_at (gridnodes st) m (r * GRID_SIZE + c)))]).
Proof.
  intros Hr Hm HG.
  pose proof (reachable_wellformed st Hr) as (Hsh & _).
  pose proof (reachable_sided st m Hr Hm) as Hs.
  exists (λ r c, match draw_item st p m r c with Ok out => out | Fault _ => [] end).
  split; [by apply draw_layout|].
  rewrite !(draw_corner st m Hm) by lia. repeat (split; [done|]).
  intros r c Hrow Hcol.
  rewrite (draw_top st m Hsh Hm Hs), (draw_right st m Hsh Hm Hs),
          (draw_left st m Hsh Hm Hs), (draw_cell st m Hsh Hm) by done.
  done.
Qed.


(** ** From a configuration to a working cipher *)

Lemma valid_key_operational cs :
  (0 < GRID_SIZE)%nat → (0 < MIRROR_FIELD_COUNT)%nat →
  length cs = key_bytes →
  Forall (λ c, 0 ≤ c < 256) cs →
  (∀ p c, (p < mirror_bytes)%nat → cs !! p = Some c → is_Some (mirror_code c)) →
  (∀ p c, (mirror_bytes ≤ p)%nat → cs !! p = Some c → c < Z.of_nat (GRID_SIZE * 4)) →
  (∀ k, (k < MIRROR_FIELD_COUNT)%nat →
     NoDup ((λ i, default 0 (cs !! (mirror_bytes + k * (GRID_SIZE * 4) + i)%nat))
              <$> seq 0 (GRID_SIZE * 4))) →
  mirrorfield_validate (load cs (mirrorfield_init fresh)) = 1
  ∧ reachable (mirrorfield_link (load cs (mirrorfield_init fresh)))
  ∧ operational (mirrorfield_link (load cs (mirrorfield_init fresh))).
Proof.
  intros HG HM Hlen Hbytes Hmir Hrange Hnd.
  assert (mirrorfield_validate (load cs (mirrorfield_init fresh)) = 1) as Hval.
  { apply validate_loaded_iff; [lia|done|]. split; [unfold key_bytes in Hlen; lia|done]. }
  split; [done|]. split; [by apply reachable_linked|].
  apply operational_start; try done.
  intros k v Hv.
  destruct (decide (k < MIRROR_FIELD_COUNT)%nat) as [Hk|Hk].
  - rewrite load_alphabet in Hv by (done || lia).
    apply list_elem_of_fmap in Hv as (i & -> & Hi%elem_of_seq).
    destruct (cs !! (mirror_bytes + k * (GRID_SIZE * 4) + i)%nat) as [c|] eqn:Hc; simpl.
    + rewrite Forall_forall in Hbytes.
      pose proof (Hbytes c (list_elem_of_lookup_2 _ _ _ Hc)).
      assert (c < Z.of_nat (GRID_SIZE * 4)) by (eapply Hrange; [|exact Hc]; lia). lia.
    + lia.
  - exfalso. unfold alphabet in Hv.
    destruct (mirrorfield_init_inv fresh shaped_fresh) as (Hsh0 & _).
    destruct (load_keeps cs (mirrorfield_init fresh) Hsh0
                (unlinked_init fresh shaped_fresh)) as ((_ & Hlen' & _) & _).
    rewrite lookup_ge_None_2 in Hv by lia. by apply elem_of_nil in Hv.
Qed.

(** X26: a valid key gives a working cipher.  For a configuration of the
    full length, made of bytes, whose mirror part consists of mirror
    characters and whose perimeter bytes are below 4×GRID_SIZE and
    pairwise distinct within each field: after init and load, validation
    returns 1, and after linking, successive calls of cryptChar on any
    message of bytes below 4×GRID_SIZE all return, and the same calls on
    the bytes returned, from the state after linking, give the message
    back. *)
Theorem valid_key_round_trip cs bs :
  (0 < GRID_SIZE)%nat → (0 < MIRROR_FIELD_COUNT)%nat →
  length cs = key_bytes →
  Forall (λ c, 0 ≤ c < 256) cs →
  (∀ p c, (p < mirror_bytes)%nat → cs !! p = Some c → is_Some (mirror_code c)) →
  (∀ p c, (mirror_bytes ≤ p)%nat → cs !! p = Some c → c < Z.of_nat (GRID_SIZE * 4)) →
  (∀ k, (k < MIRROR_FIELD_COUNT)%nat →
     NoDup ((λ i, default 0 (cs !! (mirror_bytes + k * (GRID_SIZE * 4) + i)%nat))
              <$> seq 0 (GRID_SIZE * 4))) →
  Forall (λ b, 0 ≤ b < Z.of_nat (GRID_SIZE * 4)) bs →
  mirrorfield_validate (load cs (mirrorfield_init fresh)) = 1
  ∧ ∃ out st',
      crypt_chars (S (2 * (GRID_SIZE * GRID_SIZE)))
        (mirrorfield_link (load cs (mirrorfield_init fresh))) bs = Ok (out, st')
      ∧ crypt_chars (S (2 * (GRID_SIZE * GRID_SIZE)))
          (mirrorfield_link (load cs (mirrorfield_init fresh))) out = Ok (bs, st').
Proof.
  intros HG HM Hlen Hbytes Hmir Hrange Hnd Hbs.
  destruct (valid_key_operational cs HG HM Hlen Hbytes Hmir Hrange Hnd)
    as (Hval & Hr & Hop).
  split; [done|]. pose proof (reachable_keyed _ Hr) as Hkey.
  destruct (crypt_chars_returns _ bs Hop Hkey Hbs) as (out & st' & Hrun & _).
  exists out, st'. split; [done|]. by apply crypt_chars_involution.
Qed.

(** ** The output of a call *)

Lemma reachable_operational st :
  reachable st →
  (∀ k v, v ∈ alphabet st k → v < Z.of_nat (GRID_SIZE * 4)) →
  operational st.
Proof.
  intros Hr Hrange. destruct (reachable_keyed st Hr) as [Hwf Hkey].
  split; [done|]. intros k v Hv.
  pose proof (proj1 (perimeter_chars_alphabet st) (wellformed_perimeter_chars st Hwf) k v Hv).
  pose proof (Hrange k v Hv). split; [lia|].
  destruct (decide (k < MIRROR_FIELD_COUNT)%nat) as [Hk|Hk].
  - by apply (proj1 (proj2 (Hkey k Hk))).
  - exfalso. unfold alphabet in Hv. destruct Hwf as ((_ & Hlen & _) & _).
    rewrite lookup_ge_None_2 in Hv by lia. by apply elem_of_nil in Hv.
Qed.

(** C1 (for character codes that can index the perimeter): in an engine
    after a validated load and linking, and after any calls that returned,
    whose perimeter values are all below 4×GRID_SIZE, every call of
    cryptChar with a byte present in the perimeter of the current field m
    returns, for any recursion depth above 2×GRID_SIZE².  The byte is the
    value sv of the entry slot; the traversal returns a perimeter slot of
    field m, the exit slot, whose value ev is read before the rolling step;
    with k = (ev + sv) mod (4×GRID_SIZE), the byte returned is sv when
    perimeter slot k of field m holds k after the rolling step, and ev
    otherwise. *)
Theorem output_selection fuel st ch :
  reachable st →
  (∀ k v, v ∈ alphabet st k → v < Z.of_nat (GRID_SIZE * 4)) →
  ch ∈ alphabet st (crypt_m st) →
  (2 * (GRID_SIZE * GRID_SIZE) < fuel)%nat →
  ∃ rv st' i ns d j st1 ne st2 vk,
    let m := crypt_m st in
    let sv := ch in
    let ev := value ne in
    let k := (ev + sv) mod Z.of_nat (GRID_SIZE * 4) in
    mirrorfield_crypt_char fuel st ch = Ok (rv, st') ∧
    lookup2 (perimeter st) m i = Some ns ∧ value ns = sv ∧
    initial_direction ns = Ok d ∧
    mirrorfield_crypt_char_advance fuel st (PerimNode m i) d = Ok (PerimNode m j, st1) ∧
    lookup2 (perimeter st1) m j = Some ne ∧
    mirrorfield_roll_chars st1 sv ev m = Ok st2 ∧
    perimeter_value st2 m k = Ok vk ∧
    rv = (if decide (vk = k) then sv else ev) ∧
    st' = with_crypt_m st2 ((m + 1) mod MIRROR_FIELD_COUNT)%nat.
Proof.
  intros Hr Hrange Hch Hfuel.
  pose proof (reachable_operational st Hr Hrange) as Hop.
  destruct (crypt_char_returns st ch Hop Hch) as (rv & st' & Hcall).
  apply (crypt_char_fuel_le _ fuel) in Hcall; [|lia].
  destruct (crypt_char_Ok _ _ _ _ _ Hcall)
    as (row & i & ns & d & endnode & st1 & ns1 & ne & st2 & vk & Hrow & Hfind & Hi
        & Hns & Hv & Hd & Hadv & Hns1 & Hne & Hroll & Hvk & Hrv & Hst').
  destruct Hop as [Hwf Hbytes].
  pose proof (wellformed_perimeter_chars st Hwf) as Hchars.
  destruct Hwf as (Hsh & Hm & _ & _ & _ & Hall).
  destruct (Hall _ Hm) as (Hl & Hfv).
  assert (link_of st (PerimNode (crypt_m st) i) d ≠ NULL) as Hnn.
  { unfold link_of. rewrite Hns. by apply initial_direction_link. }
  destruct (advance_depth st (crypt_m st) i d Hl Hfv Hi Hnn)
    as (n & t & st1' & Hn & _ & Hlong & j & -> & Hj).
  destruct (Hlong fuel ltac:(lia)) as [Hadv' _].
  rewrite Hadv in Hadv'. injection Hadv' as -> <-.
  pose proof (advance_perimeter _ _ _ _ _ _ Hchars Hadv) as Hper.
  rewrite (advance_rotations _ _ _ _ _ _ Hadv), Hns in Hns1. injection Hns1 as <-.
  assert (lookup2 (perimeter st1) (crypt_m st) j = Some ne) as Hne'.
  { unfold deref in Hne. destruct (lookup2 _ _ _); simpl in Hne; congruence. }
  assert (to_uchar (value ne) = value ne) as Hev.
  { assert (value ne ∈ alphabet st (crypt_m st)) as Hin.
    { apply alphabet_elem. exists j, ne. by rewrite <- Hper. }
    destruct (Hbytes _ _ Hin). unfold to_uchar. apply Z.mod_small. lia. }
  assert (to_uchar (value (rotations (passes (path fuel st (PerimNode (crypt_m st) i) d)
                                        (PerimNode (crypt_m st) i)) ns)) = ch) as Hsv.
  { destruct (Hbytes _ _ Hch). rewrite value_kept_by_rotations by lia.
    unfold to_uchar. rewrite Hv. apply Z.mod_small. lia. }
  rewrite Hsv, Hev in *.
  exists rv, st', i, ns, d, j, st1, ne, st2, vk. cbv zeta.
  repeat (split; [done|]). split; [|done].
  unfold deref in Hns. destruct (lookup2 _ _ _); simpl in Hns; congruence.
Qed.

(** A call that returns has indexed the perimeter with its byte. *)
Lemma crypt_char_indexes fuel st ch rv st' :
  wellformed st → 0 ≤ ch < 256 →
  mirrorfield_crypt_char fuel st ch = Ok (rv, st') →
  ch < Z.of_nat (GRID_SIZE * 4).
Proof.
  intros Hwf Hch Hcall.
  pose proof (wellformed_perimeter_chars st Hwf) as Hchars.
  destruct Hwf as (Hsh & Hm & _).
  destruct (crypt_char_selects _ _ _ _ _ Hch Hcall)
    as (i & ns & d & endnode & st1 & ne & st2 & vk & _ & _ & _ & Hadv & _ & Hroll & _).
  cbv zeta in Hadv, Hroll.
  apply roll_chars_Ok in Hroll as (x1 & x2 & _ & _ & _ & _ & Hord & _).
  unfold rotate_order in Hord. apply bind_Ok in Hord as (vs & Hvs & _).
  apply perimeter_value_Ok in Hvs as (_ & n & Hn & _).
  pose proof (shaped_advance _ _ _ _ _ _ Hadv Hsh) as Hsh1.
  assert (Z.to_nat ch < GRID_SIZE * 4)%nat; [|lia].
  apply (lookup2_is_Some_perimeter st1 (crypt_m st)); [done|done|by eexists].
Qed.

(** ** The cadence of the window *)

Lemma roll_calls_app st l1 l2 :
  roll_calls st (l1 ++ l2) = roll_calls st l1 ≫= λ st1, roll_calls st1 l2.
Proof.
  revert st. induction l1 as [|[[s e] m] l1 IH]; intros st; [done|].
  simpl. destruct (mirrorfield_roll_chars st s e m) as [st1|f]; simpl; [apply IH|done].
Qed.

Lemma roll_calls_returns st calls :
  shaped st →
  (roll_g1 st < GRID_SIZE * 4)%nat → (roll_g2 st < GRID_SIZE * 4)%nat →
  (roll_c st < MIRROR_FIELD_COUNT)%nat →
  Forall (λ a, (a.2 < MIRROR_FIELD_COUNT)%nat
               ∧ a.1.1 ∈ alphabet st a.2 ∧ a.1.2 ∈ alphabet st a.2
               ∧ 0 ≤ a.1.1 < Z.of_nat (GRID_SIZE * 4)
               ∧ 0 ≤ a.1.2 < Z.of_nat (GRID_SIZE * 4)) calls →
  ∃ st',
    roll_calls st calls = Ok st'
    ∧ window st' = Nat.iter (length calls) advance_window (window st)
    ∧ shaped st'
    ∧ (roll_g1 st' < GRID_SIZE * 4)%nat ∧ (roll_g2 st' < GRID_SIZE * 4)%nat
    ∧ (roll_c st' < MIRROR_FIELD_COUNT)%nat
    ∧ ∀ k, alphabet st' k ≡ₚ alphabet st k.
Proof.
  intros Hsh Hg1 Hg2 Hc Hcalls. revert st Hsh Hg1 Hg2 Hc Hcalls.
  induction calls as [|[[s e] m] calls IH]; intros st Hsh Hg1 Hg2 Hc Hcalls.
  { exists st. done. }
  apply Forall_cons in Hcalls as [(Hm & Hs & He & Hsr & Her) Hcalls]. simpl in *.
  destruct (roll_chars_returns st s e m Hsh Hm Hg1 Hg2 Hs He Hsr Her) as [st1 Hroll].
  pose proof (roll_chars_window _ _ _ _ _ Hroll) as Hw.
  pose proof (shaped_roll_chars _ _ _ _ _ Hroll Hsh) as Hsh1.
  destruct (advance_window_range _ _ _ Hg1 Hg2 Hc) as (Hg1' & Hg2' & Hc').
  fold (window st) in Hg1', Hg2', Hc'. rewrite <- Hw in Hg1', Hg2', Hc'.
  destruct (IH st1 Hsh1 Hg1' Hg2' Hc') as (st' & Hrun & Hw' & Hsh' & H1 & H2 & H3 & Hperm).
  { eapply Forall_impl; [exact Hcalls|]. intros a (? & ? & ? & ? & ?).
    rewrite !(proj1 (roll_chars_alphabet _ _ _ _ _ a.2 Hroll)). done. }
  exists st'. rewrite Hroll, bind_Ok_l. split; [done|]. split.
  { rewrite Hw', Hw. apply iter_shift. }
  repeat (split; [done|]). intros k.
  by rewrite Hperm, (proj1 (roll_chars_alphabet _ _ _ _ _ k Hroll)).
Qed.

Lemma mod_succ x n :
  (0 < n)%nat →
  (S x mod n = if decide (S (x mod n) = n) then 0 else S (x mod n))%nat.
Proof.
  intros Hn. pose proof (Nat.div_mod_eq x n) as Hx.
  pose proof (Nat.mod_upper_bound x n ltac:(lia)) as Hr.
  revert Hx Hr. generalize (x / n)%nat (x mod n)%nat. intros q r Hx Hr.
  case_decide.
  - symmetry. apply (Nat.mod_unique _ _ (S q)); lia.
  - symmetry. apply (Nat.mod_unique _ _ q); lia.
Qed.

(** C6: the window over successive calls of the rolling step.  From a
    state whose arrays have their dimensions and whose statics g1, g2, c
    are in range, successive calls with arguments that are values of the
    perimeter below 4×GRID_SIZE all return.  Before call number n + 1 the
    round counter is (c + n) mod MIRROR_FIELD_COUNT and g1, g2 have
    advanced (c + n) / MIRROR_FIELD_COUNT times; that call changes g1 and
    g2 exactly when c + n + 1 is a multiple of MIRROR_FIELD_COUNT, so once
    in every MIRROR_FIELD_COUNT calls, each to its successor modulo
    4×GRID_SIZE, a different position, and the round counter is then 0;
    every other call leaves g1 and g2 unchanged and increments the round
    counter. *)
Theorem roll_window_cadence st calls n :
  shaped st →
  (roll_g1 st < GRID_SIZE * 4)%nat → (roll_g2 st < GRID_SIZE * 4)%nat →
  (roll_c st < MIRROR_FIELD_COUNT)%nat →
  Forall (λ a, (a.2 < MIRROR_FIELD_COUNT)%nat
               ∧ a.1.1 ∈ alphabet st a.2 ∧ a.1.2 ∈ alphabet st a.2
               ∧ 0 ≤ a.1.1 < Z.of_nat (GRID_SIZE * 4)
               ∧ 0 ≤ a.1.2 < Z.of_nat (GRID_SIZE * 4)) calls →
  (n < length calls)%nat →
  ∃ s e m stn stn',
    calls !! n = Some (s, e, m)
    ∧ roll_calls st (take n calls) = Ok stn
    ∧ mirrorfield_roll_chars stn s e m = Ok stn'
    ∧ roll_calls st (take (S n) calls) = Ok stn'
    ∧ window stn =
        (((roll_g1 st + (roll_c st + n) / MIRROR_FIELD_COUNT) mod (GRID_SIZE * 4))%nat,
         ((roll_g2 st + (roll_c st + n) / MIRROR_FIELD_COUNT) mod (GRID_SIZE * 4))%nat,
         ((roll_c st + n) mod MIRROR_FIELD_COUNT)%nat)
    ∧ roll_c stn' = ((roll_c st + S n) mod MIRROR_FIELD_COUNT)%nat
    ∧ (if decide (((roll_c st + S n) mod MIRROR_FIELD_COUNT)%nat = 0%nat)
       then roll_g1 stn' = ((roll_g1 stn + 1) mod (GRID_SIZE * 4))%nat
            ∧ roll_g2 stn' = ((roll_g2 stn + 1) mod (GRID_SIZE * 4))%nat
            ∧ roll_g1 stn' ≠ roll_g1 stn ∧ roll_g2 stn' ≠ roll_g2 stn
       else roll_g1 stn' = roll_g1 stn ∧ roll_g2 stn' = roll_g2 stn).
Proof.
  intros Hsh Hg1 Hg2 Hc Hcalls Hn.
  destruct (lookup_lt_is_Some_2 calls n Hn) as [[[s e] m] Hcall].
  destruct (roll_calls_returns st (take n calls) Hsh Hg1 Hg2 Hc)
    as (stn & Hrun & Hw & Hshn & Hg1n & Hg2n & Hcn & Hperm); [by apply Forall_take|].
  rewrite length_take, Nat.min_l in Hw by lia.
  rewrite Forall_lookup in Hcalls. destruct (Hcalls n _ Hcall) as (Hm & Hs & He & Hsr & Her).
  simpl in *.
  rewrite <- (Hperm m) in Hs, He.
  destruct (roll_chars_returns stn s e m Hshn Hm Hg1n Hg2n Hs He Hsr Her) as [stn' Hroll].
  pose proof (roll_chars_window _ _ _ _ _ Hroll) as Hw'.
  exists s, e, m, stn, stn'. split; [done|]. split; [done|]. split; [done|]. split.
  { rewrite (take_S_r _ _ _ Hcall), roll_calls_app, Hrun, bind_Ok_l. simpl.
    by rewrite Hroll. }
  unfold window at 2 in Hw.
  rewrite advance_window_closed in Hw by lia.
  split; [exact Hw|].
  unfold window in Hw, Hw'. injection Hw as Hw1 Hw2 Hw3.
  unfold advance_window in Hw'. rewrite Hw3 in Hw'.
  replace (roll_c st + S n)%nat with (S (roll_c st + n)) by lia.
  rewrite mod_succ by lia.
  destruct (decide (S ((roll_c st + n) mod MIRROR_FIELD_COUNT) = MIRROR_FIELD_COUNT))
    as [Heq|Hne]; injection Hw' as -> -> ->.
  - split; [done|]. rewrite decide_True by done.
    split; [done|]. split; [done|]. split; apply succ_mod_neq; lia.
  - split; [done|]. rewrite decide_False by done. done.
Qed.

(** ** The directions of a traversal *)

(** The calls of a traversal that returns: the call number [a] is made at
    the node and in the direction of entry [a] of the walk, and when it
    enters a cell it makes the next call from that cell in the reflected
    direction, and returns what that call returns. *)
Lemma traversal_steps fuel st e0 t st' :
  mirrorfield_crypt_char_advance fuel st e0.1 e0.2 = Ok (t, st') →
  ∀ a p d n,
    (e0 :: walk fuel st e0) !! a = Some (p, d) →
    deref st (link_of st p d) = Ok n → value n < 0 →
    walk fuel st e0 !! a = Some (link_of st p d, new_direction (value n) d)
    ∧ ∃ st1 n1,
        mirrorfield_crypt_char_advance (fuel - S a) st (link_of st p d)
          (new_direction (value n) d) = Ok (t, st1)
        ∧ deref st1 (link_of st p d) = Ok n1
        ∧ mirrorfield_crypt_char_advance (fuel - a) st p d
            = Ok (t, update st1 (link_of st p d) (set_value (rotate (value n1)))).
Proof.
  revert e0 t st'. induction fuel as [|fuel IH]; intros e0 t st' Hadv; [done|].
  pose proof Hadv as Hfull. rewrite advance_S in Hadv.
  apply bind_Ok in Hadv as (n0 & Hn0 & Hadv).
  apply bind_Ok in Hadv as (nq & Hnq & Hadv).
  assert (link_of st e0.1 e0.2 = neighbour n0 e0.2) as Hlink
    by (unfold link_of; by rewrite Hn0).
  destruct (decide (value nq < 0)) as [Hneg|Hpos].
  - apply bind_Ok in Hadv as ([t1 st1] & Hrec & Hadv).
    apply bind_Ok in Hadv as (n' & Hn' & Hadv). injection Hadv as <- <-.
    assert (step st e0 = Some (neighbour n0 e0.2, new_direction (value nq) e0.2)) as Hstep.
    { unfold step. rewrite Hn0, Hnq. by rewrite decide_True. }
    intros a p d n Hlook Hn Hv. cbn [walk]. rewrite Hstep.
    destruct a as [|a].
    + injection Hlook as Hlook. destruct e0 as [p0 d0]. injection Hlook as <- <-.
      simpl in *. rewrite Hlink in *.
      assert (n = nq) as -> by congruence.
      split; [done|]. exists st1, n'. rewrite Nat.sub_0_r. done.
    + cbn [walk] in Hlook. rewrite Hstep in Hlook.
      change ((e0 :: ?x :: ?l) !! S a) with ((x :: l) !! a) in Hlook.
      destruct (IH (neighbour n0 e0.2, new_direction (value nq) e0.2) _ _ Hrec a p d n Hlook Hn Hv)
        as (Hw & st2 & n2 & H1 & H2 & H3).
      split; [exact Hw|]. exists st2, n2. done.
  - injection Hadv as <- <-.
    assert (step st e0 = None) as Hstep.
    { unfold step. rewrite Hn0, Hnq. by rewrite decide_False. }
    intros a p d n Hlook Hn Hv. cbn [walk] in Hlook. rewrite Hstep in Hlook.
    destruct a as [|a]; [|done].
    injection Hlook as Hlook. destruct e0 as [p0 d0]. injection Hlook as <- <-.
    simpl in *. rewrite Hlink in Hn. congruence.
Qed.

(** C7: a traversal started at a perimeter slot of a linked field returns,
    and in each of its steps that enters an interior cell (a node of
    negative value) the next call is made from that cell in the direction
    given by the reflection rule of the cell's current value: FORWARD maps
    DOWN→LEFT, LEFT→DOWN, RIGHT→UP, UP→RIGHT; BACKWARD maps DOWN→RIGHT,
    LEFT→UP, RIGHT→DOWN, UP→LEFT; NONE and STRAIGHT leave the direction
    unchanged.  The step returns the slot which that call returns, and
    rotates the mirror of the cell afterwards. *)
Theorem reflection_rule st k i d0 :
  linked st k →
  field_values st k →
  (i < GRID_SIZE * 4)%nat →
  link_of st (PerimNode k i) d0 ≠ NULL →
  ∃ t st',
    mirrorfield_crypt_char_advance (S (2 * (GRID_SIZE * GRID_SIZE))) st (PerimNode k i) d0
      = Ok (t, st')
    ∧ ∀ a p d n,
        ((PerimNode k i, d0)
           :: walk (S (2 * (GRID_SIZE * GRID_SIZE))) st (PerimNode k i, d0)) !! a
          = Some (p, d) →
        deref st (link_of st p d) = Ok n →
        value n < 0 →
        ∃ d' st1 n1,
          d' = (if decide (value n = MIRROR_FORWARD) then
                  match d with
                  | DIR_DOWN => DIR_LEFT
                  | DIR_LEFT => DIR_DOWN
                  | DIR_RIGHT => DIR_UP
                  | DIR_UP => DIR_RIGHT
                  end
                else if decide (value n = MIRROR_BACKWARD) then
                  match d with
                  | DIR_DOWN => DIR_RIGHT
                  | DIR_LEFT => DIR_UP
                  | DIR_RIGHT => DIR_DOWN
                  | DIR_UP => DIR_LEFT
                  end
                else d)
          ∧ walk (S (2 * (GRID_SIZE * GRID_SIZE))) st (PerimNode k i, d0) !! a
              = Some (link_of st p d, d')
          ∧ mirrorfield_crypt_char_advance (2 * (GRID_SIZE * GRID_SIZE) - a) st
              (link_of st p d) d' = Ok (t, st1)
          ∧ deref st1 (link_of st p d) = Ok n1
          ∧ mirrorfield_crypt_char_advance (S (2 * (GRID_SIZE * GRID_SIZE)) - a) st p d
              = Ok (t, update st1 (link_of st p d) (set_value (rotate (value n1)))).
Proof.
  intros Hl Hfv Hi Hnn.
  destruct (advance_depth st k i d0 Hl Hfv Hi Hnn) as (n & t & st' & Hn & _ & Hlong & _).
  destruct (Hlong (S (2 * (GRID_SIZE * GRID_SIZE))) ltac:(lia)) as [Hadv _].
  exists t, st'. split; [exact Hadv|].
  intros a p d nq Hlook Hq Hv.
  destruct (traversal_steps _ st (PerimNode k i, d0) t st' Hadv a p d nq Hlook Hq Hv)
    as (Hw & st1 & n1 & Hrec & Hn1 & Hcall).
  exists (new_direction (value nq) d), st1, n1. done.
Qed.

End Properties.

(** * The small engine, checked *)

Lemma small_reachable : @reachable small small_linked.
Proof.
  change small_linked with
    (@mirrorfield_link small (@load small small_config (@mirrorfield_init small (@fresh small)))).
  apply (@reachable_linked small); [simpl; lia|simpl; lia| |by vm_compute].
  apply (bool_decide_unpack (Forall (λ c, 0 ≤ c < 256) small_config)). by vm_compute.
Qed.

Lemma wide_reachable : @reachable wide wide_linked.
Proof.
  change wide_linked with
    (@mirrorfield_link wide (@load wide wide_config (@mirrorfield_init wide (@fresh wide)))).
  apply (@reachable_linked wide); [simpl; lia|simpl; lia| |by vm_compute].
  apply (bool_decide_unpack (Forall (λ c, 0 ≤ c < 256) wide_config)). by vm_compute.
Qed.

Lemma small_shaped : @shaped small small_linked.
Proof. repeat split; repeat constructor. Qed.

Lemma small_linked_ok : @linked small small_linked 0.
Proof.
  intros p Hin. destruct p as [|k j|k i]; [done|..];
    destruct Hin as [-> Hlt]; simpl in Hlt.
  - do 4 (destruct j as [|j];
          [split; [by exists DIR_UP|];
           intros d; destruct d;
           (split; [done|intros _; split; [simpl; lia|done]])|]).
    lia.
  - do 8 (destruct i as [|i];
          [split; [first [by exists DIR_UP|by exists DIR_DOWN
                         |by exists DIR_LEFT|by exists DIR_RIGHT]|];
           intros d; destruct d;
           (split; [done|intros Hnn; first [done|split; [simpl; lia|done]]])|]).
    lia.
Qed.

Lemma small_field_values : @field_values small small_linked 0.
Proof.
  intros q Hin. destruct q as [|k j|k i]; [done|..];
    destruct Hin as [-> Hlt]; simpl in Hlt.
  - do 4 (destruct j as [|j]; [eexists; split; [done|]; simpl; split; [done|tauto]|]).
    lia.
  - do 8 (destruct i as [|i];
          [eexists; split; [done|]; simpl; split; [tauto|done]|]).
    lia.
Qed.

Lemma small_perimeter_chars : perimeter_chars small_linked.
Proof.
  intros k i n Hn. destruct k as [|k]; [|done].
  do 8 (destruct i as [|i]; [by injection Hn as <-|]). done.
Qed.

(** ** The theorems at the small engine *)

Lemma init_resets_arrays_witness :
  @shaped small small_after
  ∧ gridnodes (@mirrorfield_init small small_after) = gridnodes (@fresh small)
  ∧ perimeter (@mirrorfield_init small small_after) = perimeter (@fresh small)
  ∧ set_i (@mirrorfield_init small small_after) = 12%nat
  ∧ window (@mirrorfield_init small small_after) = (1%nat, 5%nat, 0%nat).
Proof.
  assert (@shaped small small_after) as H1 by (repeat split; repeat constructor).
  split; [exact H1|].
  destruct (@init_resets_arrays small small_after H1) as (Hg & Hp & Hi & _ & _ & Hw & _).
  split; [exact Hg|]. split; [exact Hp|]. split; [exact Hi|exact Hw].
Defined.

(** C2, as stated, fails: after one call of cryptChar the loader position
    is 12 and the Roll Window is (1, 5, 0); init() leaves both, so the
    engine differs from a freshly started one, and the next byte fed to the
    loader is refused where a fresh engine accepts it. *)
Lemma init_keeps_statics :
  @mirrorfield_init small small_after ≠ @fresh small
  ∧ set_i (@mirrorfield_init small small_after) = 12%nat
  ∧ roll_g1 (@mirrorfield_init small small_after) = 1%nat
  ∧ roll_g2 (@mirrorfield_init small small_after) = 5%nat
  ∧ (@mirrorfield_set small (@mirrorfield_init small small_after) 47).1 = 0
  ∧ (@mirrorfield_set small (@fresh small) 47).1 = 1.
Proof. split; [by vm_compute|]. repeat split. Qed.

Lemma lookup_miss_null_deref_witness :
  perimeter small_linked !! crypt_m small_linked
    = Some (default [] (perimeter small_linked !! 0%nat))
  ∧ (∀ n, n ∈ take (@GRID_SIZE small * 4) (default [] (perimeter small_linked !! 0%nat)) →
          value n ≠ 9)
  ∧ @mirrorfield_crypt_char small 6 small_linked 9 = Fault NullDeref.
Proof.
  assert (perimeter small_linked !! crypt_m small_linked
            = Some (default [] (perimeter small_linked !! 0%nat))) as H1 by reflexivity.
  assert (∀ n, n ∈ take (@GRID_SIZE small * 4)
                       (default [] (perimeter small_linked !! 0%nat)) → value n ≠ 9) as H2.
  { intros n Hn. simpl in Hn. repeat (apply elem_of_cons in Hn as [->|Hn]; [done|]).
    by apply elem_of_nil in Hn. }
  split; [exact H1|]. split; [exact H2|].
  exact (@lookup_miss_null_deref small 6 small_linked 9 _ H1 H2).
Defined.

Lemma traversal_terminates_witness :
  @linked small small_linked 0
  ∧ @field_values small small_linked 0
  ∧ (5 < @GRID_SIZE small * 4)%nat
  ∧ link_of small_linked (PerimNode 0 5) DIR_UP ≠ NULL
  ∧ ∃ n t st',
      (n ≤ 2 * (@GRID_SIZE small * @GRID_SIZE small))%nat
      ∧ (∀ fuel, (fuel ≤ n)%nat →
           mirrorfield_crypt_char_advance fuel small_linked (PerimNode 0 5) DIR_UP
             = Fault OutOfFuel)
      ∧ (∀ fuel, (n < fuel)%nat →
           mirrorfield_crypt_char_advance fuel small_linked (PerimNode 0 5) DIR_UP
             = Ok (t, st')
           ∧ length (path fuel small_linked (PerimNode 0 5) DIR_UP) = n)
      ∧ ∃ i', t = PerimNode 0 i' ∧ (i' < @GRID_SIZE small * 4)%nat.
Proof.
  assert (5 < @GRID_SIZE small * 4)%nat as H3 by (simpl; lia).
  assert (link_of small_linked (PerimNode 0 5) DIR_UP ≠ NULL) as H4 by done.
  split; [exact small_linked_ok|]. split; [exact small_field_values|].
  split; [exact H3|]. split; [exact H4|].
  exact (@traversal_terminates small small_linked 0 5 DIR_UP
           small_linked_ok small_field_values H3 H4).
Defined.

(** C4, as stated, fails: in the small engine (validated and linked) the
    traversal entering at perimeter slot 5 enters five interior cells,
    cell 3 twice, which is more than GRID_SIZE² = 4; with recursion depth
    GRID_SIZE² + 1 it has not returned, with depth 6 it returns slot 3. *)
Lemma traversal_exceeds_cell_count :
  @mirrorfield_validate small small_linked = 1
  ∧ small_linked = @mirrorfield_link small small_loaded
  ∧ @reachable small small_linked
  ∧ @linked small small_linked 0
  ∧ path 6 small_linked (PerimNode 0 5) DIR_UP
      = [GridNode 0 3; GridNode 0 2; GridNode 0 0; GridNode 0 1; GridNode 0 3]
  ∧ (@GRID_SIZE small * @GRID_SIZE small < length (path 6 small_linked (PerimNode 0 5) DIR_UP))%nat
  ∧ mirrorfield_crypt_char_advance (@GRID_SIZE small * @GRID_SIZE small + 1)
      small_linked (PerimNode 0 5) DIR_UP = Fault OutOfFuel
  ∧ mirrorfield_crypt_char_advance 6 small_linked (PerimNode 0 5) DIR_UP
      = Ok (PerimNode 0 3, small_traversed).
Proof.
  split; [done|]. split; [done|]. split; [exact small_reachable|].
  split; [exact small_linked_ok|].
  split; [done|]. split; [simpl; lia|]. split; done.
Qed.


Lemma mirror_rotation_witness :
  mirrorfield_crypt_char_advance 6 small_linked (PerimNode 0 5) DIR_UP
    = Ok (PerimNode 0 3, small_traversed)
  ∧ ∀ q n, deref small_linked q = Ok n →
      deref small_traversed q =
        Ok (set_value (Nat.iter (passes (path 6 small_linked (PerimNode 0 5) DIR_UP) q)
                                rotate (value n)) n).
Proof.
  assert (mirrorfield_crypt_char_advance 6 small_linked (PerimNode 0 5) DIR_UP
            = Ok (PerimNode 0 3, small_traversed)) as H1 by reflexivity.
  split; [exact H1|].
  exact (proj1 (mirror_rotation 6 small_linked (PerimNode 0 5) DIR_UP
                  (PerimNode 0 3) small_traversed H1)).
Defined.

Lemma alphabet_preserved_witness :
  perimeter_chars small_linked
  ∧ @mirrorfield_crypt_char small 6 small_linked 5 = Ok (3, small_after)
  ∧ ∀ k, alphabet small_after k ≡ₚ alphabet small_linked k
         ∧ (NoDup (alphabet small_linked k) → NoDup (alphabet small_after k))
         ∧ (k ≠ crypt_m small_linked → alphabet small_after k = alphabet small_linked k).
Proof.
  assert (@mirrorfield_crypt_char small 6 small_linked 5 = Ok (3, small_after)) as H2
    by (vm_compute; reflexivity).
  split; [exact small_perimeter_chars|]. split; [exact H2|].
  exact (@alphabet_preserved small 6 small_linked 5 3 small_after
           small_perimeter_chars H2).
Defined.

(** At GRID_SIZE = 16 as well: the traversal entering the wide engine at
    perimeter slot 6 enters 416 interior cells, more than GRID_SIZE² = 256,
    and returns slot 36. *)
Lemma wide_traversal_length :
  @reachable wide wide_linked
  ∧ @mirrorfield_validate wide wide_linked = 1
  ∧ length (path 600 wide_linked (PerimNode 0 6) DIR_DOWN) = 416%nat
  ∧ mirrorfield_crypt_char_advance (@GRID_SIZE wide * @GRID_SIZE wide + 1)
      wide_linked (PerimNode 0 6) DIR_DOWN = Fault OutOfFuel
  ∧ fst <$> mirrorfield_crypt_char_advance 417 wide_linked (PerimNode 0 6) DIR_DOWN
      = Ok (PerimNode 0 36).
Proof. split; [exact wide_reachable|]. repeat split; by vm_compute. Qed.

(** ** The rolling step on character codes *)

(** The order is decided by the values at the indices s and e, not by s
    and e as values: after the first call the perimeter of the small
    engine reads 5 1 2 4 3 0 6 7, and for s = 0, e = 1 the larger is s,
    because slot 0 holds 5 and slot 1 holds 1. *)
Example roll_order_reads_slots :
  alphabet small_after 0 = [5; 1; 2; 4; 3; 0; 6; 7]
  ∧ @rotate_order small_after 0 1 0 = Ok (0, 1).
Proof. done. Qed.

(** With the letters A..H on the perimeter the traversal from A passes
    cells 0 and 2 and leaves at slot 4 (E); the rolling step then reads
    perimeter[0][65], outside the eight slots. *)
Example letters_out_of_bounds :
  @mirrorfield_validate small letters_linked = 1
  ∧ path 6 letters_linked (PerimNode 0 0) DIR_DOWN = [GridNode 0 0; GridNode 0 2]
  ∧ fst <$> mirrorfield_crypt_char_advance 6 letters_linked (PerimNode 0 0) DIR_DOWN
      = Ok (PerimNode 0 4)
  ∧ @mirrorfield_crypt_char small 6 letters_linked 65 = Fault OutOfBounds.
Proof. done. Qed.

(** * The loaded, the linked and the two-field engine, checked *)

Lemma small_loaded_shaped : @shaped small small_loaded.
Proof. repeat split; repeat constructor. Qed.

Lemma small_loaded_unlinked : unlinked small_loaded.
Proof.
  change small_loaded with (@load small small_config (@mirrorfield_init small (@fresh small))).
  destruct (mirrorfield_init_inv (@fresh small) shaped_fresh) as (Hsh0 & _).
  by destruct (load_keeps small_config (mirrorfield_init fresh) Hsh0
                 (unlinked_init fresh shaped_fresh)) as (_ & Hun & _).
Qed.

Lemma small_single_link : single_link small_linked 0.
Proof. apply (proj2 (reachable_keyed small_linked small_reachable)). simpl. lia. Qed.

Lemma small_traversed_NoDup : NoDup (alphabet small_traversed 0).
Proof. apply (bool_decide_unpack (NoDup (alphabet small_traversed 0))). by vm_compute. Qed.

Lemma letters_reachable : @reachable small letters_linked.
Proof.
  change letters_linked with
    (@mirrorfield_link small (@load small letters_config (@mirrorfield_init small (@fresh small)))).
  apply (@reachable_linked small); [simpl; lia|simpl; lia| |by vm_compute].
  apply (bool_decide_unpack (Forall (λ c, 0 ≤ c < 256) letters_config)). by vm_compute.
Qed.

Lemma twin_reachable : @reachable twin twin_linked.
Proof.
  change twin_linked with
    (@mirrorfield_link twin (@load twin twin_config (@mirrorfield_init twin (@fresh twin)))).
  apply (@reachable_linked twin); [simpl; lia|simpl; lia| |by vm_compute].
  apply (bool_decide_unpack (Forall (λ c, 0 ≤ c < 256) twin_config)). by vm_compute.
Qed.

Lemma twin_range k v : v ∈ alphabet twin_linked k → v < Z.of_nat (@GRID_SIZE twin * 4).
Proof.
  intros Hv. destruct k as [|[|k]];
    [change (alphabet twin_linked 0) with [0; 1; 2; 3; 4; 5; 6; 7] in Hv
    |change (alphabet twin_linked 1) with [3; 1; 7; 5; 0; 2; 4; 6] in Hv
    |change (alphabet twin_linked (S (S k))) with (@nil Z) in Hv];
    repeat (apply elem_of_cons in Hv as [->|Hv]; [simpl; lia|]); by apply elem_of_nil in Hv.
Qed.

(** ** The further theorems at these engines *)

Lemma load_layout_witness :
  @shaped small (@fresh small)
  ∧ set_i (@fresh small) = O
  ∧ length small_config = @key_bytes small
  ∧ (∀ p c, (p < @mirror_bytes small)%nat → small_config !! p = Some c →
            is_Some (mirror_code c))
  ∧ (∃ c, small_config !! 3%nat = Some c
          ∧ mirror_code c
              = Some (value_at (gridnodes (@load small small_config (@fresh small))) 0 3))
  ∧ small_config !! 9%nat
      = Some (value_at (perimeter (@load small small_config (@fresh small))) 0 5)
  ∧ set_i (@load small small_config (@fresh small)) = 12%nat
  ∧ (@mirrorfield_set small (@load small small_config (@fresh small)) 47).1 = 0.
Proof.
  assert (@shaped small (@fresh small)) as H1 by apply shaped_fresh.
  assert (set_i (@fresh small) = O) as H2 by reflexivity.
  assert (length small_config = @key_bytes small) as H3 by reflexivity.
  assert (∀ p c, (p < @mirror_bytes small)%nat → small_config !! p = Some c →
                 is_Some (mirror_code c)) as H4.
  { intros p c Hp Hc. unfold mirror_bytes in Hp. simpl in Hp.
    do 4 (destruct p as [|p]; [injection Hc as <-; by eexists|]). lia. }
  destruct (@load_layout small small_config (@fresh small) H1 H2 H3 H4)
    as (_ & Hcell & Hslot & _ & Hi & Href).
  split; [exact H1|]. split; [exact H2|]. split; [exact H3|]. split; [exact H4|].
  split; [exact (Hcell 0%nat 3%nat ltac:(simpl; lia) ltac:(simpl; lia))|].
  split; [exact (Hslot 0%nat 5%nat ltac:(simpl; lia) ltac:(simpl; lia))|].
  split; [exact Hi|]. exact (proj1 (Href 47)).
Defined.

Lemma refused_byte_skipped_witness :
  (@mirrorfield_set small (@load small [47] (@fresh small)) 10).1 = 0
  ∧ gridnodes (@load small ([47] ++ 10 :: [92]) (@fresh small))
      = gridnodes (@load small ([47] ++ [92]) (@fresh small))
  ∧ set_i (@load small ([47] ++ 10 :: [92]) (@fresh small)) = 2%nat.
Proof.
  assert ((@mirrorfield_set small (@load small [47] (@fresh small)) 10).1 = 0) as H1
    by reflexivity.
  destruct (@refused_byte_skipped small [47] 10 [92] (@fresh small) H1)
    as (Hg & _ & Hi & _).
  split; [exact H1|]. split; [exact Hg|]. rewrite Hi. reflexivity.
Defined.

Lemma unfinished_load_invalid_witness :
  (length [47; 92] < @mirror_bytes small)%nat
  ∧ @mirrorfield_validate small (@load small [47; 92] (@mirrorfield_init small (@fresh small))) = 0.
Proof.
  assert (length [47; 92] < @mirror_bytes small)%nat as H1
    by (unfold mirror_bytes; simpl; lia).
  split; [exact H1|].
  exact (@unfinished_load_invalid small [47; 92] (or_intror H1)).
Defined.

Lemma validate_accepts_iff_witness :
  @shaped small small_loaded
  ∧ @mirrorfield_validate small small_loaded = 1
  ∧ (∀ k, (k < @MIRROR_FIELD_COUNT small)%nat → NoDup (alphabet small_loaded k)).
Proof.
  assert (@shaped small small_loaded) as H1 by apply small_loaded_shaped.
  assert (@mirrorfield_validate small small_loaded = 1) as H2 by reflexivity.
  split; [exact H1|]. split; [exact H2|].
  exact (proj2 (proj1 (proj2 (@validate_accepts_iff small small_loaded H1)) H2)).
Defined.

Lemma link_topology_witness :
  @shaped small small_loaded
  ∧ unlinked small_loaded
  ∧ link_of (@mirrorfield_link small small_loaded) (GridNode 0 2) DIR_UP = GridNode 0 0
  ∧ link_of (@mirrorfield_link small small_loaded) (GridNode 0 2) DIR_DOWN = PerimNode 0 4
  ∧ link_of (@mirrorfield_link small small_loaded) (GridNode 0 2) DIR_LEFT = PerimNode 0 7
  ∧ link_of (@mirrorfield_link small small_loaded) (GridNode 0 2) DIR_RIGHT = GridNode 0 3
  ∧ (∀ d, link_of (@mirrorfield_link small small_loaded) (PerimNode 0 7) d =
          if decide (d = DIR_RIGHT) then GridNode 0 2 else NULL).
Proof.
  assert (@shaped small small_loaded) as H1 by apply small_loaded_shaped.
  assert (unlinked small_loaded) as H2 by apply small_loaded_unlinked.
  destruct (@link_topology small small_loaded 0 1 0 H1 H2
              ltac:(simpl; lia) ltac:(simpl; lia) ltac:(simpl; lia))
    as (Hup & Hdown & Hleft & Hright & _ & _ & _ & Hslot).
  split; [exact H1|]. split; [exact H2|].
  split; [exact Hup|]. split; [exact Hdown|]. split; [exact Hleft|].
  split; [exact Hright|]. exact Hslot.
Defined.

Lemma link_doubly_linked_witness :
  @shaped small small_loaded
  ∧ unlinked small_loaded
  ∧ @linked small (@mirrorfield_link small small_loaded) 0
  ∧ single_link (@mirrorfield_link small small_loaded) 0.
Proof.
  assert (@shaped small small_loaded) as H1 by apply small_loaded_shaped.
  assert (unlinked small_loaded) as H2 by apply small_loaded_unlinked.
  split; [exact H1|]. split; [exact H2|].
  exact (@link_doubly_linked small small_loaded 0 H1 H2 ltac:(simpl; lia)).
Defined.

Lemma link_keeps_values_witness :
  @shaped small small_loaded
  ∧ (∀ k, alphabet (@mirrorfield_link small small_loaded) k = alphabet small_loaded k)
  ∧ @mirrorfield_validate small (@mirrorfield_link small small_loaded)
      = @mirrorfield_validate small small_loaded.
Proof.
  assert (@shaped small small_loaded) as H1 by apply small_loaded_shaped.
  destruct (@link_keeps_values small small_loaded H1) as (_ & _ & _ & Ha & _ & Hv).
  split; [exact H1|]. split; [exact Ha|exact Hv].
Defined.

Lemma reachable_invariants_witness :
  @reachable twin twin_after
  ∧ @wellformed twin twin_after
  ∧ NoDup (alphabet twin_after 1)
  ∧ roll_g1 twin_after ≠ roll_g2 twin_after.
Proof.
  assert (@reachable twin twin_after) as H1.
  { assert (∀ fuel st bs cs st', @reachable twin st →
              @crypt_chars twin fuel st bs = Ok (cs, st') → @reachable twin st') as Hrun.
    { intros fuel st bs. revert st. induction bs as [|b bs IH]; intros st cs st' Hr Hc.
      - by injection Hc as <- <-.
      - apply crypt_chars_Ok in Hc as (c & st1 & cs' & st2 & Hc & Hcs & [= -> ->]).
        eapply IH; [|done]. by eapply reachable_crypt. }
    apply (Hrun 9%nat twin_linked [5; 2; 7] [3; 5; 5]); [apply twin_reachable|].
    reflexivity. }
  destruct (@reachable_invariants twin twin_after H1) as (Hwf & Hkey & Hg).
  split; [exact H1|]. split; [exact Hwf|].
  split; [exact (proj1 (Hkey 1%nat ltac:(simpl; lia)))|exact Hg].
Defined.

Lemma traversal_reversible_witness :
  @shaped small small_linked
  ∧ @linked small small_linked 0
  ∧ @field_values small small_linked 0
  ∧ link_of small_linked (PerimNode 0 5) DIR_UP ≠ NULL
  ∧ mirrorfield_crypt_char_advance 6 small_linked (PerimNode 0 5) DIR_UP
      = Ok (PerimNode 0 3, small_traversed)
  ∧ ∃ d', link_of small_linked (PerimNode 0 3) d' ≠ NULL
          ∧ mirrorfield_crypt_char_advance 6 small_linked (PerimNode 0 3) d'
              = Ok (PerimNode 0 5, small_traversed)
          ∧ path 6 small_linked (PerimNode 0 3) d'
              = rev (path 6 small_linked (PerimNode 0 5) DIR_UP).
Proof.
  assert (link_of small_linked (PerimNode 0 5) DIR_UP ≠ NULL) as H1 by (by vm_compute).
  assert (mirrorfield_crypt_char_advance 6 small_linked (PerimNode 0 5) DIR_UP
            = Ok (PerimNode 0 3, small_traversed)) as H2 by (vm_compute; reflexivity).
  split; [exact small_shaped|]. split; [exact small_linked_ok|].
  split; [exact small_field_values|]. split; [exact H1|]. split; [exact H2|].
  exact (@traversal_reversible small 6 small_linked 0 5 DIR_UP (PerimNode 0 3) small_traversed
           small_shaped small_linked_ok small_field_values ltac:(simpl; lia) H1 H2).
Defined.

Lemma exit_differs_from_entry_witness :
  single_link small_linked 0
  ∧ mirrorfield_crypt_char_advance 6 small_linked (PerimNode 0 5) DIR_UP
      = Ok (PerimNode 0 3, small_traversed)
  ∧ PerimNode 0 3 ≠ PerimNode 0 5.
Proof.
  assert (link_of small_linked (PerimNode 0 5) DIR_UP ≠ NULL) as H1 by (by vm_compute).
  assert (mirrorfield_crypt_char_advance 6 small_linked (PerimNode 0 5) DIR_UP
            = Ok (PerimNode 0 3, small_traversed)) as H2 by (vm_compute; reflexivity).
  split; [exact small_single_link|]. split; [exact H2|].
  exact (@exit_differs_from_entry small 6 small_linked 0 5 DIR_UP (PerimNode 0 3)
           small_traversed small_shaped small_linked_ok small_field_values
           small_single_link ltac:(simpl; lia) H1 H2).
Defined.

Lemma cell_entered_twice_at_most_witness :
  link_of small_linked (PerimNode 0 5) DIR_UP ≠ NULL
  ∧ passes (path 6 small_linked (PerimNode 0 5) DIR_UP) (GridNode 0 3) = 2%nat
  ∧ (passes (path 6 small_linked (PerimNode 0 5) DIR_UP) (GridNode 0 3) ≤ 2)%nat.
Proof.
  assert (link_of small_linked (PerimNode 0 5) DIR_UP ≠ NULL) as H1 by (by vm_compute).
  split; [exact H1|]. split; [reflexivity|].
  exact (@cell_entered_twice_at_most small 6 small_linked 0 5 DIR_UP (GridNode 0 3)
           small_linked_ok small_field_values ltac:(simpl; lia) H1).
Defined.

Lemma roll_symmetric_witness :
  NoDup (alphabet small_traversed 0)
  ∧ @mirrorfield_roll_chars small small_traversed 5 3 0 = Ok small_rolled
  ∧ @mirrorfield_roll_chars small small_traversed 3 5 0 = Ok small_rolled.
Proof.
  assert (@mirrorfield_roll_chars small small_traversed 5 3 0 = Ok small_rolled) as H1
    by (vm_compute; reflexivity).
  split; [exact small_traversed_NoDup|]. split; [exact H1|].
  exact (@roll_symmetric small small_traversed 5 3 0 small_rolled small_traversed_NoDup H1).
Defined.

Lemma roll_places_witness :
  @mirrorfield_roll_chars small small_traversed 5 3 0 = Ok small_rolled
  ∧ @rotate_order small_traversed 5 3 0 = Ok (5, 3)
  ∧ roll_g1 small_traversed = 0%nat ∧ roll_g2 small_traversed = 4%nat
  ∧ alphabet small_rolled 0 !! 0%nat = Some 5
  ∧ alphabet small_rolled 0 !! 4%nat = Some 3.
Proof.
  assert (@mirrorfield_roll_chars small small_traversed 5 3 0 = Ok small_rolled) as H1
    by (vm_compute; reflexivity).
  assert (@rotate_order small_traversed 5 3 0 = Ok (5, 3)) as H2 by (vm_compute; reflexivity).
  split; [exact H1|]. split; [exact H2|]. split; [reflexivity|]. split; [reflexivity|].
  exact (@roll_places small small_traversed 5 3 0 small_rolled 5 3 H1 H2
           ltac:(lia) ltac:(simpl; lia)).
Defined.

Lemma crypt_char_self_inverse_witness :
  @reachable small small_linked
  ∧ @mirrorfield_crypt_char small 6 small_linked 5 = Ok (3, small_after)
  ∧ @mirrorfield_crypt_char small 6 small_linked 3 = Ok (5, small_after).
Proof.
  assert (@mirrorfield_crypt_char small 6 small_linked 5 = Ok (3, small_after)) as H1
    by (vm_compute; reflexivity).
  split; [exact small_reachable|]. split; [exact H1|].
  exact (@crypt_char_self_inverse small 6 small_linked 5 3 small_after small_reachable H1).
Defined.

Lemma message_round_trip_witness :
  @reachable twin twin_linked
  ∧ @crypt_chars twin 9 twin_linked [5; 2; 7] = Ok ([3; 5; 5], twin_after)
  ∧ @crypt_chars twin 9 twin_linked [3; 5; 5] = Ok ([5; 2; 7], twin_after).
Proof.
  assert (@crypt_chars twin 9 twin_linked [5; 2; 7] = Ok ([3; 5; 5], twin_after)) as H1
    by (vm_compute; reflexivity).
  split; [exact twin_reachable|]. split; [exact H1|].
  exact (@message_round_trip twin 9 twin_linked [5; 2; 7] [3; 5; 5] twin_after
           twin_reachable H1).
Defined.

Lemma alphabet_closed_witness :
  @reachable twin twin_linked
  ∧ (∀ k v, v ∈ alphabet twin_linked k → v < Z.of_nat (@GRID_SIZE twin * 4))
  ∧ Forall (λ b, 0 ≤ b < Z.of_nat (@GRID_SIZE twin * 4)) [5; 2; 7]
  ∧ ∃ cs st',
      @crypt_chars twin (S (2 * (@GRID_SIZE twin * @GRID_SIZE twin))) twin_linked [5; 2; 7]
        = Ok (cs, st')
      ∧ length cs = length [5; 2; 7]
      ∧ Forall (λ c, 0 ≤ c < Z.of_nat (@GRID_SIZE twin * 4)) cs.
Proof.
  assert (Forall (λ b, 0 ≤ b < Z.of_nat (@GRID_SIZE twin * 4)) [5; 2; 7]) as H1
    by (repeat constructor; simpl; lia).
  split; [exact twin_reachable|]. split; [exact twin_range|]. split; [exact H1|].
  exact (@alphabet_closed twin twin_linked [5; 2; 7] twin_reachable twin_range H1).
Defined.

Lemma statics_after_calls_witness :
  @reachable twin twin_linked
  ∧ @crypt_chars twin 9 twin_linked [5; 2; 7] = Ok ([3; 5; 5], twin_after)
  ∧ crypt_m twin_after = 1%nat ∧ roll_c twin_after = 1%nat
  ∧ roll_g1 twin_after = 1%nat ∧ roll_g2 twin_after = 5%nat.
Proof.
  assert (@crypt_chars twin 9 twin_linked [5; 2; 7] = Ok ([3; 5; 5], twin_after)) as H1
    by (vm_compute; reflexivity).
  destruct (@statics_after_calls twin 9 twin_linked [5; 2; 7] [3; 5; 5] twin_after
              twin_reachable H1) as (_ & Hm & Hc & Hg1 & Hg2).
  split; [exact twin_reachable|]. split; [exact H1|].
  split; [exact Hm|]. split; [exact Hc|]. split; [exact Hg1|exact Hg2].
Defined.

Lemma crypt_char_frame_witness :
  @wellformed twin twin_linked
  ∧ @mirrorfield_crypt_char twin 9 twin_linked 5 = Ok (3, twin_first)
  ∧ (∀ q d, link_of twin_first q d = link_of twin_linked q d)
  ∧ (∀ q, @in_field twin 1 q → deref twin_first q = deref twin_linked q)
  ∧ set_i twin_first = set_i twin_linked.
Proof.
  assert (@wellformed twin twin_linked) as H1
    by exact (reachable_wellformed twin_linked twin_reachable).
  assert (@mirrorfield_crypt_char twin 9 twin_linked 5 = Ok (3, twin_first)) as H2
    by (vm_compute; reflexivity).
  destruct (@crypt_char_frame twin 9 twin_linked 5 3 twin_first H1 H2)
    as (Hlinks & Hother & Hi).
  split; [exact H1|]. split; [exact H2|]. split; [exact Hlinks|].
  split; [|exact Hi]. intros q. apply (Hother 1%nat q).
  intros Hk. vm_compute in Hk. discriminate.
Defined.

Lemma crypt_char_fills_window_witness :
  @reachable small small_linked
  ∧ @mirrorfield_crypt_char small 6 small_linked 5 = Ok (3, small_after)
  ∧ alphabet small_after 0 = [5; 1; 2; 4; 3; 0; 6; 7]
  ∧ ∃ ev x1 x2,
      ev ≠ 5 ∧ ev ∈ alphabet small_linked (crypt_m small_linked)
      ∧ (3 = 5 ∨ 3 = ev)
      ∧ ((x1, x2) = (5, ev) ∨ (x1, x2) = (ev, 5))
      ∧ alphabet small_after (crypt_m small_linked) !! roll_g1 small_linked = Some x1
      ∧ alphabet small_after (crypt_m small_linked) !! roll_g2 small_linked = Some x2.
Proof.
  assert (@mirrorfield_crypt_char small 6 small_linked 5 = Ok (3, small_after)) as H1
    by (vm_compute; reflexivity).
  split; [exact small_reachable|]. split; [exact H1|]. split; [reflexivity|].
  exact (@crypt_char_fills_window small 6 small_linked 5 3 small_after small_reachable H1).
Defined.

Lemma crypt_before_link_witness :
  @shaped small small_loaded
  ∧ unlinked small_loaded
  ∧ 5 ∈ alphabet small_loaded (crypt_m small_loaded)
  ∧ @mirrorfield_crypt_char small 6 small_loaded 5 = Fault Uninitialised.
Proof.
  assert (5 ∈ alphabet small_loaded (crypt_m small_loaded)) as H1.
  { apply (list_elem_of_lookup_2 _ 5%nat). reflexivity. }
  split; [exact small_loaded_shaped|]. split; [exact small_loaded_unlinked|].
  split; [exact H1|].
  exact (@crypt_before_link small 6 small_loaded 5 small_loaded_shaped
           ltac:(simpl; lia) small_loaded_unlinked H1).
Defined.

Lemma crypt_char_reads_out_of_bounds_witness :
  @wellformed small letters_linked
  ∧ @mirrorfield_validate small letters_linked = 1
  ∧ 65 ∈ alphabet letters_linked (crypt_m letters_linked)
  ∧ Z.of_nat (@GRID_SIZE small * 4) ≤ 65 < 256
  ∧ @mirrorfield_crypt_char small 9 letters_linked 65 = Fault OutOfBounds.
Proof.
  assert (@wellformed small letters_linked) as H1
    by exact (reachable_wellformed letters_linked letters_reachable).
  assert (65 ∈ alphabet letters_linked (crypt_m letters_linked)) as H2.
  { apply (list_elem_of_lookup_2 _ 0%nat). reflexivity. }
  assert (Z.of_nat (@GRID_SIZE small * 4) ≤ 65 < 256) as H3 by (simpl; lia).
  split; [exact H1|]. split; [reflexivity|]. split; [exact H2|]. split; [exact H3|].
  exact (@crypt_char_reads_out_of_bounds small 9 letters_linked 65 H1
           ltac:(simpl; lia) H2 H3).
Defined.

Lemma validate_loaded_witness :
  (length [47; 92; 92; 92; 1; 2; 3; 4; 5; 6; 7] < @key_bytes small)%nat
  ∧ (∀ p c, (p < @mirror_bytes small)%nat →
            [47; 92; 92; 92; 1; 2; 3; 4; 5; 6; 7] !! p = Some c → is_Some (mirror_code c))
  ∧ @mirrorfield_validate small
      (@load small [47; 92; 92; 92; 1; 2; 3; 4; 5; 6; 7] (@mirrorfield_init small (@fresh small)))
    = 1.
Proof.
  assert (length [47; 92; 92; 92; 1; 2; 3; 4; 5; 6; 7] < @key_bytes small)%nat as H0
    by (unfold key_bytes, mirror_bytes; simpl; lia).
  assert (∀ p c, (p < @mirror_bytes small)%nat →
            [47; 92; 92; 92; 1; 2; 3; 4; 5; 6; 7] !! p = Some c → is_Some (mirror_code c))
    as H2.
  { intros p c Hp Hc. unfold mirror_bytes in Hp. simpl in Hp.
    do 4 (destruct p as [|p]; [injection Hc as <-; by eexists|]). lia. }
  split; [exact H0|]. split; [exact H2|].
  apply (proj2 (@validate_loaded small [47; 92; 92; 92; 1; 2; 3; 4; 5; 6; 7]
                  (Nat.lt_le_incl _ _ H0) H2)).
  split; [unfold mirror_bytes; simpl; lia|].
  intros k Hk. destruct k as [|k]; [|simpl in Hk; lia].
  apply (bool_decide_unpack (NoDup _)). by vm_compute.
Defined.

Lemma crypt_char_injective_witness :
  @reachable small small_linked
  ∧ @mirrorfield_crypt_char small 6 small_linked 5 = Ok (3, small_after)
  ∧ @mirrorfield_crypt_char small 9 small_linked 5 = Ok (3, small_after)
  ∧ 5 = 5 ∧ small_after = small_after.
Proof.
  assert (@mirrorfield_crypt_char small 6 small_linked 5 = Ok (3, small_after)) as H1
    by (vm_compute; reflexivity).
  assert (@mirrorfield_crypt_char small 9 small_linked 5 = Ok (3, small_after)) as H2
    by (vm_compute; reflexivity).
  split; [exact small_reachable|]. split; [exact H1|]. split; [exact H2|].
  exact (@crypt_char_injective small 6 9 small_linked 5 5 3 small_after small_after
           small_reachable H1 H2).
Defined.


Lemma valid_key_round_trip_witness :
  (0 < @GRID_SIZE twin)%nat ∧ (0 < @MIRROR_FIELD_COUNT twin)%nat
  ∧ length twin_config = @key_bytes twin
  ∧ Forall (λ c, 0 ≤ c < 256) twin_config
  ∧ (∀ p c, (p < @mirror_bytes twin)%nat → twin_config !! p = Some c →
            is_Some (mirror_code c))
  ∧ (∀ p c, (@mirror_bytes twin ≤ p)%nat → twin_config !! p = Some c →
            c < Z.of_nat (@GRID_SIZE twin * 4))
  ∧ (∀ k, (k < @MIRROR_FIELD_COUNT twin)%nat →
       NoDup ((λ i, default 0
                      (twin_config !! (@mirror_bytes twin + k * (@GRID_SIZE twin * 4) + i)%nat))
                <$> seq 0 (@GRID_SIZE twin * 4)))
  ∧ Forall (λ b, 0 ≤ b < Z.of_nat (@GRID_SIZE twin * 4)) [5; 2; 7]
  ∧ @mirrorfield_validate twin
      (@load twin twin_config (@mirrorfield_init twin (@fresh twin))) = 1
  ∧ ∃ out st',
      @crypt_chars twin (S (2 * (@GRID_SIZE twin * @GRID_SIZE twin)))
        (@mirrorfield_link twin
           (@load twin twin_config (@mirrorfield_init twin (@fresh twin)))) [5; 2; 7]
      = Ok (out, st')
      ∧ @crypt_chars twin (S (2 * (@GRID_SIZE twin * @GRID_SIZE twin)))
          (@mirrorfield_link twin
             (@load twin twin_config (@mirrorfield_init twin (@fresh twin)))) out
        = Ok ([5; 2; 7], st').
Proof.
  assert (0 < @GRID_SIZE twin)%nat as H1 by (simpl; lia).
  assert (0 < @MIRROR_FIELD_COUNT twin)%nat as H2 by (simpl; lia).
  assert (length twin_config = @key_bytes twin) as H3 by reflexivity.
  assert (Forall (λ c, 0 ≤ c < 256) twin_config) as H4
    by (unfold twin_config; repeat constructor; lia).
  assert (∀ p c, (p < @mirror_bytes twin)%nat → twin_config !! p = Some c →
                 is_Some (mirror_code c)) as H5.
  { intros p c Hp Hc. unfold mirror_bytes in Hp. simpl in Hp.
    do 8 (destruct p as [|p]; [injection Hc as <-; by eexists|]). lia. }
  assert (∀ p c, (@mirror_bytes twin ≤ p)%nat → twin_config !! p = Some c →
                 c < Z.of_nat (@GRID_SIZE twin * 4)) as H6.
  { intros p c Hp Hc. unfold mirror_bytes in Hp. simpl in Hp.
    do 8 (destruct p as [|p]; [lia|]).
    do 16 (destruct p as [|p]; [injection Hc as <-; simpl; lia|]).
    discriminate Hc. }
  assert (∀ k, (k < @MIRROR_FIELD_COUNT twin)%nat →
            NoDup ((λ i, default 0
                      (twin_config !! (@mirror_bytes twin + k * (@GRID_SIZE twin * 4) + i)%nat))
                     <$> seq 0 (@GRID_SIZE twin * 4))) as H7.
  { intros k Hk. simpl in Hk.
    destruct k as [|[|k]]; [| |lia];
      apply (bool_decide_unpack (NoDup _)); by vm_compute. }
  assert (Forall (λ b, 0 ≤ b < Z.of_nat (@GRID_SIZE twin * 4)) [5; 2; 7]) as H8
    by (repeat constructor; simpl; lia).
  split; [exact H1|]. split; [exact H2|]. split; [exact H3|]. split; [exact H4|].
  split; [exact H5|]. split; [exact H6|]. split; [exact H7|]. split; [exact H8|].
  exact (@valid_key_round_trip twin twin_config [5; 2; 7] H1 H2 H3 H4 H5 H6 H7 H8).
Defined.

Lemma output_selection_witness :
  @reachable twin twin_linked
  ∧ (∀ k v, v ∈ alphabet twin_linked k → v < Z.of_nat (@GRID_SIZE twin * 4))
  ∧ 5 ∈ alphabet twin_linked (crypt_m twin_linked)
  ∧ (2 * (@GRID_SIZE twin * @GRID_SIZE twin) < 9)%nat
  ∧ @mirrorfield_crypt_char twin 9 twin_linked 5 = Ok (3, twin_first)
  ∧ ∃ rv st' i ns d j st1 ne st2 vk,
      let m := crypt_m twin_linked in
      let sv := 5 in
      let ev := value ne in
      let k := (ev + sv) mod Z.of_nat (@GRID_SIZE twin * 4) in
      @mirrorfield_crypt_char twin 9 twin_linked 5 = Ok (rv, st') ∧
      lookup2 (perimeter twin_linked) m i = Some ns ∧ value ns = sv ∧
      initial_direction ns = Ok d ∧
      mirrorfield_crypt_char_advance 9 twin_linked (PerimNode m i) d
        = Ok (PerimNode m j, st1) ∧
      lookup2 (perimeter st1) m j = Some ne ∧
      @mirrorfield_roll_chars twin st1 sv ev m = Ok st2 ∧
      perimeter_value st2 m k = Ok vk ∧
      rv = (if decide (vk = k) then sv else ev) ∧
      st' = with_crypt_m st2 ((m + 1) mod @MIRROR_FIELD_COUNT twin)%nat.
Proof.
  assert (5 ∈ alphabet twin_linked (crypt_m twin_linked)) as H1
    by (apply (bool_decide_unpack _); by vm_compute).
  assert (2 * (@GRID_SIZE twin * @GRID_SIZE twin) < 9)%nat as H2 by (simpl; lia).
  split; [exact twin_reachable|]. split; [exact twin_range|].
  split; [exact H1|]. split; [exact H2|].
  split; [vm_compute; reflexivity|].
  exact (@output_selection twin 9 twin_linked 5 twin_reachable twin_range H1 H2).
Defined.

(** With the letters A..H on the perimeter of the small engine, which
    validation accepts, the byte 65 is present and no call of cryptChar
    with it returns, whatever the recursion depth. *)
Example output_selection_above_range :
  @reachable small letters_linked
  ∧ @mirrorfield_validate small letters_linked = 1
  ∧ 65 ∈ alphabet letters_linked (crypt_m letters_linked)
  ∧ @mirrorfield_crypt_char small 6 letters_linked 65 = Fault OutOfBounds
  ∧ ∀ fuel rv st', @mirrorfield_crypt_char small fuel letters_linked 65 ≠ Ok (rv, st').
Proof.
  split; [exact letters_reachable|]. split; [done|].
  split; [apply (bool_decide_unpack _); by vm_compute|]. split; [done|].
  intros fuel rv st' Hcall.
  pose proof (@crypt_char_indexes small fuel letters_linked 65 rv st'
                (@reachable_wellformed small _ letters_reachable) ltac:(lia) Hcall) as Hlt.
  simpl in Hlt. lia.
Qed.

Lemma roll_window_cadence_witness :
  @shaped twin twin_linked
  ∧ (roll_g1 twin_linked < @GRID_SIZE twin * 4)%nat
  ∧ (roll_g2 twin_linked < @GRID_SIZE twin * 4)%nat
  ∧ (roll_c twin_linked < @MIRROR_FIELD_COUNT twin)%nat
  ∧ Forall (λ a, (a.2 < @MIRROR_FIELD_COUNT twin)%nat
                 ∧ a.1.1 ∈ alphabet twin_linked a.2 ∧ a.1.2 ∈ alphabet twin_linked a.2
                 ∧ 0 ≤ a.1.1 < Z.of_nat (@GRID_SIZE twin * 4)
                 ∧ 0 ≤ a.1.2 < Z.of_nat (@GRID_SIZE twin * 4))
      [(5, 3, 0%nat); (2, 5, 1%nat); (7, 1, 0%nat)]
  ∧ (1 < length [(5, 3, 0%nat); (2, 5, 1%nat); (7, 1, 0%nat)])%nat
  ∧ window twin_linked = (0%nat, 4%nat, 0%nat)
  ∧ window <$> @roll_calls twin twin_linked [(5, 3, 0%nat)] = Ok (0%nat, 4%nat, 1%nat)
  ∧ window <$> @roll_calls twin twin_linked [(5, 3, 0%nat); (2, 5, 1%nat)]
      = Ok (1%nat, 5%nat, 0%nat)
  ∧ window <$> @roll_calls twin twin_linked [(5, 3, 0%nat); (2, 5, 1%nat); (7, 1, 0%nat)]
      = Ok (1%nat, 5%nat, 1%nat)
  ∧ ∃ s e m stn stn',
      [(5, 3, 0%nat); (2, 5, 1%nat); (7, 1, 0%nat)] !! 1%nat = Some (s, e, m)
      ∧ @roll_calls twin twin_linked (take 1 [(5, 3, 0%nat); (2, 5, 1%nat); (7, 1, 0%nat)])
          = Ok stn
      ∧ @mirrorfield_roll_chars twin stn s e m = Ok stn'
      ∧ @roll_calls twin twin_linked (take 2 [(5, 3, 0%nat); (2, 5, 1%nat); (7, 1, 0%nat)])
          = Ok stn'
      ∧ window stn =
          (((roll_g1 twin_linked + (roll_c twin_linked + 1) / @MIRROR_FIELD_COUNT twin)
              mod (@GRID_SIZE twin * 4))%nat,
           ((roll_g2 twin_linked + (roll_c twin_linked + 1) / @MIRROR_FIELD_COUNT twin)
              mod (@GRID_SIZE twin * 4))%nat,
           ((roll_c twin_linked + 1) mod @MIRROR_FIELD_COUNT twin)%nat)
      ∧ roll_c stn' = ((roll_c twin_linked + 2) mod @MIRROR_FIELD_COUNT twin)%nat
      ∧ (if decide (((roll_c twin_linked + 2) mod @MIRROR_FIELD_COUNT twin)%nat = 0%nat)
         then roll_g1 stn' = ((roll_g1 stn + 1) mod (@GRID_SIZE twin * 4))%nat
              ∧ roll_g2 stn' = ((roll_g2 stn + 1) mod (@GRID_SIZE twin * 4))%nat
              ∧ roll_g1 stn' ≠ roll_g1 stn ∧ roll_g2 stn' ≠ roll_g2 stn
         else roll_g1 stn' = roll_g1 stn ∧ roll_g2 stn' = roll_g2 stn).
Proof.
  assert (@shaped twin twin_linked) as H1
    by exact (proj1 (@reachable_wellformed twin _ twin_reachable)).
  assert (roll_g1 twin_linked < @GRID_SIZE twin * 4)%nat as H2 by (simpl; lia).
  assert (roll_g2 twin_linked < @GRID_SIZE twin * 4)%nat as H3 by (simpl; lia).
  assert (roll_c twin_linked < @MIRROR_FIELD_COUNT twin)%nat as H4 by (simpl; lia).
  assert (Forall (λ a, (a.2 < @MIRROR_FIELD_COUNT twin)%nat
                 ∧ a.1.1 ∈ alphabet twin_linked a.2 ∧ a.1.2 ∈ alphabet twin_linked a.2
                 ∧ 0 ≤ a.1.1 < Z.of_nat (@GRID_SIZE twin * 4)
                 ∧ 0 ≤ a.1.2 < Z.of_nat (@GRID_SIZE twin * 4))
            [(5, 3, 0%nat); (2, 5, 1%nat); (7, 1, 0%nat)]) as H5.
  { repeat constructor; simpl; try lia;
      apply (bool_decide_unpack _); by vm_compute. }
  assert (1 < length [(5, 3, 0%nat); (2, 5, 1%nat); (7, 1, 0%nat)])%nat as H6
    by (simpl; lia).
  split; [exact H1|]. split; [exact H2|]. split; [exact H3|]. split; [exact H4|].
  split; [exact H5|]. split; [exact H6|].
  split; [reflexivity|]. split; [vm_compute; reflexivity|].
  split; [vm_compute; reflexivity|]. split; [vm_compute; reflexivity|].
  exact (@roll_window_cadence twin twin_linked
           [(5, 3, 0%nat); (2, 5, 1%nat); (7, 1, 0%nat)] 1 H1 H2 H3 H4 H5 H6).
Defined.

Lemma reflection_rule_witness :
  @linked small small_linked 0
  ∧ @field_values small small_linked 0
  ∧ (5 < @GRID_SIZE small * 4)%nat
  ∧ link_of small_linked (PerimNode 0 5) DIR_UP ≠ NULL
  ∧ value_of small_linked (GridNode 0 3) = MIRROR_BACKWARD
  ∧ value_of small_linked (GridNode 0 0) = MIRROR_FORWARD
  ∧ ∃ t st',
      mirrorfield_crypt_char_advance 9 small_linked (PerimNode 0 5) DIR_UP = Ok (t, st')
      ∧ t = PerimNode 0 3
      ∧ (∃ st1 n1,
           mirrorfield_crypt_char_advance 8 small_linked (GridNode 0 3) DIR_LEFT = Ok (t, st1)
           ∧ deref st1 (GridNode 0 3) = Ok n1
           ∧ mirrorfield_crypt_char_advance 9 small_linked (PerimNode 0 5) DIR_UP
               = Ok (t, update st1 (GridNode 0 3) (set_value (rotate (value n1)))))
      ∧ (∃ st1 n1,
           mirrorfield_crypt_char_advance 6 small_linked (GridNode 0 0) DIR_RIGHT = Ok (t, st1)
           ∧ deref st1 (GridNode 0 0) = Ok n1
           ∧ mirrorfield_crypt_char_advance 7 small_linked (GridNode 0 2) DIR_UP
               = Ok (t, update st1 (GridNode 0 0) (set_value (rotate (value n1))))).
Proof.
  assert (5 < @GRID_SIZE small * 4)%nat as H1 by (simpl; lia).
  assert (link_of small_linked (PerimNode 0 5) DIR_UP ≠ NULL) as H2 by done.
  split; [exact small_linked_ok|]. split; [exact small_field_values|].
  split; [exact H1|]. split; [exact H2|]. split; [reflexivity|]. split; [reflexivity|].
  destruct (@reflection_rule small small_linked 0 5 DIR_UP
              small_linked_ok small_field_values H1 H2) as (t & st' & Hfull & Hsteps).
  exists t, st'. split; [exact Hfull|]. split.
  { vm_compute in Hfull. by injection Hfull as <- _. }
  split.
  - destruct (Hsteps 0%nat (PerimNode 0 5) DIR_UP
                (mkNode (-4) (GridNode 0 1) (PerimNode 0 5) (GridNode 0 2) (PerimNode 0 3))
                eq_refl eq_refl ltac:(simpl; lia))
      as (d' & st1 & n1 & -> & _ & Hrec & Hn1 & Hcall).
    exists st1, n1. split; [exact Hrec|]. split; [exact Hn1|exact Hcall].
  - destruct (Hsteps 2%nat (GridNode 0 2) DIR_UP
                (mkNode (-2) (PerimNode 0 0) (GridNode 0 2) (PerimNode 0 6) (GridNode 0 1))
                eq_refl eq_refl ltac:(simpl; lia))
      as (d' & st1 & n1 & -> & _ & Hrec & Hn1 & Hcall).
    exists st1, n1. split; [exact Hrec|]. split; [exact Hn1|exact Hcall].
Defined.

Lemma draw_sides_witness :
  @reachable wide wide_linked
  ∧ (0 < @MIRROR_FIELD_COUNT wide)%nat
  ∧ (4 ≤ @GRID_SIZE wide)%nat
  ∧ take 5 <$> (fst <$> @mirrorfield_draw wide wide_linked false (GridNode 0 3) 0)
      = Ok [ClearScreen; CursorHome; PrintChar 32;
            PrintHex (value_at (perimeter wide_linked) 0 0);
            PrintHex (value_at (perimeter wide_linked) 0 1)]
  ∧ ∃ item : Z → Z → list emit,
      @mirrorfield_draw wide wide_linked false (GridNode 0 3) 0
        = Ok ([ClearScreen; CursorHome]
              ++ concat ((λ r, concat (item r <$> @draw_range wide) ++ [Newline])
                           <$> @draw_range wide)
              ++ [Newline] ++ [], true)
      ∧ item (-1) (-1) = [PrintChar 32]
      ∧ item (-1) (Z.of_nat (@GRID_SIZE wide)) = [PrintChar 32]
      ∧ item (Z.of_nat (@GRID_SIZE wide)) (-1) = [PrintChar 32]
      ∧ item (Z.of_nat (@GRID_SIZE wide)) (Z.of_nat (@GRID_SIZE wide)) = [PrintChar 32]
      ∧ ∀ r c, (r < @GRID_SIZE wide)%nat → (c < @GRID_SIZE wide)%nat →
          item (-1) (Z.of_nat c) = [PrintHex (value_at (perimeter wide_linked) 0 c)]
          ∧ item (Z.of_nat r) (Z.of_nat (@GRID_SIZE wide))
              = [PrintHex (value_at (perimeter wide_linked) 0 (r + @GRID_SIZE wide))]
          ∧ item (Z.of_nat r) (-1)
              = [PrintHex (value_at (perimeter wide_linked) 0 (r + @GRID_SIZE wide * 3))]
          ∧ item (Z.of_nat r) (Z.of_nat c)
              = (if decide (GridNode 0 3 = GridNode 0 (r * @GRID_SIZE wide + c))
                 then [FgBlack; BgWhite;
                       PrintChar (mirror_char
                         (value_at (gridnodes wide_linked) 0 (r * @GRID_SIZE wide + c)));
                       AttrReset]
                 else [PrintChar (mirror_char
                         (value_at (gridnodes wide_linked) 0 (r * @GRID_SIZE wide + c)))]).
Proof.
  assert (0 < @MIRROR_FIELD_COUNT wide)%nat as H1 by (simpl; lia).
  assert (4 ≤ @GRID_SIZE wide)%nat as H2 by (simpl; lia).
  split; [exact wide_reachable|]. split; [exact H1|]. split; [exact H2|].
  split; [vm_compute; reflexivity|].
  exact (@draw_sides wide wide_linked false (GridNode 0 3) 0 wide_reachable H1 H2).
Defined.
